(** * Footnote planning, text flow layout and PDF graph edits of the wiki exporter

    A shallow embedding of the pagination-aware assembly code of the
    exporter script ([buildFootnotePagePlan], [layoutFootnoteSegments],
    [resolveFootnoteLinkSpec], the page-offset vote and footer sizing step of
    [WikiExporter.savePdf], and the two footnote injection routines), with
    the properties of the design document stated and proved against it.

    Conventions.
    - A JavaScript string is the list of the characters its iterator yields
      (code points; a lone surrogate is its own character), each one an [N].
    - JavaScript numbers that the code only uses as counters, indices and page
      numbers are [Z]; lengths measured by the font and coordinates are exact
      rationals ([Q]), so floating-point rounding is not modelled.
    - [Map]s whose iteration order is never observed are [gmap]s; the offset
      tally, whose iteration order decides the vote, is an association list in
      insertion order.
    - Objects shared between an array and a [Map] (the footnote items of a page
      entry) live in the array; the maps hold their index. *)

From Stdlib Require Import ZArith NArith QArith Qround Qminmax Lia Lqa Bool Ascii String DecimalString.
From Stdlib Require DecimalPos DecimalZ.
From stdpp Require Import base option list gmap sorting.

(** ** Strings *)

Module JsString.

Definition jschar := N.
Definition jsstring := list N.

(** An ASCII literal of the source as a JavaScript string. *)
Definition js (s : string) : jsstring :=
  List.map N_of_ascii (list_ascii_of_string s).

(** [String(n)] for an integer [n] (plain decimal below 1e21). *)
Definition stringOfNumber (n : Z) : jsstring :=
  js (NilZero.string_of_int (Z.to_int n)).

(** The regular-expression class [\s], which is also what
    [String.prototype.trim] strips: white space and line terminators. *)
Definition isWhitespace (c : jschar) : bool :=
  ((9 <=? c) && (c <=? 13) || (c =? 32) || (c =? 160) || (c =? 5760)
   || (8192 <=? c) && (c <=? 8202) || (c =? 8232) || (c =? 8233)
   || (c =? 8239) || (c =? 8287) || (c =? 12288) || (c =? 65279))%N.

Fixpoint dropWhile (p : jschar -> bool) (s : jsstring) : jsstring :=
  match s with
  | [] => []
  | c :: r => if p c then dropWhile p r else s
  end.

Definition dropWhileEnd (p : jschar -> bool) (s : jsstring) : jsstring :=
  rev (dropWhile p (rev s)).

(** [s.replace(/^[\s\r\n]+/, '')] and [s.replace(/[\s\r\n]+$/, '')]. *)
Definition trimStart (s : jsstring) : jsstring := dropWhile isWhitespace s.
Definition trimEnd (s : jsstring) : jsstring := dropWhileEnd isWhitespace s.

(** [s.trim()]. *)
Definition trim (s : jsstring) : jsstring := trimEnd (trimStart s).

(** [s.replace(/\s+/g, ' ')]: every maximal run of white space becomes one
    space. *)
Fixpoint collapseWhitespace (inRun : bool) (s : jsstring) : jsstring :=
  match s with
  | [] => []
  | c :: r =>
      if isWhitespace c
      then (if inRun then collapseWhitespace true r
            else 32%N :: collapseWhitespace true r)
      else c :: collapseWhitespace false r
  end.

Fixpoint startsWith (prefix s : jsstring) : bool :=
  match prefix, s with
  | [], _ => true
  | p :: prefix', c :: s' => (p =? c)%N && startsWith prefix' s'
  | _ :: _, [] => false
  end.

(** [parts.join(sep)]. *)
Fixpoint join (sep : jsstring) (parts : list jsstring) : jsstring :=
  match parts with
  | [] => []
  | [p] => p
  | p :: rest => p ++ sep ++ join sep rest
  end.

(** Lower-casing of the ASCII letters; it agrees with
    [String.prototype.toLowerCase] on strings of ASCII characters and is the
    instance used to run the model on concrete inputs. *)
Definition asciiToLowerCase (s : jsstring) : jsstring :=
  List.map (fun c => if ((65 <=? c) && (c <=? 90))%N then (c + 32)%N else c) s.

End JsString.
Import JsString.

(** ** Token sanitising ([sanitizeFootnoteToken]) *)

Section Sanitize.

(** [String.prototype.toLowerCase]: the Unicode case tables belong to the
    runtime; nothing below depends on what it returns. *)
Variable toLowerCase : jsstring -> jsstring.

(** The class [[a-z0-9_-]]. *)
Definition isTokenChar (c : jschar) : bool :=
  ((97 <=? c) && (c <=? 122) || (48 <=? c) && (c <=? 57)
   || (c =? 95) || (c =? 45))%N.

Definition isDash (c : jschar) : bool := (c =? 45)%N.

(** [.replace(/[^a-z0-9_-]+/g, '-')]: a maximal run of characters outside
    the class becomes a single dash. *)
Fixpoint collapseUnsafe (inRun : bool) (s : jsstring) : jsstring :=
  match s with
  | [] => []
  | c :: r =>
      if isTokenChar c then c :: collapseUnsafe false r
      else if inRun then collapseUnsafe true r
           else 45%N :: collapseUnsafe true r
  end.

(** [.replace(/^-+|-+$/g, '')]. *)
Definition stripDashes (s : jsstring) : jsstring :=
  dropWhileEnd isDash (dropWhile isDash s).

Definition sanitizeFootnoteToken (value fallback : jsstring) : jsstring :=
  let source := toLowerCase (trim value) in
  let safe := take 48 (stripDashes (collapseUnsafe false source)) in
  match safe with
  | [] => fallback
  | _ => safe
  end.

End Sanitize.

(** ** Footnote definitions ([cloneFootnoteSegments], [buildFootnoteSegmentsKey]) *)

Record Segment := mkSegment {
  text : jsstring;
  href : option jsstring   (* [null] is [None] *)
}.

#[global] Instance Segment_eq_dec : EqDecision Segment.
Proof. solve_decision. Defined.

Definition setText (s : Segment) (t : jsstring) : Segment :=
  {| text := t; href := href s |}.

(** One step of the [prepared.forEach] that builds [normalized]: an empty
    text is skipped, a segment with the [href] of the last one kept is
    appended to it, any other is pushed. *)
Definition pushNormalized (normalized : list Segment) (segment : Segment)
  : list Segment :=
  match text segment with
  | [] => normalized
  | _ =>
      match last normalized with
      | Some l =>
          if decide (href l = href segment)
          then alter (fun l => setText l (text l ++ text segment))
                     (length normalized - 1)%nat normalized
          else normalized ++ [segment]
      | None => normalized ++ [segment]
      end
  end.

Definition cloneFootnoteSegments (segments : list Segment) : list Segment :=
  let prepared :=
    List.filter (fun s => negb (Nat.eqb (length (text s)) 0)) segments in
  match prepared with
  | [] => []
  | _ =>
      let prepared := alter (fun s => setText s (trimStart (text s))) 0%nat prepared in
      let lastIndex := (length prepared - 1)%nat in
      let prepared := alter (fun s => setText s (trimEnd (text s))) lastIndex prepared in
      fold_left pushNormalized prepared []
  end.

Definition buildFootnoteSegmentsKey (segments : list Segment) : jsstring :=
  let normalized := cloneFootnoteSegments segments in
  match normalized with
  | [] => js "__EMPTY__"
  | _ =>
      join (js "|")
        (List.map
           (fun segment =>
              let h := match href segment with Some h => trim h | None => [] end in
              let t := trim (collapseWhitespace false (text segment)) in
              h ++ js "::" ++ t)
           normalized)
  end.

(** ** Number labels ([formatFootnoteNumberLabel], [getFootnoteDisplayLabel]) *)

Definition formatFootnoteNumberLabel (numbers : list Z) : jsstring :=
  join (js ", ")
    (List.map stringOfNumber (List.filter (fun v => (0 <? v)%Z) numbers)).

(** ** The footnote plan builder ([buildFootnotePagePlan]) *)

Record FootnoteRef := mkRef {
  refIndex : option Z;      (* [None]: not a finite number *)
  refTargetId : jsstring
}.

(** A footnote item while the plan is being built. *)
Record FootnoteItem := mkItem {
  targetId : jsstring;
  targetIds : list jsstring;
  number : Z;
  numberLabel : jsstring;
  numbers : list Z;
  lastAssignedNumber : option Z;   (* [null] is [None] *)
  destName : jsstring;
  segments : list Segment
}.

(** The running state of one page. [byTargetId] and [byDefinitionKey] hold
    references to objects of [items]; a reference is the index of the object
    in [items] (items are only ever pushed, never removed or reordered). *)
Record PageEntry := mkEntry {
  entryPage : Z;
  items : list FootnoteItem;
  byTargetId : gmap jsstring nat;
  byDefinitionKey : gmap jsstring nat;
  nextNumber : Z
}.

Record RefUpdate := mkUpdate {
  updRefIndex : Z;
  newNumber : Z;
  newLabel : jsstring;
  updDestName : jsstring
}.

(** An item of the returned plan (a fresh object without
    [lastAssignedNumber]). *)
Record PlanItem := mkPlanItem {
  planTargetId : jsstring;
  planTargetIds : list jsstring;
  planNumber : Z;
  planNumberLabel : jsstring;
  planNumbers : list Z;
  planDestName : jsstring;
  planSegments : list Segment
}.

Record PagePlan := mkPagePlan {
  page : Z;
  planItems : list PlanItem
}.

Record PlanState := mkState {
  pages : gmap Z PageEntry;
  refUpdates : list RefUpdate;
  unresolvedRefs : list Z;
  destinationCounter : Z
}.

Record FootnotePlan := mkPlan {
  planPages : list PagePlan;
  planRefUpdates : list RefUpdate;
  planUnresolvedRefs : list Z
}.

Definition placeholderSegments : list Segment :=
  [ {| text := js "(footnote text unavailable)"; href := None |} ].

Section PlanBuilder.

Variable toLowerCase : jsstring -> jsstring.
Variable markerPages : gmap Z Z.
Variable definitionsById : gmap jsstring (list Segment).

(** [markerPages.get(ref.refIndex)] when it is truthy. *)
Definition markerPage (index : Z) : option Z :=
  match markerPages !! index with
  | Some p => if (p =? 0)%Z then None else Some p
  | None => None
  end.

(** The page a reference resolves to, if the loop body gets past its two
    early returns. *)
Definition resolvedPage (ref : FootnoteRef) : option Z :=
  match refIndex ref with
  | Some index => markerPage index
  | None => None
  end.

(** [hasDefinition]: the lookup gives a non-empty array. *)
Definition definitionOf (target : jsstring) : option (list Segment) :=
  match definitionsById !! target with
  | Some (s :: l) => Some (s :: l)
  | _ => None
  end.

Definition segmentsFor (target : jsstring) : list Segment :=
  match definitionOf target with
  | Some definitionSegments => cloneFootnoteSegments definitionSegments
  | None => placeholderSegments
  end.

Definition definitionGroupKey (target : jsstring) : option jsstring :=
  match definitionOf target with
  | Some _ =>
      Some (js "definition:" ++ buildFootnoteSegmentsKey (segmentsFor target))
  | None => None
  end.

(** [isContiguous] applied to the object a map lookup returned: the index of
    the item when it exists and was last given [assignedNumber - 1]. *)
Definition isContiguous (its : list FootnoteItem) (assignedNumber : Z)
    (found : option nat) : option nat :=
  match found with
  | Some idx =>
      match its !! idx with
      | Some item =>
          match lastAssignedNumber item with
          | Some l => if (l =? assignedNumber - 1)%Z then Some idx else None
          | None => None
          end
      | None => None
      end
  | None => None
  end.

(** The item to reuse, if any: first by target id, then by definition key. *)
Definition findReusable (entry : PageEntry) (assignedNumber : Z)
    (target : jsstring) : option nat :=
  match isContiguous (items entry) assignedNumber (byTargetId entry !! target) with
  | Some idx => Some idx
  | None =>
      match definitionGroupKey target with
      | Some key =>
          isContiguous (items entry) assignedNumber (byDefinitionKey entry !! key)
      | None => None
      end
  end.

Definition destNameFor (counter : Z) (safeTarget : jsstring) : jsstring :=
  js "export-footnote-" ++ stringOfNumber counter ++ js "-" ++ safeTarget.

Definition newItem (target : jsstring) (assignedNumber counter : Z)
  : FootnoteItem :=
  let safeTarget :=
    sanitizeFootnoteToken toLowerCase target
      (js "fn-" ++ stringOfNumber assignedNumber) in
  {| targetId := target;
     targetIds := [target];
     number := 0;
     numberLabel := [];
     numbers := [];
     lastAssignedNumber := None;
     destName := destNameFor counter safeTarget;
     segments := segmentsFor target |}.

(** The [else] branch: remember the target id on the reused item. *)
Definition addTargetId (target : jsstring) (item : FootnoteItem) : FootnoteItem :=
  {| targetId := targetId item;
     targetIds := if decide (target ∈ targetIds item) then targetIds item
                  else targetIds item ++ [target];
     number := number item;
     numberLabel := numberLabel item;
     numbers := numbers item;
     lastAssignedNumber := lastAssignedNumber item;
     destName := destName item;
     segments := segments item |}.

(** The four assignments after the branch. *)
Definition assignNumber (assignedNumber : Z) (item : FootnoteItem) : FootnoteItem :=
  let nums := numbers item ++ [assignedNumber] in
  {| targetId := targetId item;
     targetIds := targetIds item;
     number := default 0%Z (head nums);
     numberLabel := formatFootnoteNumberLabel nums;
     numbers := nums;
     lastAssignedNumber := Some assignedNumber;
     destName := destName item;
     segments := segments item |}.

Definition emptyEntry (p : Z) : PageEntry :=
  {| entryPage := p; items := []; byTargetId := ∅; byDefinitionKey := ∅;
     nextNumber := 1 |}.

(** The part of the loop body that works on the page entry: it returns the
    new entry, the new destination counter and the destination name of the
    item the reference was given. *)
Definition placeOnPage (entry : PageEntry) (counter : Z) (target : jsstring)
  : PageEntry * Z * jsstring :=
  let assignedNumber := nextNumber entry in
  let '(its, idx, counter') :=
    match findReusable entry assignedNumber target with
    | None =>
        let counter' := (counter + 1)%Z in
        (items entry ++ [newItem target assignedNumber counter'],
         length (items entry), counter')
    | Some idx => (alter (addTargetId target) idx (items entry), idx, counter)
    end in
  let its := alter (assignNumber assignedNumber) idx its in
  let byDef :=
    match definitionGroupKey target with
    | Some key => <[key := idx]> (byDefinitionKey entry)
    | None => byDefinitionKey entry
    end in
  ({| entryPage := entryPage entry;
      items := its;
      byTargetId := <[target := idx]> (byTargetId entry);
      byDefinitionKey := byDef;
      nextNumber := (assignedNumber + 1)%Z |},
   counter',
   match its !! idx with Some item => destName item | None => [] end).

(** The body of [footnoteRefs.forEach]. *)
Definition processRef (st : PlanState) (ref : FootnoteRef) : PlanState :=
  match refIndex ref with
  | None => st
  | Some index =>
      match markerPage index with
      | None =>
          {| pages := pages st;
             refUpdates := refUpdates st;
             unresolvedRefs := unresolvedRefs st ++ [index];
             destinationCounter := destinationCounter st |}
      | Some p =>
          let pageEntry := default (emptyEntry p) (pages st !! p) in
          let assignedNumber := nextNumber pageEntry in
          let '(pageEntry', counter', dest) :=
            placeOnPage pageEntry (destinationCounter st) (refTargetId ref) in
          {| pages := <[p := pageEntry']> (pages st);
             refUpdates := refUpdates st ++
               [ {| updRefIndex := index;
                    newNumber := assignedNumber;
                    newLabel := stringOfNumber assignedNumber;
                    updDestName := dest |} ];
             unresolvedRefs := unresolvedRefs st;
             destinationCounter := counter' |}
      end
  end.

Definition initialState : PlanState :=
  {| pages := ∅; refUpdates := []; unresolvedRefs := []; destinationCounter := 0 |}.

Definition runRefs (footnoteRefs : list FootnoteRef) : PlanState :=
  fold_left processRef footnoteRefs initialState.

Definition planItemOf (item : FootnoteItem) : PlanItem :=
  {| planTargetId := targetId item;
     planTargetIds := targetIds item;
     planNumber := number item;
     planNumberLabel :=
       match numberLabel item with
       | [] => formatFootnoteNumberLabel (numbers item)
       | l => l
       end;
     planNumbers := numbers item;
     planDestName := destName item;
     planSegments := cloneFootnoteSegments (segments item) |}.

Definition pagePlanOf (entry : PageEntry) : PagePlan :=
  {| page := entryPage entry; planItems := List.map planItemOf (items entry) |}.

(** [Array.from(pages.keys()).sort((a, b) => a - b).map(...)]. *)
Definition orderedPages (st : PlanState) : list PagePlan :=
  omap (fun p => pagePlanOf <$> (pages st !! p))
       (merge_sort Z.le (map_to_list (pages st)).*1).

Definition buildFootnotePagePlan (footnoteRefs : list FootnoteRef) : FootnotePlan :=
  let st := runRefs footnoteRefs in
  {| planPages := orderedPages st;
     planRefUpdates := refUpdates st;
     planUnresolvedRefs := unresolvedRefs st |}.

End PlanBuilder.

(** ** Display labels ([getFootnoteDisplayLabel]) *)

Definition getFootnoteDisplayLabel (item : PlanItem) : jsstring :=
  let rawLabel :=
    trim (match planNumberLabel item with
          | [] => if (planNumber item =? 0)%Z then []
                  else stringOfNumber (planNumber item)
          | l => l
          end) in
  match rawLabel with
  | [] => []
  | _ =>
      let explicitNumbers := List.filter (fun v => (0 <? v)%Z) (planNumbers item) in
      let isGroupedLabel :=
        (1 <? length explicitNumbers)%nat || existsb (fun c => (c =? 44)%N) rawLabel in
      if isGroupedLabel then rawLabel else rawLabel ++ js "."
  end.

(** ** Text flow layout ([tokenizeFootnoteText], [splitWordByWidth],
       [layoutFootnoteSegments]) *)

Inductive Token :=
| TextToken (t : jsstring)   (* [{ type: 'text', text }] *)
| SpaceToken                 (* [{ type: 'space', text: ' ' }] *)
| NewlineToken.              (* [{ type: 'newline' }] *)

Definition tokenText (token : Token) : jsstring :=
  match token with
  | TextToken t => t
  | SpaceToken => [32%N]
  | NewlineToken => []
  end.

(** [.replace(/\r\n/g, '\n')] *)
Fixpoint replaceCRLF (s : jsstring) : jsstring :=
  match s with
  | [] => []
  | c :: r =>
      if (c =? 13)%N then
        match r with
        | d :: r' => if (d =? 10)%N then 10%N :: replaceCRLF r' else c :: replaceCRLF r
        | [] => [c]
        end
      else c :: replaceCRLF r
  end.

(** [.replace(/\r/g, '\n').replace(/ /g, ' ')] after [replaceCRLF]. *)
Definition normalizeText (s : jsstring) : jsstring :=
  List.map (fun c => if (c =? 160)%N then 32%N else c)
    (List.map (fun c => if (c =? 13)%N then 10%N else c) (replaceCRLF s)).

(** The closure [flush] on the pair (tokens, buffer). *)
Definition flush (st : list Token * jsstring) : list Token * jsstring :=
  match snd st with
  | [] => st
  | buffer => (fst st ++ [TextToken buffer], [])
  end.

Definition tokenizeChar (st : list Token * jsstring) (char : jschar)
  : list Token * jsstring :=
  if (char =? 10)%N then
    let st := flush st in (fst st ++ [NewlineToken], snd st)
  else if isWhitespace char then
    let st := flush st in
    match last (fst st) with
    | Some SpaceToken => st
    | _ => (fst st ++ [SpaceToken], snd st)
    end
  else (fst st, snd st ++ [char]).

Definition tokenizeFootnoteText (t : jsstring) : list Token :=
  fst (flush (fold_left tokenizeChar (normalizeText t) ([], []))).

Definition Qgtb (x y : Q) : bool := negb (Qle_bool x y).

Record Fragment := mkFragment {
  fragText : jsstring;
  fragHref : option jsstring;
  width : Q;
  isSpace : bool
}.

Record LayoutState := mkLayout {
  lines : list (list Fragment);
  currentLine : list Fragment;
  currentWidth : Q
}.

Section TextFlow.

(** [font.widthOfTextAtSize(text, fontSizePt)] for the font and size of the
    call. *)
Variable widthOfText : jsstring -> Q.
Variable maxWidthPt : Q.

Definition splitGlyph (st : list jsstring * jsstring) (glyph : jschar)
  : list jsstring * jsstring :=
  let '(parts, chunk) := st in
  let candidate := chunk ++ [glyph] in
  let candidateWidth := widthOfText candidate in
  match chunk with
  | _ :: _ =>
      if Qgtb candidateWidth maxWidthPt then (parts ++ [chunk], [glyph])
      else (parts, candidate)
  | [] => (parts, candidate)
  end.

Definition splitWordByWidth (word : jsstring) : list jsstring :=
  let '(parts, chunk) := fold_left splitGlyph word ([], []) in
  match chunk with
  | [] => parts
  | _ => parts ++ [chunk]
  end.

(** The [while] loop of [trimTrailingSpaces] on the line read from its end. *)
Fixpoint popSpaces (reversed : list Fragment) (w : Q) : list Fragment * Q :=
  match reversed with
  | tail :: rest =>
      if isSpace tail then popSpaces rest (w - width tail)%Q else (reversed, w)
  | [] => ([], w)
  end.

Definition trimTrailingSpaces (st : LayoutState) : LayoutState :=
  let '(reversed, w) := popSpaces (rev (currentLine st)) (currentWidth st) in
  {| lines := lines st; currentLine := rev reversed; currentWidth := w |}.

Definition commitLine (allowEmpty : bool) (st : LayoutState) : LayoutState :=
  let st := trimTrailingSpaces st in
  {| lines := if allowEmpty || (0 <? length (currentLine st))%nat
              then lines st ++ [currentLine st] else lines st;
     currentLine := [];
     currentWidth := 0 |}.

(** [href || null] *)
Definition hrefOrNull (h : option jsstring) : option jsstring :=
  match h with
  | Some [] => None
  | _ => h
  end.

Definition appendFragment (t : jsstring) (h : option jsstring) (space : bool)
    (st : LayoutState) : LayoutState :=
  match t with
  | [] => st
  | _ =>
      let w := widthOfText t in
      if Qle_bool w 0 then st
      else
        let pushed :=
          {| lines := lines st;
             currentLine := currentLine st ++
               [ {| fragText := t; fragHref := hrefOrNull h; width := w;
                    isSpace := space |} ];
             currentWidth := (currentWidth st + w)%Q |} in
        match last (currentLine st) with
        | Some l =>
            if bool_decide (fragHref l = hrefOrNull h) && eqb (isSpace l) space
            then
              {| lines := lines st;
                 currentLine :=
                   alter (fun l => {| fragText := fragText l ++ t;
                                      fragHref := fragHref l;
                                      width := (width l + w)%Q;
                                      isSpace := isSpace l |})
                         (length (currentLine st) - 1)%nat (currentLine st);
                 currentWidth := (currentWidth st + w)%Q |}
            else pushed
        | None => pushed
        end
  end.

(** [chunks.forEach((chunk, index) => ...)]; [index < chunks.length - 1]
    holds exactly when chunks remain. *)
Fixpoint placeChunks (h : option jsstring) (chunks : list jsstring)
    (st : LayoutState) : LayoutState :=
  match chunks with
  | [] => st
  | chunk :: rest =>
      let chunkWidth := widthOfText chunk in
      let st :=
        if Qgtb (currentWidth st) 0
           && Qgtb (currentWidth st + chunkWidth) maxWidthPt
        then commitLine false st else st in
      let st := appendFragment chunk h false st in
      let st := match rest with [] => st | _ => commitLine false st end in
      placeChunks h rest st
  end.

Definition layoutToken (h : option jsstring) (st : LayoutState) (token : Token)
  : LayoutState :=
  match token with
  | NewlineToken => commitLine true st
  | _ =>
      let t := tokenText token in
      let space := match token with SpaceToken => true | _ => false end in
      match t with
      | [] => st
      | _ =>
          if space && Qle_bool (currentWidth st) 0 then st
          else
            let w := widthOfText t in
            if negb space && Qgtb w maxWidthPt then
              placeChunks h (splitWordByWidth t) st
            else if Qgtb (currentWidth st) 0
                    && Qgtb (currentWidth st + w) maxWidthPt
            then
              let st := commitLine false st in
              if space then st else appendFragment t h space st
            else appendFragment t h space st
      end
  end.

Definition layoutSegment (st : LayoutState) (segment : Segment) : LayoutState :=
  fold_left (layoutToken (href segment)) (tokenizeFootnoteText (text segment)) st.

Definition layoutFootnoteSegments (segs : list Segment) : list (list Fragment) :=
  let st := fold_left layoutSegment segs
              {| lines := []; currentLine := []; currentWidth := 0 |} in
  let st := trimTrailingSpaces st in
  let ls := match currentLine st with
            | [] => lines st
            | _ => lines st ++ [currentLine st]
            end in
  match ls with
  | [] => [[]]
  | _ => ls
  end.

Record ItemLayout := mkItemLayout {
  layoutItem : PlanItem;
  layoutLines : list (list Fragment);
  heightPt : Q
}.

Definition layoutFootnotesForPage (its : list PlanItem) (lineHeightPt itemGapPt : Q)
  : list ItemLayout * Q :=
  let itemLayouts :=
    List.map
      (fun item =>
         let itemLabel := getFootnoteDisplayLabel item in
         let segs := {| text := itemLabel ++ js " "; href := None |}
                     :: cloneFootnoteSegments (planSegments item) in
         let ls := layoutFootnoteSegments segs in
         {| layoutItem := item; layoutLines := ls;
            heightPt := (inject_Z (Z.of_nat (length ls)) * lineHeightPt)%Q |})
      its in
  let totalHeightPt :=
    fold_left
      (fun acc il =>
         let '(total, index) := acc in
         let total := (total + heightPt il)%Q in
         let total := if (index <? length itemLayouts - 1)%nat
                      then (total + itemGapPt)%Q else total in
         (total, S index))
      itemLayouts (0%Q, 0%nat) in
  (itemLayouts, fst totalHeightPt).

End TextFlow.

(** ** Link targets ([safeDecodeURIComponent], [resolveFootnoteLinkSpec]) *)

Inductive LinkSpec :=
| InternalLink (destName : jsstring)   (* [{ type: 'internal', destName }] *)
| ExternalLink (href : jsstring).      (* [{ type: 'external', href }] *)

(** The outcome of a call that may throw. *)
Inductive Completion (A : Type) :=
| Returned (a : A)
| Thrown.
Arguments Returned {A} a.
Arguments Thrown {A}.

Definition bindCompletion {A B} (c : Completion A) (k : A -> Completion B)
  : Completion B :=
  match c with
  | Returned a => k a
  | Thrown => Thrown
  end.

Notation "'let!' x ':=' c 'in' k" := (bindCompletion c (fun x => k))
  (at level 10, x pattern, c at level 100, k at level 200).

(** [Array.from(new Set(values))]: first occurrences, in order. *)
Definition uniqueInOrder (values : list jsstring) : list jsstring :=
  fold_left (fun seen v => if bool_decide (v ∈ seen) then seen else seen ++ [v])
            values [].

(** [/^[a-z][a-z0-9+.-]*:/i] *)
Definition isAsciiLetter (c : jschar) : bool :=
  ((97 <=? c) && (c <=? 122) || (65 <=? c) && (c <=? 90))%N.

Definition isSchemeChar (c : jschar) : bool :=
  (isAsciiLetter c || (48 <=? c) && (c <=? 57)
   || (c =? 43) || (c =? 46) || (c =? 45))%N.

Fixpoint schemeRest (s : jsstring) : bool :=
  match s with
  | [] => false
  | c :: r => if (c =? 58)%N then true
              else if isSchemeChar c then schemeRest r else false
  end.

Definition hasScheme (raw : jsstring) : bool :=
  match raw with
  | c :: r => isAsciiLetter c && schemeRest r
  | [] => false
  end.

Section LinkSpecs.

(** [decodeURIComponent] and [encodeURIComponent] of the runtime; [None]
    stands for the [URIError] either may throw. *)
Variable decodeURIComponent : jsstring -> option jsstring.
Variable encodeURIComponent : jsstring -> option jsstring.

Definition safeDecodeURIComponent (value : jsstring) : jsstring :=
  match decodeURIComponent value with
  | Some decoded => decoded
  | None => value
  end.

Definition resolveFootnoteLinkSpec (href : jsstring)
    (existingDestinationNames : gset jsstring) : Completion (option LinkSpec) :=
  let raw := trim href in
  match raw with
  | [] => Returned None
  | _ =>
      if startsWith (js "#") raw then
        let rawHash := drop 1 raw in
        match rawHash with
        | [] => Returned None
        | _ =>
            let decoded := safeDecodeURIComponent rawHash in
            match encodeURIComponent decoded with
            | None => Thrown
            | Some encodedDecoded =>
                let candidates :=
                  List.filter (fun v => negb (Nat.eqb (length v) 0))
                    (List.map trim [rawHash; decoded; encodedDecoded]) in
                let uniqueCandidates := uniqueInOrder candidates in
                let preferred :=
                  match List.find
                          (fun candidate =>
                             bool_decide (candidate ∈ existingDestinationNames))
                          uniqueCandidates with
                  | Some candidate => Some candidate
                  | None => head uniqueCandidates
                  end in
                Returned (InternalLink <$> preferred)
            end
        end
      else if hasScheme raw || startsWith (js "/") raw then
        Returned (Some (ExternalLink raw))
      else Returned None
  end.

End LinkSpecs.

(** ** The page-offset vote of [savePdf] *)

(** A [Map] from delta to count whose iteration order is observed: the pairs
    in insertion order. *)
Definition OffsetCounts := list (Z * Z).

Fixpoint countsGet (counts : OffsetCounts) (delta : Z) : option Z :=
  match counts with
  | [] => None
  | (d, c) :: rest => if (d =? delta)%Z then Some c else countsGet rest delta
  end.

(** [Map.prototype.set]: an existing key keeps its position. *)
Fixpoint countsSet (counts : OffsetCounts) (delta count : Z) : OffsetCounts :=
  match counts with
  | [] => [(delta, count)]
  | (d, c) :: rest =>
      if (d =? delta)%Z then (d, count) :: rest
      else (d, c) :: countsSet rest delta count
  end.

(** A marker page when the lookup is truthy. *)
Definition truthyPage (m : gmap Z Z) (index : Z) : option Z :=
  match m !! index with
  | Some p => if (p =? 0)%Z then None else Some p
  | None => None
  end.

(** The body of the two tally loops: nothing is counted unless the anchor is
    resolved in both renders. *)
Definition tallyAnchor (contentPages probePages : gmap Z Z)
    (counts : OffsetCounts) (index : Z) : OffsetCounts :=
  match truthyPage contentPages index, truthyPage probePages index with
  | Some contentPage, Some probePage =>
      let delta := (probePage - contentPage)%Z in
      countsSet counts delta (default 0%Z (countsGet counts delta) + 1)%Z
  | _, _ => counts
  end.

(** The [offsetCounts.forEach] that picks the offset, started from
    [(topCount, computedOffset) = (0, initial)]. *)
Definition pickOffset (initial : Z) (counts : OffsetCounts) : Z :=
  snd (fold_left
         (fun acc entry =>
            let '(topCount, computedOffset) := acc in
            let '(delta, count) := entry in
            if (count >? topCount)%Z then (count, delta) else acc)
         counts (0%Z, initial)).

(** Lines 4447-4463: the vote over the table-of-contents anchors. *)
Definition computeTocOffset (tocPageCount : Z) (tocIndices : list Z)
    (markerPages probeMarkerPages : gmap Z Z) : Z :=
  pickOffset tocPageCount
    (fold_left (tallyAnchor markerPages probeMarkerPages) tocIndices []).

(** Lines 4483-4500: the vote over the footnote references; it starts from
    the offset the first vote computed. *)
Definition computeFootnoteOffset (computedOffset : Z) (footnoteRefs : list FootnoteRef)
    (latestContentFootnoteMarkerPages probeFootnoteMarkerPages : gmap Z Z) : Z :=
  pickOffset computedOffset
    (fold_left
       (fun counts ref =>
          match refIndex ref with
          | Some index =>
              tallyAnchor latestContentFootnoteMarkerPages
                          probeFootnoteMarkerPages counts index
          | None => counts
          end)
       footnoteRefs []).

(** A plan shifted to the pages of the final document
    ([shiftFootnotePlansByOffset]). *)
Record FinalPlan := mkFinalPlan {
  finalPage : Z;
  finalItems : list PlanItem
}.

Definition shiftFootnotePlansByOffset (pagePlans : list PagePlan) (pageOffset : Z)
  : list FinalPlan :=
  List.map
    (fun plan =>
       {| finalPage := (page plan + pageOffset)%Z;
          finalItems :=
            List.map
              (fun item =>
                 {| planTargetId := planTargetId item;
                    planTargetIds := planTargetIds item;
                    planNumber := planNumber item;
                    planNumberLabel := planNumberLabel item;
                    planNumbers := planNumbers item;
                    planDestName := planDestName item;
                    planSegments := cloneFootnoteSegments (planSegments item) |})
              (planItems plan) |})
    pagePlans.

(** ** The footer sizing step of [savePdf] (lines 4058-4120) *)

(** What the step asks of the browser, in order; kept as a log so that the
    number of render cycles and margin changes can be counted. *)
Inductive SizingEvent :=
| RenderContent (bottomMarginMm : Q)
| ComputePlan
| ApplyRefUpdates
| EstimateArea
| ExpandFooter (footnoteAreaMm : Q).

Record SizingState (World : Type) := mkSizing {
  world : World;
  footnoteAreaMm : Q;
  bottomMarginMm : Q;
  activeFootnotePlan : FootnotePlan;
  latestContentFootnoteMarkerPages : gmap Z Z;
  eventLog : list SizingEvent
}.
Arguments world {World} _.
Arguments footnoteAreaMm {World} _.
Arguments bottomMarginMm {World} _.
Arguments activeFootnotePlan {World} _.
Arguments latestContentFootnoteMarkerPages {World} _.
Arguments eventLog {World} _.
Arguments mkSizing {World}.

Definition footnoteMinAreaMm : Q := 25.
Definition pageNumberBandMm : Q := 6.

Section FooterSizing.

(** The browser page together with the content PDF on disk, and the calls
    the step makes on them. *)
Variable World : Type.
Variable renderContentPdfWithTableBreaks : Q -> World -> World.
Variable extractFootnoteMarkerPages : World -> gmap Z Z.
Variable applyFootnoteRefUpdates : list RefUpdate -> World -> World.
Variable estimateFootnoteAreaMmInBrowser : World -> list PagePlan -> Q.
Variable setDynamicPageMargins : Q -> World -> World.

Variable toLowerCase : jsstring -> jsstring.
Variable footnoteRefs : list FootnoteRef.
Variable footnoteDefinitionsById : gmap jsstring (list Segment).

Definition renderStep (st : SizingState World) : SizingState World :=
  {| world := renderContentPdfWithTableBreaks (bottomMarginMm st) (world st);
     footnoteAreaMm := footnoteAreaMm st;
     bottomMarginMm := bottomMarginMm st;
     activeFootnotePlan := activeFootnotePlan st;
     latestContentFootnoteMarkerPages := latestContentFootnoteMarkerPages st;
     eventLog := eventLog st ++ [RenderContent (bottomMarginMm st)] |}.

(** [activeFootnotePlan = await computeFootnotePlan();
     await applyFootnoteRefUpdates(activeFootnotePlan.refUpdates);] *)
Definition computeAndApply (st : SizingState World) : SizingState World :=
  let footnoteRefPages := extractFootnoteMarkerPages (world st) in
  let plan := buildFootnotePagePlan toLowerCase footnoteRefPages
                footnoteDefinitionsById footnoteRefs in
  {| world := applyFootnoteRefUpdates (planRefUpdates plan) (world st);
     footnoteAreaMm := footnoteAreaMm st;
     bottomMarginMm := bottomMarginMm st;
     activeFootnotePlan := plan;
     latestContentFootnoteMarkerPages := footnoteRefPages;
     eventLog := eventLog st ++ [ComputePlan; ApplyRefUpdates] |}.

(** Three recompute cycles; the first render is the one already pending. *)
Definition threeCycles (st : SizingState World) : SizingState World :=
  computeAndApply
    (renderStep (computeAndApply (renderStep (computeAndApply (renderStep st))))).

Definition estimate (st : SizingState World) : Q * SizingState World :=
  (estimateFootnoteAreaMmInBrowser (world st) (planPages (activeFootnotePlan st)),
   {| world := world st;
      footnoteAreaMm := footnoteAreaMm st;
      bottomMarginMm := bottomMarginMm st;
      activeFootnotePlan := activeFootnotePlan st;
      latestContentFootnoteMarkerPages := latestContentFootnoteMarkerPages st;
      eventLog := eventLog st ++ [EstimateArea] |}).

(** [footnoteAreaMm = Math.ceil(estimated.maxRequiredMm + 1);
     applyPdfMarginState(); await setDynamicPageMargins(...)] *)
Definition expandFooter (maxRequiredMm : Q) (st : SizingState World)
  : SizingState World :=
  let area := inject_Z (Qceiling (maxRequiredMm + 1)) in
  let margin := (area + pageNumberBandMm)%Q in
  {| world := setDynamicPageMargins margin (world st);
     footnoteAreaMm := area;
     bottomMarginMm := margin;
     activeFootnotePlan := activeFootnotePlan st;
     latestContentFootnoteMarkerPages := latestContentFootnoteMarkerPages st;
     eventLog := eventLog st ++ [ExpandFooter area] |}.

Definition initialSizing (w : World) : SizingState World :=
  {| world := w;
     footnoteAreaMm := footnoteMinAreaMm;
     bottomMarginMm := (footnoteMinAreaMm + pageNumberBandMm)%Q;
     activeFootnotePlan :=
       {| planPages := []; planRefUpdates := []; planUnresolvedRefs := [] |};
     latestContentFootnoteMarkerPages := ∅;
     eventLog := [] |}.

Definition hasFootnotes : bool :=
  (0 <? length footnoteRefs)%nat && negb (bool_decide (footnoteDefinitionsById = ∅)).

Definition footerSizing (w : World) : SizingState World :=
  let st := initialSizing w in
  if hasFootnotes then
    let st := threeCycles st in
    let '(maxRequiredMm, st) := estimate st in
    if Qgtb maxRequiredMm (footnoteAreaMm st + (25 # 100)) then
      let st := expandFooter maxRequiredMm st in
      let st := threeCycles st in
      snd (estimate st)
    else st
  else renderStep st.

End FooterSizing.

(** ** The output document and its edits
       ([ensurePdfDestinationsDict], [setPdfNamedDestination],
        [addPdfLinkAnnotation], [injectFootnotesIntoPdf],
        [injectFootnotesOverlayIntoPdf]) *)

Inductive DrawOp :=
| DrawLine (x1 y1 x2 y2 : Q)
| DrawText (t : jsstring) (x y : Q)
| DrawPage (overlayPageIndex : nat).

Inductive LinkAction :=
| UriAction (uri : jsstring)
| NamedDest (name : jsstring).

Record Annotation := mkAnnotation {
  annotRect : Q * Q * Q * Q;
  annotAction : LinkAction;
  annotParent : option nat        (* the [P] entry, a page reference *)
}.

Record PdfPage := mkPage {
  pageWidth : Q;
  pageHeight : Q;
  pageContent : list DrawOp;
  pageAnnots : option (list Annotation)   (* [None]: no [Annots] entry *)
}.

(** [[page.ref, /XYZ, x, y, 0]] *)
Record Destination := mkDestination {
  destPageRef : nat;
  destX : Q;
  destY : Q
}.

(** The pages and the [Dests] dictionary of the catalog ([None]: no entry).
    A page reference is the index of the page; a PDF name is its text. *)
Record PdfDoc := mkDoc {
  docPages : list PdfPage;
  docDests : option (gmap jsstring Destination)
}.

Record InjectOptions := mkOptions {
  leftMarginMm : Q;
  rightMarginMm : Q;
  optBottomMarginMm : Q;
  optPageNumberBandMm : Q;
  fontSizePt : Q;
  lineHeightMultiplier : Q;
  itemGapPt : Q;
  topPaddingPt : Q;
  bottomPaddingPt : Q
}.

(** One entry of [overlayDestinationCoordinates]. *)
Record OverlayDestination := mkOverlayDestination {
  overlayDestName : jsstring;
  overlayPageNumber : Z;
  overlayXPt : Q;
  yFromTopPt : Q
}.

Definition MM_TO_PT : Q := 72 / (254 # 10).

Definition mmToPt (mmValue : Q) : Q := mmValue * MM_TO_PT.

Definition getPdfNameOrNull (name : jsstring) : option jsstring :=
  match trim name with
  | [] => None
  | raw => Some raw
  end.

Definition ensurePdfDestinationsDict (doc : PdfDoc) : gmap jsstring Destination :=
  default ∅ (docDests doc).

Definition collectExistingDestinationNames (doc : PdfDoc) : gset jsstring :=
  match docDests doc with
  | Some dests => dom dests ∖ {[ [] ]}
  | None => ∅
  end.

Definition ensurePdfPageAnnotationsArray (p : PdfPage) : list Annotation :=
  default [] (pageAnnots p).

(** The PDF library normalises the dictionary of a page before the first
    drawing on it ([PDFPageLeaf.normalize]); among other things a page
    without an [Annots] entry is given an empty array. *)
Definition normalizePage (p : PdfPage) : PdfPage :=
  {| pageWidth := pageWidth p; pageHeight := pageHeight p;
     pageContent := pageContent p;
     pageAnnots := Some (ensurePdfPageAnnotationsArray p) |}.

(** A drawing operator is appended to the content of a page. *)
Definition drawOn (p : PdfPage) (op : DrawOp) : PdfPage :=
  {| pageWidth := pageWidth p; pageHeight := pageHeight p;
     pageContent := pageContent p ++ [op]; pageAnnots := pageAnnots p |}.

(** The first drawing call on a page ([page.drawLine] of the direct drawing,
    [basePage.drawPage] of the overlay path): the page is normalised, then
    the operator is appended. *)
Definition drawFirstOn (p : PdfPage) (op : DrawOp) : PdfPage :=
  drawOn (normalizePage p) op.

Definition pushAnnotation (p : PdfPage) (a : Annotation) : PdfPage :=
  {| pageWidth := pageWidth p; pageHeight := pageHeight p;
     pageContent := pageContent p;
     pageAnnots := Some (ensurePdfPageAnnotationsArray p ++ [a]) |}.

Record InjectState := mkInject {
  injPages : list PdfPage;
  injDests : gmap jsstring Destination;
  existingDestinationNames : gset jsstring
}.

Section Injection.

Local Open Scope Q_scope.

(** [Number(v.toFixed(2))] *)
Variable toFixed2 : Q -> Q.
Variable decodeURIComponent : jsstring -> option jsstring.
Variable encodeURIComponent : jsstring -> option jsstring.
(** Width of a text in the embedded Helvetica at a size. *)
Variable widthOfTextAtSize : Q -> jsstring -> Q.
(** The code points besides U+0020 that the encoding of the embedded
    Helvetica has; [font.widthOfTextAtSize] and [page.drawText] throw on a
    text with any other code point. *)
Variable encodesCodePoint : jschar -> bool.

Definition fontEncodes (t : jsstring) : bool :=
  forallb (fun c => (c =? 32)%N || encodesCodePoint c) t.

(** Whether the font measures everything [layoutFootnoteSegments] asks it
    to: the text of every text token is measured (line 769), and nothing is
    measured but token texts and parts of them. *)
Definition fontMeasures (segs : list Segment) : bool :=
  forallb (fun segment =>
             forallb (fun token => fontEncodes (tokenText token))
                     (tokenizeFootnoteText (text segment)))
          segs.

(** The same for [layoutFootnotesForPage], which lays out the label and
    the segments of every item. *)
Definition fontMeasuresItems (its : list PlanItem) : bool :=
  forallb (fun item =>
             fontMeasures ({| text := getFootnoteDisplayLabel item ++ js " ";
                              href := None |}
                           :: cloneFootnoteSegments (planSegments item)))
          its.

Definition setPdfNamedDestination (dests : gmap jsstring Destination)
    (destinationName : jsstring) (pageRef : nat) (xPt yPt : Q)
  : gmap jsstring Destination :=
  match getPdfNameOrNull destinationName with
  | None => dests
  | Some key =>
      <[key := {| destPageRef := pageRef; destX := toFixed2 xPt;
                  destY := toFixed2 yPt |}]> dests
  end.

Definition addPdfLinkAnnotation (p : PdfPage) (rect : Q * Q * Q * Q)
    (linkSpec : LinkSpec) : PdfPage :=
  let '(x1, y1, x2, y2) := rect in
  let '(x1, y1, x2, y2) := (toFixed2 x1, toFixed2 y1, toFixed2 x2, toFixed2 y2) in
  if Qle_bool x2 x1 || Qle_bool y2 y1 then p
  else
    match linkSpec with
    | ExternalLink uri =>
        pushAnnotation p {| annotRect := (x1, y1, x2, y2);
                            annotAction := UriAction uri;
                            annotParent := None |}
    | InternalLink name =>
        match getPdfNameOrNull name with
        | None => p
        | Some destName =>
            pushAnnotation p {| annotRect := (x1, y1, x2, y2);
                                annotAction := NamedDest destName;
                                annotParent := None |}
        end
    end.

Section DirectDrawing.

Variable options : InjectOptions.

Definition leftMarginPt : Q := mmToPt (leftMarginMm options).
Definition rightMarginPt : Q := mmToPt (rightMarginMm options).
Definition bottomMarginPt : Q := mmToPt (optBottomMarginMm options).
Definition pageNumberBandPt : Q := mmToPt (optPageNumberBandMm options).
Definition lineHeightPt : Q := fontSizePt options * lineHeightMultiplier options.
Definition footnoteTopY : Q := bottomMarginPt - topPaddingPt options.
Definition footnoteMinY : Q := pageNumberBandPt + bottomPaddingPt options.

(** The body of [line.forEach]: the page and [cursorX] are threaded. The
    page is the one the rule above the footnotes was drawn on, so it is
    normalised already and [page.drawText] only appends to its content; the
    text was measured by the layout, so the font encodes it. *)
Definition drawFragment (existing : gset jsstring) (cursorY : Q)
    (acc : Completion (PdfPage * Q)) (fragment : Fragment)
  : Completion (PdfPage * Q) :=
  let! (p, cursorX) := acc in
  match fragText fragment with
  | [] => Returned (p, cursorX)
  | t =>
      let p := drawOn p (DrawText t cursorX cursorY) in
      let! p :=
        match fragHref fragment with
        | Some (c :: h) =>
            if existsb (fun c => negb (isWhitespace c)) t then
              let! linkSpec :=
                resolveFootnoteLinkSpec decodeURIComponent encodeURIComponent
                  (c :: h) existing in
              match linkSpec with
              | Some spec =>
                  Returned
                    (addPdfLinkAnnotation p
                       (cursorX, cursorY - (12 # 10),
                        cursorX + width fragment, cursorY + lineHeightPt - 1)
                       spec)
              | None => Returned p
              end
            else Returned p
        | _ => Returned p
        end in
      Returned (p, (cursorX + width fragment)%Q)
  end.

(** The body of [itemLayout.lines.forEach]: the page and [cursorY]. *)
Definition drawLineOfText (existing : gset jsstring)
    (acc : Completion (PdfPage * Q)) (line : list Fragment)
  : Completion (PdfPage * Q) :=
  let! (p, cursorY) := acc in
  if Qgtb footnoteMinY cursorY then Returned (p, cursorY)
  else
    let! (p, _) :=
      fold_left (drawFragment existing cursorY) line
                (Returned (p, leftMarginPt)) in
    Returned (p, (cursorY - lineHeightPt)%Q).

(** The body of [layout.itemLayouts.forEach] for the page [pageIndex]:
    the page, the destination table, the known names and [cursorY]. *)
Definition drawItem (pageIndex itemCount : nat)
    (acc : Completion (PdfPage * gmap jsstring Destination * gset jsstring * Q * nat))
    (itemLayout : ItemLayout)
  : Completion (PdfPage * gmap jsstring Destination * gset jsstring * Q * nat) :=
  let! (p, dests, existing, cursorY, itemIndex) := acc in
  match layoutLines itemLayout with
  | [] => Returned (p, dests, existing, cursorY, S itemIndex)
  | ls =>
      let destinationY := (cursorY + lineHeightPt)%Q in
      let name := planDestName (layoutItem itemLayout) in
      let dests := setPdfNamedDestination dests name pageIndex leftMarginPt destinationY in
      let existing := {[ name ]} ∪ existing in
      let! (p, cursorY) :=
        fold_left (drawLineOfText existing) ls (Returned (p, cursorY)) in
      let cursorY := if (itemIndex <? itemCount - 1)%nat
                     then (cursorY - itemGapPt options)%Q else cursorY in
      Returned (p, dests, existing, cursorY, S itemIndex)
  end.

(** The body of [finalFootnotePlans.forEach]. *)
Definition injectPlan (acc : Completion InjectState) (pagePlan : FinalPlan)
  : Completion InjectState :=
  let! st := acc in
  let pageIndex := (finalPage pagePlan - 1)%Z in
  if (pageIndex <? 0)%Z then Returned st
  else if (Z.of_nat (length (injPages st)) <=? pageIndex)%Z then Returned st
  else
    match injPages st !! Z.to_nat pageIndex with
    | None => Returned st
    | Some p =>
        let availableWidthPt :=
          let w := (pageWidth p - leftMarginPt - rightMarginPt)%Q in
          if Qle_bool 40 w then w else 40%Q in
        if negb (fontMeasuresItems (finalItems pagePlan)) then Thrown
        else
        let '(itemLayouts, _) :=
          layoutFootnotesForPage (widthOfTextAtSize (fontSizePt options))
            availableWidthPt (finalItems pagePlan) lineHeightPt
            (itemGapPt options) in
        match itemLayouts with
        | [] => Returned st
        | _ =>
            let p :=
              drawFirstOn p (DrawLine leftMarginPt (bottomMarginPt - (8 # 10))
                               (pageWidth p - rightMarginPt)
                               (bottomMarginPt - (8 # 10))) in
            let cursorY := (footnoteTopY - fontSizePt options)%Q in
            let! (p, dests, existing, _, _) :=
              fold_left (drawItem (Z.to_nat pageIndex) (length itemLayouts))
                itemLayouts
                (Returned (p, injDests st, existingDestinationNames st,
                           cursorY, 0%nat)) in
            Returned
              {| injPages := <[Z.to_nat pageIndex := p]> (injPages st);
                 injDests := dests;
                 existingDestinationNames := existing |}
        end
    end.

(** The document written back to [pdfPath]; when a call throws (the font on
    a text it cannot encode, [encodeURIComponent] on a lone surrogate)
    nothing is written. *)
Definition injectFootnotesIntoPdf (doc : PdfDoc) (finalFootnotePlans : list FinalPlan)
  : Completion PdfDoc :=
  match finalFootnotePlans with
  | [] => Returned doc
  | _ =>
      let! st :=
        fold_left injectPlan finalFootnotePlans
          (Returned {| injPages := docPages doc;
                       injDests := ensurePdfDestinationsDict doc;
                       existingDestinationNames :=
                         collectExistingDestinationNames doc |}) in
      Returned {| docPages := injPages st; docDests := Some (injDests st) |}
  end.

End DirectDrawing.

(** One turn of the merge loop on the base page [pageIndex]. *)
Definition mergeOverlayPage (overlayPage : PdfPage) (pageIndex : nat)
    (basePage : PdfPage) : PdfPage :=
  let basePage := drawFirstOn basePage (DrawPage pageIndex) in
  match pageAnnots overlayPage with
  | Some overlayAnnots =>
      {| pageWidth := pageWidth basePage; pageHeight := pageHeight basePage;
         pageContent := pageContent basePage;
         pageAnnots :=
           Some (ensurePdfPageAnnotationsArray basePage ++
                 List.map (fun a => {| annotRect := annotRect a;
                                       annotAction := annotAction a;
                                       annotParent := Some pageIndex |})
                          overlayAnnots) |}
  | None => basePage
  end.

Definition mergeOverlayPages (overlayPages : list PdfPage) (pagesToMerge : nat)
    (basePages : list PdfPage) : list PdfPage :=
  fold_left
    (fun pages pageIndex =>
       match overlayPages !! pageIndex with
       | Some overlayPage => alter (mergeOverlayPage overlayPage pageIndex) pageIndex pages
       | None => pages
       end)
    (seq 0 pagesToMerge) basePages.

(** The body of the [forEach] over [overlayDestinationCoordinates]. *)
Definition registerOverlayDestination (basePages : list PdfPage)
    (acc : gmap jsstring Destination * gset jsstring) (dest : OverlayDestination)
  : gmap jsstring Destination * gset jsstring :=
  let '(baseDests, seenDestinationNames) := acc in
  if negb (startsWith (js "export-footnote-") (overlayDestName dest)) then acc
  else if bool_decide (overlayDestName dest ∈ seenDestinationNames) then acc
  else
    let pageIndex := (overlayPageNumber dest - 1)%Z in
    if (pageIndex <? 0)%Z || (Z.of_nat (length basePages) <=? pageIndex)%Z then acc
    else
      match basePages !! Z.to_nat pageIndex with
      | None => acc
      | Some targetPage =>
          let pageHeightPt := pageHeight targetPage in
          let yPt := Qmax 0 (Qmin pageHeightPt (pageHeightPt - yFromTopPt dest)) in
          (setPdfNamedDestination baseDests (overlayDestName dest)
             (Z.to_nat pageIndex) (overlayXPt dest) yPt,
           {[ overlayDestName dest ]} ∪ seenDestinationNames)
      end.

(** [injectFootnotesOverlayIntoPdf] from the point where the browser has
    printed the overlay HTML: [overlayPages] are the pages of the overlay
    document and [overlayDestinationCoordinates] what the geometry query
    returned. *)
Definition injectFootnotesOverlayIntoPdf (basePdfDoc : PdfDoc)
    (finalFootnotePlans : list FinalPlan) (overlayPages : list PdfPage)
    (overlayDestinationCoordinates : list OverlayDestination) : PdfDoc :=
  match finalFootnotePlans with
  | [] => basePdfDoc
  | _ =>
      let totalPages := length (docPages basePdfDoc) in
      let pagesToMerge := Nat.min totalPages (length overlayPages) in
      if (pagesToMerge =? 0)%nat then basePdfDoc
      else
        let basePages := mergeOverlayPages overlayPages pagesToMerge (docPages basePdfDoc) in
        let baseDests := ensurePdfDestinationsDict basePdfDoc in
        let '(baseDests, _) :=
          fold_left (registerOverlayDestination basePages)
                    overlayDestinationCoordinates (baseDests, ∅) in
        {| docPages := basePages; docDests := Some baseDests |}
  end.

End Injection.

(** ** Vocabulary of the statements *)

(** The references of a list that the builder resolves to page [p], and the
    rewrites of a list whose reference index the marker map sends to [p]. *)
Definition refsOn (markerPages : gmap Z Z) (p : Z) (refs : list FootnoteRef)
  : list FootnoteRef :=
  List.filter (fun r => bool_decide (resolvedPage markerPages r = Some p)) refs.

Definition updatesOn (markerPages : gmap Z Z) (p : Z) (updates : list RefUpdate)
  : list RefUpdate :=
  List.filter (fun u => bool_decide (markerPage markerPages (updRefIndex u) = Some p))
              updates.

(** The items a returned plan holds for page [p] (none when the page has no
    plan). *)
Definition planItemsOn (plan : FootnotePlan) (p : Z) : list PlanItem :=
  match List.find (fun pp => (page pp =? p)%Z) (planPages plan) with
  | Some pp => planItems pp
  | None => []
  end.

(** Two target ids are grouped by the builder when they are equal or both
    have a definition and the definitions have the same group key. *)
Definition sameGroup (definitionsById : gmap jsstring (list Segment))
    (t u : jsstring) : Prop :=
  t = u \/ (definitionGroupKey definitionsById t <> None
            /\ definitionGroupKey definitionsById t = definitionGroupKey definitionsById u).

(** The reference indices the builder cannot resolve, and those it can, in
    reference order. *)
Definition unresolvedIndices (markerPages : gmap Z Z) (refs : list FootnoteRef)
  : list Z :=
  omap (fun r => match refIndex r with
                 | Some index => match markerPage markerPages index with
                                 | None => Some index
                                 | Some _ => None
                                 end
                 | None => None
                 end) refs.

Definition resolvedIndices (markerPages : gmap Z Z) (refs : list FootnoteRef)
  : list Z :=
  omap (fun r => match refIndex r with
                 | Some index => match markerPage markerPages index with
                                 | Some _ => Some index
                                 | None => None
                                 end
                 | None => None
                 end) refs.

(** The shape of a footnote destination name: the fixed prefix, the decimal
    destination counter, a dash and a token of the class [[a-z0-9_-]] that is
    either cut to 48 characters or the fallback [fn-<number>]. *)
Definition isFootnoteDestName (name : jsstring) : Prop :=
  exists (counter : Z) (token : jsstring),
    name = js "export-footnote-" ++ stringOfNumber counter ++ js "-" ++ token
    /\ (0 < counter)%Z
    /\ token <> []
    /\ Forall (fun c => isTokenChar c = true) token
    /\ ((length token <= 48)%nat \/ exists n : Z, token = js "fn-" ++ stringOfNumber n).

(** The fragment-width sum of a line. *)
Definition lineWidth (line : list Fragment) : Q :=
  fold_right (fun f acc => (width f + acc)%Q) 0%Q line.

(** The texts of the fragments of all lines, in order, as one string. *)
Definition linesText (ls : list (list Fragment)) : jsstring :=
  concat (fragText <$> concat ls).

(** The texts of the segments, in order, as one string. *)
Definition segmentsText (segs : list Segment) : jsstring :=
  concat (text <$> segs).

Definition withoutWhitespace (s : jsstring) : jsstring :=
  List.filter (fun c => negb (isWhitespace c)) s.

(** ** Invariants of the plan builder *)

Section PlanInvariantStatements.

Variable markerPages : gmap Z Z.
Variable definitionsById : gmap jsstring (list Segment).

(** What holds of a page entry between two references. *)
Record EntryInv (e : PageEntry) : Prop := {
  inv_next : (1 <= nextNumber e)%Z;
  inv_concat : concat (numbers <$> items e) = seqZ 1 (nextNumber e - 1);
  inv_last :
    Forall (fun it => exists n, lastAssignedNumber it = Some n /\ last (numbers it) = Some n)
           (items e);
  inv_byTarget :
    forall t idx, byTargetId e !! t = Some idx ->
      exists it, items e !! idx = Some it /\ t ∈ targetIds it
                 /\ sameGroup definitionsById t (targetId it);
  inv_byKey :
    forall k idx, byDefinitionKey e !! k = Some idx ->
      exists it, items e !! idx = Some it
                 /\ definitionGroupKey definitionsById (targetId it) = Some k;
  inv_segments :
    Forall (fun it => segments it = segmentsFor definitionsById (targetId it)) (items e)
}.

(** The state reached after the references [refs]. *)
Record StateInv (st : PlanState) (refs : list FootnoteRef) : Prop := {
  st_counter : (0 <= destinationCounter st)%Z;
  st_entry : forall p e, pages st !! p = Some e ->
      entryPage e = p /\ EntryInv e
      /\ (nextNumber e - 1)%Z = Z.of_nat (length (refsOn markerPages p refs))
      /\ refsOn markerPages p refs <> [];
  st_absent : forall p, pages st !! p = None -> refsOn markerPages p refs = [];
  st_updates : forall p,
      newNumber <$> updatesOn markerPages p (refUpdates st)
      = seqZ 1 (Z.of_nat (length (refsOn markerPages p refs)))
}.

(** The entry right after a reference to [t] was placed on it: the item that
    got the number is the last one, and both maps point at it. *)
Definition JustPlaced (e : PageEntry) (t : jsstring) (init : list FootnoteItem)
    (it : FootnoteItem) : Prop :=
  items e = init ++ [it]
  /\ lastAssignedNumber it = Some (nextNumber e - 1)%Z
  /\ byTargetId e !! t = Some (length init)
  /\ (forall k, definitionGroupKey definitionsById t = Some k ->
        byDefinitionKey e !! k = Some (length init)).

End PlanInvariantStatements.

(** Two states that differ at most in the list of unresolved references. *)
Definition agreeButUnresolved (st st' : PlanState) : Prop :=
  pages st = pages st' /\ refUpdates st = refUpdates st'
  /\ destinationCounter st = destinationCounter st'.

Record NamesInv (st : PlanState) : Prop := {
  names_items : forall p e, pages st !! p = Some e ->
      Forall (fun it => isFootnoteDestName (destName it)) (items e);
  names_updates : Forall (fun u => isFootnoteDestName (updDestName u)) (refUpdates st)
}.

(** ** Invariants of the text flow layout *)

Section LayoutInvariantStatements.

Variable widthOfText : jsstring -> Q.
Variable maxWidthPt : Q.

(** A chunk fits the budget or is a single glyph. *)
Definition chunkOK (chunk : jsstring) : Prop :=
  chunk <> [] /\ ((widthOfText chunk <= maxWidthPt)%Q \/ exists g, chunk = [g]).

(** A line respects the budget, or holds nothing but one glyph that is wider
    than the budget. *)
Definition lineOK (line : list Fragment) : Prop :=
  (lineWidth line <= maxWidthPt)%Q
  \/ exists f g, line = [f] /\ fragText f = [g] /\ width f = widthOfText [g]
                 /\ (maxWidthPt < widthOfText [g])%Q.

Record LayoutInv (st : LayoutState) : Prop := {
  lay_lines : Forall lineOK (lines st);
  lay_positive : Forall (fun f => (0 < width f)%Q) (currentLine st);
  lay_width : (currentWidth st == lineWidth (currentLine st))%Q;
  lay_current : lineOK (currentLine st)
}.

End LayoutInvariantStatements.

Definition fragsText (l : list Fragment) : jsstring := concat (fragText <$> l).

(** The text laid out so far, white space left out. *)
Definition content (st : LayoutState) : jsstring :=
  withoutWhitespace (linesText (lines st))
  ++ withoutWhitespace (fragsText (currentLine st)).

(** Space fragments hold nothing but white space. *)
Definition spacesBlank (l : list Fragment) : Prop :=
  Forall (fun f => isSpace f = true -> withoutWhitespace (fragText f) = []) l.

Definition tokensText (tokens : list Token) : jsstring := concat (tokenText <$> tokens).

(** ** Vocabulary of the page-offset vote *)

(** The deltas of the anchors resolved in both renders, in anchor order. *)
Definition anchorDeltas (contentPages probePages : gmap Z Z) (indices : list Z)
  : list Z :=
  omap (fun index =>
          match truthyPage contentPages index, truthyPage probePages index with
          | Some contentPage, Some probePage => Some (probePage - contentPage)%Z
          | _, _ => None
          end) indices.

(** How often a delta occurs. *)
Definition occurrences (d : Z) (deltas : list Z) : Z :=
  Z.of_nat (length (List.filter (fun x => (x =? d)%Z) deltas)).

(** The distinct deltas in the order in which they first appear. *)
Definition firstSeen (deltas : list Z) : list Z :=
  fold_left (fun seen d => if bool_decide (d ∈ seen) then seen else seen ++ [d])
            deltas [].

(** One more occurrence of a delta in the tally. *)
Definition tallyDelta (counts : OffsetCounts) (delta : Z) : OffsetCounts :=
  countsSet counts delta (default 0%Z (countsGet counts delta) + 1)%Z.

(** The choice of the vote as the code makes it: the initial value when there
    is no delta; otherwise a delta of the highest count, and among those the
    one that appeared first. *)
Definition firstMostFrequent (initial : Z) (deltas : list Z) (chosen : Z) : Prop :=
  (deltas = [] -> chosen = initial)
  /\ (deltas <> [] ->
      (forall d, (occurrences d deltas <= occurrences chosen deltas)%Z)
      /\ exists earlier later,
           firstSeen deltas = earlier ++ chosen :: later
           /\ Forall (fun d => (occurrences d deltas < occurrences chosen deltas)%Z) earlier).

(** ** Vocabulary of the footer sizing step *)

Definition isRender (ev : SizingEvent) : bool :=
  match ev with RenderContent _ => true | _ => false end.
Definition isExpansion (ev : SizingEvent) : bool :=
  match ev with ExpandFooter _ => true | _ => false end.
Definition isComputePlan (ev : SizingEvent) : bool :=
  match ev with ComputePlan => true | _ => false end.

Definition countEvents (f : SizingEvent -> bool) (log : list SizingEvent) : nat :=
  length (List.filter f log).

(** The events of one recompute cycle under a bottom margin. *)
Definition cycleEvents (margin : Q) : list SizingEvent :=
  [RenderContent margin; ComputePlan; ApplyRefUpdates].

(** The plan of a sizing state is the one built from the marker pages the
    state remembers. *)
Definition planIsCurrent {World : Type} (toLowerCase : jsstring -> jsstring)
    (footnoteRefs : list FootnoteRef)
    (footnoteDefinitionsById : gmap jsstring (list Segment))
    (st : SizingState World) : Prop :=
  activeFootnotePlan st
  = buildFootnotePagePlan toLowerCase (latestContentFootnoteMarkerPages st)
      footnoteDefinitionsById footnoteRefs.

(** ** Vocabulary of the document edits *)

(** [p'] is [p] with more drawn on it and more annotations after the ones it
    had: same size, the old content is a prefix of the new, and an existing
    annotation array is a prefix of the new one. *)
Definition pageExtends (p p' : PdfPage) : Prop :=
  pageWidth p' = pageWidth p
  /\ pageHeight p' = pageHeight p
  /\ (exists ops, pageContent p' = pageContent p ++ ops)
  /\ (forall annots, pageAnnots p = Some annots ->
        exists more, pageAnnots p' = Some (annots ++ more)).

(** An annotation of the overlay page as it is pushed onto the base page
    [pageIndex]: its [P] entry is set to that page. *)
Definition annotationOn (pageIndex : nat) (a : Annotation) : Annotation :=
  {| annotRect := annotRect a; annotAction := annotAction a;
     annotParent := Some pageIndex |}.

(** Every entry of [dests] is still an entry of [dests'], with its old value
    unless its name is one of [names]. *)
Definition destsExtend (names : jsstring -> Prop)
    (dests dests' : gmap jsstring Destination) : Prop :=
  forall name d, dests !! name = Some d ->
    exists d', dests' !! name = Some d' /\ (~ names name -> d' = d).

(** The PDF names under which the items of some plans are registered. *)
Definition planDestinationNames (plans : list FinalPlan) (name : jsstring) : Prop :=
  exists plan item,
    plan ∈ plans /\ item ∈ finalItems plan
    /\ getPdfNameOrNull (planDestName item) = Some name.

(** The PDF names under which the overlay destinations are registered. *)
Definition overlayDestinationNames (coordinates : list OverlayDestination)
    (name : jsstring) : Prop :=
  exists dest,
    dest ∈ coordinates /\ getPdfNameOrNull (overlayDestName dest) = Some name.

(** The effect of plans on the state of the direct drawing: only pages in
    [touched] change, every page is extended, and so is the table. *)
Definition stateExtends (names : jsstring -> Prop) (touched : nat -> Prop)
    (st st' : InjectState) : Prop :=
  length (injPages st') = length (injPages st)
  /\ (forall i, ~ touched i -> injPages st' !! i = injPages st !! i)
  /\ (forall i p p', injPages st !! i = Some p -> injPages st' !! i = Some p' ->
        pageExtends p p')
  /\ destsExtend names (injDests st) (injDests st').

(** ** Concrete fonts and inputs used to run the model *)

(** A font in which every glyph is one unit wide. *)
Definition glyphCount (s : jsstring) : Q := inject_Z (Z.of_nat (length s)).

(** An encoding that has the printable code points below 256. *)
Definition latin1 (c : jschar) : bool := ((33 <=? c) && (c <=? 255))%N.

Definition blankPage : PdfPage :=
  {| pageWidth := 595; pageHeight := 842; pageContent := []; pageAnnots := None |}.

Definition sampleItem : PlanItem :=
  {| planTargetId := js "fn1";
     planTargetIds := [js "fn1"];
     planNumber := 1;
     planNumberLabel := js "1";
     planNumbers := [1%Z];
     planDestName := js "export-footnote-1-fn1";
     planSegments := [ {| text := js "See the manual"; href := Some (js "docs/manual") |} ] |}.

(** A two-page document that already has the destination of the footnote
    (the browser writes one for the anchor the reference rewrite created),
    and a plan for its second page only. *)
Definition sampleBase : PdfDoc :=
  {| docPages := [blankPage; blankPage];
     docDests := Some {[ js "export-footnote-1-fn1" :=
                           {| destPageRef := 0%nat; destX := 0; destY := 0 |} ]} |}.

Definition samplePlans : list FinalPlan :=
  [ {| finalPage := 2; finalItems := [sampleItem] |} ].

Definition sampleCoordinates : list OverlayDestination :=
  [ {| overlayDestName := js "export-footnote-1-fn1"; overlayPageNumber := 2;
       overlayXPt := 28; yFromTopPt := 760 |} ].

Definition sampleOptions : InjectOptions :=
  {| leftMarginMm := 10; rightMarginMm := 10; optBottomMarginMm := 31;
     optPageNumberBandMm := 6; fontSizePt := 8; lineHeightMultiplier := 125 # 100;
     itemGapPt := 2; topPaddingPt := 2; bottomPaddingPt := 1 |}.

Definition sampleRefs : list FootnoteRef :=
  [ {| refIndex := Some 0%Z; refTargetId := js "fn1" |};
    {| refIndex := Some 1%Z; refTargetId := js "fn1" |};
    {| refIndex := Some 2%Z; refTargetId := js "fn2" |};
    {| refIndex := Some 3%Z; refTargetId := js "fn1" |};
    {| refIndex := Some 4%Z; refTargetId := js "fn3" |} ].

(** References 0 to 3 land on page 3; reference 4 is not found. *)
Definition sampleMarkerPages : gmap Z Z :=
  {[ 0%Z := 3%Z; 1%Z := 3%Z; 2%Z := 3%Z; 3%Z := 3%Z ]}.

(** [fn1] has a definition, [fn2] has none. *)
Definition sampleDefinitions : gmap jsstring (list Segment) :=
  {[ js "fn1" := [ {| text := js "See the manual"; href := None |} ] ]}.

(** ** HTML escaping of the overlay document ([escapeHtml], [escapeHtmlAttr]) *)

(** [s.replace(/c/g, replacement)] for a pattern that is the single
    character [c]. *)
Definition replaceChar (c : jschar) (replacement : jsstring) (s : jsstring)
  : jsstring :=
  concat (List.map (fun d => if (d =? c)%N then replacement else [d]) s).

Definition escapeHtml (value : jsstring) : jsstring :=
  replaceChar 39%N (js "&#39;")
    (replaceChar 34%N (js "&quot;")
       (replaceChar 62%N (js "&gt;")
          (replaceChar 60%N (js "&lt;")
             (replaceChar 38%N (js "&amp;") value)))).

Definition escapeHtmlAttr (value : jsstring) : jsstring :=
  replaceChar 10%N (js "&#10;") (escapeHtml value).

(** What the six passes do to one character of the input. *)
Definition escapedChar (c : jschar) : jsstring :=
  if (c =? 38)%N then js "&amp;"
  else if (c =? 60)%N then js "&lt;"
  else if (c =? 62)%N then js "&gt;"
  else if (c =? 34)%N then js "&quot;"
  else if (c =? 39)%N then js "&#39;"
  else if (c =? 10)%N then js "&#10;"
  else [c].

(** The characters that open or close markup or an attribute value. *)
Definition isMarkupChar (c : jschar) : bool :=
  ((c =? 60) || (c =? 62) || (c =? 34) || (c =? 39))%N.

(** ** Vocabulary of segment normalisation and tokenising *)

(** No two neighbours of the list share their [href]. *)
Definition hrefsAlternate (segs : list Segment) : Prop :=
  forall i a b, segs !! i = Some a -> segs !! S i = Some b -> href a <> href b.

(** A list [cloneFootnoteSegments] has nothing to do on: no empty text, no
    two neighbours with the same [href], no white space before the first
    text or after the last. *)
Definition isNormalized (segs : list Segment) : Prop :=
  Forall (fun s => text s <> []) segs
  /\ hrefsAlternate segs
  /\ (forall s, head segs = Some s -> trimStart (text s) = text s)
  /\ (forall s, last segs = Some s -> trimEnd (text s) = text s).

Definition isSpaceToken (token : Token) : bool :=
  match token with SpaceToken => true | _ => false end.

Definition isNewlineToken (token : Token) : bool :=
  match token with NewlineToken => true | _ => false end.

(** No space token directly follows another. *)
Definition spacesSeparated (tokens : list Token) : Prop :=
  forall i, tokens !! i = Some SpaceToken -> tokens !! S i <> Some SpaceToken.

(** A word of the tokenizer: not empty and free of white space. *)
Definition isWord (t : jsstring) : Prop :=
  t <> [] /\ Forall (fun c => isWhitespace c = false) t.

Definition lineFeeds (s : jsstring) : nat :=
  length (List.filter (fun c => (c =? 10)%N) s).

(** What holds of the pair (tokens, buffer) of [tokenizeFootnoteText] after
    the characters [processed]. *)
Definition tokenizerInv (processed : jsstring) (st : list Token * jsstring) : Prop :=
  (forall w, TextToken w ∈ st.1 -> isWord w)
  /\ spacesSeparated st.1
  /\ Forall (fun c => isWhitespace c = false) st.2
  /\ length (List.filter isNewlineToken st.1) = lineFeeds processed.


(** ** Further invariants of the plan builder *)

Definition isDigit (c : jschar) : bool := ((48 <=? c) && (c <=? 57))%N.

(** The first number and the label of an item are those of its list of
    numbers. *)
Definition itemNumbered (it : FootnoteItem) : Prop :=
  number it = default 0%Z (head (numbers it))
  /\ numberLabel it = formatFootnoteNumberLabel (numbers it).

(** How rewrites, items and destination names hang together between two
    references: every rewrite names an item of its page that holds its
    number, every destination name carries a counter that has been used, and
    no two items share a name. *)
Record LinksInv (markerPages : gmap Z Z) (st : PlanState) : Prop := {
  links_numbered :
    forall p e, pages st !! p = Some e -> Forall itemNumbered (items e);
  links_updates :
    forall u, u ∈ refUpdates st ->
      newLabel u = stringOfNumber (newNumber u)
      /\ exists p e it,
           markerPage markerPages (updRefIndex u) = Some p
           /\ pages st !! p = Some e /\ it ∈ items e
           /\ newNumber u ∈ numbers it /\ destName it = updDestName u;
  links_bounded :
    forall p e it, pages st !! p = Some e -> it ∈ items e ->
      exists c t, destName it = destNameFor c t
                  /\ (1 <= c <= destinationCounter st)%Z;
  links_unique :
    forall p e i it p' e' j it',
      pages st !! p = Some e -> items e !! i = Some it ->
      pages st !! p' = Some e' -> items e' !! j = Some it' ->
      destName it = destName it' -> p = p' /\ i = j
}.


(** ** Vocabulary of further properties of the document edits *)

(** The entry [d] is what the overlay path registers under [name] for one of
    the coordinates: the page the coordinate names, its x, and its y turned
    from a distance to the top of that page into a height that lies on the
    page. *)
Definition registeredFrom (toFixed2 : Q -> Q) (basePages : list PdfPage)
    (coordinates : list OverlayDestination) (name : jsstring) (d : Destination)
  : Prop :=
  exists dest targetPage y,
    dest ∈ coordinates
    /\ getPdfNameOrNull (overlayDestName dest) = Some name
    /\ (1 <= overlayPageNumber dest)%Z
    /\ basePages !! Z.to_nat (overlayPageNumber dest - 1) = Some targetPage
    /\ d = {| destPageRef := Z.to_nat (overlayPageNumber dest - 1);
              destX := toFixed2 (overlayXPt dest);
              destY := toFixed2 y |}
    /\ (0 <= y)%Q
    /\ ((0 <= pageHeight targetPage)%Q -> (y <= pageHeight targetPage)%Q)
    /\ ((0 <= yFromTopPt dest)%Q /\ (yFromTopPt dest <= pageHeight targetPage)%Q ->
        (y == pageHeight targetPage - yFromTopPt dest)%Q).


(** ** The name of the PDF file ([savePdf], lines 1738-1757)

    [substring] counts UTF-16 code units, so in this part a string is read as
    the list of its code units; the regular expressions of the code have no
    [u] flag and see the same units. *)

(** The class of the second [replace]: [<], [>], [:], the double quote,
    [/], the backslash, [|], [?] and the asterisk. *)
Definition isReservedFileChar (c : jschar) : bool :=
  ((c =? 60) || (c =? 62) || (c =? 58) || (c =? 34) || (c =? 47) || (c =? 92)
   || (c =? 124) || (c =? 63) || (c =? 42))%N.

(** [s.replace(/\s+/g, '_')]. *)
Fixpoint underscoreWhitespace (inRun : bool) (s : jsstring) : jsstring :=
  match s with
  | [] => []
  | c :: r =>
      if isWhitespace c
      then (if inRun then underscoreWhitespace true r
            else 95%N :: underscoreWhitespace true r)
      else c :: underscoreWhitespace false r
  end.

(** The chain of calls on the title and on the configured name: the
    pilcrow signs are removed, every reserved character becomes an
    underscore, every run of white space becomes one underscore, and
    [substring(0, limit)] cuts the result. *)
Definition cleanFileName (limit : nat) (s : jsstring) : jsstring :=
  take limit
    (underscoreWhitespace false
       (List.map (fun c => if isReservedFileChar c then 95%N else c)
          (List.filter (fun c => negb (c =? 182)%N) s))).

(** [/\.pdf$/i.test(s)] *)
Definition endsWithPdf (s : jsstring) : bool :=
  match rev s with
  | f :: d :: p :: dot :: _ =>
      ((dot =? 46) && ((p =? 112) || (p =? 80)) && ((d =? 100) || (d =? 68))
       && ((f =? 102) || (f =? 70)))%N
  | _ => false
  end.

(** The file name [savePdf] writes to, from the title found on the page and
    [config.pdfName] ([None] when it is not a string). *)
Definition pdfFilenameOf (pageTitle : jsstring) (pdfName : option jsstring)
  : jsstring :=
  let cleanTitle := cleanFileName 100 pageTitle in
  let baseName := match cleanTitle with [] => js "page" | _ => cleanTitle end in
  let pdfFilename := baseName ++ js ".pdf" in
  match pdfName with
  | Some configured =>
      match trim configured with
      | [] => pdfFilename
      | trimmed =>
          let pdfFilename :=
            if endsWithPdf trimmed then trimmed else trimmed ++ js ".pdf" in
          cleanFileName 160 pdfFilename
      end
  | None => pdfFilename
  end.

(** A character [cleanFileName] lets through. *)
Definition isFileNameChar (c : jschar) : bool :=
  negb (isReservedFileChar c) && negb (isWhitespace c) && negb (c =? 182)%N.


(** ** Markers in the rendered PDF ([escapeRegExp], [extractMarkerPagesFromPdf]) *)

(** The characters the class of [escapeRegExp] lists: the full stop, the
    asterisk, [+], [?], the caret, the dollar sign, the braces, the round
    brackets, [|], the square brackets and the backslash. *)
Definition isRegExpSpecial (c : jschar) : bool :=
  ((c =? 46) || (c =? 42) || (c =? 43) || (c =? 63) || (c =? 94) || (c =? 36)
   || (c =? 123) || (c =? 125) || (c =? 40) || (c =? 41) || (c =? 124)
   || (c =? 91) || (c =? 93) || (c =? 92))%N.

(** Every character of the class is replaced by a backslash and itself. *)
Definition escapeRegExp (value : jsstring) : jsstring :=
  concat (List.map (fun c => if isRegExpSpecial c then [92%N; c] else [c]) value).

(** The text a pattern stands for when it is made of plain characters and of
    escaped special characters only; [None] when a special character stands
    unescaped, or a backslash stands before anything else or at the end. *)
Fixpoint literalOfPattern (pattern : jsstring) : option jsstring :=
  match pattern with
  | [] => Some []
  | c :: rest =>
      if (c =? 92)%N then
        match rest with
        | d :: rest' =>
            if isRegExpSpecial d then cons d <$> literalOfPattern rest' else None
        | [] => None
        end
      else if isRegExpSpecial c then None
      else cons c <$> literalOfPattern rest
  end.

(** [Number(match[1])] for a run of decimal digits (exact; the loss of
    precision of a JavaScript number above 2^53 is not modelled). *)
Definition numberOfDigits (digits : jsstring) : Z :=
  fold_left (fun acc c => (acc * 10 + Z.of_N (c - 48))%Z) digits 0%Z.

(** The digits the group of the pattern takes at first: all that are
    there. *)
Fixpoint digitRun (s : jsstring) : jsstring :=
  match s with
  | c :: r => if isDigit c then c :: digitRun r else []
  | [] => []
  end.

(** The group gives digits back one by one until the suffix follows; it
    keeps at least one. *)
Fixpoint backtrack (suffix rest : jsstring) (count : nat) : option nat :=
  match count with
  | O => None
  | S k => if startsWith suffix (drop (S k) rest) then Some (S k)
           else backtrack suffix rest k
  end.

(** A match of the pattern at the start of [text]: the number of the group
    and the length of the match. *)
Definition matchMarkerAt (markerPrefix markerSuffix text : jsstring)
  : option (Z * nat) :=
  if startsWith markerPrefix text then
    let rest := drop (length markerPrefix) text in
    match backtrack markerSuffix rest (length (digitRun rest)) with
    | Some count =>
        Some (numberOfDigits (take count rest),
              (length markerPrefix + count + length markerSuffix)%nat)
    | None => None
    end
  else None.

(** The [while] loop over [pattern.exec]: the numbers of the matches from
    left to right; after a match the search goes on behind it ([skip] counts
    the characters still covered by the last match). *)
Fixpoint scanMarkers (markerPrefix markerSuffix : jsstring) (skip : nat)
    (text : jsstring) : list Z :=
  match text with
  | [] => []
  | _ :: rest =>
      match skip with
      | S k => scanMarkers markerPrefix markerSuffix k rest
      | O =>
          match matchMarkerAt markerPrefix markerSuffix text with
          | Some (index, len) =>
              index :: scanMarkers markerPrefix markerSuffix (len - 1) rest
          | None => scanMarkers markerPrefix markerSuffix 0 rest
          end
      end
  end.

(** The markers of a page, from the strings of its text items. *)
Definition markersOfPage (markerPrefix markerSuffix : jsstring)
    (items : list jsstring) : list Z :=
  scanMarkers markerPrefix markerSuffix 0 (withoutWhitespace (concat items)).

(** [if (!markerPages.has(index)) markerPages.set(index, pageIndex)] for the
    matches of a page. *)
Definition recordMarkers (pageIndex : Z) (markerPages : gmap Z Z)
    (indices : list Z) : gmap Z Z :=
  fold_left
    (fun m index => match m !! index with
                    | Some _ => m
                    | None => <[index := pageIndex]> m
                    end)
    indices markerPages.

(** The pages are given by the strings of their text items. *)
Definition extractMarkerPagesFromPdf (markerPrefix markerSuffix : jsstring)
    (pageItems : list (list jsstring)) : gmap Z Z * Z :=
  (fst (fold_left
          (fun acc items =>
             (recordMarkers (snd acc) (fst acc)
                (markersOfPage markerPrefix markerSuffix items),
              (snd acc + 1)%Z))
          pageItems (∅, 1%Z)),
   Z.of_nat (length pageItems)).

(** The page on which a marker number is first seen. *)
Definition firstPageOf (markerPrefix markerSuffix : jsstring)
    (pageItems : list (list jsstring)) (index : Z) (p : Z) : Prop :=
  exists i items,
    p = (Z.of_nat i + 1)%Z
    /\ pageItems !! i = Some items
    /\ index ∈ markersOfPage markerPrefix markerSuffix items
    /\ forall j earlier, (j < i)%nat -> pageItems !! j = Some earlier ->
         index ∉ markersOfPage markerPrefix markerSuffix earlier.


(** ** Further invariants of the text flow layout *)

(** A line neither starts nor ends with a space fragment and has no fragment
    with an empty text. *)
Definition lineTrimmed (line : list Fragment) : Prop :=
  (forall f, head line = Some f -> isSpace f = false)
  /\ (forall f, last line = Some f -> isSpace f = false)
  /\ Forall (fun f => fragText f <> []) line.

(** The lines laid out so far are trimmed, and the line being filled does
    not start with a space fragment. *)
Record TrimInv (st : LayoutState) : Prop := {
  trim_lines : Forall lineTrimmed (lines st);
  trim_head : forall f, head (currentLine st) = Some f -> isSpace f = false;
  trim_texts : Forall (fun f => fragText f <> []) (currentLine st)
}.

(** The sum of a list of lengths. *)
Definition sumQ (l : list Q) : Q := fold_right Qplus 0%Q l.



(** ** Further inputs used to run the model *)

(** The plan for [sampleRefs], its only page plan, and the first item of
    that page, which holds the numbers 1 and 2. *)
Definition samplePlan : FootnotePlan :=
  buildFootnotePagePlan asciiToLowerCase sampleMarkerPages sampleDefinitions sampleRefs.

Definition samplePagePlan : PagePlan :=
  default {| page := 0; planItems := [] |} (head (planPages samplePlan)).

Definition sampleMergedItem : PlanItem :=
  default sampleItem (head (planItems samplePagePlan)).

(** A normalised definition of two segments. *)
Definition sampleSegments : list Segment :=
  [ {| text := js "See "; href := None |};
    {| text := js "the manual"; href := Some (js "docs/manual") |} ].

(** ** Vocabulary of the definition group key *)

(** No colon stands directly before another colon or at the end. *)
Fixpoint colonsApart (s : jsstring) : bool :=
  match s with
  | [] => true
  | c :: r =>
      negb ((c =? 58)%N && match r with [] => true | d :: _ => (d =? 58)%N end)
      && colonsApart r
  end.

Definition hasNoBar (s : jsstring) : bool :=
  forallb (fun c => negb (c =? 124)%N) s.

(** A segment that can be read back from its part of the key: the text is
    spaced as the key spaces it and has no [|]; the [href], if there is one,
    is not empty, has no white space around it, no [|], and no colon that
    could be taken for the [::] behind it. *)
Definition keySafe (s : Segment) : Prop :=
  trim (collapseWhitespace false (text s)) = text s
  /\ hasNoBar (text s) = true
  /\ match href s with
     | None => True
     | Some h => h <> [] /\ trim h = h /\ hasNoBar h = true /\ colonsApart h = true
     end.

(** The segments a plan item shows for a target id. *)
Definition shownSegments (definitionsById : gmap jsstring (list Segment))
    (target : jsstring) : list Segment :=
  cloneFootnoteSegments (segmentsFor definitionsById target).

(** Two footnotes whose segments share a key although they differ, and two
    footnotes whose definitions are empty arrays. *)
Definition collidingDefinitions : gmap jsstring (list Segment) :=
  {[ js "fnA" := [ {| text := js "see|x::y"; href := None |} ];
     js "fnB" := [ {| text := js "see"; href := None |};
                   {| text := js "y"; href := Some (js "x") |} ];
     js "fnC" := [];
     js "fnD" := [] ]}.

(** ** Vocabulary of destination names *)

(** The destination name of an item is made of a destination counter and of
    the sanitised target id of the item, with the fallback of its first
    number. *)
Definition namedAfterTarget (toLowerCase : jsstring -> jsstring)
    (it : FootnoteItem) : Prop :=
  number it = default 0%Z (head (numbers it))
  /\ numbers it <> []
  /\ exists counter : Z,
       (0 < counter)%Z
       /\ destName it
          = destNameFor counter
              (sanitizeFootnoteToken toLowerCase (targetId it)
                 (js "fn-" ++ stringOfNumber (number it))).

(** ** Vocabulary of the placement of over-wide words *)

(** The fragment a text makes when it is put on a line as it is. *)
Definition textFragment (widthOfText : jsstring -> Q) (t : jsstring)
    (h : option jsstring) : Fragment :=
  {| fragText := t; fragHref := hrefOrNull h; width := widthOfText t;
     isSpace := false |}.

(** A fragment shows a chunk of a segment with the link [h]: it is a text
    fragment with that link and the chunk is part of its text. *)
Definition showsChunk (chunk : jsstring) (h : option jsstring) (f : Fragment)
  : Prop :=
  isSpace f = false /\ fragHref f = hrefOrNull h
  /\ exists before after, fragText f = before ++ chunk ++ after.

(** The chunk is on a line laid out so far or on the line being filled. *)
Definition chunkPlaced (chunk : jsstring) (h : option jsstring)
    (st : LayoutState) : Prop :=
  exists line f,
    (line ∈ lines st \/ line = currentLine st) /\ f ∈ line /\ showsChunk chunk h f.

(** The chunk has a line to itself. *)
Definition chunkAlone (widthOfText : jsstring -> Q) (chunk : jsstring)
    (h : option jsstring) (st : LayoutState) : Prop :=
  [textFragment widthOfText chunk h] ∈ lines st
  \/ currentLine st = [textFragment widthOfText chunk h].

(** Every chunk but the last is full: with the first glyph of the next
    chunk it would be wider than the budget. *)
Definition greedyChunks (widthOfText : jsstring -> Q) (maxWidthPt : Q)
    (chunks : list jsstring) : Prop :=
  forall i a b, chunks !! i = Some a -> chunks !! S i = Some b ->
    exists g rest, b = g :: rest /\ (maxWidthPt < widthOfText (a ++ [g]))%Q.

(** ** Vocabulary of the white space of the laid-out text *)

(** The visible characters of a text, each with a mark that tells whether
    white space stands directly before it; [gap] is the mark of the start of
    the text. *)
Fixpoint marked (gap : bool) (s : jsstring) : list (bool * jschar) :=
  match s with
  | [] => []
  | c :: r => if isWhitespace c then marked true r else (gap, c) :: marked false r
  end.

(** Whether a text ends in white space; an empty text ends as it starts. *)
Definition endsInGap (gap : bool) (s : jsstring) : bool :=
  match last s with
  | Some c => isWhitespace c
  | None => gap
  end.

(** [a] has the characters of [b], and a mark only where [b] has one. *)
Definition gapsWithin (a b : list (bool * jschar)) : Prop :=
  Forall2 (fun x y => x.2 = y.2 /\ (x.1 = true -> y.1 = true)) a b.

(** The same for two texts that may go on. *)
Definition gapsLe (gapA : bool) (a : jsstring) (gapB : bool) (b : jsstring) : Prop :=
  gapsWithin (marked gapA a) (marked gapB b)
  /\ (endsInGap gapA a = true -> endsInGap gapB b = true).

(** The lines as one text, with a line feed between two lines. *)
Definition linesJoined (ls : list (list Fragment)) : jsstring :=
  join [10%N] (fragsText <$> ls).

(** The text a token stands for. *)
Definition tokenSource (token : Token) : jsstring :=
  match token with
  | TextToken t => t
  | SpaceToken => [32%N]
  | NewlineToken => [10%N]
  end.

Definition tokensSource (tokens : list Token) : jsstring :=
  concat (tokenSource <$> tokens).

(** A text token holds a word: it is not empty and has no white space. *)
Definition wordToken (token : Token) : Prop :=
  match token with
  | TextToken t => t <> [] /\ Forall (fun c => isWhitespace c = false) t
  | _ => True
  end.

(** The text laid out so far, and the same with a line feed behind every
    line that is complete. *)
Definition laidOut (st : LayoutState) : jsstring :=
  linesText (lines st) ++ fragsText (currentLine st).

Definition linesBroken (ls : list (list Fragment)) : jsstring :=
  concat ((fun l => fragsText l ++ [10%N]) <$> ls).

Definition laidOutBroken (st : LayoutState) : jsstring :=
  linesBroken (lines st) ++ fragsText (currentLine st).

(** All white space of a text is U+0020. *)
Definition plainSpaces (t : jsstring) : Prop :=
  Forall (fun c => isWhitespace c = true -> c = 32%N) t.

(** What holds between two tokens of the layout, [source] being the text of
    the tokens laid out so far: the width of the line is the sum of its
    fragment widths, all of them positive; space fragments hold white space
    only; the text laid out has a space only where the source has white
    space, and where the source has white space the text laid out has a
    space or a line break. *)
Record FlowInv (st : LayoutState) (source : jsstring) : Prop := {
  flow_width : (currentWidth st == lineWidth (currentLine st))%Q;
  flow_positive : Forall (fun f => (0 < width f)%Q) (currentLine st);
  flow_spaces :
    Forall (fun f => isSpace f = true ->
                     Forall (fun c => isWhitespace c = true) (fragText f))
           (currentLine st);
  flow_plain : plainSpaces (laidOut st);
  flow_shown : gapsLe false (laidOut st) false source;
  flow_kept : gapsLe false source true (laidOutBroken st)
}.

(** The segment texts as the tokens give them back. *)
Definition segmentsSource (segs : list Segment) : jsstring :=
  concat ((fun segment => tokensSource (tokenizeFootnoteText (text segment))) <$> segs).

(** The length of the longest run of white space in a text, and of the run
    at its end; [run] is the white space that stands directly before the
    text. *)
Fixpoint longestBlank (run : nat) (s : jsstring) : nat :=
  match s with
  | [] => run
  | c :: r =>
      if isWhitespace c then longestBlank (S run) r
      else Nat.max run (longestBlank 0 r)
  end.

Fixpoint trailingBlank (run : nat) (s : jsstring) : nat :=
  match s with
  | [] => run
  | c :: r => if isWhitespace c then trailingBlank (S run) r else trailingBlank 0 r
  end.

(** No space token follows a space token. *)
Definition singleSpaces (tokens : list Token) : Prop :=
  ~ exists before after, tokens = before ++ SpaceToken :: SpaceToken :: after.

(** No line laid out so far has more than [k] white space characters in a
    row, and the line being filled ends in at most [tr] of them. *)
Record RunInv (st : LayoutState) (k tr : nat) : Prop := {
  run_lines : Forall (fun line => (longestBlank 0 (fragsText line) <= k)%nat) (lines st);
  run_current : (longestBlank 0 (fragsText (currentLine st)) <= k)%nat;
  run_trailing : (trailingBlank 0 (fragsText (currentLine st)) <= tr)%nat
}.

(** Every fragment laid out so far has an [href] that is allowed. *)
Record HrefInv (allowed : option jsstring -> Prop) (st : LayoutState) : Prop := {
  href_lines : Forall (Forall (fun f => allowed (fragHref f))) (lines st);
  href_current : Forall (fun f => allowed (fragHref f)) (currentLine st)
}.

(** A footnote in Cyrillic, which the font of the direct drawing does not
    have, planned for the first page. *)
Definition cyrillicItem : PlanItem :=
  {| planTargetId := js "fn2";
     planTargetIds := [js "fn2"];
     planNumber := 2;
     planNumberLabel := js "2";
     planNumbers := [2%Z];
     planDestName := js "export-footnote-2-fn2";
     planSegments := [ {| text := [1089; 1084; 46]%N; href := None |} ] |}.

Definition cyrillicPlan : FinalPlan :=
  {| finalPage := 1; finalItems := [cyrillicItem] |}.

(** * Properties *)

Lemma collapseUnsafe_token b s : Forall (fun c => isTokenChar c = true) (collapseUnsafe b s).
Proof.
  revert b. induction s as [|c r IH]; intros b; simpl; [constructor|].
  destruct (isTokenChar c) eqn:E.
  - constructor; auto.
  - destruct b; auto.
Qed.

Lemma dropWhile_suffix p s : dropWhile p s `suffix_of` s.
Proof.
  induction s as [|c r IH]; simpl; [done|].
  destruct (p c); [|done]. by apply suffix_cons_r.
Qed.

Lemma Forall_dropWhile (P : jschar -> Prop) p s : Forall P s -> Forall P (dropWhile p s).
Proof.
  intros H. destruct (dropWhile_suffix p s) as [k Hk].
  rewrite Hk in H. by apply Forall_app in H as [_ H].
Qed.

Lemma Forall_dropWhileEnd (P : jschar -> Prop) p s : Forall P s -> Forall P (dropWhileEnd p s).
Proof.
  intros H. unfold dropWhileEnd. apply Forall_rev, Forall_dropWhile, Forall_rev, H.
Qed.

Lemma uint_chars d :
  Forall (fun c => isTokenChar c = true) (js (NilEmpty.string_of_uint d)).
Proof.
  induction d; simpl; try constructor; auto.
Qed.

Lemma stringOfNumber_token n : Forall (fun c => isTokenChar c = true) (stringOfNumber n).
Proof.
  unfold stringOfNumber, NilZero.string_of_int.
  destruct (Z.to_int n) as [d|d]; unfold NilZero.string_of_uint.
  - destruct d; try apply uint_chars. repeat constructor.
  - change (js (String "-" ?s)) with (45%N :: js s).
    constructor; [done|]. destruct d; try apply uint_chars. repeat constructor.
Qed.

Lemma stringOfNumber_nonempty n : stringOfNumber n <> [].
Proof.
  unfold stringOfNumber, NilZero.string_of_int.
  destruct (Z.to_int n) as [d|d]; unfold NilZero.string_of_uint; destruct d; discriminate.
Qed.

(** ** The plan builder: invariants of a page entry *)

Section EntryInvariants.

Variable toLowerCase : jsstring -> jsstring.
Variable definitionsById : gmap jsstring (list Segment).

Local Abbreviation dgk := (definitionGroupKey definitionsById).
Local Abbreviation place := (placeOnPage toLowerCase definitionsById).

Local Abbreviation sameGroup := (sameGroup definitionsById).

Local Abbreviation EntryInv := (EntryInv definitionsById).

Lemma EntryInv_empty p : EntryInv (emptyEntry p).
Proof.
  split; simpl; try done; intros ? ?; rewrite lookup_empty; done.
Qed.

Lemma isContiguous_Some its n found idx :
  isContiguous its n found = Some idx ->
  found = Some idx /\ exists it, its !! idx = Some it /\ lastAssignedNumber it = Some (n - 1)%Z.
Proof.
  unfold isContiguous. destruct found as [i|]; [|done].
  destruct (its !! i) as [it|] eqn:Hit; [|done].
  destruct (lastAssignedNumber it) as [l|] eqn:Hl; [|done].
  destruct (Z.eqb_spec l (n - 1)); [|done].
  intros [= <-]. split; [done|]. exists it. by subst.
Qed.

(** Only the item pushed last can still hold the previous number. *)
Lemma contiguous_is_last e found idx :
  EntryInv e ->
  isContiguous (items e) (nextNumber e) found = Some idx ->
  S idx = length (items e).
Proof.
  intros He Hc. apply isContiguous_Some in Hc as (_ & it & Hit & Hl).
  pose proof (inv_last _ _ He) as HL.
  pose proof (proj1 (Forall_lookup _ _) HL _ _ Hit) as (n & Hn & Hlast).
  rewrite Hl in Hn. injection Hn as <-.
  apply last_Some in Hlast as [init Hnums].
  pose proof (inv_concat _ _ He) as Hcat.
  pose proof (lookup_lt_Some _ _ _ Hit) as Hlt.
  rewrite <- (take_drop_middle _ _ _ Hit) in Hcat.
  rewrite fmap_app, fmap_cons, concat_app, concat_cons, Hnums in Hcat.
  set (A := concat (numbers <$> take idx (items e))) in *.
  set (B := concat (numbers <$> drop (S idx) (items e))) in *.
  assert (HB : B = []).
  { assert (Hlk : seqZ 1 (nextNumber e - 1) !! length (A ++ init) = Some (nextNumber e - 1)%Z).
    { rewrite <- Hcat.
      replace (A ++ (init ++ [(nextNumber e - 1)%Z]) ++ B)
        with ((A ++ init) ++ (nextNumber e - 1)%Z :: B)
        by (rewrite <- !app_assoc; done).
      apply list_lookup_middle. done. }
    apply lookup_seqZ in Hlk as [Hi _].
    assert (Hlen : length (seqZ 1 (nextNumber e - 1)) = Z.to_nat (nextNumber e - 1))
      by apply length_seqZ.
    rewrite <- Hcat in Hlen. rewrite !length_app in Hlen. simpl in Hlen.
    rewrite length_app in Hi.
    destruct B; [done|]. simpl in Hlen. lia. }
  destruct (drop (S idx) (items e)) as [|it2 rest] eqn:Hdrop.
  - apply drop_nil_inv in Hdrop. lia.
  - exfalso.
    assert (Hin : it2 ∈ items e).
    { rewrite <- (take_drop (S idx) (items e)), Hdrop. set_solver. }
    pose proof (proj1 (Forall_forall _ _) HL _ Hin) as (m & _ & Hm).
    apply last_Some in Hm as [init2 Hm].
    subst B. simpl in HB. rewrite Hm in HB.
    destruct init2; discriminate.
Qed.

Lemma findReusable_is_last e t idx :
  EntryInv e ->
  findReusable definitionsById e (nextNumber e) t = Some idx ->
  S idx = length (items e).
Proof.
  intros He. unfold findReusable.
  destruct (isContiguous _ _ (byTargetId e !! t)) as [i|] eqn:H1.
  - intros [= <-]. eauto using contiguous_is_last.
  - destruct (dgk t); [|done]. eauto using contiguous_is_last.
Qed.

(** What [placeOnPage] does when no item can be reused. *)
Lemma placeOnPage_new e c t :
  findReusable definitionsById e (nextNumber e) t = None ->
  place e c t =
    ({| entryPage := entryPage e;
        items := items e ++ [assignNumber (nextNumber e)
                               (newItem toLowerCase definitionsById t (nextNumber e) (c + 1))];
        byTargetId := <[t := length (items e)]> (byTargetId e);
        byDefinitionKey :=
          match dgk t with
          | Some key => <[key := length (items e)]> (byDefinitionKey e)
          | None => byDefinitionKey e
          end;
        nextNumber := (nextNumber e + 1)%Z |},
     (c + 1)%Z,
     destName (newItem toLowerCase definitionsById t (nextNumber e) (c + 1))).
Proof.
  intros Hf. unfold placeOnPage. rewrite Hf.
  rewrite alter_app_r_alt by lia. rewrite Nat.sub_diag. simpl.
  rewrite list_lookup_middle by done. done.
Qed.

(** What it does when an item is reused: the item is the last one. *)
Lemma placeOnPage_reuse e c t idx :
  EntryInv e ->
  findReusable definitionsById e (nextNumber e) t = Some idx ->
  exists init it,
    items e = init ++ [it] /\ idx = length init /\
    place e c t =
      ({| entryPage := entryPage e;
          items := init ++ [assignNumber (nextNumber e) (addTargetId t it)];
          byTargetId := <[t := idx]> (byTargetId e);
          byDefinitionKey :=
            match dgk t with
            | Some key => <[key := idx]> (byDefinitionKey e)
            | None => byDefinitionKey e
            end;
          nextNumber := (nextNumber e + 1)%Z |},
       c, destName it).
Proof.
  intros He Hf. pose proof (findReusable_is_last _ _ _ He Hf) as Hlen.
  destruct (items e) as [|x l] eqn:Hits using rev_ind; [simpl in Hlen; lia|].
  clear IHl. rewrite length_app in Hlen. simpl in Hlen.
  assert (idx = length l) as -> by lia.
  exists l, x. split; [done|]. split; [done|].
  unfold placeOnPage. rewrite Hf, Hits.
  rewrite !alter_app_r_alt by (rewrite ?length_alter, ?length_app; simpl; lia).
  rewrite Nat.sub_diag. simpl.
  rewrite list_lookup_middle by done. done.
Qed.


Lemma seqZ_snoc (n : Z) : (1 <= n)%Z -> seqZ 1 (n - 1) ++ [n] = seqZ 1 (n + 1 - 1).
Proof.
  intros Hn. replace (n + 1 - 1)%Z with ((n - 1) + 1)%Z by lia.
  rewrite seqZ_app by lia. f_equal.
  replace (1 + (n - 1))%Z with n by lia. done.
Qed.

Lemma findReusable_sameGroup e t idx :
  EntryInv e ->
  findReusable definitionsById e (nextNumber e) t = Some idx ->
  exists it, items e !! idx = Some it /\ sameGroup t (targetId it)
             /\ lastAssignedNumber it = Some (nextNumber e - 1)%Z.
Proof.
  intros He. unfold findReusable.
  destruct (isContiguous _ _ (byTargetId e !! t)) as [i|] eqn:H1.
  - intros [= <-]. apply isContiguous_Some in H1 as (Hl & it & Hit & Hn).
    destruct (inv_byTarget _ _ He _ _ Hl) as (it' & Hit' & _ & Hg).
    exists it. split; [done|]. split; [congruence|done].
  - destruct (dgk t) as [key|] eqn:Hk; [|done]. intros H2.
    apply isContiguous_Some in H2 as (Hl & it & Hit & Hn).
    destruct (inv_byKey _ _ He _ _ Hl) as (it' & Hit' & Hg).
    exists it. split; [done|]. split; [|done].
    right. split; [congruence|]. congruence.
Qed.

Lemma sameGroup_key t u key :
  sameGroup t u -> dgk t = Some key -> dgk u = Some key.
Proof. intros [->|[_ <-]]; done. Qed.

Lemma placeOnPage_inv e c t : EntryInv e -> EntryInv (place e c t).1.1.
Proof.
  intros He.
  destruct (findReusable definitionsById e (nextNumber e) t) as [idx|] eqn:Hf.
  - destruct (placeOnPage_reuse e c t idx He Hf) as (init & it & Hits & -> & ->).
    destruct (findReusable_sameGroup _ _ _ He Hf) as (it0 & Hit0 & Hg & Hl).
    rewrite Hits, list_lookup_middle in Hit0 by done. injection Hit0 as <-.
    pose proof (inv_next _ _ He) as Hn.
    pose proof (inv_concat _ _ He) as Hcat.
    pose proof (inv_last _ _ He) as HL.
    pose proof (inv_segments _ _ He) as HS.
    rewrite Hits in Hcat, HL, HS.
    apply Forall_app in HL as [HL1 HL2]. apply Forall_app in HS as [HS1 HS2].
    rewrite fmap_app, concat_app in Hcat. simpl in Hcat. rewrite app_nil_r in Hcat.
    assert (Hkeep : forall i x, items e !! i = Some x ->
              exists x', (init ++ [assignNumber (nextNumber e) (addTargetId t it)]) !! i = Some x'
                         /\ targetId x' = targetId x
                         /\ (forall u, u ∈ targetIds x -> u ∈ targetIds x')).
    { intros i x Hx. rewrite Hits in Hx.
      apply lookup_app_Some in Hx as [Hx|[Hge Hx]].
      - exists x. rewrite lookup_app_l by eauto using lookup_lt_Some. done.
      - destruct (i - length init)%nat as [|k] eqn:Hk; [|destruct k; done].
        injection Hx as <-. assert (i = length init) as -> by lia.
        eexists. rewrite list_lookup_middle by done. split; [done|].
        split; [done|]. simpl. intros u Hu. case_decide; set_solver. }
    split; simpl.
    + lia.
    + rewrite fmap_app, concat_app. simpl. rewrite app_nil_r.
      rewrite app_assoc, Hcat. by apply seqZ_snoc.
    + apply Forall_app. split; [done|]. repeat constructor.
      exists (nextNumber e). simpl. split; [done|]. apply last_snoc.
    + intros u i. rewrite lookup_insert. case_decide as Hdec.
      * intros [= <-]. subst u. eexists. rewrite list_lookup_middle by done.
        split; [done|]. simpl. split; [|done]. case_decide; set_solver.
      * intros Hu. destruct (inv_byTarget _ _ He _ _ Hu) as (x & Hx & Hin & Hgx).
        destruct (Hkeep _ _ Hx) as (x' & Hx' & Ht & Hsub).
        exists x'. rewrite Ht. auto.
    + intros k i Hk.
      assert (Hold : byDefinitionKey e !! k = Some i ->
                exists it1, (init ++ [assignNumber (nextNumber e) (addTargetId t it)]) !! i
                            = Some it1 /\ dgk (targetId it1) = Some k).
      { intros Hu. destruct (inv_byKey _ _ He _ _ Hu) as (x & Hx & Hgx).
        destruct (Hkeep _ _ Hx) as (x' & Hx' & Ht & _).
        exists x'. rewrite Ht. auto. }
      destruct (dgk t) as [key|] eqn:Hkey; [|auto].
      rewrite lookup_insert in Hk. case_decide as Hdec; [|auto].
      injection Hk as <-. subst k. eexists. rewrite list_lookup_middle by done.
      split; [done|]. simpl. eauto using sameGroup_key.
    + apply Forall_app. split; [done|]. repeat constructor. simpl.
      by inversion HS2.
  - rewrite placeOnPage_new by done. simpl.
    pose proof (inv_next _ _ He) as Hn.
    assert (Hkeep : forall i x, items e !! i = Some x ->
              (items e ++ [assignNumber (nextNumber e)
                 (newItem toLowerCase definitionsById t (nextNumber e) (c + 1))]) !! i = Some x).
    { intros i x Hx. rewrite lookup_app_l by eauto using lookup_lt_Some. done. }
    split; simpl.
    + lia.
    + rewrite fmap_app, concat_app. simpl. rewrite (inv_concat _ _ He).
      by apply seqZ_snoc.
    + apply Forall_app. split; [apply He|]. repeat constructor.
      exists (nextNumber e). done.
    + intros u i. rewrite lookup_insert. case_decide as Hdec.
      * intros [= <-]. subst u. eexists. rewrite list_lookup_middle by done.
        split; [done|]. simpl. split; [set_solver|by left].
      * intros Hu. destruct (inv_byTarget _ _ He _ _ Hu) as (x & Hx & Hin & Hgx).
        exists x. auto.
    + intros k i Hk.
      assert (Hold : byDefinitionKey e !! k = Some i ->
                exists it1, (items e ++ [assignNumber (nextNumber e)
                   (newItem toLowerCase definitionsById t (nextNumber e) (c + 1))]) !! i
                            = Some it1 /\ dgk (targetId it1) = Some k).
      { intros Hu. destruct (inv_byKey _ _ He _ _ Hu) as (x & Hx & Hgx). exists x. auto. }
      destruct (dgk t) as [key|] eqn:Hkey; [|auto].
      rewrite lookup_insert in Hk. case_decide as Hdec; [|auto].
      injection Hk as <-. subst k. eexists. rewrite list_lookup_middle by done.
      split; [done|]. done.
    + apply Forall_app. split; [apply He|]. repeat constructor.
Qed.

End EntryInvariants.

(** ** The plan builder: invariants of the whole state *)

Section PlanInvariants.

Variable toLowerCase : jsstring -> jsstring.
Variable markerPages : gmap Z Z.
Variable definitionsById : gmap jsstring (list Segment).

Local Abbreviation step := (processRef toLowerCase markerPages definitionsById).
Local Abbreviation run := (runRefs toLowerCase markerPages definitionsById).
Local Abbreviation place := (placeOnPage toLowerCase definitionsById).
Local Abbreviation onPage := (refsOn markerPages).

Lemma runRefs_snoc refs r : run (refs ++ [r]) = step (run refs) r.
Proof. unfold runRefs. by rewrite fold_left_app. Qed.

Lemma placeOnPage_fields e c t :
  entryPage (place e c t).1.1 = entryPage e
  /\ nextNumber (place e c t).1.1 = (nextNumber e + 1)%Z
  /\ (c <= (place e c t).1.2)%Z.
Proof.
  unfold placeOnPage. destruct (findReusable _ _ _ _); simpl; repeat split; lia.
Qed.

Lemma refsOn_snoc p refs r :
  onPage p (refs ++ [r]) =
  onPage p refs ++ (if bool_decide (resolvedPage markerPages r = Some p) then [r] else []).
Proof. unfold refsOn. rewrite List.filter_app. done. Qed.

Lemma updatesOn_snoc p ups u :
  updatesOn markerPages p (ups ++ [u]) =
  updatesOn markerPages p ups ++
    (if bool_decide (markerPage markerPages (updRefIndex u) = Some p) then [u] else []).
Proof. unfold updatesOn. rewrite List.filter_app. done. Qed.

Local Abbreviation StateInv := (StateInv markerPages definitionsById).

Lemma StateInv_step st refs r :
  StateInv st refs -> StateInv (step st r) (refs ++ [r]).
Proof.
  intros Hst. unfold processRef.
  destruct (refIndex r) as [index|] eqn:Hidx.
  2:{ assert (Hno : forall p, onPage p (refs ++ [r]) = onPage p refs).
      { intros p. rewrite refsOn_snoc. unfold resolvedPage. rewrite Hidx.
        rewrite bool_decide_eq_false_2 by done. by rewrite app_nil_r. }
      destruct Hst. split; intros; rewrite ?Hno; auto. }
  destruct (markerPage markerPages index) as [q|] eqn:Hq.
  2:{ assert (Hno : forall p, onPage p (refs ++ [r]) = onPage p refs).
      { intros p. rewrite refsOn_snoc. unfold resolvedPage. rewrite Hidx, Hq.
        rewrite bool_decide_eq_false_2 by done. by rewrite app_nil_r. }
      destruct Hst. split; simpl; intros; rewrite ?Hno; auto. }
  assert (Hres : resolvedPage markerPages r = Some q).
  { unfold resolvedPage. by rewrite Hidx. }
  set (e0 := default (emptyEntry q) (pages st !! q)).
  assert (He0 : entryPage e0 = q /\ EntryInv definitionsById e0
                /\ (nextNumber e0 - 1)%Z = Z.of_nat (length (onPage q refs))).
  { subst e0. destruct (pages st !! q) as [e|] eqn:He; simpl.
    - destruct (st_entry _ _ _ _ Hst _ _ He) as (? & ? & ? & ?). done.
    - rewrite (st_absent _ _ _ _ Hst _ He). split; [done|].
      split; [apply EntryInv_empty|done]. }
  destruct He0 as (Hpage & Hinv & Hnext).
  pose proof (placeOnPage_fields e0 (destinationCounter st) (refTargetId r))
    as (Hf1 & Hf2 & Hf3).
  pose proof (placeOnPage_inv toLowerCase definitionsById e0
                (destinationCounter st) (refTargetId r) Hinv) as Hinv'.
  destruct (place e0 (destinationCounter st) (refTargetId r)) as [[e' c'] dest] eqn:Hpl.
  simpl in *.
  assert (Hsame : onPage q (refs ++ [r]) = onPage q refs ++ [r]).
  { rewrite refsOn_snoc. by rewrite bool_decide_eq_true_2. }
  assert (Hother : forall p, p <> q -> onPage p (refs ++ [r]) = onPage p refs).
  { intros p Hp. rewrite refsOn_snoc. rewrite bool_decide_eq_false_2; [by rewrite app_nil_r|].
    rewrite Hres. congruence. }
  split; simpl.
  - pose proof (st_counter _ _ _ _ Hst). lia.
  - intros p e. rewrite lookup_insert. case_decide as Hd.
    + intros [= <-]. subst p. rewrite Hsame, length_app. simpl.
      split; [congruence|]. split; [done|]. split; [lia|].
      intros Hnil. by apply app_eq_nil in Hnil as [_ ?].
    + intros He. rewrite Hother by done. by apply (st_entry _ _ _ _ Hst).
  - intros p. rewrite lookup_insert. case_decide as Hd; [done|].
    intros He. rewrite Hother by done. by apply (st_absent _ _ _ _ Hst).
  - intros p. rewrite updatesOn_snoc. simpl. rewrite Hq.
    rewrite fmap_app. rewrite (st_updates _ _ _ _ Hst).
    case_bool_decide as Hd.
    + injection Hd as <-. rewrite Hsame, length_app. simpl.
      replace (nextNumber e0) with (Z.of_nat (length (onPage q refs)) + 1)%Z by lia.
      replace (Z.of_nat (length (onPage q refs) + 1)) with
        (Z.of_nat (length (onPage q refs)) + 1 + 1 - 1)%Z by lia.
      rewrite <- seqZ_snoc by lia. do 2 f_equal. lia.
    + rewrite Hother by congruence. by rewrite app_nil_r.
Qed.

Lemma StateInv_run refs : StateInv (run refs) refs.
Proof.
  induction refs as [|r refs IH] using rev_ind.
  - split; simpl; done.
  - rewrite runRefs_snoc. by apply StateInv_step.
Qed.

(** The page plans returned are those of the entries of the state. *)
Lemma elem_of_orderedPages st pp :
  pp ∈ orderedPages st <-> exists p e, pages st !! p = Some e /\ pp = pagePlanOf e.
Proof.
  unfold orderedPages. rewrite list_elem_of_omap. split.
  - intros (p & _ & Hp). destruct (pages st !! p) as [e|] eqn:He; [|done].
    injection Hp as <-. eauto.
  - intros (p & e & He & ->). exists p. rewrite He. split; [|done].
    rewrite merge_sort_Permutation. apply list_elem_of_fmap.
    exists (p, e). split; [done|]. by apply elem_of_map_to_list.
Qed.

Lemma planItemsOn_build refs p :
  planItemsOn (buildFootnotePagePlan toLowerCase markerPages definitionsById refs) p
  = match pages (run refs) !! p with
    | Some e => planItemOf <$> items e
    | None => []
    end.
Proof.
  unfold planItemsOn, buildFootnotePagePlan. simpl.
  pose proof (StateInv_run refs) as Hst.
  destruct (List.find _ _) as [pp|] eqn:Hfind.
  - apply List.find_some in Hfind as [Hin Hp].
    apply list_elem_of_In, elem_of_orderedPages in Hin as (p' & e & He & ->).
    destruct (st_entry _ _ _ _ Hst _ _ He) as (Hpage & _).
    simpl in Hp. apply Z.eqb_eq in Hp. rewrite Hpage in Hp. subst p'.
    rewrite He. done.
  - destruct (pages (run refs) !! p) as [e|] eqn:He; [|done].
    exfalso. destruct (st_entry _ _ _ _ Hst _ _ He) as (Hpage & _).
    pose proof (List.find_none _ _ Hfind (pagePlanOf e)) as Hn.
    simpl in Hn. rewrite Hpage, Z.eqb_refl in Hn.
    assert (pagePlanOf e ∈ orderedPages (run refs)) as Hin
      by (apply elem_of_orderedPages; eauto).
    apply list_elem_of_In in Hin. by specialize (Hn Hin).
Qed.

End PlanInvariants.

Section PlanTheorems.

Variable toLowerCase : jsstring -> jsstring.
Variable markerPages : gmap Z Z.
Variable definitionsById : gmap jsstring (list Segment).

Local Abbreviation run := (runRefs toLowerCase markerPages definitionsById).
Local Abbreviation build := (buildFootnotePagePlan toLowerCase markerPages definitionsById).

Lemma omap_total {A B} (f : A -> option B) (g : A -> B) (l : list A) :
  (forall x, x ∈ l -> f x = Some (g x)) -> omap f l = g <$> l.
Proof.
  induction l as [|x l IH]; intros H; simpl; [done|].
  rewrite H by set_solver. simpl. f_equal. apply IH. intros y Hy. apply H. set_solver.
Qed.

(** The pages of the returned plan are the keys of the page map, ascending. *)
Lemma planPages_keys refs :
  page <$> planPages (build refs)
  = merge_sort Z.le (map_to_list (pages (run refs))).*1.
Proof.
  unfold buildFootnotePagePlan, orderedPages. simpl.
  pose proof (StateInv_run toLowerCase markerPages definitionsById refs) as Hst.
  set (keys := merge_sort Z.le _).
  assert (Hk : forall p, p ∈ keys -> is_Some (pages (run refs) !! p)).
  { intros p. subst keys. rewrite merge_sort_Permutation.
    intros ([p' e] & -> & He)%list_elem_of_fmap. apply elem_of_map_to_list in He. eauto. }
  clearbody keys. induction keys as [|p keys IH]; simpl; [done|].
  destruct (Hk p) as [e He]; [set_solver|]. rewrite He. simpl.
  destruct (st_entry _ _ _ _ Hst _ _ He) as (-> & _).
  f_equal. apply IH. intros q Hq. apply Hk. set_solver.
Qed.

Lemma planPages_NoDup refs : NoDup (page <$> planPages (build refs)).
Proof.
  rewrite planPages_keys, merge_sort_Permutation. apply NoDup_fst_map_to_list.
Qed.

Lemma planPages_Sorted refs : Sorted Z.le (page <$> planPages (build refs)).
Proof. rewrite planPages_keys. apply (Sorted_merge_sort Z.le). Qed.

(** C1. For every list of references and every marker map, the numbers the
    returned plan gives on any page [p] are exactly 1..N in reference order,
    where N is the number of references resolved to [p]: the [numbers] of
    the items of the page, concatenated in item order, are 1..N; the rewrites
    of the references on the page carry 1..N in reference order; the page has
    a plan exactly when N is positive, and no page has two plans. *)
Theorem page_numbers_are_one_to_N (refs : list FootnoteRef) (p : Z) :
  let plan := build refs in
  let N := Z.of_nat (length (refsOn markerPages p refs)) in
  (forall pp, pp ∈ planPages plan -> page pp = p ->
     concat (planNumbers <$> planItems pp) = seqZ 1 N)
  /\ ((exists pp, pp ∈ planPages plan /\ page pp = p) <-> (0 < N)%Z)
  /\ newNumber <$> updatesOn markerPages p (planRefUpdates plan) = seqZ 1 N
  /\ NoDup (page <$> planPages plan).
Proof.
  intros plan N. subst plan N.
  pose proof (StateInv_run toLowerCase markerPages definitionsById refs) as Hst.
  split; [|split; [|split]].
  - intros pp Hin Hp. apply elem_of_orderedPages in Hin as (q & e & He & ->).
    destruct (st_entry _ _ _ _ Hst _ _ He) as (Hq & Hinv & Hn & _).
    simpl in Hp. rewrite Hq in Hp. subst q. simpl.
    rewrite <- list_fmap_compose.
    rewrite <- Hn, <- (inv_concat _ _ Hinv). done.
  - split.
    + intros (pp & Hin & Hp). apply elem_of_orderedPages in Hin as (q & e & He & ->).
      destruct (st_entry _ _ _ _ Hst _ _ He) as (Hq & _ & _ & Hne).
      simpl in Hp. rewrite Hq in Hp. subst q.
      destruct (refsOn markerPages p refs); [done|]. simpl. lia.
    + intros HN. destruct (pages (run refs) !! p) as [e|] eqn:He.
      * exists (pagePlanOf e). split; [apply elem_of_orderedPages; eauto|].
        simpl. by destruct (st_entry _ _ _ _ Hst _ _ He).
      * rewrite (st_absent _ _ _ _ Hst _ He) in HN. simpl in HN. lia.
  - apply (st_updates _ _ _ _ Hst).
  - apply planPages_NoDup.
Qed.

End PlanTheorems.

(** ** The definition group key *)

Lemma bar_split (p q a b : list N) :
  hasNoBar p = true -> hasNoBar q = true ->
  p ++ 124%N :: a = q ++ 124%N :: b -> p = q /\ a = b.
Proof.
  revert q. induction p as [|c p IH]; intros [|d q] Hp Hq Heq; simpl in *.
  - by injection Heq.
  - injection Heq as <- _. by apply andb_prop in Hq as [Hq _].
  - injection Heq as -> _. by apply andb_prop in Hp as [Hp _].
  - injection Heq as -> Heq. apply andb_prop in Hp as [_ Hp].
    apply andb_prop in Hq as [_ Hq]. destruct (IH q Hp Hq Heq) as [-> ->]. done.
Qed.

Lemma bar_absent (p q b : list N) : hasNoBar p = true -> p <> q ++ 124%N :: b.
Proof.
  intros Hp ->. unfold hasNoBar in Hp. rewrite forallb_app in Hp.
  apply andb_prop in Hp as [_ Hp]. simpl in Hp. done.
Qed.

Lemma join_bar_inj (l1 l2 : list (list N)) :
  Forall (fun p => hasNoBar p = true /\ p <> []) l1 ->
  Forall (fun p => hasNoBar p = true /\ p <> []) l2 ->
  join (js "|") l1 = join (js "|") l2 -> l1 = l2.
Proof.
  change (js "|") with [124%N].
  revert l2. induction l1 as [|p l1 IH]; intros l2 H1 H2 Heq.
  - destruct l2 as [|q l2]; [done|]. exfalso.
    apply Forall_cons in H2 as [[_ Hq] _].
    destruct l2; simpl in Heq; [by subst|]. by destruct q.
  - apply Forall_cons in H1 as [[Hp Hpne] H1].
    destruct l2 as [|q l2].
    { exfalso. destruct l1; simpl in Heq; [by subst|]. by destruct p. }
    apply Forall_cons in H2 as [[Hq Hqne] H2].
    destruct l1 as [|p' l1], l2 as [|q' l2].
    + simpl in Heq. by subst.
    + exfalso. cbn [join] in Heq. simpl in Heq. exact (bar_absent _ _ _ Hp Heq).
    + exfalso. cbn [join] in Heq. simpl in Heq. symmetry in Heq.
      exact (bar_absent _ _ _ Hq Heq).
    + change (join [124%N] (p :: p' :: l1)) with (p ++ 124%N :: join [124%N] (p' :: l1)) in Heq.
      change (join [124%N] (q :: q' :: l2)) with (q ++ 124%N :: join [124%N] (q' :: l2)) in Heq.
      apply bar_split in Heq as [-> Heq]; [|done|done].
      f_equal. by apply IH.
Qed.

Lemma colons_split (h1 h2 t1 t2 : list N) :
  colonsApart h1 = true -> colonsApart h2 = true ->
  h1 ++ 58%N :: 58%N :: t1 = h2 ++ 58%N :: 58%N :: t2 -> h1 = h2 /\ t1 = t2.
Proof.
  revert h2. induction h1 as [|c h1 IH]; intros [|d h2] H1 H2 Heq.
  - simpl in Heq. by injection Heq.
  - exfalso. simpl in Heq. injection Heq as <- Heq.
    cbn [colonsApart] in H2. apply andb_prop in H2 as [H2 _].
    destruct h2 as [|e h2]; [done|]. simpl in Heq. injection Heq as <- _. done.
  - exfalso. simpl in Heq. injection Heq as -> Heq.
    cbn [colonsApart] in H1. apply andb_prop in H1 as [H1 _].
    destruct h1 as [|e h1]; [done|]. simpl in Heq. injection Heq as -> _. done.
  - simpl in Heq. injection Heq as -> Heq.
    cbn [colonsApart] in H1, H2.
    apply andb_prop in H1 as [_ H1]. apply andb_prop in H2 as [_ H2].
    destruct (IH h2 H1 H2 Heq) as [-> ->]. done.
Qed.

Lemma hasNoBar_app (a b : list N) : hasNoBar (a ++ b) = hasNoBar a && hasNoBar b.
Proof. apply forallb_app. Qed.

(** The part of the key of a segment that is safe: the [href], [::] and the
    text, as they are. *)
Lemma keySafe_part (s : Segment) :
  keySafe s ->
  (match href s with Some h => trim h | None => [] end)
    ++ js "::" ++ trim (collapseWhitespace false (text s))
  = default [] (href s) ++ 58%N :: 58%N :: text s
  /\ colonsApart (default [] (href s)) = true
  /\ hasNoBar (default [] (href s) ++ 58%N :: 58%N :: text s) = true
  /\ (href s = None <-> default [] (href s) = []).
Proof.
  intros (Ht & Hbar & Hh). rewrite Ht. destruct (href s) as [h|]; simpl.
  - destruct Hh as (Hne & Htrim & Hb & Hc). rewrite Htrim.
    split; [done|]. split; [done|]. split; [|split; [done|by intros ?]].
    rewrite hasNoBar_app, Hb. simpl. exact Hbar.
  - split; [done|]. split; [done|]. split; [exact Hbar|done].
Qed.

Lemma keySafe_part_inj (s1 s2 : Segment) :
  keySafe s1 -> keySafe s2 ->
  (match href s1 with Some h => trim h | None => [] end)
    ++ js "::" ++ trim (collapseWhitespace false (text s1))
  = (match href s2 with Some h => trim h | None => [] end)
    ++ js "::" ++ trim (collapseWhitespace false (text s2)) ->
  s1 = s2.
Proof.
  intros H1 H2.
  destruct (keySafe_part s1 H1) as (-> & Hc1 & _ & Hn1).
  destruct (keySafe_part s2 H2) as (-> & Hc2 & _ & Hn2).
  intros Heq. apply colons_split in Heq as [Hh Ht]; [|done|done].
  destruct s1 as [t1 h1], s2 as [t2 h2]. simpl in *. subst t2. f_equal.
  destruct h1 as [h1|], h2 as [h2|]; simpl in *; try done.
  - by subst.
  - exfalso. subst h1. destruct H1 as (_ & _ & Hne & _). done.
  - exfalso. subst h2. destruct H2 as (_ & _ & Hne & _). done.
Qed.

Lemma join_first_char (sep p : list N) (l : list (list N)) (c : N) :
  c ∈ p -> c ∈ join sep (p :: l).
Proof.
  intros Hc. destruct l; cbn [join]; [done|]. apply elem_of_app. by left.
Qed.

(** Segment lists that are safe have the same key only when they are the
    same list once cloned. *)
Lemma key_injective (A B : list Segment) :
  Forall keySafe (cloneFootnoteSegments A) ->
  Forall keySafe (cloneFootnoteSegments B) ->
  buildFootnoteSegmentsKey A = buildFootnoteSegmentsKey B ->
  cloneFootnoteSegments A = cloneFootnoteSegments B.
Proof.
  pose (part := fun segment : Segment =>
       (match href segment with Some h => trim h | None => [] end)
         ++ js "::" ++ trim (collapseWhitespace false (text segment))).
  change (Forall keySafe (cloneFootnoteSegments A) ->
          Forall keySafe (cloneFootnoteSegments B) ->
          match cloneFootnoteSegments A with
          | [] => js "__EMPTY__"
          | _ => join (js "|") (List.map part (cloneFootnoteSegments A))
          end
          = match cloneFootnoteSegments B with
            | [] => js "__EMPTY__"
            | _ => join (js "|") (List.map part (cloneFootnoteSegments B))
            end ->
          cloneFootnoteSegments A = cloneFootnoteSegments B).
  assert (Hpart : forall s, keySafe s ->
            part s = default [] (href s) ++ 58%N :: 58%N :: text s).
  { intros s Hs. exact (proj1 (keySafe_part s Hs)). }
  assert (Hinj : forall s1 s2, keySafe s1 -> keySafe s2 -> part s1 = part s2 -> s1 = s2).
  { intros s1 s2. exact (keySafe_part_inj s1 s2). }
  assert (Hcolon : forall s l, keySafe s -> 58%N ∈ join (js "|") (List.map part (s :: l))).
  { intros s l Hs. cbn [List.map]. apply join_first_char. rewrite (Hpart s Hs).
    apply elem_of_app. right. by left. }
  assert (Hempty : ~ 58%N ∈ js "__EMPTY__").
  { intros H. vm_compute in H. repeat (apply elem_of_cons in H as [H|H]; [done|]).
    by apply elem_of_nil in H. }
  assert (Hparts : forall l, Forall keySafe l ->
            Forall (fun p : jsstring => hasNoBar p = true /\ p <> []) (List.map part l)).
  { intros l Hl. apply Forall_forall. intros x Hx.
    apply list_elem_of_In, in_map_iff in Hx as (s & <- & Hs).
    apply list_elem_of_In in Hs.
    pose proof (proj1 (Forall_forall _ _) Hl s Hs) as Hsafe.
    rewrite (Hpart s Hsafe). destruct (keySafe_part s Hsafe) as (_ & _ & Hb & _).
    split; [exact Hb|]. by destruct (default [] (href s)). }
  clearbody part.
  destruct (cloneFootnoteSegments A) as [|a la],
           (cloneFootnoteSegments B) as [|b lb]; intros H1 H2 Heq.
  - done.
  - exfalso. apply Hempty. rewrite Heq. apply Hcolon. by apply Forall_cons in H2 as [? _].
  - exfalso. apply Hempty. rewrite <- Heq. apply Hcolon. by apply Forall_cons in H1 as [? _].
  - apply join_bar_inj in Heq; [|by apply Hparts|by apply Hparts].
    revert Heq H1 H2. generalize (a :: la) (b :: lb). clear -Hinj.
    intros l1. induction l1 as [|s1 l1 IH]; intros [|s2 l2] Heq H1 H2; try done.
    cbn [List.map] in Heq. injection Heq as Hs Hl.
    apply Forall_cons in H1 as [Hs1 H1]. apply Forall_cons in H2 as [Hs2 H2].
    f_equal; [by apply Hinj|by apply IH].
Qed.

(** ** The plan builder: merging of consecutive references *)

Section Merging.

Variable toLowerCase : jsstring -> jsstring.
Variable markerPages : gmap Z Z.
Variable definitionsById : gmap jsstring (list Segment).

Local Abbreviation dgk := (definitionGroupKey definitionsById).
Local Abbreviation step := (processRef toLowerCase markerPages definitionsById).
Local Abbreviation run := (runRefs toLowerCase markerPages definitionsById).
Local Abbreviation build := (buildFootnotePagePlan toLowerCase markerPages definitionsById).
Local Abbreviation place := (placeOnPage toLowerCase definitionsById).
Local Abbreviation onPage := (refsOn markerPages).
Local Abbreviation same := (sameGroup definitionsById).

Local Abbreviation JustPlaced := (JustPlaced definitionsById).

Lemma placeOnPage_JustPlaced e c t :
  EntryInv definitionsById e ->
  exists init it, JustPlaced (place e c t).1.1 t init it.
Proof.
  intros He.
  destruct (findReusable definitionsById e (nextNumber e) t) as [idx|] eqn:Hf.
  - destruct (placeOnPage_reuse toLowerCase _ e c t idx He Hf) as (init & it & Hits & -> & ->).
    exists init, (assignNumber (nextNumber e) (addTargetId t it)).
    split; [done|]. simpl. split; [f_equal; lia|].
    split; [by rewrite lookup_insert_eq|].
    intros k ->. by rewrite lookup_insert_eq.
  - rewrite placeOnPage_new by done. simpl.
    eexists _, _. split; [done|]. simpl. split; [f_equal; lia|].
    split; [by rewrite lookup_insert_eq|].
    intros k ->. by rewrite lookup_insert_eq.
Qed.

Lemma same_trans_via t u x : same t x -> same u x -> same t u.
Proof.
  unfold sameGroup. intros [->|[H1 H2]] [->|[H3 H4]];
    first [by left | right; split; congruence].
Qed.

Lemma JustPlaced_item e t init it :
  EntryInv definitionsById e -> JustPlaced e t init it -> same t (targetId it).
Proof.
  intros He (Hits & _ & Ht & _).
  destruct (inv_byTarget _ _ He _ _ Ht) as (x & Hx & _ & Hg).
  rewrite Hits, list_lookup_middle in Hx by done. by injection Hx as <-.
Qed.

(** A reference of the same group right after: the last item is reused. *)
Lemma findReusable_merge e t1 t2 init it :
  EntryInv definitionsById e -> JustPlaced e t1 init it -> same t2 t1 ->
  findReusable definitionsById e (nextNumber e) t2 = Some (length init).
Proof.
  intros He (Hits & Hl & Ht & Hk) Hs.
  assert (Hcont : forall found, found = Some (length init) ->
            isContiguous (items e) (nextNumber e) found = Some (length init)).
  { intros found ->. unfold isContiguous. rewrite Hits, list_lookup_middle by done.
    rewrite Hl, Z.eqb_refl. done. }
  unfold findReusable.
  destruct (isContiguous _ _ (byTargetId e !! t2)) as [i|] eqn:H1.
  - pose proof (contiguous_is_last _ _ _ _ He H1) as Hi.
    rewrite Hits, length_app in Hi. simpl in Hi. f_equal. lia.
  - destruct Hs as [->|[Hne Heq]].
    + rewrite Hcont in H1; done.
    + destruct (dgk t2) as [k|] eqn:Hk2; [|done].
      apply Hcont, Hk. congruence.
Qed.

(** A reference of another group right after: nothing can be reused. *)
Lemma findReusable_other e t1 tB init it :
  EntryInv definitionsById e -> JustPlaced e t1 init it -> ~ same tB t1 ->
  findReusable definitionsById e (nextNumber e) tB = None.
Proof.
  intros He Hj Hd.
  destruct (findReusable definitionsById e (nextNumber e) tB) as [idx|] eqn:Hf; [|done].
  exfalso. apply Hd.
  destruct (findReusable_sameGroup _ _ _ _ He Hf) as (x & Hx & Hg & _).
  pose proof (findReusable_is_last _ _ _ _ He Hf) as Hlen.
  pose proof (JustPlaced_item _ _ _ _ He Hj) as Hg1.
  destruct Hj as (Hits & _).
  rewrite Hits, length_app in Hlen. simpl in Hlen.
  assert (idx = length init) as -> by lia.
  rewrite Hits, list_lookup_middle in Hx by done. injection Hx as <-.
  eauto using same_trans_via.
Qed.

(** References that resolve elsewhere leave the entry of [p] alone. *)
Lemma processRef_other_page st r p :
  resolvedPage markerPages r <> Some p -> pages (step st r) !! p = pages st !! p.
Proof.
  unfold processRef, resolvedPage. destruct (refIndex r) as [i|]; [|done].
  destruct (markerPage markerPages i) as [q|]; [|done].
  intros Hq. destruct (place _ _ _) as [[e' c'] d]. simpl.
  rewrite lookup_insert_ne; congruence.
Qed.

Lemma fold_other_pages mid st p :
  refsOn markerPages p mid = [] ->
  pages (fold_left step mid st) !! p = pages st !! p.
Proof.
  revert st. induction mid as [|r mid IH]; intros st Hmid; simpl; [done|].
  unfold refsOn in Hmid. simpl in Hmid. case_bool_decide as Hr; [done|].
  rewrite IH by done. by apply processRef_other_page.
Qed.

Lemma processRef_on_page st r p :
  resolvedPage markerPages r = Some p ->
  pages (step st r) !! p =
    Some (place (default (emptyEntry p) (pages st !! p))
                (destinationCounter st) (refTargetId r)).1.1.
Proof.
  unfold processRef, resolvedPage. destruct (refIndex r) as [i|]; [|done].
  intros ->. destruct (place _ _ _) as [[e' c'] d]. simpl.
  by rewrite lookup_insert_eq.
Qed.

(** When the references resolved to [p] end with [r1], the entry of [p] is
    the one left by the step of [r1]. *)
Lemma filter_snoc_split {A} (f : A -> bool) (l prior : list A) (x : A) :
  List.filter f l = prior ++ [x] ->
  exists pre mid, l = pre ++ x :: mid /\ List.filter f pre = prior
                  /\ List.filter f mid = [].
Proof.
  induction l as [|y l IH] using rev_ind; intros H.
  - by destruct prior.
  - rewrite List.filter_app in H. simpl in H. destruct (f y) eqn:Hy.
    + apply app_inj_tail in H as [H ->]. by exists l, [].
    + rewrite app_nil_r in H. destruct (IH H) as (pre & mid & -> & Hp & Hm).
      exists pre, (mid ++ [y]). rewrite <- app_assoc. split; [done|]. split; [done|].
      rewrite List.filter_app, Hm. simpl. by rewrite Hy.
Qed.

Lemma entry_after_last refs p prior r1 :
  onPage p refs = prior ++ [r1] ->
  exists e init it,
    pages (run refs) !! p = Some e /\ EntryInv definitionsById e
    /\ JustPlaced e (refTargetId r1) init it
    /\ (nextNumber e - 1)%Z = Z.of_nat (length (onPage p refs)).
Proof.
  intros Hon. pose proof (StateInv_run toLowerCase markerPages definitionsById refs) as Hst.
  pose proof Hon as Hsplit.
  apply filter_snoc_split in Hsplit as (pre & mid & Hrefs & Hpre & Hmid).
  assert (Hr1 : resolvedPage markerPages r1 = Some p).
  { assert (Hin : In r1 (onPage p refs)) by (rewrite Hon; apply in_or_app; right; by left).
    apply List.filter_In in Hin as [_ Hb]. by apply bool_decide_eq_true in Hb. }
  pose proof (StateInv_run toLowerCase markerPages definitionsById pre) as Hpre_inv.
  assert (Hrun : pages (run refs) !! p = pages (step (run pre) r1) !! p).
  { rewrite Hrefs. unfold runRefs. rewrite fold_left_app. simpl.
    by apply fold_other_pages. }
  rewrite processRef_on_page in Hrun by done.
  set (e0 := default (emptyEntry p) (pages (run pre) !! p)) in *.
  assert (He0 : EntryInv definitionsById e0).
  { subst e0. destruct (pages (run pre) !! p) as [e|] eqn:He; simpl.
    - by destruct (st_entry _ _ _ _ Hpre_inv _ _ He) as (? & ? & ?).
    - apply EntryInv_empty. }
  destruct (placeOnPage_JustPlaced e0 (destinationCounter (run pre)) (refTargetId r1) He0)
    as (init & it & Hj).
  eexists _, init, it. split; [exact Hrun|].
  destruct (st_entry _ _ _ _ Hst _ _ Hrun) as (_ & Hinv & Hn & _). done.
Qed.


(** The entry when the references resolved to [p] end with [r1; rB] and [rB]
    is of another group than [r1]: [rB] got an item of its own, and the maps
    still send the target of [r1] to the item before it. *)
Lemma entry_after_other refs p prior r1 rB :
  onPage p refs = prior ++ [r1; rB] ->
  ~ same (refTargetId rB) (refTargetId r1) ->
  exists e init it xB,
    pages (run refs) !! p = Some e
    /\ items e = init ++ [it; xB]
    /\ lastAssignedNumber it = Some (nextNumber e - 2)%Z
    /\ byTargetId e !! refTargetId r1 = Some (length init)
    /\ (forall k, dgk (refTargetId r1) = Some k ->
          byDefinitionKey e !! k = Some (length init))
    /\ (nextNumber e - 1)%Z = Z.of_nat (length (onPage p refs)).
Proof.
  intros Hon Hd.
  pose proof (StateInv_run toLowerCase markerPages definitionsById refs) as Hst.
  pose proof Hon as Hsplit.
  replace (prior ++ [r1; rB]) with ((prior ++ [r1]) ++ [rB]) in Hsplit
    by (by rewrite <- app_assoc).
  apply filter_snoc_split in Hsplit as (pre & mid & Hrefs & Hpre & Hmid).
  assert (HrB : resolvedPage markerPages rB = Some p).
  { assert (Hin : In rB (onPage p refs))
      by (rewrite Hon; apply in_or_app; right; right; by left).
    apply List.filter_In in Hin as [_ Hb]. by apply bool_decide_eq_true in Hb. }
  destruct (entry_after_last pre p prior r1 Hpre) as (e1 & init & it & He1 & Hinv1 & Hj & _).
  assert (Hrun : pages (run refs) !! p = pages (step (run pre) rB) !! p).
  { rewrite Hrefs. unfold runRefs. rewrite fold_left_app. simpl.
    by apply fold_other_pages. }
  rewrite processRef_on_page in Hrun by done. rewrite He1 in Hrun. simpl in Hrun.
  rewrite placeOnPage_new in Hrun by eauto using findReusable_other.
  simpl in Hrun. destruct Hj as (Hits & Hl & Ht & Hk).
  eexists _, init, it, _. split; [exact Hrun|]. simpl.
  split; [by rewrite Hits, <- app_assoc|].
  split; [rewrite Hl; f_equal; lia|].
  assert (Hne : refTargetId rB <> refTargetId r1) by (intros Heq; apply Hd; by left).
  split; [by rewrite lookup_insert_ne|].
  split.
  - intros k Hk1. destruct (dgk (refTargetId rB)) as [kB|] eqn:HkB; [|auto].
    rewrite lookup_insert_ne; [auto|]. intros ->. apply Hd. right.
    split; congruence.
  - destruct (st_entry _ _ _ _ Hst _ _ Hrun) as (_ & _ & Hn & _). done.
Qed.

Lemma identical_definition_same t u :
  definitionOf definitionsById u <> None ->
  definitionsById !! t = definitionsById !! u ->
  same t u.
Proof.
  intros Hu Heq. right.
  assert (Hdef : definitionOf definitionsById t = definitionOf definitionsById u)
    by (unfold definitionOf; by rewrite Heq).
  unfold definitionGroupKey, segmentsFor. rewrite Hdef.
  destruct (definitionOf definitionsById u); done.
Qed.

(** A reference of another group right after: it gets an item of its own. *)
Lemma entry_step_new refs p prior r1 r :
  onPage p refs = prior ++ [r1] ->
  resolvedPage markerPages r = Some p ->
  ~ same (refTargetId r) (refTargetId r1) ->
  exists e,
    pages (run refs) !! p = Some e
    /\ (nextNumber e - 1)%Z = Z.of_nat (length (onPage p refs))
    /\ findReusable definitionsById e (nextNumber e) (refTargetId r) = None.
Proof.
  intros Hon Hr Hd.
  destruct (entry_after_last refs p prior r1 Hon) as (e & init & it & He & Hinv & Hj & Hn).
  exists e. split; [done|]. split; [done|]. eauto using findReusable_other.
Qed.

(** Footnotes without a definition are grouped with no other footnote. *)
Lemma undefined_not_same t u :
  t <> u ->
  definitionOf definitionsById t = None \/ definitionOf definitionsById u = None ->
  ~ same t u.
Proof.
  intros Hne Hdef [?|[Hk Heq]]; [done|].
  unfold definitionGroupKey in *.
  destruct Hdef as [Hd|Hd]; rewrite Hd in *; [done|].
  destruct (definitionOf definitionsById t); done.
Qed.

(** Footnotes that show different segments, all of them safe, have
    different keys. *)
Lemma different_segments_not_same t u :
  t <> u ->
  Forall keySafe (shownSegments definitionsById t) ->
  Forall keySafe (shownSegments definitionsById u) ->
  shownSegments definitionsById t <> shownSegments definitionsById u ->
  ~ same t u.
Proof.
  intros Hne Ht Hu Hdiff [?|[Hk Heq]]; [done|]. apply Hdiff.
  unfold definitionGroupKey in *.
  destruct (definitionOf definitionsById t); [|done].
  destruct (definitionOf definitionsById u); [|done].
  injection Heq as Heq.
  by apply key_injective.
Qed.


End Merging.


(** ** The plan builder: unresolved references and missing definitions *)

Section Degradation.

Variable toLowerCase : jsstring -> jsstring.
Variable markerPages : gmap Z Z.
Variable definitionsById : gmap jsstring (list Segment).

Local Abbreviation dgk := (definitionGroupKey definitionsById).
Local Abbreviation step := (processRef toLowerCase markerPages definitionsById).
Local Abbreviation run := (runRefs toLowerCase markerPages definitionsById).
Local Abbreviation build := (buildFootnotePagePlan toLowerCase markerPages definitionsById).
Local Abbreviation place := (placeOnPage toLowerCase definitionsById).

Lemma unresolved_run refs :
  unresolvedRefs (run refs) = unresolvedIndices markerPages refs.
Proof.
  induction refs as [|r refs IH] using rev_ind; [done|].
  rewrite runRefs_snoc. unfold unresolvedIndices. rewrite omap_app. simpl.
  fold (unresolvedIndices markerPages refs). rewrite <- IH.
  unfold processRef. destruct (refIndex r) as [i|]; [|by rewrite app_nil_r].
  destruct (markerPage markerPages i) as [q|]; [|done].
  destruct (place _ _ _) as [[e' c'] d]. simpl. by rewrite app_nil_r.
Qed.

Lemma updates_run refs :
  updRefIndex <$> refUpdates (run refs) = resolvedIndices markerPages refs.
Proof.
  induction refs as [|r refs IH] using rev_ind; [done|].
  rewrite runRefs_snoc. unfold resolvedIndices. rewrite omap_app. simpl.
  fold (resolvedIndices markerPages refs). rewrite <- IH.
  unfold processRef. destruct (refIndex r) as [i|]; [|by rewrite app_nil_r].
  destruct (markerPage markerPages i) as [q|]; [|by rewrite app_nil_r].
  destruct (place _ _ _) as [[e' c'] d]. simpl. by rewrite fmap_app.
Qed.

(** The steps never read the list of unresolved references. *)
Lemma step_agree st st' r :
  agreeButUnresolved st st' -> agreeButUnresolved (step st r) (step st' r).
Proof.
  intros (Hp & Hu & Hc). unfold processRef.
  destruct (refIndex r) as [i|]; [|done].
  destruct (markerPage markerPages i) as [q|]; [|done].
  rewrite Hp, Hc. destruct (place _ _ _) as [[e' c'] d].
  repeat split; simpl; congruence.
Qed.

Lemma fold_agree refs st st' :
  agreeButUnresolved st st' ->
  agreeButUnresolved (fold_left step refs st) (fold_left step refs st').
Proof.
  revert st st'. induction refs as [|r refs IH]; intros st st' H; simpl; [done|].
  apply IH, step_agree, H.
Qed.

Lemma step_unresolved_agree st r :
  resolvedPage markerPages r = None -> agreeButUnresolved (step st r) st.
Proof.
  unfold processRef, resolvedPage. destruct (refIndex r) as [i|]; [|done].
  intros ->. done.
Qed.

(** Every reference placed on a page leaves its target id in the map of the
    page, for good. *)
Lemma placeOnPage_byTarget e c t :
  exists idx, byTargetId (place e c t).1.1 = <[t := idx]> (byTargetId e).
Proof.
  unfold placeOnPage. destruct (findReusable _ _ _ _); simpl; eauto.
Qed.

Lemma target_recorded refs r p :
  r ∈ refs -> resolvedPage markerPages r = Some p ->
  exists e, pages (run refs) !! p = Some e /\ is_Some (byTargetId e !! refTargetId r).
Proof.
  induction refs as [|r' refs IH] using rev_ind; [set_solver|].
  intros Hin Hr. rewrite runRefs_snoc.
  destruct (decide (resolvedPage markerPages r' = Some p)) as [Hr'|Hr'].
  - rewrite processRef_on_page by done. eexists. split; [done|].
    destruct (placeOnPage_byTarget
                (default (emptyEntry p) (pages (run refs) !! p))
                (destinationCounter (run refs)) (refTargetId r')) as [idx ->].
    rewrite lookup_insert. case_decide; [eauto|].
    apply elem_of_app in Hin as [Hin|Hin].
    + destruct (IH Hin Hr) as (e & -> & He). done.
    + apply list_elem_of_singleton in Hin. congruence.
  - rewrite processRef_other_page by done.
    apply elem_of_app in Hin as [Hin|Hin]; [by apply IH|].
    apply list_elem_of_singleton in Hin. congruence.
Qed.

Lemma clone_placeholder : cloneFootnoteSegments placeholderSegments = placeholderSegments.
Proof. reflexivity. Qed.

(** C9. [buildFootnotePagePlan] is a total function of its inputs. The
    references whose index the marker map does not resolve are returned, in
    order, as [unresolvedRefs]; they get no rewrite, and the pages and
    rewrites of the plan are those of the list without them. A resolved
    reference whose target id has no definition is still given an item on
    its page, and the body of that item is the placeholder segment. *)
Theorem unresolved_and_undefined_degrade (refs : list FootnoteRef) :
  planUnresolvedRefs (build refs) = unresolvedIndices markerPages refs
  /\ updRefIndex <$> planRefUpdates (build refs) = resolvedIndices markerPages refs
  /\ (forall pre r post index,
        refs = pre ++ r :: post ->
        refIndex r = Some index -> markerPages !! index = None ->
        index ∈ planUnresolvedRefs (build refs)
        /\ ~ index ∈ (updRefIndex <$> planRefUpdates (build refs))
        /\ planPages (build refs) = planPages (build (pre ++ post))
        /\ planRefUpdates (build refs) = planRefUpdates (build (pre ++ post)))
  /\ (forall r p,
        r ∈ refs -> resolvedPage markerPages r = Some p ->
        definitionsById !! refTargetId r = None ->
        exists item,
          item ∈ planItemsOn (build refs) p
          /\ refTargetId r ∈ planTargetIds item
          /\ planSegments item
             = [ {| text := js "(footnote text unavailable)"; href := None |} ]).
Proof.
  split; [apply unresolved_run|]. split; [apply updates_run|]. split.
  - intros pre r post index -> Hidx Hmiss.
    assert (Hmp : markerPage markerPages index = None)
      by (unfold markerPage; by rewrite Hmiss).
    assert (Hres : resolvedPage markerPages r = None)
      by (unfold resolvedPage; by rewrite Hidx).
    split; [|split].
    + simpl. rewrite unresolved_run. unfold unresolvedIndices.
      apply list_elem_of_omap. exists r. split; [set_solver|]. by rewrite Hidx, Hmp.
    + simpl. rewrite updates_run. unfold resolvedIndices.
      intros (r' & _ & Hr')%list_elem_of_omap.
      destruct (refIndex r') as [i'|]; [|done].
      destruct (markerPage markerPages i') eqn:Hi'; [|done].
      injection Hr' as ->. congruence.
    + assert (Hag : agreeButUnresolved (run (pre ++ r :: post)) (run (pre ++ post))).
      { unfold runRefs. rewrite !fold_left_app. simpl.
        apply fold_agree, step_unresolved_agree, Hres. }
      destruct Hag as (Hp & Hu & _).
      unfold buildFootnotePagePlan, orderedPages. simpl. by rewrite Hp, Hu.
  - intros r p Hin Hr Hdef.
    destruct (target_recorded refs r p Hin Hr) as (e & He & [idx Hidx]).
    pose proof (StateInv_run toLowerCase markerPages definitionsById refs) as Hst.
    destruct (st_entry _ _ _ _ Hst _ _ He) as (_ & Hinv & _).
    destruct (inv_byTarget _ _ Hinv _ _ Hidx) as (it & Hit & Hmem & Hg).
    assert (Hnone : definitionOf definitionsById (refTargetId r) = None)
      by (unfold definitionOf; by rewrite Hdef).
    assert (Ht : refTargetId r = targetId it).
    { destruct Hg as [?|[Hk _]]; [done|]. exfalso. apply Hk.
      unfold definitionGroupKey. by rewrite Hnone. }
    pose proof (proj1 (Forall_lookup _ _) (inv_segments _ _ Hinv) _ _ Hit) as Hseg.
    simpl in Hseg. rewrite <- Ht in Hseg. unfold segmentsFor in Hseg.
    rewrite Hnone in Hseg.
    exists (planItemOf it). rewrite planItemsOn_build, He.
    split; [apply list_elem_of_fmap_2; eauto using list_elem_of_lookup_2|].
    split; [done|]. simpl. rewrite Hseg. apply clone_placeholder.
Qed.

End Degradation.

(** ** Destination names *)

Section DestinationNames.

Variable toLowerCase : jsstring -> jsstring.
Variable markerPages : gmap Z Z.
Variable definitionsById : gmap jsstring (list Segment).

Local Abbreviation step := (processRef toLowerCase markerPages definitionsById).
Local Abbreviation run := (runRefs toLowerCase markerPages definitionsById).
Local Abbreviation build := (buildFootnotePagePlan toLowerCase markerPages definitionsById).
Local Abbreviation place := (placeOnPage toLowerCase definitionsById).
Local Abbreviation tokenChars := (Forall (fun c => isTokenChar c = true)).

Lemma sanitize_fallback value fallback :
  let s := sanitizeFootnoteToken toLowerCase value fallback in
  s = fallback \/ (s <> [] /\ (length s <= 48)%nat /\ tokenChars s).
Proof.
  unfold sanitizeFootnoteToken.
  destruct (take 48 _) as [|c l] eqn:Htake; [by left|right].
  split; [done|]. rewrite <- Htake. split.
  - rewrite length_take. lia.
  - apply Forall_take, Forall_dropWhileEnd, Forall_dropWhile, collapseUnsafe_token.
Qed.

Lemma newItem_destName t n c :
  (0 <= c)%Z ->
  isFootnoteDestName (destName (newItem toLowerCase definitionsById t n (c + 1))).
Proof.
  intros Hc. exists (c + 1)%Z. eexists. split; [reflexivity|].
  split; [lia|].
  destruct (sanitize_fallback t (js "fn-" ++ stringOfNumber n)) as [->|(Hne & Hlen & Htok)].
  - split; [done|]. split; [|eauto].
    apply Forall_app. split; [by repeat constructor|apply stringOfNumber_token].
  - auto.
Qed.

Lemma isFootnoteDestName_chars name :
  isFootnoteDestName name -> tokenChars name /\ name <> [].
Proof.
  intros (c & tok & -> & _ & _ & Htok & _). split; [|done].
  apply Forall_app. split; [by repeat constructor|].
  apply Forall_app. split; [apply stringOfNumber_token|].
  apply Forall_app. split; [by repeat constructor|done].
Qed.

Lemma NamesInv_run refs : NamesInv (run refs).
Proof.
  induction refs as [|r refs IH] using rev_ind.
  - split; simpl; [|constructor]. intros p e. by rewrite lookup_empty.
  - rewrite runRefs_snoc.
    pose proof (StateInv_run toLowerCase markerPages definitionsById refs) as Hst.
    set (st := run refs) in *. unfold processRef.
    destruct (refIndex r) as [i|]; [|done].
    destruct (markerPage markerPages i) as [q|]; [|by destruct IH].
    set (e0 := default (emptyEntry q) (pages st !! q)).
    assert (He0 : EntryInv definitionsById e0
                  /\ Forall (fun it => isFootnoteDestName (destName it)) (items e0)).
    { subst e0. destruct (pages st !! q) as [e|] eqn:He; simpl.
      - split; [by destruct (st_entry _ _ _ _ Hst _ _ He) as (? & ? & ?)|].
        by apply (names_items _ IH q).
      - split; [apply EntryInv_empty|constructor]. }
    destruct He0 as [Hinv Hgood].
    assert (Hres : Forall (fun it => isFootnoteDestName (destName it))
                     (items (place e0 (destinationCounter st) (refTargetId r)).1.1)
                   /\ isFootnoteDestName (place e0 (destinationCounter st) (refTargetId r)).2).
    { destruct (findReusable definitionsById e0 (nextNumber e0) (refTargetId r))
        as [idx|] eqn:Hf.
      - destruct (placeOnPage_reuse toLowerCase _ e0 (destinationCounter st)
                    (refTargetId r) idx Hinv Hf) as (init & it & Hits & _ & ->).
        simpl. rewrite Hits in Hgood. apply Forall_app in Hgood as [Hg1 Hg2].
        inversion Hg2; subst. split; [|done].
        apply Forall_app. split; [done|]. by repeat constructor.
      - rewrite placeOnPage_new by done. simpl.
        pose proof (newItem_destName (refTargetId r) (nextNumber e0)
                      (destinationCounter st) (st_counter _ _ _ _ Hst)) as Hnew.
        split; [|done]. apply Forall_app. split; [done|]. by repeat constructor. }
    destruct (place e0 _ _) as [[e' c'] d]. simpl in Hres. destruct Hres as [Hr1 Hr2].
    split; simpl.
    + intros p e. rewrite lookup_insert. case_decide; [by intros [= <-]|].
      apply (names_items _ IH).
    + apply Forall_app. split; [apply IH|]. by repeat constructor.
Qed.

(** What [.replace(/[^a-z0-9_-]+/g, '-')] does, run by run: characters of
    the class are kept, and a maximal run of other characters becomes one
    dash. *)
Lemma collapseUnsafe_keep (kept rest : list N) (inRun : bool) :
  tokenChars kept ->
  collapseUnsafe inRun (kept ++ rest)
  = kept ++ collapseUnsafe (match kept with [] => inRun | _ => false end) rest.
Proof.
  revert inRun. induction kept as [|c kept IH]; intros inRun Hk; [done|].
  apply Forall_cons in Hk as [Hc Hk]. cbn [app collapseUnsafe]. rewrite Hc.
  rewrite IH by done. by destruct kept.
Qed.

Lemma collapseUnsafe_run (run rest : list N) :
  Forall (fun c => isTokenChar c = false) run ->
  (forall c, head rest = Some c -> isTokenChar c = true) ->
  collapseUnsafe true (run ++ rest) = collapseUnsafe false rest.
Proof.
  intros Hrun Hrest. induction Hrun as [|c run Hc _ IH]; simpl.
  - destruct rest as [|d rest]; [done|]. simpl. by rewrite (Hrest d).
  - by rewrite Hc.
Qed.

Lemma TargetNames_run refs p e :
  pages (run refs) !! p = Some e -> Forall (namedAfterTarget toLowerCase) (items e).
Proof.
  revert p e. induction refs as [|r refs IH] using rev_ind; intros p e.
  - unfold runRefs. simpl. by rewrite lookup_empty.
  - rewrite runRefs_snoc.
    pose proof (StateInv_run toLowerCase markerPages definitionsById refs) as Hst.
    set (st := run refs) in *. unfold processRef.
    destruct (refIndex r) as [i|]; [|apply IH].
    destruct (markerPage markerPages i) as [q|]; [|apply IH].
    set (e0 := default (emptyEntry q) (pages st !! q)).
    assert (He0 : EntryInv definitionsById e0
                  /\ Forall (namedAfterTarget toLowerCase) (items e0)).
    { subst e0. destruct (pages st !! q) as [e1|] eqn:He; simpl.
      - split; [by destruct (st_entry _ _ _ _ Hst _ _ He) as (? & ? & ?)|]. by eapply IH.
      - split; [apply EntryInv_empty|constructor]. }
    destruct He0 as [Hinv Hgood].
    assert (Hres : Forall (namedAfterTarget toLowerCase)
                     (items (place e0 (destinationCounter st) (refTargetId r)).1.1)).
    { destruct (findReusable definitionsById e0 (nextNumber e0) (refTargetId r))
        as [idx|] eqn:Hf.
      - destruct (placeOnPage_reuse toLowerCase _ e0 (destinationCounter st)
                    (refTargetId r) idx Hinv Hf) as (init & it & Hits & _ & ->).
        simpl. rewrite Hits in Hgood. apply Forall_app in Hgood as [Hg1 Hg2].
        apply Forall_singleton in Hg2 as (Hnum & Hne & c & Hc & Hname).
        apply Forall_app. split; [done|]. apply Forall_singleton.
        assert (Hhead : default 0%Z (head (numbers it ++ [nextNumber e0])) = number it).
        { rewrite Hnum. by destruct (numbers it). }
        unfold namedAfterTarget.
        cbn [number numbers destName targetId assignNumber addTargetId].
        split; [reflexivity|]. split; [by destruct (numbers it)|].
        exists c. split; [done|]. by rewrite Hhead.
      - rewrite placeOnPage_new by done. simpl.
        apply Forall_app. split; [done|]. apply Forall_singleton.
        unfold namedAfterTarget.
        cbn [number numbers destName targetId assignNumber newItem app head default].
        split; [reflexivity|]. split; [done|].
        exists (destinationCounter st + 1)%Z.
        split; [pose proof (st_counter _ _ _ _ Hst); lia|done]. }
    destruct (place e0 _ _) as [[e' c'] d]. simpl in Hres. simpl.
    rewrite lookup_insert. case_decide; [by intros [= <-]|apply IH].
Qed.

(** C8 (as the code has it). Every destination name that
    [buildFootnotePagePlan] creates, on an item of the plan or in a rewrite, is
    [export-footnote-<counter>-<token>]: it is never empty and all its
    characters are in [[a-z0-9_-]]; the token is never empty and is at most
    48 characters long unless it is the fallback [fn-<number>]. The bound of
    48 characters holds for the token, not for the whole name. On an item
    the token is [sanitizeFootnoteToken] of the target id of the item, with
    the fallback made of the first number of the item. That function takes
    the target id trimmed and in lower case, keeps the characters of
    [[a-z0-9_-]], turns every maximal run of other characters into one dash,
    drops the dashes at both ends and cuts the rest to 48 characters; it
    returns the fallback when nothing is left. *)
Theorem destination_names_are_safe (refs : list FootnoteRef) :
  (forall pp item, pp ∈ planPages (build refs) -> item ∈ planItems pp ->
     isFootnoteDestName (planDestName item)
     /\ Forall (fun c => isTokenChar c = true) (planDestName item)
     /\ planDestName item <> []
     /\ exists counter : Z,
          (0 < counter)%Z
          /\ planDestName item
             = js "export-footnote-" ++ stringOfNumber counter ++ js "-"
               ++ sanitizeFootnoteToken toLowerCase (planTargetId item)
                    (js "fn-" ++ stringOfNumber (planNumber item)))
  /\ (forall u, u ∈ planRefUpdates (build refs) ->
        isFootnoteDestName (updDestName u)
        /\ Forall (fun c => isTokenChar c = true) (updDestName u)
        /\ updDestName u <> [])
  /\ (forall value fallback : jsstring,
        sanitizeFootnoteToken toLowerCase value fallback
        = match stripDashes (collapseUnsafe false (toLowerCase (trim value))) with
          | [] => fallback
          | rest => take 48 rest
          end)
  /\ (forall kept rest : jsstring,
        Forall (fun c => isTokenChar c = true) kept ->
        collapseUnsafe false (kept ++ rest) = kept ++ collapseUnsafe false rest)
  /\ (forall run rest : jsstring,
        run <> [] ->
        Forall (fun c => isTokenChar c = false) run ->
        (forall c, head rest = Some c -> isTokenChar c = true) ->
        collapseUnsafe false (run ++ rest) = js "-" ++ collapseUnsafe false rest).
Proof.
  pose proof (NamesInv_run refs) as Hn. split; [|split; [|split; [|split]]].
  - intros pp item Hpp Hitem.
    apply elem_of_orderedPages in Hpp as (p & e & He & ->). simpl in Hitem.
    apply list_elem_of_fmap in Hitem as (it & -> & Hit). simpl.
    pose proof (proj1 (Forall_forall _ _) (names_items _ Hn _ _ He) _ Hit) as Hgood.
    split; [done|]. destruct (isFootnoteDestName_chars _ Hgood) as [Hchars Hne].
    split; [done|]. split; [done|].
    pose proof (proj1 (Forall_forall _ _) (TargetNames_run refs _ _ He) _ Hit)
      as (_ & _ & c & Hc & Hname).
    exists c. split; [done|]. exact Hname.
  - intros u Hu.
    pose proof (proj1 (Forall_forall _ _) (names_updates _ Hn) _ Hu) as Hgood.
    split; [done|]. by apply isFootnoteDestName_chars.
  - intros value fallback. unfold sanitizeFootnoteToken.
    by destruct (stripDashes _).
  - intros kept rest Hk. rewrite collapseUnsafe_keep by done. by destruct kept.
  - intros run rest Hne Hrun Hrest. destruct run as [|c run]; [done|].
    apply Forall_cons in Hrun as [Hc Hrun]. cbn [app collapseUnsafe]. rewrite Hc.
    by rewrite collapseUnsafe_run.
Qed.

End DestinationNames.


(** ** Text flow layout: the width budget *)

Section WidthBudget.

Variable widthOfText : jsstring -> Q.
Variable maxWidthPt : Q.
Hypothesis budget_positive : (0 < maxWidthPt)%Q.

Local Abbreviation split := (splitWordByWidth widthOfText maxWidthPt).
Local Abbreviation trimSpaces := (trimTrailingSpaces).
Local Abbreviation commit := (commitLine).
Local Abbreviation append := (appendFragment widthOfText).

Local Arguments appendFragment : simpl never.
Local Arguments commitLine : simpl never.
Local Arguments trimTrailingSpaces : simpl never.
Local Arguments splitWordByWidth : simpl never.

Lemma Qgtb_true x y : Qgtb x y = true -> (y < x)%Q.
Proof.
  unfold Qgtb. intros H. apply negb_true_iff in H.
  apply Qnot_le_lt. intros Hle. apply Qle_bool_iff in Hle. congruence.
Qed.

Lemma Qgtb_false x y : Qgtb x y = false -> (x <= y)%Q.
Proof.
  unfold Qgtb. intros H. apply negb_false_iff in H. by apply Qle_bool_iff.
Qed.

Lemma Qle_bool_false x y : Qle_bool x y = false -> (y < x)%Q.
Proof.
  intros H. apply Qnot_le_lt. intros Hle. apply Qle_bool_iff in Hle. congruence.
Qed.

Local Abbreviation chunkOK := (chunkOK widthOfText maxWidthPt).
Local Abbreviation lineOK := (lineOK widthOfText maxWidthPt).
Local Abbreviation LayoutInv := (LayoutInv widthOfText maxWidthPt).

Lemma splitGlyph_inv parts chunk glyph :
  Forall chunkOK parts -> (chunk = [] \/ chunkOK chunk) ->
  let st := splitGlyph widthOfText maxWidthPt (parts, chunk) glyph in
  Forall chunkOK st.1 /\ chunkOK st.2
  /\ concat st.1 ++ st.2 = (concat parts ++ chunk) ++ [glyph].
Proof.
  intros Hp Hc. unfold splitGlyph. destruct chunk as [|c chunk].
  - simpl. split; [done|]. split; [|by rewrite app_nil_r].
    split; [done|]. right. by exists glyph.
  - destruct Hc as [?|Hc]; [done|].
    destruct (Qgtb _ _) eqn:Hw; simpl.
    + split; [apply Forall_app; split; [done|by apply Forall_singleton]|].
      split; [split; [done|right; by exists glyph]|].
      rewrite concat_app. simpl. by rewrite app_nil_r.
    + split; [done|]. split; [|by rewrite <- app_assoc].
      split; [done|]. left. by apply Qgtb_false in Hw.
Qed.

Lemma split_fold word parts chunk :
  Forall chunkOK parts -> (chunk = [] \/ chunkOK chunk) ->
  let st := fold_left (splitGlyph widthOfText maxWidthPt) word (parts, chunk) in
  Forall chunkOK st.1 /\ (st.2 = [] \/ chunkOK st.2)
  /\ concat st.1 ++ st.2 = concat parts ++ chunk ++ word.
Proof.
  revert parts chunk. induction word as [|g word IH]; intros parts chunk Hp Hc.
  - simpl. by rewrite app_nil_r.
  - cbn [fold_left]. cbv zeta.
    pose proof (splitGlyph_inv parts chunk g Hp Hc) as (H1 & H2 & H3).
    destruct (splitGlyph widthOfText maxWidthPt (parts, chunk) g) as [parts' chunk'].
    cbn [fst snd] in *. destruct (IH parts' chunk' H1 (or_intror H2)) as (I1 & I2 & I3).
    split; [done|]. split; [done|]. etrans; [exact I3|].
    rewrite app_assoc. etrans; [exact (f_equal (fun l => l ++ word) H3)|].
    by rewrite <- !app_assoc.
Qed.

Lemma splitWordByWidth_spec word :
  Forall chunkOK (split word) /\ concat (split word) = word.
Proof.
  unfold splitWordByWidth.
  pose proof (split_fold word [] [] (Forall_nil_2 _) (or_introl eq_refl)) as (H1 & H2 & H3).
  destruct (fold_left _ word _) as [parts chunk]. simpl in *.
  destruct chunk as [|c chunk].
  - by rewrite app_nil_r in H3.
  - destruct H2 as [?|H2]; [done|]. split.
    + apply Forall_app. split; [done|by apply Forall_singleton].
    + rewrite concat_app. simpl. by rewrite app_nil_r.
Qed.

Lemma lineWidth_app a b : (lineWidth (a ++ b) == lineWidth a + lineWidth b)%Q.
Proof. induction a as [|f a IH]; simpl; [lra|]. rewrite IH. lra. Qed.

Lemma lineWidth_nonneg l : Forall (fun f => (0 < width f)%Q) l -> (0 <= lineWidth l)%Q.
Proof. induction 1; simpl; lra. Qed.

Lemma lineWidth_positive l :
  Forall (fun f => (0 < width f)%Q) l -> l <> [] -> (0 < lineWidth l)%Q.
Proof.
  intros H Hne. destruct H; [done|]. simpl.
  pose proof (lineWidth_nonneg _ H0). lra.
Qed.

Lemma lineOK_nil : lineOK [].
Proof. left. simpl. lra. Qed.

Lemma lineOK_prefix l l' :
  Forall (fun f => (0 < width f)%Q) l -> lineOK (l' ++ l) -> lineOK l'.
Proof.
  intros Hpos [Hle|(f & g & Heq & Hrest)].
  - left. rewrite lineWidth_app in Hle. pose proof (lineWidth_nonneg _ Hpos). lra.
  - destruct l' as [|x l'].
    + apply lineOK_nil.
    + destruct l'; [|destruct l'; done]. destruct l; [|done].
      right. exists f, g. simpl in Heq. by rewrite Heq.
Qed.

Lemma popSpaces_spec reversed w :
  exists dropped,
    reversed = dropped ++ (popSpaces reversed w).1
    /\ ((popSpaces reversed w).2 == w - lineWidth dropped)%Q
    /\ Forall (fun f => isSpace f = true) dropped.
Proof.
  revert w. induction reversed as [|tail rest IH]; intros w; simpl.
  - exists []. simpl. split; [done|]. split; [lra|done].
  - destruct (isSpace tail) eqn:Hs.
    + destruct (IH (w - width tail)%Q) as (dropped & Hd & Hw & Hsp).
      exists (tail :: dropped). simpl. split; [by f_equal|].
      split; [rewrite Hw; lra|by constructor].
    + exists []. simpl. split; [done|]. split; [lra|done].
Qed.

Lemma lineWidth_rev l : (lineWidth (rev l) == lineWidth l)%Q.
Proof.
  induction l as [|f l IH]; simpl; [lra|]. rewrite lineWidth_app, IH. simpl. lra.
Qed.

Lemma trimTrailingSpaces_inv st :
  LayoutInv st -> LayoutInv (trimSpaces st) /\ lines (trimSpaces st) = lines st.
Proof.
  intros [H1 H2 H3 H4]. unfold trimTrailingSpaces.
  destruct (popSpaces_spec (rev (currentLine st)) (currentWidth st))
    as (dropped & Hd & Hw & _).
  destruct (popSpaces _ _) as [reversed w]. simpl in *.
  assert (Hline : currentLine st = rev reversed ++ rev dropped).
  { rewrite <- rev_app_distr, <- Hd. by rewrite rev_involutive. }
  rewrite Hline in H2, H3, H4. apply Forall_app in H2 as [H2a H2b].
  split; [|done]. split; simpl; [done|done| |by eapply lineOK_prefix].
  rewrite Hw, H3, lineWidth_app, !lineWidth_rev. lra.
Qed.

Lemma commitLine_inv allowEmpty st :
  LayoutInv st ->
  LayoutInv (commit allowEmpty st) /\ currentLine (commit allowEmpty st) = [].
Proof.
  intros Hst. unfold commitLine.
  destruct (trimTrailingSpaces_inv st Hst) as [[H1 H2 H3 H4] Hl].
  split; [|done]. split; simpl; [|done|lra|apply lineOK_nil].
  destruct (_ || _); [|done]. apply Forall_app. split; [done|by apply Forall_singleton].
Qed.

Lemma empty_line_width st :
  LayoutInv st -> currentLine st = [] -> (currentWidth st == 0)%Q.
Proof. intros [_ _ H _] Hnil. rewrite H, Hnil. simpl. lra. Qed.

Lemma nonpositive_width_empty st :
  LayoutInv st -> (currentWidth st <= 0)%Q -> currentLine st = [].
Proof.
  intros [_ H2 H3 _] Hle. destruct (currentLine st) as [|f l] eqn:Hl; [done|].
  exfalso. pose proof (lineWidth_positive _ H2) as Hp.
  rewrite <- H3 in Hp. assert (0 < currentWidth st)%Q by (by apply Hp). lra.
Qed.

(** Appending keeps the invariant when the text fits after what is on the
    line, or is a single glyph put on an empty line. *)
Lemma appendFragment_inv t h space st :
  LayoutInv st ->
  ((currentWidth st + widthOfText t <= maxWidthPt)%Q
   \/ (currentLine st = [] /\ exists g, t = [g])) ->
  LayoutInv (append t h space st) /\ lines (append t h space st) = lines st.
Proof.
  intros Hst Hfit. unfold appendFragment.
  destruct t as [|c t]; [done|].
  destruct (Qle_bool (widthOfText (c :: t)) 0) eqn:Hw0; [done|].
  apply Qle_bool_false in Hw0.
  set (w := widthOfText (c :: t)) in *.
  destruct Hst as [H1 H2 H3 H4].
  assert (Hpush : LayoutInv
            {| lines := lines st;
               currentLine := currentLine st ++
                 [ {| fragText := c :: t; fragHref := hrefOrNull h; width := w;
                      isSpace := space |} ];
               currentWidth := currentWidth st + w |}).
  { split; simpl; [done| | |].
    - apply Forall_app. split; [done|by apply Forall_singleton].
    - rewrite lineWidth_app, H3. simpl. lra.
    - destruct Hfit as [Hfit|[Hnil [g Hg]]].
      + left. rewrite lineWidth_app, <- H3. simpl. lra.
      + rewrite Hnil. simpl. injection Hg as -> ->.
        destruct (Qle_bool (widthOfText [g]) maxWidthPt) eqn:Hle.
        * left. simpl. apply Qle_bool_iff in Hle. subst w. lra.
        * right. eexists _, g. split; [done|]. simpl.
          split; [done|]. split; [done|]. by apply Qle_bool_false. }
  destruct (last (currentLine st)) as [l|] eqn:Hlast; [|done].
  destruct (_ && _); [|done].
  split; [|done]. apply last_Some in Hlast as [init Hinit].
  rewrite Hinit in *. rewrite length_app. simpl.
  rewrite alter_app_r_alt by lia.
  replace (length init + 1 - 1 - length init)%nat with 0%nat by lia. simpl.
  apply Forall_app in H2 as [H2a H2b]. inversion H2b; subst.
  split; simpl; [done| | |].
  - apply Forall_app. split; [done|]. repeat constructor. simpl. lra.
  - rewrite !lineWidth_app in *. simpl in *. lra.
  - destruct Hfit as [Hfit|[Hnil _]]; [|by destruct init].
    left. rewrite !lineWidth_app in *. simpl in *. lra.
Qed.

Lemma appendFragment_fits t h space st :
  LayoutInv st ->
  ((currentWidth st + widthOfText t <= maxWidthPt)%Q
   \/ (currentLine st = [] /\ exists g, t = [g])) ->
  LayoutInv (append t h space st).
Proof. intros Hst Hfit. by destruct (appendFragment_inv t h space st Hst Hfit). Qed.

Lemma placeChunks_inv h chunks st :
  LayoutInv st -> Forall chunkOK chunks ->
  LayoutInv (placeChunks widthOfText maxWidthPt h chunks st).
Proof.
  revert st. induction chunks as [|chunk rest IH]; intros st Hst Hc; simpl; [done|].
  inversion Hc as [|? ? [Hne Hck] Hrest]; subst.
  set (st1 := if _ && _ then commit false st else st).
  assert (H1 : LayoutInv st1 /\
               ((currentWidth st1 + widthOfText chunk <= maxWidthPt)%Q
                \/ currentLine st1 = [])).
  { subst st1. destruct (Qgtb (currentWidth st) 0) eqn:Hpos; simpl.
    - destruct (Qgtb (currentWidth st + widthOfText chunk) maxWidthPt) eqn:Hover.
      + destruct (commitLine_inv false st Hst). auto.
      + apply Qgtb_false in Hover. auto.
    - apply Qgtb_false in Hpos. split; [done|]. right.
      by apply nonpositive_width_empty. }
  destruct H1 as [Hinv1 Hfit].
  assert (Hfit' : (currentWidth st1 + widthOfText chunk <= maxWidthPt)%Q
                  \/ (currentLine st1 = [] /\ exists g, chunk = [g])).
  { destruct Hfit as [?|Hnil]; [by left|].
    destruct Hck as [Hle|Hg]; [|by right].
    left. rewrite (empty_line_width _ Hinv1 Hnil). lra. }
  destruct (appendFragment_inv chunk h false st1 Hinv1 Hfit') as [Hinv2 _].
  apply IH; [|done]. destruct rest; [done|].
  by destruct (commitLine_inv false _ Hinv2).
Qed.

Lemma layoutToken_inv h st token :
  LayoutInv st -> LayoutInv (layoutToken widthOfText maxWidthPt h st token).
Proof.
  intros Hst. unfold layoutToken.
  destruct token as [t| |]; [| |by destruct (commitLine_inv true st Hst)].
  - (* a word *)
    simpl. destruct t as [|c t]; [done|].
    destruct (Qgtb (widthOfText (c :: t)) maxWidthPt) eqn:Hwide.
    + apply placeChunks_inv; [done|]. apply splitWordByWidth_spec.
    + apply Qgtb_false in Hwide.
      destruct (Qgtb (currentWidth st) 0) eqn:Hpos; simpl.
      * destruct (Qgtb (currentWidth st + widthOfText (c :: t)) maxWidthPt) eqn:Hover.
        -- destruct (commitLine_inv false st Hst) as [Hc Hnil].
           apply appendFragment_fits; [done|]. left.
           rewrite (empty_line_width _ Hc Hnil). lra.
        -- apply Qgtb_false in Hover. by apply appendFragment_fits; [|left].
      * apply Qgtb_false in Hpos. apply appendFragment_fits; [done|]. left. lra.
  - (* a space *)
    simpl. destruct (Qle_bool (currentWidth st) 0) eqn:Hzero; [done|].
    apply Qle_bool_false in Hzero.
    destruct (Qgtb (currentWidth st) 0) eqn:Hpos; simpl.
    + destruct (Qgtb (currentWidth st + widthOfText [32%N]) maxWidthPt) eqn:Hover.
      * by destruct (commitLine_inv false st Hst).
      * apply Qgtb_false in Hover. by apply appendFragment_fits; [|left].
    + apply Qgtb_false in Hpos. lra.
Qed.

Lemma layoutSegment_inv st segment :
  LayoutInv st -> LayoutInv (layoutSegment widthOfText maxWidthPt st segment).
Proof.
  unfold layoutSegment. generalize (tokenizeFootnoteText (text segment)).
  intros tokens. revert st. induction tokens as [|token tokens IH]; intros st Hst; simpl; [done|].
  apply IH, layoutToken_inv, Hst.
Qed.

Lemma Qgtb_intro x y : (y < x)%Q -> Qgtb x y = true.
Proof.
  intros H. unfold Qgtb. apply negb_true_iff.
  destruct (Qle_bool x y) eqn:E; [|done]. apply Qle_bool_iff in E. lra.
Qed.

Lemma Qle_bool_intro x y : (x <= y)%Q -> Qle_bool x y = true.
Proof. apply Qle_bool_iff. Qed.

(** *** The chunks are cut greedily *)

Local Abbreviation greedy := (greedyChunks widthOfText maxWidthPt).

Lemma greedy_snoc parts chunk :
  greedy parts ->
  (forall a, last parts = Some a ->
     exists g rest, chunk = g :: rest /\ (maxWidthPt < widthOfText (a ++ [g]))%Q) ->
  greedy (parts ++ [chunk]).
Proof.
  intros Hparts Hlast i a b Ha Hb. unfold jsstring in *.
  destruct (decide (S i < length parts)%nat) as [Hlt|Hge].
  - rewrite lookup_app_l in Ha by lia. rewrite lookup_app_l in Hb by lia. eauto.
  - assert (S i = length parts) as Hi.
    { apply lookup_lt_Some in Hb. rewrite length_app in Hb. simpl in Hb. lia. }
    rewrite lookup_app_l in Ha by lia.
    rewrite Hi, list_lookup_middle in Hb by done. injection Hb as <-.
    apply Hlast. rewrite last_lookup. rewrite <- Hi. exact Ha.
Qed.

Lemma split_fold_greedy word parts chunk :
  greedy parts ->
  (forall a, last parts = Some a ->
     exists g rest, chunk = g :: rest /\ (maxWidthPt < widthOfText (a ++ [g]))%Q) ->
  let st := fold_left (splitGlyph widthOfText maxWidthPt) word (parts, chunk) in
  greedy st.1
  /\ (forall a, last st.1 = Some a ->
        exists g rest, st.2 = g :: rest /\ (maxWidthPt < widthOfText (a ++ [g]))%Q).
Proof.
  revert parts chunk. induction word as [|glyph word IH]; intros parts chunk Hp Hc;
    [done|].
  cbn [fold_left].
  remember (splitGlyph widthOfText maxWidthPt (parts, chunk) glyph) as s eqn:Hs.
  unfold splitGlyph in Hs. destruct chunk as [|c chunk].
  - subst s. apply IH; [done|]. intros a Ha. destruct (Hc a Ha) as (g & rest & Heq & _). done.
  - destruct (Qgtb _ _) eqn:Hw; subst s.
    + apply IH.
      * by apply greedy_snoc.
      * intros a Ha. rewrite last_snoc in Ha. injection Ha as <-.
        exists glyph, []. split; [done|]. by apply Qgtb_true in Hw.
    + apply IH; [done|]. intros a Ha. destruct (Hc a Ha) as (g & rest & Heq & Hwide).
      injection Heq as <- <-. by exists c, (chunk ++ [glyph]).
Qed.

Lemma splitWordByWidth_greedy word : greedy (split word).
Proof.
  unfold splitWordByWidth.
  assert (H0 : greedy []) by (intros i a b Ha; done).
  pose proof (split_fold_greedy word [] [] H0) as Hfold.
  destruct (fold_left _ word _) as [parts chunk]. simpl in Hfold.
  destruct Hfold as [Hparts Hlast]; [done|].
  destruct chunk as [|c chunk]; [done|]. by apply greedy_snoc.
Qed.

(** *** Lines are never taken back *)

Lemma trimTrailingSpaces_lines st : lines (trimSpaces st) = lines st.
Proof. unfold trimTrailingSpaces. by destruct (popSpaces _ _). Qed.

Lemma commitLine_lines allowEmpty st line :
  line ∈ lines st -> line ∈ lines (commit allowEmpty st).
Proof.
  intros Hin. unfold commitLine. cbn [lines]. rewrite trimTrailingSpaces_lines.
  destruct (_ || _); [|done]. apply elem_of_app. by left.
Qed.

Lemma appendFragment_lines t h space st : lines (append t h space st) = lines st.
Proof.
  unfold appendFragment. destruct t; [done|]. destruct (Qle_bool _ _); [done|].
  destruct (last _); [|done]. by destruct (_ && _).
Qed.

Lemma placeChunks_lines h chunks st line :
  line ∈ lines st -> line ∈ lines (placeChunks widthOfText maxWidthPt h chunks st).
Proof.
  revert st. induction chunks as [|chunk rest IH]; intros st Hin; [done|].
  cbn [placeChunks]. apply IH.
  assert (H1 : line ∈ lines (if Qgtb (currentWidth st) 0
                                   && Qgtb (currentWidth st + widthOfText chunk) maxWidthPt
                                then commit false st else st)).
  { destruct (_ && _); [by apply commitLine_lines|done]. }
  destruct rest; [by rewrite appendFragment_lines|].
  apply commitLine_lines. by rewrite appendFragment_lines.
Qed.

Lemma layoutToken_lines h st token line :
  line ∈ lines st -> line ∈ lines (layoutToken widthOfText maxWidthPt h st token).
Proof.
  intros Hin. unfold layoutToken.
  destruct token as [t| |]; [| |by apply commitLine_lines].
  - simpl. destruct t as [|c t]; [done|].
    destruct (Qgtb (widthOfText (c :: t)) maxWidthPt); [by apply placeChunks_lines|].
    destruct (_ && _); rewrite appendFragment_lines; [by apply commitLine_lines|done].
  - simpl. destruct (Qle_bool (currentWidth st) 0); [done|].
    destruct (_ && _); [by apply commitLine_lines|by rewrite appendFragment_lines].
Qed.

Lemma layoutTokens_lines h tokens st line :
  line ∈ lines st ->
  line ∈ lines (fold_left (layoutToken widthOfText maxWidthPt h) tokens st).
Proof.
  revert st. induction tokens as [|token tokens IH]; intros st Hin; [done|].
  cbn [fold_left]. by apply IH, layoutToken_lines.
Qed.

Lemma layoutSegments_lines segs st line :
  line ∈ lines st ->
  line ∈ lines (fold_left (layoutSegment widthOfText maxWidthPt) segs st).
Proof.
  revert st. induction segs as [|s segs IH]; intros st Hin; [done|].
  cbn [fold_left]. by apply IH, layoutTokens_lines.
Qed.

(** *** A chunk that was placed stays *)

Lemma popSpaces_keeps reversed w f :
  f ∈ reversed -> isSpace f = false -> f ∈ (popSpaces reversed w).1.
Proof.
  intros Hin Hf. destruct (popSpaces_spec reversed w) as (dropped & Hd & _ & Hsp).
  rewrite Hd in Hin. apply elem_of_app in Hin as [Hin|Hin]; [|done].
  pose proof (proj1 (Forall_forall _ _) Hsp f Hin). congruence.
Qed.

Lemma trimTrailingSpaces_keeps st f :
  f ∈ currentLine st -> isSpace f = false -> f ∈ currentLine (trimSpaces st).
Proof.
  intros Hin Hf. unfold trimTrailingSpaces.
  pose proof (popSpaces_keeps (rev (currentLine st)) (currentWidth st) f) as Hk.
  destruct (popSpaces _ _) as [reversed w]. cbn [currentLine]. simpl in Hk.
  apply list_elem_of_In. apply -> in_rev. apply list_elem_of_In. apply Hk; [|done].
  apply list_elem_of_In. apply -> in_rev. by apply list_elem_of_In.
Qed.

Lemma commitLine_keeps allowEmpty st f :
  f ∈ currentLine st -> isSpace f = false ->
  exists line, line ∈ lines (commit allowEmpty st) /\ f ∈ line.
Proof.
  intros Hin Hf. pose proof (trimTrailingSpaces_keeps st f Hin Hf) as Hk.
  unfold commitLine. cbn [lines].
  exists (currentLine (trimSpaces st)). split; [|done].
  destruct (currentLine (trimSpaces st)) as [|x l] eqn:Hl; [by apply elem_of_nil in Hk|].
  rewrite orb_true_r. apply elem_of_app. right. by left.
Qed.

Lemma showsChunk_extend chunk h f t :
  showsChunk chunk h f ->
  showsChunk chunk h {| fragText := fragText f ++ t; fragHref := fragHref f;
                        width := (width f + widthOfText t)%Q; isSpace := isSpace f |}.
Proof.
  intros (Hs & Hh & before & after & Ht). split; [done|]. split; [done|].
  exists before, (after ++ t). simpl. rewrite Ht. by rewrite <- !app_assoc.
Qed.

Lemma appendFragment_keeps chunk h t h' space st f :
  f ∈ currentLine st -> showsChunk chunk h f ->
  exists f', f' ∈ currentLine (append t h' space st) /\ showsChunk chunk h f'.
Proof.
  intros Hin Hshow. unfold appendFragment.
  destruct t as [|c t]; [by exists f|].
  destruct (Qle_bool _ _); [by exists f|].
  destruct (last (currentLine st)) as [l|] eqn:Hlast.
  - destruct (_ && _).
    + cbn [currentLine]. apply last_Some in Hlast as [init Hinit].
      rewrite Hinit in *. rewrite length_app. simpl.
      rewrite alter_app_r_alt by lia.
      replace (length init + 1 - 1 - length init)%nat with 0%nat by lia. simpl.
      apply elem_of_app in Hin as [Hin|Hin].
      * exists f. split; [|done]. apply elem_of_app. by left.
      * apply list_elem_of_singleton in Hin as ->.
        eexists. split; [apply elem_of_app; right; by left|].
        by apply showsChunk_extend.
    + cbn [currentLine]. exists f. split; [|done]. apply elem_of_app. by left.
  - cbn [currentLine]. exists f. split; [|done]. apply elem_of_app. by left.
Qed.

Local Abbreviation placed := (chunkPlaced).

Lemma chunkPlaced_trim chunk h st :
  placed chunk h st -> placed chunk h (trimSpaces st).
Proof.
  intros (line & f & [Hl| ->] & Hf & Hshow).
  - exists line, f. rewrite trimTrailingSpaces_lines. auto.
  - exists (currentLine (trimSpaces st)), f. split; [by right|]. split; [|done].
    apply trimTrailingSpaces_keeps; [done|]. by destruct Hshow.
Qed.

Lemma chunkPlaced_commit chunk h allowEmpty st :
  placed chunk h st -> placed chunk h (commit allowEmpty st).
Proof.
  intros (line & f & [Hl| ->] & Hf & Hshow).
  - exists line, f. split; [left; by apply commitLine_lines|done].
  - destruct (commitLine_keeps allowEmpty st f Hf) as (line & Hline & Hin);
      [by destruct Hshow|].
    exists line, f. auto.
Qed.

Lemma chunkPlaced_append chunk h t h' space st :
  placed chunk h st -> placed chunk h (append t h' space st).
Proof.
  intros (line & f & [Hl| ->] & Hf & Hshow).
  - exists line, f. rewrite appendFragment_lines. auto.
  - destruct (appendFragment_keeps chunk h t h' space st f Hf Hshow) as (f' & Hin & Hs).
    exists (currentLine (append t h' space st)), f'. auto.
Qed.

Lemma chunkPlaced_chunks chunk h h' chunks st :
  placed chunk h st -> placed chunk h (placeChunks widthOfText maxWidthPt h' chunks st).
Proof.
  revert st. induction chunks as [|c rest IH]; intros st Hp; [done|].
  cbn [placeChunks]. apply IH.
  assert (H1 : placed chunk h (if Qgtb (currentWidth st) 0
                                  && Qgtb (currentWidth st + widthOfText c) maxWidthPt
                               then commit false st else st)).
  { destruct (_ && _); [by apply chunkPlaced_commit|done]. }
  destruct rest; [by apply chunkPlaced_append|].
  by apply chunkPlaced_commit, chunkPlaced_append.
Qed.

Lemma chunkPlaced_token chunk h h' st token :
  placed chunk h st -> placed chunk h (layoutToken widthOfText maxWidthPt h' st token).
Proof.
  intros Hp. unfold layoutToken.
  destruct token as [t| |]; [| |by apply chunkPlaced_commit].
  - simpl. destruct t as [|c t]; [done|].
    destruct (Qgtb (widthOfText (c :: t)) maxWidthPt); [by apply chunkPlaced_chunks|].
    destruct (_ && _); apply chunkPlaced_append; [by apply chunkPlaced_commit|done].
  - simpl. destruct (Qle_bool (currentWidth st) 0); [done|].
    destruct (_ && _); [by apply chunkPlaced_commit|by apply chunkPlaced_append].
Qed.

Lemma chunkPlaced_tokens chunk h h' tokens st :
  placed chunk h st ->
  placed chunk h (fold_left (layoutToken widthOfText maxWidthPt h') tokens st).
Proof.
  revert st. induction tokens as [|token tokens IH]; intros st Hp; [done|].
  cbn [fold_left]. by apply IH, chunkPlaced_token.
Qed.

Lemma chunkPlaced_segments chunk h segs st :
  placed chunk h st ->
  placed chunk h (fold_left (layoutSegment widthOfText maxWidthPt) segs st).
Proof.
  revert st. induction segs as [|s segs IH]; intros st Hp; [done|].
  cbn [fold_left]. by apply IH, chunkPlaced_tokens.
Qed.

(** *** A chunk of an over-wide word is placed *)

Lemma appendFragment_places chunk h st :
  chunk <> [] -> (0 < widthOfText chunk)%Q ->
  placed chunk h (append chunk h false st).
Proof.
  intros Hne Hw. unfold appendFragment. destruct chunk as [|c t]; [done|].
  destruct (Qle_bool _ _) eqn:Hle; [apply Qle_bool_iff in Hle; lra|].
  destruct (last (currentLine st)) as [l|] eqn:Hlast.
  - destruct (bool_decide _ && _) eqn:Hsame.
    + apply andb_prop in Hsame as [Hh Hs]. apply bool_decide_eq_true in Hh.
      apply eqb_prop in Hs.
      apply last_Some in Hlast as [init Hinit].
      eexists _, _. split; [right; reflexivity|]. cbn [currentLine].
      rewrite Hinit, length_app. simpl. rewrite alter_app_r_alt by lia.
      replace (length init + 1 - 1 - length init)%nat with 0%nat by lia. simpl.
      split; [apply elem_of_app; right; by left|].
      split; [done|]. split; [done|]. exists (fragText l), []. simpl.
      by rewrite app_nil_r.
    + eexists _, _. split; [right; reflexivity|]. cbn [currentLine].
      split; [apply elem_of_app; right; by left|].
      split; [done|]. split; [done|]. exists [], []. simpl. by rewrite app_nil_r.
  - eexists _, _. split; [right; reflexivity|]. cbn [currentLine].
    split; [apply elem_of_app; right; by left|].
    split; [done|]. split; [done|]. exists [], []. simpl. by rewrite app_nil_r.
Qed.

Lemma placeChunks_places chunk h chunks st :
  chunk ∈ chunks -> chunk <> [] -> (0 < widthOfText chunk)%Q ->
  placed chunk h (placeChunks widthOfText maxWidthPt h chunks st).
Proof.
  revert st. induction chunks as [|c rest IH]; intros st Hin Hne Hw;
    [by apply elem_of_nil in Hin|].
  cbn [placeChunks]. apply elem_of_cons in Hin as [<-|Hin]; [|by apply IH].
  apply chunkPlaced_chunks.
  set (st1 := if _ && _ then commit false st else st).
  destruct rest; [by apply appendFragment_places|].
  by apply chunkPlaced_commit, appendFragment_places.
Qed.

Lemma layoutToken_places chunk h word st :
  (maxWidthPt < widthOfText word)%Q ->
  chunk ∈ split word -> (0 < widthOfText chunk)%Q ->
  placed chunk h (layoutToken widthOfText maxWidthPt h st (TextToken word)).
Proof.
  intros Hwide Hin Hw. unfold layoutToken. simpl.
  destruct word as [|c t]; [by apply elem_of_nil in Hin|].
  rewrite (Qgtb_intro _ _ Hwide). apply placeChunks_places; [done| |done].
  destruct (splitWordByWidth_spec (c :: t)) as [Hok _].
  by destruct (proj1 (Forall_forall _ _) Hok chunk Hin).
Qed.

Lemma layoutTokens_place chunk h word tokens st :
  TextToken word ∈ tokens ->
  (maxWidthPt < widthOfText word)%Q ->
  chunk ∈ split word -> (0 < widthOfText chunk)%Q ->
  placed chunk h (fold_left (layoutToken widthOfText maxWidthPt h) tokens st).
Proof.
  revert st. induction tokens as [|token tokens IH]; intros st Hin Hwide Hc Hw;
    [by apply elem_of_nil in Hin|].
  cbn [fold_left]. apply elem_of_cons in Hin as [<-|Hin]; [|by apply IH].
  by apply chunkPlaced_tokens, layoutToken_places.
Qed.

Lemma layoutSegments_place chunk segment word segs st :
  segment ∈ segs -> TextToken word ∈ tokenizeFootnoteText (text segment) ->
  (maxWidthPt < widthOfText word)%Q ->
  chunk ∈ split word -> (0 < widthOfText chunk)%Q ->
  placed chunk (href segment)
    (fold_left (layoutSegment widthOfText maxWidthPt) segs st).
Proof.
  revert st. induction segs as [|s segs IH]; intros st Hin Htok Hwide Hc Hw;
    [by apply elem_of_nil in Hin|].
  cbn [fold_left]. apply elem_of_cons in Hin as [<-|Hin]; [|by apply IH].
  apply chunkPlaced_segments. unfold layoutSegment. by eapply layoutTokens_place.
Qed.

(** *** A glyph wider than the budget has a line to itself *)

Local Abbreviation alone := (chunkAlone widthOfText).

Lemma trimTrailingSpaces_alone chunk h st :
  currentLine st = [textFragment widthOfText chunk h] ->
  currentLine (trimSpaces st) = [textFragment widthOfText chunk h].
Proof. intros Hc. unfold trimTrailingSpaces. by rewrite Hc. Qed.

Lemma commitLine_alone chunk h allowEmpty st :
  alone chunk h st -> [textFragment widthOfText chunk h] ∈ lines (commit allowEmpty st).
Proof.
  intros [Hl|Hc]; [by apply commitLine_lines|].
  unfold commitLine. cbn [lines]. rewrite (trimTrailingSpaces_alone chunk h st Hc).
  rewrite orb_true_r. apply elem_of_app. right. by left.
Qed.

Lemma appendFragment_noop t h space st :
  (widthOfText t <= 0)%Q -> append t h space st = st.
Proof.
  intros Hw. unfold appendFragment. destruct t; [done|].
  by rewrite (Qle_bool_intro _ _ Hw).
Qed.

Lemma alone_width chunk h st :
  LayoutInv st -> currentLine st = [textFragment widthOfText chunk h] ->
  (currentWidth st == widthOfText chunk)%Q.
Proof. intros [_ _ Hw _] Hc. rewrite Hw, Hc. simpl. lra. Qed.

(** What is put behind a glyph wider than the budget: a line break first,
    unless it is a text the font measures as not positive, which is dropped. *)
Lemma chunkAlone_guarded chunk h t h' space st :
  LayoutInv st -> (maxWidthPt < widthOfText chunk)%Q ->
  currentLine st = [textFragment widthOfText chunk h] ->
  (Qgtb (currentWidth st) 0 && Qgtb (currentWidth st + widthOfText t) maxWidthPt = true)
  \/ (Qgtb (currentWidth st) 0 && Qgtb (currentWidth st + widthOfText t) maxWidthPt = false
      /\ append t h' space st = st).
Proof.
  intros Hinv Hwide Hc. pose proof (alone_width chunk h st Hinv Hc) as Hw.
  rewrite (Qgtb_intro (currentWidth st) 0) by lra. cbn [andb].
  destruct (Qgtb (currentWidth st + widthOfText t) maxWidthPt) eqn:Hover; [by left|right].
  split; [done|]. apply Qgtb_false in Hover. apply appendFragment_noop. lra.
Qed.

Lemma placeChunks_cons h c rest st :
  placeChunks widthOfText maxWidthPt h (c :: rest) st
  = placeChunks widthOfText maxWidthPt h rest
      (match rest with
       | [] => placeChunks widthOfText maxWidthPt h [c] st
       | _ => commit false (placeChunks widthOfText maxWidthPt h [c] st)
       end).
Proof. by destruct rest. Qed.

Lemma chunkAlone_chunks chunk h h' chunks st :
  LayoutInv st -> (maxWidthPt < widthOfText chunk)%Q ->
  alone chunk h st -> alone chunk h (placeChunks widthOfText maxWidthPt h' chunks st).
Proof.
  intros Hinv Hwide [Hl|Hc]; [left; by apply placeChunks_lines|].
  destruct chunks as [|c rest]; [by right|].
  rewrite placeChunks_cons. cbn [placeChunks].
  destruct (chunkAlone_guarded chunk h c h' false st Hinv Hwide Hc) as [-> | [-> Hnoop]].
  - left. apply placeChunks_lines.
    assert (H1 : [textFragment widthOfText chunk h]
                 ∈ lines (append c h' false (commit false st))).
    { rewrite appendFragment_lines. apply commitLine_alone. by right. }
    destruct rest; [done|by apply commitLine_lines].
  - rewrite Hnoop. destruct rest; [by right|].
    left. apply placeChunks_lines, commitLine_alone. by right.
Qed.

Lemma chunkAlone_token chunk h h' st token :
  LayoutInv st -> (maxWidthPt < widthOfText chunk)%Q ->
  alone chunk h st -> alone chunk h (layoutToken widthOfText maxWidthPt h' st token).
Proof.
  intros Hinv Hwide [Hl|Hc]; [left; by apply layoutToken_lines|].
  unfold layoutToken.
  destruct token as [t| |]; [| |left; apply commitLine_alone; by right].
  - simpl. destruct t as [|c t]; [by right|].
    destruct (Qgtb (widthOfText (c :: t)) maxWidthPt).
    + apply chunkAlone_chunks; [done|done|by right].
    + destruct (chunkAlone_guarded chunk h (c :: t) h' false st Hinv Hwide Hc)
        as [-> | [-> Hnoop]].
      * left. rewrite appendFragment_lines. apply commitLine_alone. by right.
      * rewrite Hnoop. by right.
  - simpl. pose proof (alone_width chunk h st Hinv Hc) as Hw.
    destruct (Qle_bool (currentWidth st) 0) eqn:Hle; [apply Qle_bool_iff in Hle; lra|].
    destruct (chunkAlone_guarded chunk h [32%N] h' true st Hinv Hwide Hc)
      as [-> | [-> Hnoop]].
    + left. apply commitLine_alone. by right.
    + rewrite Hnoop. by right.
Qed.

Lemma layoutTokens_inv h tokens st :
  LayoutInv st -> LayoutInv (fold_left (layoutToken widthOfText maxWidthPt h) tokens st).
Proof.
  revert st. induction tokens as [|token tokens IH]; intros st Hst; [done|].
  cbn [fold_left]. apply IH, layoutToken_inv, Hst.
Qed.

Lemma layoutSegments_inv segs st :
  LayoutInv st -> LayoutInv (fold_left (layoutSegment widthOfText maxWidthPt) segs st).
Proof.
  revert st. induction segs as [|s segs IH]; intros st Hst; [done|].
  cbn [fold_left]. apply IH, layoutSegment_inv, Hst.
Qed.

Lemma chunkAlone_tokens chunk h h' tokens st :
  LayoutInv st -> (maxWidthPt < widthOfText chunk)%Q ->
  alone chunk h st ->
  alone chunk h (fold_left (layoutToken widthOfText maxWidthPt h') tokens st).
Proof.
  revert st. induction tokens as [|token tokens IH]; intros st Hinv Hwide Ha; [done|].
  cbn [fold_left]. apply IH; [by apply layoutToken_inv|done|by apply chunkAlone_token].
Qed.

Lemma chunkAlone_segments chunk h segs st :
  LayoutInv st -> (maxWidthPt < widthOfText chunk)%Q ->
  alone chunk h st ->
  alone chunk h (fold_left (layoutSegment widthOfText maxWidthPt) segs st).
Proof.
  revert st. induction segs as [|s segs IH]; intros st Hinv Hwide Ha; [done|].
  cbn [fold_left]. apply IH; [by apply layoutSegment_inv|done|].
  by apply chunkAlone_tokens.
Qed.

Lemma placeChunks_isolates chunk h chunks st :
  LayoutInv st -> Forall chunkOK chunks ->
  chunk ∈ chunks -> (maxWidthPt < widthOfText chunk)%Q ->
  alone chunk h (placeChunks widthOfText maxWidthPt h chunks st).
Proof.
  revert st. induction chunks as [|c rest IH]; intros st Hinv Hok Hin Hwide;
    [by apply elem_of_nil in Hin|].
  apply Forall_cons in Hok as [Hc Hok].
  assert (Hone : LayoutInv (placeChunks widthOfText maxWidthPt h [c] st)).
  { apply placeChunks_inv; [done|by apply Forall_singleton]. }
  rewrite placeChunks_cons.
  apply elem_of_cons in Hin as [<-|Hin].
  - assert (Halone : alone chunk h (placeChunks widthOfText maxWidthPt h [chunk] st)).
    { right. cbn [placeChunks].
      set (st1 := if _ && _ then commit false st else st).
      assert (Hnil : currentLine st1 = []).
      { subst st1. destruct (Qgtb (currentWidth st) 0) eqn:Hpos.
        - apply Qgtb_true in Hpos.
          rewrite (Qgtb_intro (currentWidth st + widthOfText chunk) maxWidthPt) by lra.
          by destruct (commitLine_inv false st Hinv).
        - apply Qgtb_false in Hpos. by apply nonpositive_width_empty. }
      unfold appendFragment. destruct Hc as [Hne _].
      destruct chunk as [|g t]; [done|].
      destruct (Qle_bool _ _) eqn:Hle; [apply Qle_bool_iff in Hle; lra|].
      by rewrite Hnil. }
    destruct rest; [exact Halone|].
    left. apply placeChunks_lines. by apply commitLine_alone.
  - apply IH; [|done|done|done].
    destruct rest; [done|]. by destruct (commitLine_inv false _ Hone).
Qed.

Lemma layoutToken_isolates chunk h word st :
  LayoutInv st -> (maxWidthPt < widthOfText word)%Q ->
  chunk ∈ split word -> (maxWidthPt < widthOfText chunk)%Q ->
  alone chunk h (layoutToken widthOfText maxWidthPt h st (TextToken word)).
Proof.
  intros Hinv Hwide Hin Hw. unfold layoutToken. simpl.
  destruct word as [|c t]; [by apply elem_of_nil in Hin|].
  rewrite (Qgtb_intro _ _ Hwide).
  apply placeChunks_isolates; [done| |done|done]. apply splitWordByWidth_spec.
Qed.

Lemma layoutTokens_isolate chunk h word tokens st :
  LayoutInv st -> TextToken word ∈ tokens ->
  (maxWidthPt < widthOfText word)%Q ->
  chunk ∈ split word -> (maxWidthPt < widthOfText chunk)%Q ->
  alone chunk h (fold_left (layoutToken widthOfText maxWidthPt h) tokens st).
Proof.
  revert st. induction tokens as [|token tokens IH]; intros st Hinv Hin Hwide Hc Hw;
    [by apply elem_of_nil in Hin|].
  cbn [fold_left]. apply elem_of_cons in Hin as [<-|Hin].
  - apply chunkAlone_tokens; [by apply layoutToken_inv|done|].
    by apply layoutToken_isolates.
  - apply IH; [by apply layoutToken_inv|done..].
Qed.

Lemma layoutSegments_isolate chunk segment word segs st :
  LayoutInv st -> segment ∈ segs ->
  TextToken word ∈ tokenizeFootnoteText (text segment) ->
  (maxWidthPt < widthOfText word)%Q ->
  chunk ∈ split word -> (maxWidthPt < widthOfText chunk)%Q ->
  alone chunk (href segment)
    (fold_left (layoutSegment widthOfText maxWidthPt) segs st).
Proof.
  revert st. induction segs as [|s segs IH]; intros st Hinv Hin Htok Hwide Hc Hw;
    [by apply elem_of_nil in Hin|].
  cbn [fold_left]. apply elem_of_cons in Hin as [<-|Hin].
  - apply chunkAlone_segments; [by apply layoutSegment_inv|done|].
    unfold layoutSegment. by eapply layoutTokens_isolate.
  - apply IH; [by apply layoutSegment_inv|done..].
Qed.

(** The lines of the result are those of the last state. *)
Lemma layoutFootnoteSegments_line segs line :
  let st := trimSpaces (fold_left (layoutSegment widthOfText maxWidthPt) segs
                          {| lines := []; currentLine := []; currentWidth := 0 |}) in
  line ∈ lines st \/ (line = currentLine st /\ line <> []) ->
  line ∈ layoutFootnoteSegments widthOfText maxWidthPt segs.
Proof.
  intros st Hline. unfold layoutFootnoteSegments. fold st.
  assert (Hin : line ∈ match currentLine st with
                       | [] => lines st
                       | _ => lines st ++ [currentLine st]
                       end).
  { destruct Hline as [Hl|[-> Hne]].
    - destruct (currentLine st); [done|]. apply elem_of_app. by left.
    - destruct (currentLine st); [done|]. apply elem_of_app. right. by left. }
  destruct (match currentLine st with [] => lines st | _ => _ end);
    [by apply elem_of_nil in Hin|done].
Qed.

(** C6. For every segment list and every positive width budget, each line
    [layoutFootnoteSegments] produces has a fragment-width sum within the
    budget, unless the line is a single fragment made of one glyph that is
    itself wider than the budget. The chunks [splitWordByWidth] cuts a word
    into are non-empty and give back the word; each one fits the budget or is
    a single glyph, and each but the last is full: the first glyph of the next
    chunk would make it wider than the budget. The chunks of a word wider than
    the budget reach the lines: every chunk the font measures as positive is
    part of the text of a text fragment of some line, with the link of its
    segment, and a chunk wider than the budget, which is a single glyph, is a
    line of its own. *)
Theorem lines_fit_budget (segs : list Segment) :
  Forall (fun line =>
            (lineWidth line <= maxWidthPt)%Q
            \/ exists f g, line = [f] /\ fragText f = [g]
                           /\ width f = widthOfText [g]
                           /\ (maxWidthPt < widthOfText [g])%Q)
         (layoutFootnoteSegments widthOfText maxWidthPt segs)
  /\ (forall word,
       concat (splitWordByWidth widthOfText maxWidthPt word) = word
       /\ Forall (fun chunk =>
                    chunk <> []
                    /\ ((widthOfText chunk <= maxWidthPt)%Q \/ exists g, chunk = [g]))
                 (splitWordByWidth widthOfText maxWidthPt word)
       /\ greedyChunks widthOfText maxWidthPt
            (splitWordByWidth widthOfText maxWidthPt word))
  /\ (forall segment word chunk,
        segment ∈ segs ->
        TextToken word ∈ tokenizeFootnoteText (text segment) ->
        (maxWidthPt < widthOfText word)%Q ->
        chunk ∈ splitWordByWidth widthOfText maxWidthPt word ->
        ((0 < widthOfText chunk)%Q ->
         exists line f,
           line ∈ layoutFootnoteSegments widthOfText maxWidthPt segs
           /\ f ∈ line /\ showsChunk chunk (href segment) f)
        /\ ((maxWidthPt < widthOfText chunk)%Q ->
            (exists g, chunk = [g])
            /\ [textFragment widthOfText chunk (href segment)]
               ∈ layoutFootnoteSegments widthOfText maxWidthPt segs)).
Proof.
  set (st0 := {| lines := []; currentLine := []; currentWidth := 0 |}).
  assert (H0 : LayoutInv st0).
  { split; simpl; [done|done|lra|apply lineOK_nil]. }
  split; [|split].
  - unfold layoutFootnoteSegments. fold st0.
    destruct (trimTrailingSpaces_inv _ (layoutSegments_inv segs st0 H0)) as [[H1 H2 H3 H4] _].
    set (st := trimTrailingSpaces _) in *.
    assert (Hall : Forall lineOK
              match currentLine st with [] => lines st | _ => lines st ++ [currentLine st] end).
    { destruct (currentLine st); [done|].
      apply Forall_app. split; [done|by apply Forall_singleton]. }
    destruct (match currentLine st with [] => lines st | _ => _ end); [|exact Hall].
    apply Forall_singleton, lineOK_nil.
  - intros word. destruct (splitWordByWidth_spec word) as [Hok Hcat].
    split; [done|]. split; [done|]. apply splitWordByWidth_greedy.
  - intros segment word chunk Hseg Htok Hwide Hchunk. split.
    + intros Hpos.
      pose proof (layoutSegments_place chunk segment word segs st0 Hseg Htok Hwide
                    Hchunk Hpos) as Hplaced.
      apply chunkPlaced_trim in Hplaced as (line & f & Hline & Hf & Hshow).
      exists line, f. split; [|done].
      apply layoutFootnoteSegments_line. fold st0.
      destruct Hline as [Hl | ->]; [by left|right]. split; [done|].
      intros Hnil. rewrite Hnil in Hf. by apply elem_of_nil in Hf.
    + intros Hover.
      destruct (splitWordByWidth_spec word) as [Hok _].
      destruct (proj1 (Forall_forall _ _) Hok chunk Hchunk) as [_ [Hfit|Hg]]; [lra|].
      split; [done|].
      pose proof (layoutSegments_isolate chunk segment word segs st0 H0 Hseg Htok Hwide
                    Hchunk Hover) as Halone.
      apply layoutFootnoteSegments_line. fold st0.
      destruct Halone as [Hl|Hc].
      * left. by rewrite trimTrailingSpaces_lines.
      * right. by rewrite (trimTrailingSpaces_alone _ _ _ Hc).
Qed.

End WidthBudget.


(** ** Text flow layout: what survives wrapping *)

Section TextContent.

Variable widthOfText : jsstring -> Q.
Variable maxWidthPt : Q.
Hypothesis width_positive : forall s, s <> [] -> (0 < widthOfText s)%Q.

Local Abbreviation W := withoutWhitespace.
Local Abbreviation append := (appendFragment widthOfText).

Local Arguments appendFragment : simpl never.
Local Arguments commitLine : simpl never.
Local Arguments trimTrailingSpaces : simpl never.
Local Arguments splitWordByWidth : simpl never.

Lemma W_app a b : W (a ++ b) = W a ++ W b.
Proof. unfold withoutWhitespace. apply List.filter_app. Qed.

Lemma fragsText_app a b : fragsText (a ++ b) = fragsText a ++ fragsText b.
Proof. unfold fragsText. by rewrite fmap_app, concat_app. Qed.

Lemma linesText_snoc ls l : linesText (ls ++ [l]) = linesText ls ++ fragsText l.
Proof.
  unfold linesText, fragsText. rewrite concat_app. simpl. rewrite app_nil_r.
  by rewrite fmap_app, concat_app.
Qed.

Lemma blank_fragsText l :
  Forall (fun f => isSpace f = true) l -> spacesBlank l -> W (fragsText l) = [].
Proof.
  induction l as [|f l IH]; intros H1 H2; [done|].
  apply Forall_cons in H1 as [Hf H1]. apply Forall_cons in H2 as [Hb H2].
  change (fragsText (f :: l)) with (fragText f ++ fragsText l).
  rewrite W_app, IH by done. rewrite Hb by done. done.
Qed.

Lemma trimTrailingSpaces_content st :
  spacesBlank (currentLine st) ->
  spacesBlank (currentLine (trimTrailingSpaces st))
  /\ content (trimTrailingSpaces st) = content st
  /\ lines (trimTrailingSpaces st) = lines st.
Proof.
  intros Hb. unfold trimTrailingSpaces.
  destruct (popSpaces_spec (rev (currentLine st)) (currentWidth st))
    as (dropped & Hd & _ & Hall).
  destruct (popSpaces _ _) as [reversed w]. simpl in *.
  assert (Hline : currentLine st = rev reversed ++ rev dropped).
  { rewrite <- rev_app_distr, <- Hd. by rewrite rev_involutive. }
  rewrite Hline in Hb. apply Forall_app in Hb as [Hb1 Hb2].
  split; [done|]. split; [|done].
  unfold content. simpl. rewrite Hline, fragsText_app, W_app.
  assert (Hnil : W (fragsText (rev dropped)) = [])
    by (apply blank_fragsText; [by apply Forall_rev|done]).
  by rewrite Hnil, app_nil_r.
Qed.

Lemma commitLine_content allowEmpty st :
  spacesBlank (currentLine st) ->
  spacesBlank (currentLine (commitLine allowEmpty st))
  /\ content (commitLine allowEmpty st) = content st.
Proof.
  intros Hb. destruct (trimTrailingSpaces_content st Hb) as (_ & Hc & Hl).
  unfold commitLine. split; [by constructor|]. rewrite <- Hc. unfold content. simpl.
  rewrite app_nil_r.
  destruct (currentLine (trimTrailingSpaces st)) as [|f l] eqn:Hcur.
  - simpl. rewrite app_nil_r. destruct allowEmpty; simpl; [|done].
    by rewrite linesText_snoc, W_app, app_nil_r.
  - rewrite orb_true_r. by rewrite linesText_snoc, W_app.
Qed.

Lemma appendFragment_content t h space st :
  spacesBlank (currentLine st) -> (space = true -> W t = []) ->
  spacesBlank (currentLine (append t h space st))
  /\ content (append t h space st) = content st ++ W t.
Proof.
  intros Hb Hsp. unfold appendFragment.
  destruct t as [|c t]; [by rewrite app_nil_r|].
  assert (Hw : Qle_bool (widthOfText (c :: t)) 0 = false).
  { destruct (Qle_bool _ 0) eqn:Hle; [|done]. apply Qle_bool_iff in Hle.
      assert (0 < widthOfText (c :: t))%Q by (by apply width_positive). lra. }
  rewrite Hw.
  assert (Hpush : forall stp,
            lines stp = lines st ->
            currentLine stp = currentLine st ++
               [ {| fragText := c :: t; fragHref := hrefOrNull h;
                    width := widthOfText (c :: t); isSpace := space |} ] ->
            spacesBlank (currentLine stp) /\ content stp = content st ++ W (c :: t)).
  { intros stp Hl Hc. unfold content. rewrite Hl, Hc. split.
    - apply Forall_app. split; [done|]. by apply Forall_singleton.
    - rewrite fragsText_app, W_app. unfold fragsText at 2. simpl.
      by rewrite app_nil_r, app_assoc. }
  destruct (last (currentLine st)) as [l|] eqn:Hlast; [|by apply Hpush].
  destruct (_ && _) eqn:Hsame; [|by apply Hpush].
  apply andb_true_iff in Hsame as [_ Hsame]. apply eqb_prop in Hsame.
  apply last_Some in Hlast as [init Hinit].
  unfold content. simpl. rewrite Hinit in *. rewrite length_app. simpl.
  rewrite alter_app_r_alt by lia.
  replace (length init + 1 - 1 - length init)%nat with 0%nat by lia. simpl.
  apply Forall_app in Hb as [Hb1 Hb2]. rewrite Forall_singleton in Hb2.
  split.
  - apply Forall_app. split; [done|]. apply Forall_singleton. simpl.
    intros Hs. rewrite W_app, (Hb2 Hs). apply Hsp. congruence.
  - rewrite !fragsText_app, !W_app. unfold fragsText at 2 4. simpl.
    rewrite !app_nil_r, W_app. by rewrite <- !app_assoc.
Qed.

Lemma placeChunks_content h chunks st :
  spacesBlank (currentLine st) ->
  let st' := placeChunks widthOfText maxWidthPt h chunks st in
  spacesBlank (currentLine st') /\ content st' = content st ++ W (concat chunks).
Proof.
  revert st. induction chunks as [|chunk rest IH]; intros st Hb; simpl.
  - by rewrite app_nil_r.
  - set (st1 := if _ && _ then commitLine false st else st).
    assert (H1 : spacesBlank (currentLine st1) /\ content st1 = content st).
    { subst st1. destruct (_ && _); [|done]. by apply commitLine_content. }
    destruct H1 as [Hb1 Hc1].
    destruct (appendFragment_content chunk h false st1 Hb1) as [Hb2 Hc2]; [done|].
    set (st2 := append chunk h false st1) in *.
    set (st3 := match rest with [] => st2 | _ => commitLine false st2 end).
    assert (H3 : spacesBlank (currentLine st3) /\ content st3 = content st2).
    { subst st3. destruct rest; [done|]. by apply commitLine_content. }
    destruct H3 as [Hb3 Hc3].
    destruct (IH st3 Hb3) as [Hb4 Hc4]. split; [done|].
    rewrite Hc4, Hc3, Hc2, Hc1, W_app. by rewrite <- app_assoc.
Qed.

Lemma split_concat word :
  concat (splitWordByWidth widthOfText maxWidthPt word) = word.
Proof.
  unfold splitWordByWidth.
  assert (H : forall parts chunk,
            let st := fold_left (splitGlyph widthOfText maxWidthPt) word (parts, chunk) in
            concat st.1 ++ st.2 = concat parts ++ chunk ++ word).
  { induction word as [|g word IH]; intros parts chunk.
    - simpl. by rewrite app_nil_r.
    - cbn [fold_left]. cbv zeta.
      assert (Hs : concat (splitGlyph widthOfText maxWidthPt (parts, chunk) g).1
                   ++ (splitGlyph widthOfText maxWidthPt (parts, chunk) g).2
                   = concat parts ++ chunk ++ [g]).
      { unfold splitGlyph. destruct chunk as [|c chunk]; [done|].
        destruct (Qgtb _ _); simpl; [|done].
        rewrite concat_app. simpl. by rewrite app_nil_r, <- app_assoc. }
      destruct (splitGlyph widthOfText maxWidthPt (parts, chunk) g) as [parts' chunk'].
      etrans; [apply IH|]. cbn [fst snd] in Hs.
      rewrite app_assoc. etrans; [exact (f_equal (fun l => l ++ word) Hs)|].
      by rewrite <- !app_assoc. }
  specialize (H [] []). destruct (fold_left _ word _) as [parts chunk].
  simpl in H. destruct chunk as [|c chunk].
  - by rewrite app_nil_r in H.
  - rewrite concat_app. simpl. by rewrite app_nil_r.
Qed.

Lemma layoutToken_content h st token :
  spacesBlank (currentLine st) ->
  let st' := layoutToken widthOfText maxWidthPt h st token in
  spacesBlank (currentLine st') /\ content st' = content st ++ W (tokenText token).
Proof.
  intros Hb. unfold layoutToken. destruct token as [t| |].
  - simpl. destruct t as [|c t]; [by rewrite app_nil_r|].
    destruct (Qgtb (widthOfText (c :: t)) maxWidthPt).
    + pose proof (placeChunks_content h
                    (splitWordByWidth widthOfText maxWidthPt (c :: t)) st Hb) as H.
      by rewrite split_concat in H.
    + destruct (_ && _).
      * destruct (commitLine_content false st Hb) as [Hn Hc].
        rewrite <- Hc. by apply appendFragment_content.
      * by apply appendFragment_content.
  - simpl. rewrite app_nil_r. destruct (Qle_bool _ _); [done|].
    destruct (_ && _).
    + by apply commitLine_content.
    + pose proof (appendFragment_content [32%N] h true st Hb (fun _ => eq_refl)) as H.
      by rewrite app_nil_r in H.
  - simpl. rewrite app_nil_r. by apply commitLine_content.
Qed.

Lemma W_cons c s :
  W (c :: s) = if isWhitespace c then W s else c :: W s.
Proof. unfold withoutWhitespace. simpl. by destruct (isWhitespace c). Qed.

Lemma W_replaceCRLF_bounded n s :
  (length s <= n)%nat -> W (replaceCRLF s) = W s.
Proof.
  assert (H13 : isWhitespace 13%N = true) by reflexivity.
  assert (H10 : isWhitespace 10%N = true) by reflexivity.
  revert s. induction n as [|n IH]; intros s Hs.
  - destruct s; [done|]. simpl in Hs. lia.
  - destruct s as [|c r]; [done|]. simpl in Hs. cbn [replaceCRLF].
    destruct (N.eqb_spec c 13%N) as [->|Hc].
    + destruct r as [|d r']; [done|]. simpl in Hs.
      destruct (N.eqb_spec d 10%N) as [->|Hd].
      * rewrite !W_cons, H13, H10. apply IH. lia.
      * rewrite !(W_cons 13%N), H13. apply IH. simpl. lia.
    + rewrite !W_cons. rewrite IH by lia. done.
Qed.

Lemma W_replaceCRLF s : W (replaceCRLF s) = W s.
Proof. by apply (W_replaceCRLF_bounded (length s)). Qed.

Lemma W_map f s :
  (forall c, isWhitespace c = false -> f c = c) ->
  (forall c, isWhitespace c = true -> isWhitespace (f c) = true) ->
  W (List.map f s) = W s.
Proof.
  intros H1 H2. induction s as [|c s IH]; [done|].
  unfold withoutWhitespace in *. simpl.
  destruct (isWhitespace c) eqn:Hc.
  - by rewrite (H2 _ Hc).
  - rewrite (H1 _ Hc), Hc. simpl. by f_equal.
Qed.

Lemma W_normalizeText s : W (normalizeText s) = W s.
Proof.
  unfold normalizeText. rewrite !W_map, W_replaceCRLF; [done|..].
  - intros c Hc. destruct (N.eqb_spec c 13%N) as [->|]; done.
  - intros c Hc. destruct (N.eqb_spec c 13%N) as [->|]; done.
  - intros c Hc. destruct (N.eqb_spec c 160%N) as [->|]; done.
  - intros c Hc. destruct (N.eqb_spec c 160%N) as [->|]; done.
Qed.

Lemma tokensText_snoc tokens token :
  tokensText (tokens ++ [token]) = tokensText tokens ++ tokenText token.
Proof. unfold tokensText. rewrite fmap_app, concat_app. simpl. by rewrite app_nil_r. Qed.

Lemma flush_text st :
  tokensText (flush st).1 ++ (flush st).2 = tokensText st.1 ++ st.2.
Proof.
  unfold flush. destruct st as [tokens buffer]. simpl.
  destruct buffer; [done|]. simpl. rewrite tokensText_snoc. simpl. by rewrite app_nil_r.
Qed.

Lemma flush_buffer st : (flush st).2 = [].
Proof. unfold flush. destruct st as [tokens buffer]. by destruct buffer. Qed.

Lemma tokenizeChar_text st c :
  W (tokensText (tokenizeChar st c).1 ++ (tokenizeChar st c).2)
  = W (tokensText st.1 ++ st.2) ++ W [c].
Proof.
  unfold tokenizeChar. destruct (N.eqb_spec c 10%N) as [->|Hc].
  - simpl. rewrite tokensText_snoc. simpl. rewrite app_nil_r, !app_nil_r.
    rewrite <- (flush_text st).
    by rewrite flush_buffer, app_nil_r.
  - destruct (isWhitespace c) eqn:Hws.
    + assert (Hwc : W [c] = []) by (unfold withoutWhitespace; simpl; by rewrite Hws).
      rewrite Hwc, app_nil_r. rewrite <- (flush_text st).
      set (fs := flush st).
      assert (Hadd : W (tokensText (fs.1 ++ [SpaceToken]) ++ fs.2)
                     = W (tokensText fs.1 ++ fs.2)).
      { subst fs. rewrite tokensText_snoc, flush_buffer, !app_nil_r, W_app.
        simpl. by rewrite app_nil_r. }
      destruct (last fs.1) as [[| |]|]; simpl; first [done | exact Hadd].
    + simpl. rewrite app_assoc, W_app. done.
Qed.

Lemma tokenize_text t : W (tokensText (tokenizeFootnoteText t)) = W t.
Proof.
  unfold tokenizeFootnoteText. rewrite <- (W_normalizeText t).
  assert (H : forall s st,
            W (tokensText (fold_left tokenizeChar s st).1 ++ (fold_left tokenizeChar s st).2)
            = W (tokensText st.1 ++ st.2) ++ W s).
  { induction s as [|c s IH]; intros st; simpl; [by rewrite app_nil_r|].
    rewrite IH, tokenizeChar_text, <- app_assoc. f_equal.
    symmetry. apply (W_app [c] s). }
  specialize (H (normalizeText t) ([], [])). simpl in H. rewrite <- H.
  rewrite <- flush_text.
  by rewrite flush_buffer, app_nil_r.
Qed.

Lemma layoutSegment_content st segment :
  spacesBlank (currentLine st) ->
  let st' := layoutSegment widthOfText maxWidthPt st segment in
  spacesBlank (currentLine st') /\ content st' = content st ++ W (text segment).
Proof.
  intros Hb. unfold layoutSegment. rewrite <- (tokenize_text (text segment)).
  generalize (tokenizeFootnoteText (text segment)). intros tokens. revert st Hb.
  induction tokens as [|token tokens IH]; intros st Hb; simpl.
  - by rewrite app_nil_r.
  - destruct (layoutToken_content (href segment) st token Hb) as [Hb1 Hc1].
    destruct (IH _ Hb1) as [Hb2 Hc2]. split; [done|].
    rewrite Hc2, Hc1. unfold tokensText. simpl. rewrite W_app. by rewrite <- app_assoc.
Qed.

(** The visible characters of the segment texts are the visible characters
    of the lines. *)
Lemma layout_visible_text (segs : list Segment) :
  withoutWhitespace (linesText (layoutFootnoteSegments widthOfText maxWidthPt segs))
  = withoutWhitespace (segmentsText segs).
Proof.
  unfold layoutFootnoteSegments.
  set (st0 := {| lines := []; currentLine := []; currentWidth := 0 |}).
  assert (Hfold : forall l st, spacesBlank (currentLine st) ->
            let st' := fold_left (layoutSegment widthOfText maxWidthPt) l st in
            spacesBlank (currentLine st') /\ content st' = content st ++ W (segmentsText l)).
  { induction l as [|s l IH]; intros st Hb; simpl.
    - by rewrite app_nil_r.
    - destruct (layoutSegment_content st s Hb) as [Hb1 Hc1].
      destruct (IH _ Hb1) as [Hb2 Hc2]. split; [done|].
      rewrite Hc2, Hc1. unfold segmentsText. simpl. rewrite W_app.
      by rewrite <- app_assoc. }
  destruct (Hfold segs st0) as [Hb Hc]; [by constructor|].
  destruct (trimTrailingSpaces_content _ Hb) as (_ & Hc' & _).
  rewrite <- Hc' in Hc. unfold content at 2 in Hc. simpl in Hc.
  rewrite <- Hc. unfold content.
  set (st := trimTrailingSpaces _).
  destruct (currentLine st) as [|f l] eqn:Hcur.
  - simpl. rewrite app_nil_r. destruct (lines st); done.
  - assert (Hne : lines st ++ [f :: l] <> []) by (by destruct (lines st)).
    destruct (lines st ++ [f :: l]) eqn:Hl; [done|]. rewrite <- Hl.
    by rewrite linesText_snoc, W_app.
Qed.

End TextContent.

(** ** Text flow layout: where the white space goes *)

Lemma endsInGap_cons g c s : endsInGap g (c :: s) = endsInGap (isWhitespace c) s.
Proof.
  unfold endsInGap. destruct s as [|d s]; [done|]. simpl.
  destruct (last (d :: s)) eqn:E; [done|]. by apply last_None in E.
Qed.

Lemma endsInGap_app g a b : endsInGap g (a ++ b) = endsInGap (endsInGap g a) b.
Proof.
  revert g. induction a as [|c a IH]; intros g; [done|].
  simpl. by rewrite !endsInGap_cons, IH.
Qed.

Lemma marked_app g a b : marked g (a ++ b) = marked g a ++ marked (endsInGap g a) b.
Proof.
  revert g. induction a as [|c a IH]; intros g; [done|].
  simpl. rewrite endsInGap_cons. destruct (isWhitespace c); [apply IH|].
  simpl. by rewrite IH.
Qed.

Lemma marked_blank g w : Forall (fun c => isWhitespace c = true) w -> marked g w = [].
Proof.
  revert g. induction w as [|c w IH]; intros g Hw; [done|].
  apply Forall_cons in Hw as [Hc Hw]. simpl. rewrite Hc. by apply IH.
Qed.

Lemma endsInGap_blank g (w : list N) :
  Forall (fun c => isWhitespace c = true) w -> w <> [] -> endsInGap g w = true.
Proof.
  intros Hw Hne. destruct w as [|c w] using rev_ind; [done|].
  unfold endsInGap. rewrite last_snoc. apply Forall_app in Hw as [_ Hw].
  by inversion Hw.
Qed.

Lemma endsInGap_blank_mono g w :
  Forall (fun c => isWhitespace c = true) w -> g = true -> endsInGap g w = true.
Proof.
  intros Hw ->. destruct w as [|c w]; [done|]. by apply endsInGap_blank.
Qed.

Lemma gapsWithin_refl m : gapsWithin m m.
Proof. induction m; constructor; auto. Qed.

Lemma gapsWithin_app a a' b b' :
  gapsWithin a b -> gapsWithin a' b' -> gapsWithin (a ++ a') (b ++ b').
Proof. apply Forall2_app. Qed.

Lemma marked_mono g1 g2 t :
  (g1 = true -> g2 = true) ->
  gapsWithin (marked g1 t) (marked g2 t)
  /\ (endsInGap g1 t = true -> endsInGap g2 t = true).
Proof.
  revert g1 g2. induction t as [|c t IH]; intros g1 g2 Hg; [split; [constructor|done]|].
  simpl. rewrite !endsInGap_cons. destruct (isWhitespace c) eqn:Hc.
  - split; [|done]. apply (IH true true). done.
  - split; [|done]. constructor; [done|apply gapsWithin_refl].
Qed.

(** The same text behind both. *)
Lemma gapsLe_app g1 a g2 b t :
  gapsLe g1 a g2 b -> gapsLe g1 (a ++ t) g2 (b ++ t).
Proof.
  intros [Hm He]. unfold gapsLe. rewrite !marked_app, !endsInGap_app.
  destruct (marked_mono (endsInGap g1 a) (endsInGap g2 b) t He) as [Hm' He'].
  split; [by apply gapsWithin_app|done].
Qed.

(** White space behind the text that has the gaps of the other. *)
Lemma gapsLe_blank_r g1 a g2 b w :
  Forall (fun c => isWhitespace c = true) w ->
  gapsLe g1 a g2 b -> gapsLe g1 a g2 (b ++ w).
Proof.
  intros Hw [Hm He]. unfold gapsLe. rewrite marked_app, endsInGap_app.
  rewrite (marked_blank _ w Hw), app_nil_r. split; [done|].
  intros Ha. apply endsInGap_blank_mono; [done|auto].
Qed.

(** White space behind the other text, when this one ends in a gap. *)
Lemma gapsLe_blank_l g1 a g2 b w :
  Forall (fun c => isWhitespace c = true) w ->
  endsInGap g2 b = true ->
  gapsLe g1 a g2 b -> gapsLe g1 (a ++ w) g2 b.
Proof.
  intros Hw Hb [Hm He]. unfold gapsLe. rewrite marked_app.
  rewrite (marked_blank _ w Hw), app_nil_r. done.
Qed.

(** White space taken from the end of the text with fewer gaps. *)
Lemma gapsLe_trim_l g1 a g2 b w :
  Forall (fun c => isWhitespace c = true) w ->
  gapsLe g1 (a ++ w) g2 b -> gapsLe g1 a g2 b.
Proof.
  intros Hw [Hm He]. unfold gapsLe in *. rewrite marked_app in Hm.
  rewrite (marked_blank _ w Hw), app_nil_r in Hm. split; [done|].
  intros Ha. apply He. rewrite endsInGap_app. by apply endsInGap_blank_mono.
Qed.

(** White space at the end of the text with more gaps replaced by other
    white space, or taken away when a gap is left. *)
Lemma gapsLe_swap_r g1 a g2 b w w' :
  Forall (fun c => isWhitespace c = true) w ->
  Forall (fun c => isWhitespace c = true) w' ->
  endsInGap g2 (b ++ w') = true ->
  gapsLe g1 a g2 (b ++ w) -> gapsLe g1 a g2 (b ++ w').
Proof.
  intros Hw Hw' Hend [Hm He]. unfold gapsLe in *. rewrite marked_app in *.
  rewrite (marked_blank _ w Hw) in Hm. rewrite (marked_blank _ w' Hw').
  done.
Qed.

Lemma marked_visible g s : (marked g s).*2 = withoutWhitespace s.
Proof.
  revert g. induction s as [|c s IH]; intros g; [done|].
  unfold withoutWhitespace in *. simpl. destruct (isWhitespace c); simpl; [apply IH|].
  f_equal. apply IH.
Qed.

(** *** Tokens keep the gaps of the text *)

(** Two texts with the same visible characters and the same gaps. *)
Local Abbreviation sameGaps a b :=
  (forall g, marked g a = marked g b /\ endsInGap g a = endsInGap g b).

Lemma sameGaps_app (a a' b b' : list N) :
  sameGaps a a' -> sameGaps b b' -> sameGaps (a ++ b) (a' ++ b').
Proof.
  intros Ha Hb g. rewrite !marked_app, !endsInGap_app.
  destruct (Ha g) as [-> ->]. by destruct (Hb (endsInGap g a')) as [-> ->].
Qed.

Lemma sameGaps_blank (c d : N) :
  isWhitespace c = true -> isWhitespace d = true -> sameGaps [c] [d].
Proof. intros Hc Hd g. simpl. unfold endsInGap. simpl. by rewrite Hc, Hd. Qed.

Lemma sameGaps_absorb (a : list N) (c : N) :
  (forall g, endsInGap g a = true) -> isWhitespace c = true -> sameGaps a (a ++ [c]).
Proof.
  intros Ha Hc g. rewrite marked_app, endsInGap_app. simpl. rewrite Hc.
  rewrite app_nil_r, Ha. unfold endsInGap. simpl. by rewrite Hc.
Qed.

Lemma sameGaps_replaceCRLF_bounded n (s : list N) :
  (length s <= n)%nat -> sameGaps (replaceCRLF s) s.
Proof.
  assert (H13 : isWhitespace 13%N = true) by reflexivity.
  assert (H10 : isWhitespace 10%N = true) by reflexivity.
  revert s. induction n as [|n IH]; intros s Hs g.
  - destruct s; [done|]. simpl in Hs. lia.
  - destruct s as [|c r]; [done|]. simpl in Hs. cbn [replaceCRLF].
    destruct (N.eqb_spec c 13%N) as [->|Hc].
    + destruct r as [|d r']; [done|]. simpl in Hs.
      destruct (N.eqb_spec d 10%N) as [->|Hd].
      * cbn [marked]. rewrite !endsInGap_cons, H13, H10. apply IH. lia.
      * cbn [marked]. rewrite !(endsInGap_cons _ 13%N), H13. apply IH. simpl. lia.
    + cbn [marked]. rewrite !endsInGap_cons.
      destruct (IH r ltac:(lia) true) as [E1 _].
      destruct (IH r ltac:(lia) false) as [E2 _].
      destruct (IH r ltac:(lia) (isWhitespace c)) as [_ E3].
      rewrite E1, E2, E3. done.
Qed.

Lemma sameGaps_map (f : N -> N) (s : list N) :
  (forall c, isWhitespace c = false -> f c = c) ->
  (forall c, isWhitespace c = true -> isWhitespace (f c) = true) ->
  sameGaps (List.map f s) s.
Proof.
  intros H1 H2. induction s as [|c s IH]; intros g; [done|].
  cbn [List.map marked]. rewrite !endsInGap_cons.
  destruct (isWhitespace c) eqn:Hc.
  - rewrite (H2 _ Hc). apply IH.
  - rewrite (H1 _ Hc), Hc. destruct (IH false) as [-> ->]. done.
Qed.

Lemma sameGaps_normalizeText (s : list N) : sameGaps (normalizeText s) s.
Proof.
  intros g. unfold normalizeText.
  pose proof (sameGaps_map (fun c => if (c =? 160)%N then 32%N else c)
              (List.map (fun c => if (c =? 13)%N then 10%N else c) (replaceCRLF s))) as H1.
  pose proof (sameGaps_map (fun c => if (c =? 13)%N then 10%N else c) (replaceCRLF s)) as H2.
  pose proof (sameGaps_replaceCRLF_bounded (length s) s (le_n _)) as H3.
  assert (H1' := fun a b => H1 a b g). assert (H2' := fun a b => H2 a b g).
  destruct H1' as [E1 E1'].
  { intros c Hc. destruct (N.eqb_spec c 160%N) as [->|]; done. }
  { intros c Hc. destruct (N.eqb_spec c 160%N) as [->|]; done. }
  destruct H2' as [E2 E2'].
  { intros c Hc. destruct (N.eqb_spec c 13%N) as [->|]; done. }
  { intros c Hc. destruct (N.eqb_spec c 13%N) as [->|]; done. }
  destruct (H3 g) as [E3 E3'].
  split; [exact (eq_trans E1 (eq_trans E2 E3)) | exact (eq_trans E1' (eq_trans E2' E3'))].
Qed.

Lemma tokensSource_snoc tokens token :
  tokensSource (tokens ++ [token]) = tokensSource tokens ++ tokenSource token.
Proof. unfold tokensSource. rewrite fmap_app, concat_app. simpl. by rewrite app_nil_r. Qed.

Lemma tokensSource_app a b : tokensSource (a ++ b) = tokensSource a ++ tokensSource b.
Proof. unfold tokensSource. by rewrite fmap_app, concat_app. Qed.

(** What holds of the tokens and the buffer after the characters [s]. *)
Local Abbreviation tokenizing s st :=
  (sameGaps (tokensSource st.1 ++ st.2) s
   /\ Forall wordToken st.1
   /\ Forall (fun c => isWhitespace c = false) st.2).

Lemma flush_tokenizing (s : list N) st :
  tokenizing s st -> tokenizing s (flush st) /\ (flush st).2 = [].
Proof.
  destruct st as [tokens buffer]. unfold flush. simpl.
  intros (Hs & Ht & Hb). destruct buffer as [|c buffer]; [done|].
  simpl. split; [|done]. rewrite tokensSource_snoc, app_nil_r. simpl.
  split; [done|]. split; [|done].
  apply Forall_app. split; [done|]. apply Forall_singleton. by split.
Qed.

Lemma tokenizeChar_tokenizing (s : list N) st (c : N) :
  tokenizing s st -> tokenizing (s ++ [c]) (tokenizeChar st c).
Proof.
  intros Hst. unfold tokenizeChar.
  destruct (flush_tokenizing s st Hst) as [(Hs & Ht & Hb) Hnil].
  destruct (N.eqb_spec c 10%N) as [->|Hc].
  - cbn [fst snd]. rewrite Hnil in *. rewrite app_nil_r in *.
    rewrite tokensSource_snoc. simpl.
    split; [|split; [|done]].
    + apply sameGaps_app; [done|]. intros g. done.
    + apply Forall_app. split; [done|]. by apply Forall_singleton.
  - destruct (isWhitespace c) eqn:Hws.
    + rewrite Hnil in *. rewrite app_nil_r in *.
      destruct (last (flush st).1) as [[t| |]|] eqn:Hlast.
      all: cbn [fst snd]; rewrite ?Hnil, ?app_nil_r, ?tokensSource_snoc.
      all: try (split; [|split; [|done]];
                [ apply sameGaps_app; [done|by apply sameGaps_blank]
                | apply Forall_app; split; [done|by apply Forall_singleton] ]).
      split; [|by split].
      apply last_Some in Hlast as [init Hinit].
      rewrite Hinit, tokensSource_snoc in *. simpl in *.
      intros g. destruct (Hs g) as [Hm He].
      rewrite (marked_app g s), (endsInGap_app g s).
      assert (Hc1 : forall g', marked g' [c] = []) by (intros g'; simpl; by rewrite Hws).
      assert (Hc2 : forall g', endsInGap g' [c] = true)
        by (intros g'; unfold endsInGap; simpl; by rewrite Hws).
      rewrite Hc1, Hc2, app_nil_r. split; [done|].
      rewrite endsInGap_app. reflexivity.
    + cbn [fst snd]. destruct Hst as (Hs0 & Ht0 & Hb0).
      split; [|split; [done|]].
      * rewrite app_assoc. apply sameGaps_app; [done|]. intros g. done.
      * apply Forall_app. split; [done|]. by apply Forall_singleton.
Qed.

Lemma tokenize_fold (s done_ : list N) st :
  tokenizing done_ st -> tokenizing (done_ ++ s) (fold_left tokenizeChar s st).
Proof.
  revert done_ st. induction s as [|c s IH]; intros done_ st Hst.
  - by rewrite app_nil_r.
  - cbn [fold_left]. replace (done_ ++ c :: s) with ((done_ ++ [c]) ++ s)
      by (by rewrite <- app_assoc).
    by apply IH, tokenizeChar_tokenizing.
Qed.

Lemma tokenize_source (t : list N) :
  sameGaps (tokensSource (tokenizeFootnoteText t)) t
  /\ Forall wordToken (tokenizeFootnoteText t).
Proof.
  unfold tokenizeFootnoteText.
  assert (H0 : tokenizing [] (@nil Token, @nil N)).
  { split; [done|]. split; constructor. }
  pose proof (tokenize_fold (normalizeText t) [] _ H0) as Hfold. simpl in Hfold.
  destruct (flush_tokenizing _ _ Hfold) as [(Hs & Ht & _) Hnil].
  rewrite Hnil, app_nil_r in Hs. split; [|done].
  intros g. destruct (Hs g) as [-> ->]. apply sameGaps_normalizeText.
Qed.

(** *** Runs of white space *)

Lemma longestBlank_ge n (s : list N) : (n <= longestBlank n s)%nat.
Proof.
  revert n. induction s as [|c s IH]; intros n; [done|].
  simpl. destruct (isWhitespace c); [|lia]. pose proof (IH (S n)). lia.
Qed.

Lemma trailingBlank_le n (s : list N) : (trailingBlank n s <= longestBlank n s)%nat.
Proof.
  revert n. induction s as [|c s IH]; intros n; [done|].
  simpl. destruct (isWhitespace c); [apply IH|]. pose proof (IH 0%nat). lia.
Qed.

Lemma longestBlank_app n (a b : list N) :
  longestBlank n (a ++ b)
  = Nat.max (longestBlank n a) (longestBlank (trailingBlank n a) b).
Proof.
  revert n. induction a as [|c a IH]; intros n.
  - simpl. pose proof (longestBlank_ge n b). lia.
  - simpl. destruct (isWhitespace c); [apply IH|]. rewrite IH. lia.
Qed.

Lemma trailingBlank_app n (a b : list N) :
  trailingBlank n (a ++ b) = trailingBlank (trailingBlank n a) b.
Proof.
  revert n. induction a as [|c a IH]; intros n; [done|].
  simpl. destruct (isWhitespace c); apply IH.
Qed.

Lemma longestBlank_visible n (t : list N) :
  Forall (fun c => isWhitespace c = false) t -> longestBlank n t = n.
Proof.
  intros Ht. revert n. induction Ht as [|c t Hc Ht IH]; intros n; [done|].
  simpl. rewrite Hc, IH. lia.
Qed.

Lemma trailingBlank_visible n (t : list N) :
  Forall (fun c => isWhitespace c = false) t -> t <> [] -> trailingBlank n t = 0%nat.
Proof.
  intros Ht Hne. destruct t as [|c t]; [done|].
  apply Forall_cons in Ht as [Hc Ht]. simpl. rewrite Hc.
  clear Hne Hc. induction Ht as [|d t Hd Ht IH]; [done|]. simpl. by rewrite Hd.
Qed.

Lemma singleSpaces_nil : singleSpaces [].
Proof. intros (a & b & E). by destruct a. Qed.

Lemma singleSpaces_snoc tokens token :
  singleSpaces tokens ->
  (token = SpaceToken -> last tokens <> Some SpaceToken) ->
  singleSpaces (tokens ++ [token]).
Proof.
  intros Hs Hlast (a & b & E). destruct b as [|y b _] using rev_ind.
  - change (a ++ [SpaceToken; SpaceToken]) with (a ++ [SpaceToken] ++ [SpaceToken]) in E.
    rewrite app_assoc in E. apply app_inj_tail in E as [-> ->].
    apply Hlast; [done|]. by rewrite last_snoc.
  - change (a ++ SpaceToken :: SpaceToken :: b ++ [y])
      with (a ++ (SpaceToken :: SpaceToken :: b) ++ [y]) in E.
    rewrite app_assoc in E. apply app_inj_tail in E as [-> _].
    apply Hs. by exists a, b.
Qed.

Lemma singleSpaces_tail token tokens : singleSpaces (token :: tokens) -> singleSpaces tokens.
Proof. intros Hs (a & b & ->). apply Hs. by exists (token :: a), b. Qed.

Lemma singleSpaces_head tokens :
  singleSpaces (SpaceToken :: tokens) -> head tokens <> Some SpaceToken.
Proof.
  intros Hs Hhead. destruct tokens as [|t tokens]; [done|].
  simpl in Hhead. injection Hhead as ->. apply Hs. by exists [], tokens.
Qed.

Lemma flush_singleSpaces st : singleSpaces st.1 -> singleSpaces (flush st).1.
Proof.
  destruct st as [tokens buffer]. unfold flush. simpl.
  destruct buffer as [|c buffer]; [done|]. simpl. intros Hs.
  by apply singleSpaces_snoc.
Qed.

Lemma tokenizeChar_singleSpaces st (c : N) :
  singleSpaces st.1 -> singleSpaces (tokenizeChar st c).1.
Proof.
  intros Hst. pose proof (flush_singleSpaces st Hst) as Hs. unfold tokenizeChar.
  destruct (c =? 10)%N; [by apply singleSpaces_snoc|].
  destruct (isWhitespace c); [|done].
  destruct (last (flush st).1) as [[t| |]|] eqn:Hlast; try done.
  all: apply singleSpaces_snoc; [done|]; intros _; by rewrite Hlast.
Qed.

Lemma tokenize_singleSpaces (t : list N) : singleSpaces (tokenizeFootnoteText t).
Proof.
  unfold tokenizeFootnoteText. apply flush_singleSpaces.
  assert (H : forall s st, singleSpaces st.1 -> singleSpaces (fold_left tokenizeChar s st).1).
  { induction s as [|c s IH]; intros st Hst; [done|].
    cbn [fold_left]. by apply IH, tokenizeChar_singleSpaces. }
  apply H. apply singleSpaces_nil.
Qed.

Section TextSpacing.

Variable widthOfText : jsstring -> Q.
Variable maxWidthPt : Q.
Hypothesis width_positive : forall s, s <> [] -> (0 < widthOfText s)%Q.

Local Abbreviation append := (appendFragment widthOfText).
Local Abbreviation blank := (Forall (fun c : N => isWhitespace c = true)).
Local Abbreviation broken := linesBroken.

Local Arguments appendFragment : simpl never.
Local Arguments commitLine : simpl never.
Local Arguments trimTrailingSpaces : simpl never.
Local Arguments splitWordByWidth : simpl never.

Lemma broken_snoc ls l : broken (ls ++ [l]) = broken ls ++ fragsText l ++ [10%N].
Proof. unfold linesBroken. rewrite fmap_app, concat_app. simpl. by rewrite app_nil_r. Qed.

Lemma broken_ends ls : endsInGap true (broken ls) = true.
Proof.
  destruct ls as [|l ls] using rev_ind; [done|].
  rewrite broken_snoc, !endsInGap_app. done.
Qed.

Lemma linesJoined_snoc ls l : join [10%N] (fragsText <$> ls ++ [l]) = broken ls ++ fragsText l.
Proof.
  induction ls as [|x ls IH]; [done|].
  destruct ls as [|y ls].
  - unfold linesBroken. simpl. by rewrite app_nil_r, <- app_assoc.
  - change (join [10%N] (fragsText <$> (x :: y :: ls) ++ [l]))
      with (fragsText x ++ [10%N] ++ join [10%N] (fragsText <$> (y :: ls) ++ [l])).
    rewrite IH. unfold linesBroken. simpl. by rewrite <- !app_assoc.
Qed.

Lemma blank_spaces l :
  Forall (fun f => isSpace f = true) l ->
  Forall (fun f => isSpace f = true -> blank (fragText f)) l ->
  blank (fragsText l).
Proof.
  induction l as [|f l IH]; intros H1 H2; [constructor|].
  apply Forall_cons in H1 as [Hf H1]. apply Forall_cons in H2 as [Hb H2].
  change (fragsText (f :: l)) with (fragText f ++ fragsText l).
  apply Forall_app. split; auto.
Qed.

(** What [trimTrailingSpaces] takes from the line. *)
Lemma trimTrailingSpaces_dropped st :
  exists dropped,
    currentLine st = currentLine (trimTrailingSpaces st) ++ dropped
    /\ Forall (fun f => isSpace f = true) dropped
    /\ lines (trimTrailingSpaces st) = lines st.
Proof.
  unfold trimTrailingSpaces.
  destruct (popSpaces_spec (rev (currentLine st)) (currentWidth st))
    as (dropped & Hd & _ & Hall).
  destruct (popSpaces _ _) as [reversed w]. simpl in *.
  exists (rev dropped). split; [|split; [by apply Forall_rev|done]].
  rewrite <- rev_app_distr, <- Hd. by rewrite rev_involutive.
Qed.

Lemma FlowInv_empty_line st source :
  FlowInv st source -> (currentWidth st <= 0)%Q -> currentLine st = [].
Proof.
  intros [Hw Hp _ _ _ _] Hle. destruct (currentLine st) as [|f l] eqn:Hl; [done|].
  exfalso. assert (0 < lineWidth (f :: l))%Q by (by apply lineWidth_positive).
  rewrite <- Hw in H. lra.
Qed.

(** White space of the source that falls on the start of a line. *)
Lemma FlowInv_blank st source w :
  FlowInv st source -> currentLine st = [] -> blank w -> FlowInv st (source ++ w).
Proof.
  intros [H1 H2 H3 H4 H5 H6] Hnil Hw. split; try done.
  - by apply gapsLe_blank_r.
  - apply gapsLe_blank_l; [done| |done].
    unfold laidOutBroken. rewrite Hnil. simpl. rewrite app_nil_r. apply broken_ends.
Qed.

Lemma commitLine_flow allowEmpty st source :
  FlowInv st source ->
  FlowInv (commitLine allowEmpty st) source
  /\ currentLine (commitLine allowEmpty st) = [].
Proof.
  intros [H1 H2 H3 H4 H5 H6].
  destruct (trimTrailingSpaces_dropped st) as (dropped & Hcur & Hsp & Hlines).
  assert (Hblank : blank (fragsText dropped)).
  { apply blank_spaces; [done|]. rewrite Hcur in H3. by apply Forall_app in H3 as [_ ?]. }
  unfold commitLine. split; [|done].
  set (trimmed := currentLine (trimTrailingSpaces st)) in *.
  assert (Hlaid : linesText (if allowEmpty || (0 <? length trimmed)%nat
                             then lines (trimTrailingSpaces st) ++ [trimmed]
                             else lines (trimTrailingSpaces st))
                  = linesText (lines st) ++ fragsText trimmed).
  { rewrite Hlines. destruct trimmed as [|f l].
    - simpl. rewrite orb_false_r. destruct allowEmpty; [by rewrite linesText_snoc|].
      by rewrite app_nil_r.
    - rewrite orb_true_r. by rewrite linesText_snoc. }
  unfold laidOut, laidOutBroken in *. rewrite Hcur, fragsText_app in *.
  split; cbn [lines currentLine currentWidth].
  - simpl. lra.
  - constructor.
  - constructor.
  - unfold laidOut. cbn [lines currentLine]. rewrite Hlaid.
    change (fragsText []) with (@nil N). rewrite app_nil_r.
    rewrite app_assoc in H4. by apply Forall_app in H4 as [? _].
  - unfold laidOut. cbn [lines currentLine]. rewrite Hlaid.
    change (fragsText []) with (@nil N). rewrite app_nil_r.
    rewrite app_assoc in H5. by apply gapsLe_trim_l in H5.
  - unfold laidOutBroken. cbn [lines currentLine].
    change (fragsText []) with (@nil N). rewrite app_nil_r, Hlines.
    destruct (allowEmpty || (0 <? length trimmed)%nat) eqn:Hpush.
    + rewrite broken_snoc, app_assoc. rewrite app_assoc in H6.
      apply (gapsLe_swap_r _ _ _ _ (fragsText dropped)); try done.
      * by repeat constructor.
      * by rewrite endsInGap_app.
    + apply orb_false_iff in Hpush as [_ Hlen].
      destruct trimmed as [|f l]; [|done].
      change (fragsText []) with (@nil N) in H6. rewrite app_nil_l in H6.
      rewrite <- (app_nil_r (broken (lines st))).
      apply (gapsLe_swap_r _ _ _ _ (fragsText dropped)); try done.
      rewrite app_nil_r. apply broken_ends.
Qed.

Lemma appendFragment_flow t h space st source :
  FlowInv st source -> plainSpaces t -> (space = true -> blank t) ->
  FlowInv (append t h space st) (source ++ t).
Proof.
  intros [H1 H2 H3 H4 H5 H6] Hplain Hsp. unfold appendFragment.
  destruct t as [|c t].
  { rewrite app_nil_r. by split. }
  assert (Hpos : (0 < widthOfText (c :: t))%Q) by (by apply width_positive).
  assert (Hw : Qle_bool (widthOfText (c :: t)) 0 = false).
  { destruct (Qle_bool _ 0) eqn:Hle; [|done]. apply Qle_bool_iff in Hle. lra. }
  rewrite Hw.
  assert (Hgen : forall stp,
            lines stp = lines st ->
            (currentWidth stp == currentWidth st + widthOfText (c :: t))%Q ->
            (lineWidth (currentLine stp)
             == lineWidth (currentLine st) + widthOfText (c :: t))%Q ->
            Forall (fun f => (0 < width f)%Q) (currentLine stp) ->
            Forall (fun f => isSpace f = true -> blank (fragText f)) (currentLine stp) ->
            fragsText (currentLine stp) = fragsText (currentLine st) ++ c :: t ->
            FlowInv stp (source ++ c :: t)).
  { intros stp Hl Hcw Hlw Hp Hb Htext. split; try done.
    - rewrite Hcw, Hlw, H1. reflexivity.
    - unfold laidOut in *. rewrite Hl, Htext, app_assoc. by apply Forall_app.
    - unfold laidOut in *. rewrite Hl, Htext, app_assoc. by apply gapsLe_app.
    - unfold laidOutBroken in *. rewrite Hl, Htext, app_assoc. by apply gapsLe_app. }
  assert (Hpush : FlowInv
            {| lines := lines st;
               currentLine := currentLine st ++
                 [ {| fragText := c :: t; fragHref := hrefOrNull h;
                      width := widthOfText (c :: t); isSpace := space |} ];
               currentWidth := (currentWidth st + widthOfText (c :: t))%Q |}
            (source ++ c :: t)).
  { apply Hgen; cbn [lines currentLine currentWidth]; try done.
    - rewrite lineWidth_app. simpl. lra.
    - apply Forall_app. split; [done|]. by apply Forall_singleton.
    - apply Forall_app. split; [done|]. by apply Forall_singleton.
    - rewrite fragsText_app. unfold fragsText at 2. simpl. by rewrite app_nil_r. }
  destruct (last (currentLine st)) as [l|] eqn:Hlast; [|exact Hpush].
  destruct (_ && _) eqn:Hsame; [|exact Hpush].
  apply andb_true_iff in Hsame as [_ Hsame]. apply eqb_prop in Hsame.
  apply last_Some in Hlast as [init Hinit].
  assert (Halter : alter (fun l => {| fragText := fragText l ++ c :: t;
                                      fragHref := fragHref l;
                                      width := (width l + widthOfText (c :: t))%Q;
                                      isSpace := isSpace l |})
                     (length (currentLine st) - 1)%nat (currentLine st)
                   = init ++ [ {| fragText := fragText l ++ c :: t;
                                  fragHref := fragHref l;
                                  width := (width l + widthOfText (c :: t))%Q;
                                  isSpace := isSpace l |} ]).
  { rewrite Hinit, length_app. simpl. rewrite alter_app_r_alt by lia.
    by replace (length init + 1 - 1 - length init)%nat with 0%nat by lia. }
  rewrite Halter. clear Halter Hpush.
  rewrite Hinit in *.
  apply Forall_app in H2 as [H2 H2']. rewrite Forall_singleton in H2'.
  apply Forall_app in H3 as [H3 H3']. rewrite Forall_singleton in H3'.
  apply Hgen; cbn [lines currentLine currentWidth]; try done.
  - rewrite !lineWidth_app. simpl. lra.
  - apply Forall_app. split; [done|]. apply Forall_singleton. simpl. lra.
  - apply Forall_app. split; [done|]. apply Forall_singleton. simpl.
    intros Hs. apply Forall_app. split; [auto|]. apply Hsp. congruence.
  - rewrite !fragsText_app. unfold fragsText at 2 4. simpl.
    by rewrite !app_nil_r, <- app_assoc.
Qed.


Lemma visible_plain (t : list N) :
  Forall (fun c => isWhitespace c = false) t -> plainSpaces t.
Proof. intros H. eapply Forall_impl; [exact H|]. intros c Hc Hw. simpl in *. congruence. Qed.

Lemma placeChunks_flow h chunks st source :
  FlowInv st source ->
  Forall (fun c => isWhitespace c = false) (concat chunks) ->
  FlowInv (placeChunks widthOfText maxWidthPt h chunks st) (source ++ concat chunks).
Proof.
  revert st source. induction chunks as [|chunk rest IH]; intros st source Hst Hvis.
  - simpl. by rewrite app_nil_r.
  - simpl in Hvis. apply Forall_app in Hvis as [Hchunk Hrest].
    cbn [placeChunks]. cbv zeta.
    set (st1 := if _ && _ then commitLine false st else st).
    assert (H1 : FlowInv st1 source).
    { subst st1. destruct (_ && _); [|done]. by apply commitLine_flow. }
    assert (H2 : FlowInv (append chunk h false st1) (source ++ chunk)).
    { apply appendFragment_flow; [done|by apply visible_plain|done]. }
    set (st2 := append chunk h false st1) in *.
    set (st3 := match rest with [] => st2 | _ => commitLine false st2 end).
    assert (H3 : FlowInv st3 (source ++ chunk)).
    { subst st3. destruct rest; [done|]. by apply commitLine_flow. }
    simpl. rewrite app_assoc. by apply IH.
Qed.

Lemma layoutToken_flow h st source token :
  FlowInv st source -> wordToken token ->
  FlowInv (layoutToken widthOfText maxWidthPt h st token) (source ++ tokenSource token).
Proof.
  intros Hst Hword. unfold layoutToken. destruct token as [t| |].
  - destruct Hword as [Hne Hvis]. cbn [tokenText tokenSource].
    destruct t as [|c t]; [done|]. cbn [negb andb].
    destruct (Qgtb (widthOfText (c :: t)) maxWidthPt).
    + pose proof (placeChunks_flow h
                    (splitWordByWidth widthOfText maxWidthPt (c :: t)) st source Hst) as H.
      rewrite split_concat in H. by apply H.
    + destruct (_ && _).
      * apply appendFragment_flow; [by apply commitLine_flow|by apply visible_plain|done].
      * apply appendFragment_flow; [done|by apply visible_plain|done].
  - cbn [tokenText tokenSource andb].
    assert (Hb : blank [32%N]) by (by repeat constructor).
    destruct (Qle_bool (currentWidth st) 0) eqn:Hle.
    + apply FlowInv_blank; [done| |done].
      apply (FlowInv_empty_line st source Hst). by apply Qle_bool_iff.
    + cbn [negb andb]. destruct (_ && _).
      * destruct (commitLine_flow false st source Hst) as [Hc Hnil].
        by apply FlowInv_blank.
      * apply appendFragment_flow; [done| |done].
        by repeat constructor.
  - cbn [tokenSource].
    destruct (commitLine_flow true st source Hst) as [Hc Hnil].
    apply FlowInv_blank; [done|done|by repeat constructor].
Qed.

Lemma layoutTokens_flow h tokens st source :
  FlowInv st source -> Forall wordToken tokens ->
  FlowInv (fold_left (layoutToken widthOfText maxWidthPt h) tokens st)
          (source ++ tokensSource tokens).
Proof.
  revert st source. induction tokens as [|token tokens IH]; intros st source Hst Hw.
  - simpl. by rewrite app_nil_r.
  - apply Forall_cons in Hw as [Ht Hw]. cbn [fold_left].
    change (tokensSource (token :: tokens))
      with (tokenSource token ++ tokensSource tokens).
    rewrite app_assoc. apply IH; [|done]. by apply layoutToken_flow.
Qed.

Lemma layoutSegments_flow segs st source :
  FlowInv st source ->
  FlowInv (fold_left (layoutSegment widthOfText maxWidthPt) segs st)
          (source ++ segmentsSource segs).
Proof.
  revert st source. induction segs as [|segment segs IH]; intros st source Hst.
  - simpl. by rewrite app_nil_r.
  - cbn [fold_left].
    change (segmentsSource (segment :: segs))
      with (tokensSource (tokenizeFootnoteText (text segment)) ++ segmentsSource segs).
    rewrite app_assoc. apply IH. unfold layoutSegment.
    apply layoutTokens_flow; [done|]. apply tokenize_source.
Qed.

Lemma segmentsSource_gaps segs g :
  marked g (segmentsSource segs) = marked g (segmentsText segs)
  /\ endsInGap g (segmentsSource segs) = endsInGap g (segmentsText segs).
Proof.
  revert g. induction segs as [|segment segs IH]; [done|].
  change (segmentsSource (segment :: segs))
    with (tokensSource (tokenizeFootnoteText (text segment)) ++ segmentsSource segs).
  change (segmentsText (segment :: segs)) with (text segment ++ segmentsText segs).
  apply sameGaps_app; [|done]. apply tokenize_source.
Qed.


Lemma appendFragment_text t h space st :
  lines (append t h space st) = lines st
  /\ fragsText (currentLine (append t h space st)) = fragsText (currentLine st) ++ t.
Proof.
  unfold appendFragment. destruct t as [|c t]; [by rewrite app_nil_r|].
  assert (Hpos : (0 < widthOfText (c :: t))%Q) by (by apply width_positive).
  assert (Hw : Qle_bool (widthOfText (c :: t)) 0 = false).
  { destruct (Qle_bool _ 0) eqn:Hle; [|done]. apply Qle_bool_iff in Hle. lra. }
  rewrite Hw.
  assert (Hpush : fragsText (currentLine st ++
                    [ {| fragText := c :: t; fragHref := hrefOrNull h;
                         width := widthOfText (c :: t); isSpace := space |} ])
                  = fragsText (currentLine st) ++ c :: t).
  { rewrite fragsText_app. unfold fragsText at 2. simpl. by rewrite app_nil_r. }
  destruct (last (currentLine st)) as [l|] eqn:Hlast; [|done].
  destruct (_ && _); [|done].
  apply last_Some in Hlast as [init Hinit]. cbn [lines currentLine]. split; [done|].
  rewrite Hinit, length_app. simpl. rewrite alter_app_r_alt by lia.
  replace (length init + 1 - 1 - length init)%nat with 0%nat by lia. simpl.
  rewrite !fragsText_app. unfold fragsText at 2 4. simpl.
  by rewrite !app_nil_r, <- app_assoc.
Qed.

Lemma RunInv_mono st k tr k' tr' :
  RunInv st k tr -> (k <= k')%nat -> (tr <= tr')%nat -> RunInv st k' tr'.
Proof.
  intros [H1 H2 H3] Hk Ht. split; [|lia|lia].
  eapply Forall_impl; [exact H1|]. intros line Hl. simpl in *. lia.
Qed.

Lemma commitLine_run allowEmpty st k tr :
  RunInv st k tr -> RunInv (commitLine allowEmpty st) k 0.
Proof.
  intros [H1 H2 H3].
  destruct (trimTrailingSpaces_dropped st) as (dropped & Hcur & _ & Hlines).
  unfold commitLine. split; cbn [lines currentLine]; [|simpl; lia|done].
  rewrite Hlines. destruct (_ || _); [|done].
  apply Forall_app. split; [done|]. apply Forall_singleton.
  rewrite Hcur, fragsText_app, longestBlank_app in H2. lia.
Qed.

Lemma appendFragment_run_word t h st k tr :
  RunInv st k tr -> Forall (fun c => isWhitespace c = false) t ->
  RunInv (append t h false st) k (if decide (t = []) then tr else 0%nat).
Proof.
  intros [H1 H2 H3] Hvis.
  destruct (appendFragment_text t h false st) as [Hl Ht].
  pose proof (trailingBlank_le 0 (fragsText (currentLine st))) as Hle.
  split.
  - by rewrite Hl.
  - rewrite Ht, longestBlank_app, (longestBlank_visible _ t Hvis). lia.
  - rewrite Ht, trailingBlank_app. destruct (decide (t = [])) as [->|Hne]; [done|].
    by rewrite trailingBlank_visible.
Qed.

Lemma appendFragment_run_space h st k tr :
  RunInv st k tr -> (tr < k)%nat -> RunInv (append [32%N] h true st) k (S tr).
Proof.
  intros [H1 H2 H3] Hlt.
  destruct (appendFragment_text [32%N] h true st) as [Hl Ht].
  split.
  - by rewrite Hl.
  - rewrite Ht, longestBlank_app. simpl. lia.
  - rewrite Ht, trailingBlank_app. simpl. lia.
Qed.

Lemma placeChunks_run h chunks st k tr :
  RunInv st k tr -> Forall (fun c => isWhitespace c = false) (concat chunks) ->
  RunInv (placeChunks widthOfText maxWidthPt h chunks st) k
         (if decide (concat chunks = []) then tr else 0%nat).
Proof.
  revert st tr. induction chunks as [|chunk rest IH]; intros st tr Hst Hvis; [done|].
  simpl in Hvis. apply Forall_app in Hvis as [Hchunk Hrest].
  cbn [placeChunks]. cbv zeta.
  set (st1 := if _ && _ then commitLine false st else st).
  assert (H1 : RunInv st1 k tr).
  { subst st1. destruct (_ && _); [|done].
    apply (RunInv_mono _ k 0%nat); [by eapply commitLine_run|lia|lia]. }
  pose proof (appendFragment_run_word chunk h st1 k tr H1 Hchunk) as H2.
  set (st2 := append chunk h false st1) in *.
  set (tr2 := if decide (chunk = []) then tr else 0%nat) in *.
  set (st3 := match rest with [] => st2 | _ => commitLine false st2 end).
  assert (H3 : RunInv st3 k tr2).
  { subst st3. destruct rest; [done|].
    apply (RunInv_mono _ k 0%nat); [by eapply commitLine_run|lia|lia]. }
  pose proof (IH st3 tr2 H3 Hrest) as H4.
  eapply RunInv_mono; [exact H4|lia|].
  subst tr2. simpl. destruct (decide (chunk = [])) as [->|Hne]; [done|].
  destruct (decide (chunk ++ concat rest = [])) as [E|_].
  - by apply app_eq_nil in E as [? _].
  - destruct (decide (concat rest = [])); lia.
Qed.

Lemma layoutToken_run_space h st k tr :
  RunInv st k tr -> (tr < k)%nat ->
  RunInv (layoutToken widthOfText maxWidthPt h st SpaceToken) k (S tr).
Proof.
  intros Hst Hlt. unfold layoutToken. cbn [tokenText negb andb].
  destruct (Qle_bool (currentWidth st) 0).
  - apply (RunInv_mono _ k tr); [done|lia|lia].
  - destruct (_ && _).
    + apply (RunInv_mono _ k 0%nat); [by eapply commitLine_run|lia|lia].
    + by apply appendFragment_run_space.
Qed.

Lemma layoutToken_run_other h st k tr token :
  RunInv st k tr -> wordToken token -> token <> SpaceToken ->
  RunInv (layoutToken widthOfText maxWidthPt h st token) k 0.
Proof.
  intros Hst Hword Hns. unfold layoutToken. destruct token as [t| |]; [|done|].
  - destruct Hword as [Hne Hvis]. cbn [tokenText].
    destruct t as [|c t]; [done|]. cbn [negb andb].
    destruct (Qgtb (widthOfText (c :: t)) maxWidthPt).
    + pose proof (placeChunks_run h
                    (splitWordByWidth widthOfText maxWidthPt (c :: t)) st k tr Hst) as H.
      rewrite split_concat in H. by apply H.
    + destruct (_ && _).
      * apply (appendFragment_run_word (c :: t) h _ k 0%nat); [|done].
        by eapply commitLine_run.
      * by apply (appendFragment_run_word (c :: t) h st k tr).
  - by eapply commitLine_run.
Qed.

Lemma layoutTokens_run h tokens st k tr :
  (0 < k)%nat -> Forall wordToken tokens -> singleSpaces tokens ->
  RunInv st k tr ->
  (tr < k)%nat \/ ((tr <= k)%nat /\ head tokens <> Some SpaceToken) ->
  exists tr', (tr' <= k)%nat
    /\ RunInv (fold_left (layoutToken widthOfText maxWidthPt h) tokens st) k tr'.
Proof.
  intros Hk. revert st tr.
  induction tokens as [|token tokens IH]; intros st tr Hw Hs Hst Htr.
  - exists tr. split; [lia|done].
  - apply Forall_cons in Hw as [Ht Hw]. cbn [fold_left].
    pose proof (singleSpaces_tail _ _ Hs) as Hs'.
    assert (Hcase : token = SpaceToken \/ token <> SpaceToken)
      by (destruct token; auto).
    destruct Hcase as [->|Hns].
    + destruct Htr as [Hlt|[_ Hhead]]; [|done].
      apply (IH _ (S tr)); [done|done|by apply layoutToken_run_space|].
      right. split; [lia|]. by apply singleSpaces_head.
    + apply (IH _ 0%nat); [done|done| |by left].
      by eapply layoutToken_run_other.
Qed.

Lemma layoutSegments_run segs st k tr :
  RunInv st k tr -> (tr <= k)%nat ->
  exists tr', (tr' <= k + length segs)%nat
    /\ RunInv (fold_left (layoutSegment widthOfText maxWidthPt) segs st)
              (k + length segs) tr'.
Proof.
  revert st k tr. induction segs as [|segment segs IH]; intros st k tr Hst Htr.
  - exists tr. simpl. rewrite Nat.add_0_r. done.
  - cbn [fold_left].
    destruct (layoutTokens_run (href segment) (tokenizeFootnoteText (text segment))
                st (S k) tr) as (tr1 & Htr1 & H1).
    + lia.
    + apply tokenize_source.
    + apply tokenize_singleSpaces.
    + apply (RunInv_mono _ k tr); [done|lia|lia].
    + left. lia.
    + destruct (IH _ (S k) tr1 H1 Htr1) as (tr2 & Htr2 & H2).
      exists tr2. simpl. replace (k + S (length segs))%nat with (S k + length segs)%nat by lia.
      done.
Qed.

(** What the last step of [layoutFootnoteSegments] returns. *)
Lemma layoutFootnoteSegments_result segs :
  let st := fold_left (layoutSegment widthOfText maxWidthPt) segs
              {| lines := []; currentLine := []; currentWidth := 0 |} in
  let trimmed := currentLine (trimTrailingSpaces st) in
  let ls := layoutFootnoteSegments widthOfText maxWidthPt segs in
  (ls = lines st ++ [trimmed] /\ trimmed <> [])
  \/ (ls = lines st /\ trimmed = [] /\ lines st <> [])
  \/ (ls = [[]] /\ trimmed = [] /\ lines st = []).
Proof.
  intros st trimmed ls. subst ls. unfold layoutFootnoteSegments. fold st.
  destruct (trimTrailingSpaces_dropped st) as (_ & _ & _ & Hlines).
  fold trimmed. rewrite Hlines.
  destruct trimmed as [|f l] eqn:Ht.
  - destruct (lines st) as [|x r] eqn:Hl; [by right; right|]. right. left. done.
  - left. split; [|done]. destruct (lines st ++ [f :: l]) eqn:E; [|done].
    by destruct (lines st).
Qed.



End TextSpacing.

(** ** Link targets *)

Section LinkTargets.

Variable toFixed2 : Q -> Q.
Variable decodeURIComponent : jsstring -> option jsstring.
Variable encodeURIComponent : jsstring -> option jsstring.
Variable options : InjectOptions.

(** C10 (as the code has it). The tests are made on the href with the white
    space around it trimmed: when the trimmed href does not start with [#],
    has no URL scheme and does not start with [/], [resolveFootnoteLinkSpec]
    returns [null] without throwing, and the direct drawing of a fragment
    with such an href leaves the annotations of the page as they were. *)
Theorem relative_href_gets_no_link (h : jsstring) (existing : gset jsstring) :
  startsWith (js "#") (trim h) = false ->
  hasScheme (trim h) = false ->
  startsWith (js "/") (trim h) = false ->
  resolveFootnoteLinkSpec decodeURIComponent encodeURIComponent h existing
    = Returned None
  /\ forall (fragment : Fragment) (p : PdfPage) (cursorX cursorY : Q),
       fragHref fragment = Some h ->
       exists p' cursorX',
         drawFragment toFixed2 decodeURIComponent encodeURIComponent options
           existing cursorY (Returned (p, cursorX)) fragment
         = Returned (p', cursorX')
         /\ pageAnnots p' = pageAnnots p.
Proof.
  intros Hhash Hscheme Hslash.
  assert (Hres : resolveFootnoteLinkSpec decodeURIComponent encodeURIComponent h existing
                 = Returned None).
  { unfold resolveFootnoteLinkSpec. destruct (trim h) as [|c r] eqn:Hraw; [done|].
    rewrite Hhash, Hscheme, Hslash. done. }
  split; [done|].
  intros fragment p cursorX cursorY Hh. unfold drawFragment. cbn [bindCompletion].
  destruct (fragText fragment) as [|c t]; [eexists _, _; split; reflexivity|].
  rewrite Hh. destruct h as [|c' h']; [eexists _, _; split; reflexivity|].
  destruct (existsb _ _); [|eexists _, _; split; reflexivity].
  rewrite Hres. cbn [bindCompletion]. eexists _, _; split; reflexivity.
Qed.

End LinkTargets.



(** ** The page-offset vote *)

Section OffsetVote.

Lemma fold_tallyAnchor contentPages probePages indices counts :
  fold_left (tallyAnchor contentPages probePages) indices counts
  = fold_left tallyDelta (anchorDeltas contentPages probePages indices) counts.
Proof.
  revert counts. induction indices as [|i indices IH]; intros counts; [done|].
  simpl. rewrite IH. unfold tallyAnchor, anchorDeltas. simpl.
  destruct (truthyPage contentPages i); [|done].
  destruct (truthyPage probePages i); done.
Qed.

Lemma occurrences_snoc d deltas x :
  occurrences d (deltas ++ [x])
  = (occurrences d deltas + if (x =? d)%Z then 1 else 0)%Z.
Proof.
  unfold occurrences. rewrite List.filter_app, length_app. simpl.
  destruct (x =? d)%Z; simpl; lia.
Qed.

Lemma firstSeen_snoc deltas x :
  firstSeen (deltas ++ [x])
  = firstSeen deltas ++ (if bool_decide (x ∈ firstSeen deltas) then [] else [x]).
Proof.
  unfold firstSeen. rewrite fold_left_app. simpl.
  case_bool_decide; [by rewrite app_nil_r|done].
Qed.

Lemma elem_of_firstSeen deltas d : d ∈ firstSeen deltas <-> d ∈ deltas.
Proof.
  revert d. induction deltas as [|x deltas IH] using rev_ind; intros d; [done|].
  rewrite firstSeen_snoc, !elem_of_app, IH, list_elem_of_singleton.
  case_bool_decide as Hx.
  - apply IH in Hx. split.
    + intros [?|Hn]; [by left|]. by apply elem_of_nil in Hn.
    + intros [?| ->]; by left.
  - by rewrite list_elem_of_singleton.
Qed.

Lemma NoDup_firstSeen deltas : NoDup (firstSeen deltas).
Proof.
  induction deltas as [|x deltas IH] using rev_ind; [constructor|].
  rewrite firstSeen_snoc. case_bool_decide as Hx; [by rewrite app_nil_r|].
  apply NoDup_app. split; [done|]. split; [|apply NoDup_singleton].
  intros y Hy ->%list_elem_of_singleton. done.
Qed.

Lemma occurrences_absent d deltas : d ∉ deltas -> occurrences d deltas = 0%Z.
Proof.
  unfold occurrences. induction deltas as [|x deltas IH]; intros Hd; [done|].
  simpl. destruct (Z.eqb_spec x d) as [-> |Hx].
  - exfalso. apply Hd. by left.
  - apply IH. intros Hin. apply Hd. by right.
Qed.

Lemma occurrences_present d deltas : d ∈ deltas -> (1 <= occurrences d deltas)%Z.
Proof.
  unfold occurrences. induction deltas as [|x deltas IH]; intros Hd.
  - by apply elem_of_nil in Hd.
  - simpl. destruct (Z.eqb_spec x d) as [-> |Hx]; [simpl; lia|].
    apply IH. apply elem_of_cons in Hd as [?|?]; [congruence|done].
Qed.

Lemma bool_decide_elem_cons_ne (x k : Z) (keys : list Z) :
  k <> x -> bool_decide (x ∈ k :: keys) = bool_decide (x ∈ keys).
Proof.
  intros Hk. apply bool_decide_ext. rewrite elem_of_cons.
  split; [intros [?|?]; [congruence|done]|by right].
Qed.

Lemma countsGet_map (f : Z -> Z) (keys : list Z) (x : Z) :
  countsGet ((fun k => (k, f k)) <$> keys) x
  = if bool_decide (x ∈ keys) then Some (f x) else None.
Proof.
  induction keys as [|k keys IH]; [done|]. rewrite fmap_cons. cbn [countsGet].
  destruct (Z.eqb_spec k x) as [-> |Hk].
  - rewrite bool_decide_eq_true_2; [done|by left].
  - by rewrite IH, bool_decide_elem_cons_ne.
Qed.

(** Setting the count of [x] in a tally whose keys are distinct. *)
Lemma countsSet_map (f g : Z -> Z) (keys : list Z) (x : Z) :
  NoDup keys -> (forall k, k <> x -> g k = f k) ->
  countsSet ((fun k => (k, f k)) <$> keys) x (g x)
  = ((fun k => (k, g k)) <$> keys) ++ (if bool_decide (x ∈ keys) then [] else [(x, g x)]).
Proof.
  intros Hnd Hfg. induction keys as [|k keys IH]; [done|].
  apply NoDup_cons in Hnd as [Hk Hnd]. rewrite !fmap_cons. cbn [countsSet].
  destruct (Z.eqb_spec k x) as [-> |Hkx].
  - rewrite bool_decide_eq_true_2 by (by left). rewrite app_nil_r. f_equal.
    apply list_fmap_ext. intros i k Hik. f_equal. symmetry. apply Hfg.
    intros ->. apply Hk. by eapply list_elem_of_lookup_2.
  - rewrite IH by done. rewrite bool_decide_elem_cons_ne by done.
    by rewrite (Hfg k Hkx).
Qed.

(** The tally holds the distinct deltas in order of first appearance, each
    with the number of its occurrences. *)
Lemma tally_firstSeen deltas :
  fold_left tallyDelta deltas []
  = (fun d => (d, occurrences d deltas)) <$> firstSeen deltas.
Proof.
  induction deltas as [|x deltas IH] using rev_ind; [done|].
  rewrite fold_left_app. simpl. rewrite IH. unfold tallyDelta.
  rewrite countsGet_map.
  assert (Hnew : (default 0 (if bool_decide (x ∈ firstSeen deltas)
                             then Some (occurrences x deltas) else None) + 1)%Z
                 = occurrences x (deltas ++ [x])).
  { rewrite occurrences_snoc, Z.eqb_refl. case_bool_decide as Hx; [done|].
    simpl. rewrite occurrences_absent; [done|]. by rewrite <- elem_of_firstSeen. }
  rewrite Hnew.
  rewrite (countsSet_map (fun d => occurrences d deltas)
             (fun d => occurrences d (deltas ++ [x]))).
  - rewrite firstSeen_snoc, fmap_app. f_equal. by case_bool_decide.
  - apply NoDup_firstSeen.
  - intros k Hk. rewrite occurrences_snoc.
    destruct (Z.eqb_spec x k); [congruence|lia].
Qed.

(** The scan keeps the first entry of the highest count above the start. *)
Lemma pick_scan (counts : OffsetCounts) (top off : Z) :
  let step := fun (acc : Z * Z) (entry : Z * Z) =>
                let '(topCount, computedOffset) := acc in
                let '(delta, count) := entry in
                if (count >? topCount)%Z then (count, delta) else acc in
  (Forall (fun e => (e.2 <= top)%Z) counts
   /\ fold_left step counts (top, off) = (top, off))
  \/ exists earlier d c later,
       counts = earlier ++ (d, c) :: later
       /\ (top < c)%Z
       /\ Forall (fun e => (e.2 < c)%Z) earlier
       /\ Forall (fun e => (e.2 <= c)%Z) later
       /\ fold_left step counts (top, off) = (c, d).
Proof.
  intros step. revert top off.
  induction counts as [|[d0 c0] counts IH]; intros top off.
  - left. by split.
  - cbn [fold_left]. unfold step at 2 4.
    destruct (Z.gtb_spec c0 top) as [Hgt|Hle].
    + right. destruct (IH c0 d0) as [[Hall Heq]|(earlier & d & c & later & -> & Hc & He & Hl & Heq)].
      * exists [], d0, c0, counts. by repeat split.
      * exists ((d0, c0) :: earlier), d, c, later.
        split; [done|]. split; [lia|]. split; [by constructor|]. by split.
    + destruct (IH top off) as [[Hall Heq]|(earlier & d & c & later & -> & Hc & He & Hl & Heq)].
      * left. split; [by constructor|done].
      * right. exists ((d0, c0) :: earlier), d, c, later.
        split; [done|]. split; [done|]. split; [constructor; [simpl; lia|done]|]. by split.
Qed.

Lemma pickOffset_firstMostFrequent initial deltas :
  firstMostFrequent initial deltas (pickOffset initial (fold_left tallyDelta deltas [])).
Proof.
  unfold pickOffset. rewrite tally_firstSeen. split.
  - intros ->. done.
  - intros Hne.
    destruct (pick_scan ((fun d => (d, occurrences d deltas)) <$> firstSeen deltas)
                0%Z initial)
      as [[Hall _]|(earlier & d & c & later & Hsplit & Hc & He & Hl & Heq)].
    + exfalso. destruct deltas as [|x deltas]; [done|].
      assert (Hx : x ∈ firstSeen (x :: deltas)) by (apply elem_of_firstSeen; by left).
      rewrite Forall_fmap in Hall.
      pose proof (proj1 (Forall_forall _ _) Hall _ Hx) as Hle.
      unfold compose in Hle. cbn [snd] in Hle.
      assert (1 <= occurrences x (x :: deltas))%Z
        by (apply occurrences_present; by left).
      lia.
    + rewrite Heq. simpl.
      apply fmap_app_inv in Hsplit as (ke & kl' & He' & Hl' & HK).
      destruct kl' as [|d' kl]; [done|]. simpl in Hl'. injection Hl' as Hd Hc' Hl'.
      subst d' c earlier later.
      rewrite Forall_fmap in He, Hl. split.
      * intros x. destruct (decide (x ∈ deltas)) as [Hx|Hx].
        -- apply elem_of_firstSeen in Hx. rewrite HK in Hx.
           apply elem_of_app in Hx as [Hx|Hx].
           ++ pose proof (proj1 (Forall_forall _ _) He _ Hx) as Hlt.
              unfold compose in Hlt. cbn [snd] in Hlt. lia.
           ++ apply elem_of_cons in Hx as [-> |Hx]; [lia|].
              by apply (proj1 (Forall_forall _ _) Hl _ Hx).
        -- rewrite (occurrences_absent x) by done. lia.
      * exists ke, kl. split; [done|]. exact He.
Qed.

(** C4 (as the code has it). Both votes compute [probePage - contentPage]
    for every anchor resolved in both renders, count the deltas, and select a
    delta of the highest count; when several deltas share the highest count
    the one that appeared first among the anchors is selected, whatever the
    front-matter page count. The starting value is used only when no anchor
    is resolved in both renders; it is the front-matter page count for the
    table-of-contents vote and the result of that vote for the footnote
    vote. *)
Theorem offset_vote_picks_first_most_frequent
    (tocPageCount : Z) (tocIndices : list Z) (footnoteRefs : list FootnoteRef)
    (markerPages probeMarkerPages : gmap Z Z)
    (latestContentFootnoteMarkerPages probeFootnoteMarkerPages : gmap Z Z) :
  let computedOffset :=
    computeTocOffset tocPageCount tocIndices markerPages probeMarkerPages in
  firstMostFrequent tocPageCount
    (anchorDeltas markerPages probeMarkerPages tocIndices) computedOffset
  /\ firstMostFrequent computedOffset
       (anchorDeltas latestContentFootnoteMarkerPages probeFootnoteMarkerPages
          (omap refIndex footnoteRefs))
       (computeFootnoteOffset computedOffset footnoteRefs
          latestContentFootnoteMarkerPages probeFootnoteMarkerPages).
Proof.
  intros computedOffset. subst computedOffset. split.
  - unfold computeTocOffset. rewrite fold_tallyAnchor.
    apply pickOffset_firstMostFrequent.
  - unfold computeFootnoteOffset.
    assert (Hfold : forall refs counts,
              fold_left
                (fun counts ref =>
                   match refIndex ref with
                   | Some index =>
                       tallyAnchor latestContentFootnoteMarkerPages
                         probeFootnoteMarkerPages counts index
                   | None => counts
                   end) refs counts
              = fold_left (tallyAnchor latestContentFootnoteMarkerPages
                             probeFootnoteMarkerPages)
                  (omap refIndex refs) counts).
    { induction refs as [|r refs IH]; intros counts; [done|]. simpl.
      rewrite IH. by destruct (refIndex r). }
    rewrite Hfold, fold_tallyAnchor. apply pickOffset_firstMostFrequent.
Qed.

End OffsetVote.

(** ** The footer sizing step *)

Section FooterSizingProps.

Variable World : Type.
Variable renderContentPdfWithTableBreaks : Q -> World -> World.
Variable extractFootnoteMarkerPages : World -> gmap Z Z.
Variable applyFootnoteRefUpdates : list RefUpdate -> World -> World.
Variable estimateFootnoteAreaMmInBrowser : World -> list PagePlan -> Q.
Variable setDynamicPageMargins : Q -> World -> World.
Variable toLowerCase : jsstring -> jsstring.
Variable footnoteRefs : list FootnoteRef.
Variable footnoteDefinitionsById : gmap jsstring (list Segment).

Local Abbreviation sizing :=
  (footerSizing World renderContentPdfWithTableBreaks extractFootnoteMarkerPages
     applyFootnoteRefUpdates estimateFootnoteAreaMmInBrowser setDynamicPageMargins
     toLowerCase footnoteRefs footnoteDefinitionsById).
Local Abbreviation cycles :=
  (threeCycles World renderContentPdfWithTableBreaks extractFootnoteMarkerPages
     applyFootnoteRefUpdates toLowerCase footnoteRefs footnoteDefinitionsById).
Local Abbreviation render := (renderStep World renderContentPdfWithTableBreaks).
Local Abbreviation compute :=
  (computeAndApply World extractFootnoteMarkerPages applyFootnoteRefUpdates
     toLowerCase footnoteRefs footnoteDefinitionsById).
Local Abbreviation measure := (estimate World estimateFootnoteAreaMmInBrowser).
Local Abbreviation expand := (expandFooter World setDynamicPageMargins).

Local Abbreviation planIsCurrent :=
  (planIsCurrent toLowerCase footnoteRefs footnoteDefinitionsById).

Lemma renderStep_fields st :
  footnoteAreaMm (render st) = footnoteAreaMm st
  /\ bottomMarginMm (render st) = bottomMarginMm st
  /\ eventLog (render st) = eventLog st ++ [RenderContent (bottomMarginMm st)].
Proof. done. Qed.

Lemma computeAndApply_fields st :
  footnoteAreaMm (compute st) = footnoteAreaMm st
  /\ bottomMarginMm (compute st) = bottomMarginMm st
  /\ eventLog (compute st) = eventLog st ++ [ComputePlan; ApplyRefUpdates]
  /\ planIsCurrent (compute st).
Proof. done. Qed.

Lemma cycle_fields st :
  footnoteAreaMm (compute (render st)) = footnoteAreaMm st
  /\ bottomMarginMm (compute (render st)) = bottomMarginMm st
  /\ eventLog (compute (render st)) = eventLog st ++ cycleEvents (bottomMarginMm st)
  /\ planIsCurrent (compute (render st)).
Proof.
  destruct (computeAndApply_fields (render st)) as (Ha & Hm & Hl & Hp).
  destruct (renderStep_fields st) as (Ha' & Hm' & Hl').
  split; [congruence|]. split; [congruence|]. split; [|done].
  rewrite Hl, Hl'. by rewrite <- app_assoc.
Qed.

Lemma threeCycles_fields st :
  footnoteAreaMm (cycles st) = footnoteAreaMm st
  /\ bottomMarginMm (cycles st) = bottomMarginMm st
  /\ eventLog (cycles st)
     = eventLog st ++ cycleEvents (bottomMarginMm st) ++ cycleEvents (bottomMarginMm st)
       ++ cycleEvents (bottomMarginMm st)
  /\ planIsCurrent (cycles st).
Proof.
  unfold threeCycles.
  destruct (cycle_fields st) as (Ha1 & Hm1 & Hl1 & _).
  destruct (cycle_fields (compute (render st))) as (Ha2 & Hm2 & Hl2 & _).
  destruct (cycle_fields (compute (render (compute (render st))))) as (Ha3 & Hm3 & Hl3 & Hp).
  split; [congruence|]. split; [congruence|]. split; [|done].
  rewrite Hl3, Hl2, Hl1, Hm2, Hm1. by rewrite <- !app_assoc.
Qed.

Lemma estimate_fields st :
  footnoteAreaMm (measure st).2 = footnoteAreaMm st
  /\ bottomMarginMm (measure st).2 = bottomMarginMm st
  /\ eventLog (measure st).2 = eventLog st ++ [EstimateArea]
  /\ (planIsCurrent st -> planIsCurrent (measure st).2).
Proof. done. Qed.

Lemma expandFooter_fields required st :
  footnoteAreaMm (expand required st) = inject_Z (Qceiling (required + 1))
  /\ bottomMarginMm (expand required st)
     = (inject_Z (Qceiling (required + 1)) + pageNumberBandMm)%Q
  /\ eventLog (expand required st)
     = eventLog st ++ [ExpandFooter (inject_Z (Qceiling (required + 1)))].
Proof. done. Qed.

Lemma footerSizing_unfold w :
  hasFootnotes footnoteRefs footnoteDefinitionsById = true ->
  sizing w =
    if Qgtb (measure (cycles (initialSizing World w))).1
            (footnoteAreaMm (measure (cycles (initialSizing World w))).2 + (25 # 100))
    then (measure (cycles (expand (measure (cycles (initialSizing World w))).1
                             (measure (cycles (initialSizing World w))).2))).2
    else (measure (cycles (initialSizing World w))).2.
Proof.
  intros Hhas. unfold footerSizing. rewrite Hhas.
  generalize (cycles (initialSizing World w)). intros measured.
  generalize (measure measured). intros [required estimated].
  reflexivity.
Qed.

(** C3. In the footer sizing step of [savePdf], after three recompute
    cycles the required footer height is measured; when it exceeds the
    reserved height by more than 0.25 mm the reserved height becomes
    [ceil(required + 1)] mm, which is at least the required height, the
    bottom margin becomes that height plus the page-number band, and three
    more recompute cycles run under the new margin. Nothing is expanded a
    second time whatever the second measurement says: the step renders at
    most six times, expands at most once, and ends with the plan computed
    last and the margin set last. *)
Theorem footer_expands_at_most_once (w : World) :
  hasFootnotes footnoteRefs footnoteDefinitionsById = true ->
  let measured := cycles (initialSizing World w) in
  let required :=
    estimateFootnoteAreaMmInBrowser (world measured)
      (planPages (activeFootnotePlan measured)) in
  let result := sizing w in
  let first := cycleEvents (footnoteMinAreaMm + pageNumberBandMm) in
  ((footnoteMinAreaMm + (25 # 100) < required)%Q ->
     footnoteAreaMm result = inject_Z (Qceiling (required + 1))
     /\ (required <= footnoteAreaMm result)%Q
     /\ bottomMarginMm result = (footnoteAreaMm result + pageNumberBandMm)%Q
     /\ eventLog result
        = first ++ first ++ first
          ++ [EstimateArea; ExpandFooter (footnoteAreaMm result)]
          ++ cycleEvents (bottomMarginMm result) ++ cycleEvents (bottomMarginMm result)
          ++ cycleEvents (bottomMarginMm result) ++ [EstimateArea])
  /\ ((required <= footnoteMinAreaMm + (25 # 100))%Q ->
        footnoteAreaMm result = footnoteMinAreaMm
        /\ bottomMarginMm result = (footnoteMinAreaMm + pageNumberBandMm)%Q
        /\ eventLog result = first ++ first ++ first ++ [EstimateArea])
  /\ (countEvents isExpansion (eventLog result) <= 1)%nat
  /\ (countEvents isRender (eventLog result) <= 6)%nat
  /\ activeFootnotePlan result
     = buildFootnotePagePlan toLowerCase (latestContentFootnoteMarkerPages result)
         footnoteDefinitionsById footnoteRefs.
Proof.
  intros Hhas measured required result first.
  pose proof (footerSizing_unfold w Hhas) as Hresult.
  fold result in Hresult. fold measured in Hresult.
  change (measure measured).1 with required in Hresult.
  destruct (threeCycles_fields (initialSizing World w)) as (Ha & Hm & Hlog & Hplan).
  fold measured in Ha, Hm, Hlog, Hplan.
  change (footnoteAreaMm (initialSizing World w)) with footnoteMinAreaMm in Ha.
  change (bottomMarginMm (initialSizing World w))
    with (footnoteMinAreaMm + pageNumberBandMm)%Q in Hm, Hlog.
  change (eventLog (initialSizing World w)) with (@nil SizingEvent) in Hlog.
  fold first in Hlog. rewrite app_nil_l in Hlog.
  destruct (estimate_fields measured) as (Hea & Hem & Hel & Hep).
  set (estimated := (measure measured).2) in *.
  rewrite Hea, Ha in Hresult.
  assert (Hfirst : forall margin,
             countEvents isExpansion (cycleEvents margin) = 0%nat
             /\ countEvents isRender (cycleEvents margin) = 1%nat) by done.
  clearbody result required estimated measured.
  destruct (Qgtb required (footnoteMinAreaMm + (25 # 100))) eqn:Hgt.
  - apply Qgtb_true in Hgt.
    destruct (expandFooter_fields required estimated) as (Hxa & Hxm & Hxl).
    set (expanded := expand required estimated) in *.
    destruct (threeCycles_fields expanded) as (Ha2 & Hm2 & Hlog2 & Hplan2).
    destruct (estimate_fields (cycles expanded)) as (Hfa & Hfm & Hfl & Hfp).
    rewrite <- Hresult in Hfa, Hfm, Hfl, Hfp. clear Hresult.
    clearbody expanded.
    assert (Harea : footnoteAreaMm result = inject_Z (Qceiling (required + 1)))
      by congruence.
    assert (Hmargin : bottomMarginMm result = (footnoteAreaMm result + pageNumberBandMm)%Q)
      by congruence.
    assert (Hevents : eventLog result
        = first ++ first ++ first
          ++ [EstimateArea; ExpandFooter (footnoteAreaMm result)]
          ++ cycleEvents (bottomMarginMm result) ++ cycleEvents (bottomMarginMm result)
          ++ cycleEvents (bottomMarginMm result) ++ [EstimateArea]).
    { rewrite Hfl, Hlog2, Hxl, Hel, Hlog, Hfm, Hm2, Harea.
      by rewrite <- !app_assoc. }
    split; [|split; [|split; [|split]]].
    + intros _. split; [done|]. split; [|done].
      rewrite Harea. apply Qle_trans with (required + 1)%Q; [|apply Qle_ceiling].
      clear. lra.
    + intros Hle. exfalso. exact (Qlt_not_le _ _ Hgt Hle).
    + rewrite Hevents. unfold countEvents in *.
      rewrite !List.filter_app, !length_app.
      rewrite (proj1 (Hfirst (bottomMarginMm result))). subst first.
      rewrite (proj1 (Hfirst (footnoteMinAreaMm + pageNumberBandMm)%Q)).
      cbn. lia.
    + rewrite Hevents. unfold countEvents in *.
      rewrite !List.filter_app, !length_app.
      rewrite (proj2 (Hfirst (bottomMarginMm result))). subst first.
      rewrite (proj2 (Hfirst (footnoteMinAreaMm + pageNumberBandMm)%Q)).
      cbn. lia.
    + by apply Hfp.
  - apply Qgtb_false in Hgt. subst result.
    assert (Hevents : eventLog estimated = first ++ first ++ first ++ [EstimateArea]).
    { rewrite Hel, Hlog. by rewrite <- !app_assoc. }
    split; [|split; [|split; [|split]]].
    + intros Hlt. exfalso. exact (Qlt_not_le _ _ Hlt Hgt).
    + intros _. split; [congruence|]. split; [congruence|done].
    + rewrite Hevents. unfold countEvents in *.
      rewrite !List.filter_app, !length_app. subst first.
      rewrite (proj1 (Hfirst (footnoteMinAreaMm + pageNumberBandMm)%Q)).
      cbn. lia.
    + rewrite Hevents. unfold countEvents in *.
      rewrite !List.filter_app, !length_app. subst first.
      rewrite (proj2 (Hfirst (footnoteMinAreaMm + pageNumberBandMm)%Q)).
      cbn. lia.
    + by apply Hep.
Qed.

End FooterSizingProps.

(** ** Edits of the output document *)

Section DocumentEdits.

Variable toFixed2 : Q -> Q.
Variable decodeURIComponent : jsstring -> option jsstring.
Variable encodeURIComponent : jsstring -> option jsstring.
Variable widthOfTextAtSize : Q -> jsstring -> Q.
Variable encodesCodePoint : jschar -> bool.

Lemma pageExtends_refl p : pageExtends p p.
Proof.
  repeat split; [by exists []; rewrite app_nil_r|].
  intros annots ->. exists []. by rewrite app_nil_r.
Qed.

Lemma pageExtends_trans p1 p2 p3 :
  pageExtends p1 p2 -> pageExtends p2 p3 -> pageExtends p1 p3.
Proof.
  intros (Hw1 & Hh1 & [ops1 Hc1] & Ha1) (Hw2 & Hh2 & [ops2 Hc2] & Ha2).
  split; [congruence|]. split; [congruence|]. split.
  - exists (ops1 ++ ops2). by rewrite Hc2, Hc1, app_assoc.
  - intros annots Han. destruct (Ha1 _ Han) as [m1 Hm1].
    destruct (Ha2 _ Hm1) as [m2 Hm2]. exists (m1 ++ m2). by rewrite Hm2, app_assoc.
Qed.

Lemma pageExtends_drawOn p op : pageExtends p (drawOn p op).
Proof.
  repeat split; simpl; [by eexists|]. intros annots ->. exists []. by rewrite app_nil_r.
Qed.

Lemma pageExtends_drawFirstOn p op : pageExtends p (drawFirstOn p op).
Proof.
  repeat split; simpl; [by eexists|]. intros annots Han. exists [].
  unfold ensurePdfPageAnnotationsArray. by rewrite Han, app_nil_r.
Qed.

Lemma pageExtends_pushAnnotation p a : pageExtends p (pushAnnotation p a).
Proof.
  repeat split; simpl; [by exists []; rewrite app_nil_r|].
  intros annots Han. exists [a]. unfold ensurePdfPageAnnotationsArray. by rewrite Han.
Qed.

Lemma pageExtends_addPdfLinkAnnotation p rect spec :
  pageExtends p (addPdfLinkAnnotation toFixed2 p rect spec).
Proof.
  unfold addPdfLinkAnnotation. destruct rect as [[[x1 y1] x2] y2].
  destruct (_ || _); [apply pageExtends_refl|].
  destruct spec as [name|uri]; [|apply pageExtends_pushAnnotation].
  destruct (getPdfNameOrNull name);
    [apply pageExtends_pushAnnotation|apply pageExtends_refl].
Qed.

Lemma destsExtend_refl names dests : destsExtend names dests dests.
Proof. intros name d Hd. eauto. Qed.

Lemma destsExtend_trans names d1 d2 d3 :
  destsExtend names d1 d2 -> destsExtend names d2 d3 -> destsExtend names d1 d3.
Proof.
  intros H1 H2 name d Hd. destruct (H1 _ _ Hd) as (d' & Hd' & He1).
  destruct (H2 _ _ Hd') as (d'' & Hd'' & He2). exists d''. split; [done|].
  intros Hn. rewrite He2, He1; done.
Qed.

Lemma destsExtend_set (names : jsstring -> Prop) dests name pageRef x y :
  (forall key, getPdfNameOrNull name = Some key -> names key) ->
  destsExtend names dests (setPdfNamedDestination toFixed2 dests name pageRef x y).
Proof.
  intros Hnames. unfold setPdfNamedDestination.
  destruct (getPdfNameOrNull name) as [key|]; [|apply destsExtend_refl].
  intros n d Hd. destruct (decide (key = n)) as [->|Hne].
  - rewrite lookup_insert_eq. eexists. split; [done|]. intros Hn. exfalso. auto.
  - rewrite lookup_insert_ne by done. eauto.
Qed.

Local Arguments addPdfLinkAnnotation : simpl never.
Local Arguments setPdfNamedDestination : simpl never.
Local Arguments drawOn : simpl never.
Local Arguments drawFirstOn : simpl never.
Local Arguments resolveFootnoteLinkSpec : simpl never.
Local Arguments layoutFootnotesForPage : simpl never.

Section Direct.

Variable options : InjectOptions.

Local Abbreviation drawFrag :=
  (drawFragment toFixed2 decodeURIComponent encodeURIComponent options).
Local Abbreviation drawLn :=
  (drawLineOfText toFixed2 decodeURIComponent encodeURIComponent options).
Local Abbreviation drawIt :=
  (drawItem toFixed2 decodeURIComponent encodeURIComponent options).
Local Abbreviation inject1 :=
  (injectPlan toFixed2 decodeURIComponent encodeURIComponent widthOfTextAtSize
     encodesCodePoint options).

Lemma fold_Thrown {A B} (f : Completion A -> B -> Completion A) (l : list B) :
  (forall b, f Thrown b = Thrown) -> fold_left f l Thrown = Thrown.
Proof. intros Hf. induction l as [|b l IH]; simpl; [done|]. by rewrite Hf. Qed.

Lemma drawFragment_extends existing cursorY p x fragment p' x' :
  drawFrag existing cursorY (Returned (p, x)) fragment = Returned (p', x') ->
  pageExtends p p'.
Proof.
  unfold drawFragment. cbn [bindCompletion].
  destruct (fragText fragment) as [|c t].
  - intros [= <- <-]. apply pageExtends_refl.
  - set (p1 := drawOn p _).
    assert (H1 : pageExtends p p1) by apply pageExtends_drawOn.
    destruct (fragHref fragment) as [[|c' h]|]; cbn [bindCompletion];
      try (intros [= <- <-]; exact H1).
    destruct (existsb _ _); cbn [bindCompletion]; [|intros [= <- <-]; exact H1].
    destruct (resolveFootnoteLinkSpec _ _ _ _) as [[spec|]|]; cbn [bindCompletion];
      [| intros [= <- <-]; exact H1 | done].
    intros [= <- <-]. eapply pageExtends_trans; [exact H1|].
    apply pageExtends_addPdfLinkAnnotation.
Qed.

Lemma drawFragments_extend existing cursorY line p x p' x' :
  fold_left (drawFrag existing cursorY) line (Returned (p, x)) = Returned (p', x') ->
  pageExtends p p'.
Proof.
  revert p x. induction line as [|fragment line IH]; intros p x; cbn [fold_left].
  - intros [= <- <-]. apply pageExtends_refl.
  - destruct (drawFrag existing cursorY (Returned (p, x)) fragment) as [[p1 x1]|] eqn:H1.
    + intros H2. eapply pageExtends_trans;
        [exact (drawFragment_extends _ _ _ _ _ _ _ H1)|exact (IH _ _ H2)].
    + by rewrite fold_Thrown.
Qed.

Lemma drawLineOfText_extends existing p y line p' y' :
  drawLn existing (Returned (p, y)) line = Returned (p', y') -> pageExtends p p'.
Proof.
  unfold drawLineOfText. cbn [bindCompletion].
  destruct (Qgtb _ _); [intros [= <- <-]; apply pageExtends_refl|].
  destruct (fold_left _ line _) as [[p1 x1]|] eqn:H1; cbn [bindCompletion]; [|done].
  intros [= <- <-]. exact (drawFragments_extend _ _ _ _ _ _ _ H1).
Qed.

Lemma drawLines_extend existing ls p y p' y' :
  fold_left (drawLn existing) ls (Returned (p, y)) = Returned (p', y') ->
  pageExtends p p'.
Proof.
  revert p y. induction ls as [|line ls IH]; intros p y; cbn [fold_left].
  - intros [= <- <-]. apply pageExtends_refl.
  - destruct (drawLn existing (Returned (p, y)) line) as [[p1 y1]|] eqn:H1.
    + intros H2. eapply pageExtends_trans;
        [exact (drawLineOfText_extends _ _ _ _ _ _ H1)|exact (IH _ _ H2)].
    + by rewrite fold_Thrown.
Qed.

Lemma drawItem_extends (names : jsstring -> Prop) pageIndex itemCount
    p dests existing y idx itemLayout p' dests' existing' y' idx' :
  (forall key, getPdfNameOrNull (planDestName (layoutItem itemLayout)) = Some key ->
     names key) ->
  drawIt pageIndex itemCount (Returned (p, dests, existing, y, idx)) itemLayout
    = Returned (p', dests', existing', y', idx') ->
  pageExtends p p' /\ destsExtend names dests dests'.
Proof.
  intros Hnames. unfold drawItem. cbn [bindCompletion].
  destruct (layoutLines itemLayout) as [|l ls].
  - intros [= <- <- <- <- <-]. split; [apply pageExtends_refl|apply destsExtend_refl].
  - destruct (fold_left _ (l :: ls) _) as [[p1 y1]|] eqn:H1; cbn [bindCompletion]; [|done].
    intros [= <- <- <- <- <-]. split; [exact (drawLines_extend _ _ _ _ _ _ H1)|].
    by apply destsExtend_set.
Qed.

Lemma drawItems_extend (names : jsstring -> Prop) pageIndex itemCount itemLayouts
    p dests existing y idx p' dests' existing' y' idx' :
  Forall (fun il => forall key,
            getPdfNameOrNull (planDestName (layoutItem il)) = Some key -> names key)
         itemLayouts ->
  fold_left (drawIt pageIndex itemCount) itemLayouts
            (Returned (p, dests, existing, y, idx))
    = Returned (p', dests', existing', y', idx') ->
  pageExtends p p' /\ destsExtend names dests dests'.
Proof.
  revert p dests existing y idx.
  induction itemLayouts as [|il ils IH]; intros p dests existing y idx Hn;
    cbn [fold_left].
  - intros [= <- <- <- <- <-]. split; [apply pageExtends_refl|apply destsExtend_refl].
  - apply Forall_cons in Hn as [Hn1 Hn2].
    destruct (drawIt pageIndex itemCount (Returned (p, dests, existing, y, idx)) il)
      as [[[[[p1 d1] e1] y1] i1]|] eqn:H1.
    + intros H2. destruct (drawItem_extends names _ _ _ _ _ _ _ _ _ _ _ _ _ Hn1 H1).
      destruct (IH _ _ _ _ _ Hn2 H2).
      split; [by eapply pageExtends_trans|by eapply destsExtend_trans].
    + by rewrite fold_Thrown.
Qed.

Lemma stateExtends_refl names touched st : stateExtends names touched st st.
Proof.
  split; [done|]. split; [done|]. split; [|apply destsExtend_refl].
  intros i p p' H1 H2. rewrite H1 in H2. injection H2 as <-. apply pageExtends_refl.
Qed.

Lemma stateExtends_trans names touched st1 st2 st3 :
  stateExtends names touched st1 st2 -> stateExtends names touched st2 st3 ->
  stateExtends names touched st1 st3.
Proof.
  intros (Hl1 & Hu1 & He1 & Hd1) (Hl2 & Hu2 & He2 & Hd2).
  split; [congruence|]. split; [|split].
  - intros i Hi. rewrite Hu2, Hu1; done.
  - intros i p p' Hp Hp'.
    destruct (injPages st2 !! i) as [p2|] eqn:Hp2.
    + eapply pageExtends_trans; eauto.
    + apply lookup_ge_None in Hp2. apply lookup_lt_Some in Hp. lia.
  - by eapply destsExtend_trans.
Qed.

Lemma layoutFootnotesForPage_items w maxW its lh gap :
  Forall (fun il => layoutItem il ∈ its)
         (layoutFootnotesForPage w maxW its lh gap).1.
Proof.
  unfold layoutFootnotesForPage. cbn [fst]. apply Forall_forall.
  intros il Hil. apply list_elem_of_In, in_map_iff in Hil as (item & <- & Hin).
  simpl. by apply list_elem_of_In.
Qed.

Lemma injectPlan_extends (names : jsstring -> Prop) (touched : nat -> Prop)
    st pagePlan st' :
  (forall item key, item ∈ finalItems pagePlan ->
     getPdfNameOrNull (planDestName item) = Some key -> names key) ->
  (forall i, finalPage pagePlan = (Z.of_nat i + 1)%Z -> touched i) ->
  inject1 (Returned st) pagePlan = Returned st' ->
  stateExtends names touched st st'.
Proof.
  intros Hnames Htouched. unfold injectPlan. cbn [bindCompletion].
  destruct (_ <? 0)%Z eqn:Hneg; [intros [= <-]; apply stateExtends_refl|].
  destruct (_ <=? _)%Z; [intros [= <-]; apply stateExtends_refl|].
  destruct (injPages st !! Z.to_nat (finalPage pagePlan - 1)) as [p|] eqn:Hp;
    [|intros [= <-]; apply stateExtends_refl].
  destruct (negb (fontMeasuresItems _ _)); [done|].
  pose proof (layoutFootnotesForPage_items
                (widthOfTextAtSize (fontSizePt options))
                (let w := (pageWidth p - leftMarginPt options - rightMarginPt options)%Q in
                 if Qle_bool 40 w then w else 40%Q)
                (finalItems pagePlan) (lineHeightPt options) (itemGapPt options)) as Hitems.
  destruct (layoutFootnotesForPage _ _ _ _ _) as [itemLayouts total].
  simpl in Hitems.
  destruct itemLayouts as [|il ils]; [intros [= <-]; apply stateExtends_refl|].
  destruct (fold_left _ (il :: ils) _) as [[[[[p1 d1] e1] y1] i1]|] eqn:Hfold;
    cbn [bindCompletion]; [|done].
  intros [= <-].
  apply drawItems_extend with (names := names) in Hfold as [Hpage Hdests].
  2:{ eapply Forall_impl; [exact Hitems|]. intros il' Hin key Hkey.
      exact (Hnames _ _ Hin Hkey). }
  assert (Hext : pageExtends p p1).
  { eapply pageExtends_trans; [apply pageExtends_drawFirstOn|exact Hpage]. }
  apply Z.ltb_ge in Hneg.
  split; simpl; [by rewrite length_insert|]. split; [|split; [|done]].
  - intros i Hi. rewrite list_lookup_insert_ne; [done|].
    intros <-. apply Hi, Htouched. lia.
  - intros i q q' Hq Hq'.
    destruct (decide (i = Z.to_nat (finalPage pagePlan - 1))) as [->|Hne].
    + rewrite list_lookup_insert_eq in Hq' by eauto using lookup_lt_Some.
      injection Hq' as <-. rewrite Hp in Hq. by injection Hq as <-.
    + rewrite list_lookup_insert_ne in Hq' by done. rewrite Hq in Hq'.
      injection Hq' as <-. apply pageExtends_refl.
Qed.

Lemma injectPlans_extend (names : jsstring -> Prop) (touched : nat -> Prop)
    plans st st' :
  (forall plan item key, plan ∈ plans -> item ∈ finalItems plan ->
     getPdfNameOrNull (planDestName item) = Some key -> names key) ->
  (forall plan i, plan ∈ plans -> finalPage plan = (Z.of_nat i + 1)%Z -> touched i) ->
  fold_left inject1 plans (Returned st) = Returned st' ->
  stateExtends names touched st st'.
Proof.
  revert st. induction plans as [|plan plans IH]; intros st Hn Ht; cbn [fold_left].
  - intros [= <-]. apply stateExtends_refl.
  - destruct (inject1 (Returned st) plan) as [st1|] eqn:H1.
    + intros H2. eapply stateExtends_trans.
      * eapply injectPlan_extends; [| |exact H1].
        -- intros item key. apply Hn. by left.
        -- intros i. apply Ht. by left.
      * apply IH; [| |done].
        -- intros pl item key Hpl. apply Hn. by right.
        -- intros pl i Hpl. apply Ht. by right.
    + by rewrite fold_Thrown.
Qed.

End Direct.

(** The merge loop of the overlay path, page by page. *)
Lemma mergeOverlayPages_lookup overlayPages pagesToMerge basePages i :
  mergeOverlayPages overlayPages pagesToMerge basePages !! i
  = if decide (i < pagesToMerge)%nat
    then match overlayPages !! i with
         | Some overlayPage => mergeOverlayPage overlayPage i <$> basePages !! i
         | None => basePages !! i
         end
    else basePages !! i.
Proof.
  unfold mergeOverlayPages. induction pagesToMerge as [|n IH].
  - rewrite decide_False by lia. done.
  - rewrite seq_S, fold_left_app. cbn [fold_left Nat.add].
    set (merged := fold_left _ (seq 0 n) basePages) in *.
    destruct (decide (i = n)) as [->|Hne].
    + rewrite decide_True by lia. rewrite decide_False in IH by lia.
      destruct (overlayPages !! n) as [op|]; [|done].
      by rewrite list_lookup_alter_eq, IH.
    + assert (Hstep : match overlayPages !! n with
                      | Some overlayPage => alter (mergeOverlayPage overlayPage n) n merged
                      | None => merged
                      end !! i = merged !! i).
      { destruct (overlayPages !! n); [|done]. by rewrite list_lookup_alter_ne. }
      rewrite Hstep, IH. repeat case_decide; try done; lia.
Qed.

Lemma mergeOverlayPages_length overlayPages pagesToMerge basePages :
  length (mergeOverlayPages overlayPages pagesToMerge basePages) = length basePages.
Proof.
  unfold mergeOverlayPages. generalize (seq 0 pagesToMerge). intros l. revert basePages.
  induction l as [|n l IH]; intros basePages; simpl; [done|].
  rewrite IH. destruct (overlayPages !! n); [apply length_alter|done].
Qed.

Lemma mergeOverlayPage_spec overlayPage i p :
  pageExtends p (mergeOverlayPage overlayPage i p)
  /\ pageContent (mergeOverlayPage overlayPage i p) = pageContent p ++ [DrawPage i]
  /\ pageAnnots (mergeOverlayPage overlayPage i p)
     = Some (ensurePdfPageAnnotationsArray p
             ++ (annotationOn i <$> ensurePdfPageAnnotationsArray overlayPage)).
Proof.
  unfold mergeOverlayPage, ensurePdfPageAnnotationsArray.
  destruct (pageAnnots overlayPage) as [oa|]; simpl.
  - split; [|done]. repeat split; simpl; [by eexists|].
    intros annots Han. eexists. unfold ensurePdfPageAnnotationsArray. by rewrite Han.
  - split; [apply pageExtends_drawFirstOn|]. by rewrite app_nil_r.
Qed.

Lemma registerOverlayDestinations_extend (names : jsstring -> Prop) basePages
    coordinates dests seen :
  (forall dest key, dest ∈ coordinates ->
     getPdfNameOrNull (overlayDestName dest) = Some key -> names key) ->
  destsExtend names dests
    (fold_left (registerOverlayDestination toFixed2 basePages) coordinates
               (dests, seen)).1.
Proof.
  revert dests seen. induction coordinates as [|dest coordinates IH];
    intros dests seen Hn; cbn [fold_left]; [apply destsExtend_refl|].
  assert (Hstep : destsExtend names dests
            (registerOverlayDestination toFixed2 basePages (dests, seen) dest).1).
  { unfold registerOverlayDestination.
    destruct (negb _); [apply destsExtend_refl|].
    destruct (bool_decide _); [apply destsExtend_refl|].
    destruct (_ || _); [apply destsExtend_refl|].
    destruct (basePages !! _); [|apply destsExtend_refl].
    cbn [fst]. apply destsExtend_set. intros key. apply Hn. by left. }
  destruct (registerOverlayDestination toFixed2 basePages (dests, seen) dest)
    as [dests1 seen1].
  eapply destsExtend_trans; [exact Hstep|].
  apply IH. intros d key Hd. apply Hn. by right.
Qed.

(** C5 (as the code has it). Direct drawing, when it returns, leaves every
    page without a plan as it was. The overlay path draws the overlay page
    onto every base page the overlay document covers, with or without a plan:
    the content of such a page gains that one operator, and its annotation
    array, which the drawing creates empty if the page had none, holds the
    annotations the page had followed by those of the overlay page, each with
    its parent set to the base page; the pages beyond the overlay document
    are left alone. On every page either path only appends: the old content
    is a prefix of the new, and an existing annotation array is a prefix of
    the new one. Every destination of the base document is still in the table
    afterwards, with its old value unless a footnote destination is
    registered under the same name, which overwrites it. *)
Theorem injection_appends_to_pages_and_tables :
  (forall (options : InjectOptions) (base result : PdfDoc) (plans : list FinalPlan),
      injectFootnotesIntoPdf toFixed2 decodeURIComponent encodeURIComponent
        widthOfTextAtSize encodesCodePoint options base plans = Returned result ->
      length (docPages result) = length (docPages base)
      /\ (forall i, (forall plan, plan ∈ plans -> finalPage plan <> (Z.of_nat i + 1)%Z) ->
            docPages result !! i = docPages base !! i)
      /\ (forall i p p', docPages base !! i = Some p -> docPages result !! i = Some p' ->
            pageExtends p p')
      /\ destsExtend (planDestinationNames plans)
           (ensurePdfDestinationsDict base) (ensurePdfDestinationsDict result))
  /\ (forall (base : PdfDoc) (plans : list FinalPlan) (overlayPages : list PdfPage)
             (coordinates : list OverlayDestination),
        let result :=
          injectFootnotesOverlayIntoPdf toFixed2 base plans overlayPages coordinates in
        length (docPages result) = length (docPages base)
        /\ (forall i p, docPages base !! i = Some p ->
              exists p', docPages result !! i = Some p' /\ pageExtends p p'
                /\ (forall overlayPage, plans <> [] -> overlayPages !! i = Some overlayPage ->
                      pageContent p' = pageContent p ++ [DrawPage i]
                      /\ pageAnnots p'
                         = Some (ensurePdfPageAnnotationsArray p
                                 ++ (annotationOn i
                                       <$> ensurePdfPageAnnotationsArray overlayPage)))
                /\ (plans = [] \/ overlayPages !! i = None -> p' = p))
        /\ destsExtend (overlayDestinationNames coordinates)
             (ensurePdfDestinationsDict base) (ensurePdfDestinationsDict result)).
Proof.
  split.
  - intros options base result plans. unfold injectFootnotesIntoPdf.
    destruct plans as [|plan plans].
    { intros [= <-]. split; [done|]. split; [done|]. split; [|apply destsExtend_refl].
      intros i p p' H1 H2. rewrite H1 in H2. injection H2 as <-. apply pageExtends_refl. }
    destruct (fold_left _ (plan :: plans) _) as [st'|] eqn:Hfold; cbn [bindCompletion];
      [|done].
    intros [= <-].
    apply injectPlans_extend
      with (names := planDestinationNames (plan :: plans))
           (touched := fun i => exists pl, pl ∈ plan :: plans
                                           /\ finalPage pl = (Z.of_nat i + 1)%Z)
      in Hfold.
    + destruct Hfold as (Hlen & Hun & Hext & Hd). simpl in *.
      split; [done|]. split; [|split; [done|done]].
      intros i Hi. apply Hun. intros (pl & Hpl & Hfp). by apply (Hi pl).
    + intros pl item key Hpl Hitem Hkey. by exists pl, item.
    + intros pl i Hpl Hfp. by exists pl.
  - intros base plans overlayPages coordinates result. subst result.
    unfold injectFootnotesOverlayIntoPdf.
    destruct plans as [|plan plans].
    { split; [done|]. split; [|apply destsExtend_refl].
      intros i p Hp. exists p. split; [done|]. split; [apply pageExtends_refl|].
      split; [done|done]. }
    destruct (Nat.eqb_spec (Nat.min (length (docPages base)) (length overlayPages)) 0)
      as [Hzero|Hpos].
    { split; [done|]. split; [|apply destsExtend_refl].
      intros i p Hp. exists p. split; [done|]. split; [apply pageExtends_refl|].
      split; [|done]. intros op _ Hop.
      apply lookup_lt_Some in Hp. apply lookup_lt_Some in Hop. lia. }
    set (merged := mergeOverlayPages _ _ _).
    pose proof (registerOverlayDestinations_extend
                  (overlayDestinationNames coordinates) merged coordinates
                  (ensurePdfDestinationsDict base) ∅) as Hd.
    destruct (fold_left _ coordinates _) as [dests' seen']. simpl in *.
    split; [apply mergeOverlayPages_length|]. split.
    + intros i p Hp. subst merged. rewrite mergeOverlayPages_lookup, Hp.
      pose proof (lookup_lt_Some _ _ _ Hp) as Hlt.
      destruct (overlayPages !! i) as [op|] eqn:Hop.
      * pose proof (lookup_lt_Some _ _ _ Hop) as Hlt'.
        rewrite decide_True by lia. simpl.
        destruct (mergeOverlayPage_spec op i p) as (He & Hc & Ha).
        eexists. split; [done|]. split; [done|]. split.
        -- intros op' _ [= <-]. done.
        -- intros [?|?]; done.
      * exists p. split; [by case_decide|]. split; [apply pageExtends_refl|]. done.
    + apply Hd. intros dest key Hdest Hkey. by exists dest.
Qed.

End DocumentEdits.

(** ** The statements at concrete inputs *)

(** The plan for [sampleRefs]: on page 3 the rewrites carry 1, 2, 3, 4. *)
Lemma page_numbers_are_one_to_N_witness :
  newNumber <$> updatesOn sampleMarkerPages 3
    (planRefUpdates
       (buildFootnotePagePlan asciiToLowerCase sampleMarkerPages sampleDefinitions
          sampleRefs))
  = [1%Z; 2%Z; 3%Z; 4%Z].
Proof.
  exact (proj1 (proj2 (proj2
    (page_numbers_are_one_to_N asciiToLowerCase sampleMarkerPages sampleDefinitions
       sampleRefs 3)))).
Defined.




(** A measured requirement of 30 mm against the 25 mm reserved: one
    expansion, to 31 mm. *)
Lemma footer_expands_at_most_once_witness :
  let result :=
    footerSizing unit (fun _ w => w) (fun _ => sampleMarkerPages) (fun _ w => w)
      (fun _ _ => 30%Q) (fun _ w => w) asciiToLowerCase sampleRefs sampleDefinitions tt in
  footnoteAreaMm result = inject_Z 31
  /\ (30 <= footnoteAreaMm result)%Q
  /\ countEvents isExpansion (eventLog result) = 1%nat
  /\ countEvents isRender (eventLog result) = 6%nat.
Proof.
  intros result.
  assert (Hhas : hasFootnotes sampleRefs sampleDefinitions = true) by (vm_compute; reflexivity).
  assert (Hover : (footnoteMinAreaMm + (25 # 100) < 30)%Q) by (vm_compute; reflexivity).
  destruct (proj1 (footer_expands_at_most_once unit (fun _ w => w)
                     (fun _ => sampleMarkerPages) (fun _ w => w) (fun _ _ => 30%Q)
                     (fun _ w => w) asciiToLowerCase sampleRefs sampleDefinitions tt Hhas)
                  Hover) as (Harea & Hfits & _ & Hlog).
  split; [exact Harea|]. split; [exact Hfits|].
  fold result in Hlog. rewrite Hlog. split; vm_compute; reflexivity.
Defined.

(** C4, the claim as stated fails: two anchors with deltas 2 and 3 tie, the
    front matter has 3 pages, and the vote selects 2, the delta seen first. *)
Lemma tie_goes_to_first_delta_not_naive :
  let markerPages : gmap Z Z := {[ 0%Z := 1%Z; 1%Z := 2%Z ]} in
  let probeMarkerPages : gmap Z Z := {[ 0%Z := 3%Z; 1%Z := 5%Z ]} in
  anchorDeltas markerPages probeMarkerPages [0%Z; 1%Z] = [2%Z; 3%Z]
  /\ computeTocOffset 3 [0%Z; 1%Z] markerPages probeMarkerPages = 2%Z
  /\ computeTocOffset 3 [0%Z; 1%Z] markerPages probeMarkerPages <> 3%Z.
Proof. vm_compute. repeat split; discriminate. Qed.

(** Deltas +2 five times and +3 once: the vote selects +2. *)
Lemma offset_vote_picks_first_most_frequent_witness :
  let markerPages : gmap Z Z :=
    {[ 0%Z := 1%Z; 1%Z := 1%Z; 2%Z := 2%Z; 3%Z := 2%Z; 4%Z := 3%Z; 5%Z := 3%Z ]} in
  let probeMarkerPages : gmap Z Z :=
    {[ 0%Z := 3%Z; 1%Z := 3%Z; 2%Z := 5%Z; 3%Z := 4%Z; 4%Z := 5%Z; 5%Z := 5%Z ]} in
  firstMostFrequent 2 [2%Z; 2%Z; 3%Z; 2%Z; 2%Z; 2%Z]
    (computeTocOffset 2 [0%Z; 1%Z; 2%Z; 3%Z; 4%Z; 5%Z] markerPages probeMarkerPages).
Proof.
  intros markerPages probeMarkerPages.
  exact (proj1 (offset_vote_picks_first_most_frequent 2 [0%Z; 1%Z; 2%Z; 3%Z; 4%Z; 5%Z]
                  [] markerPages probeMarkerPages ∅ ∅)).
Defined.

(** C5, the claim as stated fails: the plan is for page 2 only, yet the
    overlay path draws on page 1 as well, and it overwrites the destination
    the base document already had under the name of the footnote item. *)
Lemma overlay_edits_page_without_plan :
  let result :=
    injectFootnotesOverlayIntoPdf (fun q => q) sampleBase samplePlans
      [blankPage; blankPage] sampleCoordinates in
  Forall (fun plan => finalPage plan <> 1%Z) samplePlans
  /\ docPages result !! 0%nat <> docPages sampleBase !! 0%nat
  /\ ensurePdfDestinationsDict result !! js "export-footnote-1-fn1"
     <> ensurePdfDestinationsDict sampleBase !! js "export-footnote-1-fn1".
Proof.
  split; [repeat constructor; discriminate|].
  split; vm_compute; discriminate.
Qed.

(** Direct drawing of [samplePlans] on [sampleBase]: page 1 is untouched. *)
Lemma injection_appends_to_pages_and_tables_witness :
  exists result,
    injectFootnotesIntoPdf (fun q => q) (fun s => Some s) (fun s => Some s)
      (fun size s => (size * glyphCount s * (1 # 2))%Q) latin1
      sampleOptions sampleBase samplePlans = Returned result
    /\ length (docPages result) = length (docPages sampleBase)
    /\ docPages result !! 0%nat = docPages sampleBase !! 0%nat.
Proof.
  eexists. split; [vm_compute; reflexivity|].
  match goal with
  | |- length (docPages ?r) = _ /\ _ =>
      destruct (proj1 (injection_appends_to_pages_and_tables (fun q => q)
                         (fun s => Some s) (fun s => Some s)
                         (fun size s => (size * glyphCount s * (1 # 2))%Q) latin1)
                  sampleOptions sampleBase r samplePlans)
        as (Hlen & Hsame & _); [vm_compute; reflexivity|]
  end.
  split; [exact Hlen|]. apply Hsame.
  intros plan Hplan. apply list_elem_of_singleton in Hplan. subst plan.
  vm_compute. discriminate.
Defined.

(** A long word, several spaces and a line break under a budget of five
    glyphs: the lines fit, and the middle chunk of the long word is on one of
    them. Under a budget of half a glyph every glyph is a line of its own. *)
Lemma lines_fit_budget_witness :
  let segs := [ {| text := js "ab  cd efghijklmnop q"; href := None |} ] in
  Forall (fun line =>
            (lineWidth line <= 5)%Q
            \/ exists f g, line = [f] /\ fragText f = [g]
                           /\ width f = glyphCount [g] /\ (5 < glyphCount [g])%Q)
    (layoutFootnoteSegments glyphCount 5 segs)
  /\ (exists line f,
        line ∈ layoutFootnoteSegments glyphCount 5 segs
        /\ f ∈ line /\ showsChunk (js "jklmn") None f)
  /\ [textFragment glyphCount (js "b") None]
     ∈ layoutFootnoteSegments glyphCount (1 # 2) [ {| text := js "ab"; href := None |} ].
Proof.
  intros segs.
  assert (Hfive : (0 < 5)%Q) by (vm_compute; reflexivity).
  assert (Hhalf : (0 < 1 # 2)%Q) by (vm_compute; reflexivity).
  destruct (lines_fit_budget glyphCount 5 Hfive segs) as (Hfit & _ & Hplaced).
  split; [exact Hfit|]. split.
  - refine (proj1 (Hplaced {| text := js "ab  cd efghijklmnop q"; href := None |}
                     (js "efghijklmnop") (js "jklmn") _ _ _ _) _).
    + left.
    + vm_compute. do 4 right. left.
    + vm_compute. reflexivity.
    + vm_compute. right. left.
    + vm_compute. reflexivity.
  - destruct (lines_fit_budget glyphCount (1 # 2) Hhalf
                [ {| text := js "ab"; href := None |} ]) as (_ & _ & Halone).
    refine (proj2 (proj2 (Halone {| text := js "ab"; href := None |} (js "ab") (js "b")
                            _ _ _ _) _)).
    + left.
    + vm_compute. left.
    + vm_compute. reflexivity.
    + vm_compute. right. left.
    + vm_compute. reflexivity.
Defined.





(** C8, the claim as stated fails: the name built for a target id of 41
    characters is 59 characters long. *)
Lemma destination_name_longer_than_48 :
  let plan :=
    buildFootnotePagePlan asciiToLowerCase {[ 0%Z := 1%Z ]} ∅
      [ {| refIndex := Some 0%Z;
           refTargetId := js "Footnote about the history of the project" |} ] in
  (planDestName <$> planItemsOn plan 1)
    = [ js "export-footnote-1-footnote-about-the-history-of-the-project" ]
  /\ ~ Forall (fun item => (length (planDestName item) <= 48)%nat) (planItemsOn plan 1).
Proof.
  vm_compute. split; [reflexivity|].
  intros H. inversion H as [|? ? Hlen _]; subst. lia.
Qed.

(** The item made for the target id [Note 7 (a/b)]: the runs of characters
    outside the class have become single dashes and the dash at the end is
    gone. *)
Lemma destination_names_are_safe_witness :
  let plan :=
    buildFootnotePagePlan asciiToLowerCase {[ 0%Z := 1%Z ]} ∅
      [ {| refIndex := Some 0%Z; refTargetId := js "Note 7 (a/b)" |} ] in
  exists pp item,
    pp ∈ planPages plan /\ item ∈ planItems pp
    /\ planDestName item = js "export-footnote-1-note-7-a-b"
    /\ Forall (fun c => isTokenChar c = true) (planDestName item)
    /\ exists counter : Z,
         (0 < counter)%Z
         /\ planDestName item
            = js "export-footnote-" ++ stringOfNumber counter ++ js "-"
              ++ sanitizeFootnoteToken asciiToLowerCase (planTargetId item)
                   (js "fn-" ++ stringOfNumber (planNumber item)).
Proof.
  intros plan.
  assert (Hplan : exists pp item, planPages plan = [pp] /\ planItems pp = [item]
                    /\ planDestName item = js "export-footnote-1-note-7-a-b").
  { vm_compute. eexists _, _. repeat split. }
  destruct Hplan as (pp & item & Hpp & Hitem & Hname).
  assert (Hin : pp ∈ planPages plan) by (rewrite Hpp; left).
  assert (Hin' : item ∈ planItems pp) by (rewrite Hitem; left).
  destruct (proj1 (destination_names_are_safe asciiToLowerCase {[ 0%Z := 1%Z ]} ∅
                     [ {| refIndex := Some 0%Z; refTargetId := js "Note 7 (a/b)" |} ])
              pp item Hin Hin') as (_ & Hchars & _ & Hform).
  exists pp, item. repeat split; assumption.
Defined.


(** In [sampleRefs], reference 4 is not found and [fn2] has no definition. *)
Lemma unresolved_and_undefined_degrade_witness :
  let build := buildFootnotePagePlan asciiToLowerCase sampleMarkerPages sampleDefinitions in
  (4%Z ∈ planUnresolvedRefs (build sampleRefs)
   /\ ~ 4%Z ∈ (updRefIndex <$> planRefUpdates (build sampleRefs))
   /\ planPages (build sampleRefs) = planPages (build (take 4 sampleRefs ++ []))
   /\ planRefUpdates (build sampleRefs)
      = planRefUpdates (build (take 4 sampleRefs ++ [])))
  /\ exists item,
       item ∈ planItemsOn (build sampleRefs) 3
       /\ js "fn2" ∈ planTargetIds item
       /\ planSegments item
          = [ {| text := js "(footnote text unavailable)"; href := None |} ].
Proof.
  intros build.
  destruct (unresolved_and_undefined_degrade asciiToLowerCase sampleMarkerPages
              sampleDefinitions sampleRefs) as (_ & _ & Hun & Hdef).
  split.
  - apply (Hun (take 4 sampleRefs)
               {| refIndex := Some 4%Z; refTargetId := js "fn3" |} [] 4%Z);
      reflexivity.
  - apply (Hdef {| refIndex := Some 2%Z; refTargetId := js "fn2" |} 3%Z).
    + vm_compute. right. right. left.
    + reflexivity.
    + reflexivity.
Defined.

(** C10, the claim as stated fails: this href does not start with [#] or
    [/] and has no scheme, yet after trimming it is a root-relative link. *)
Lemma padded_href_is_linked :
  let h := js " /notes" in
  startsWith (js "#") h = false /\ hasScheme h = false /\ startsWith (js "/") h = false
  /\ resolveFootnoteLinkSpec (fun s => Some s) (fun s => Some s) h ∅
     = Returned (Some (ExternalLink (js "/notes"))).
Proof. vm_compute. repeat split; reflexivity. Qed.

Lemma relative_href_gets_no_link_witness :
  resolveFootnoteLinkSpec (fun s => Some s) (fun s => Some s) (js "docs/manual") ∅
  = Returned None.
Proof.
  exact (proj1 (relative_href_gets_no_link (fun q => q) (fun s => Some s)
                  (fun s => Some s) sampleOptions (js "docs/manual") ∅
                  eq_refl eq_refl eq_refl)).
Defined.

(** ** HTML escaping *)

Lemma replaceChar_app c r s t :
  replaceChar c r (s ++ t) = replaceChar c r s ++ replaceChar c r t.
Proof. unfold replaceChar. by rewrite List.map_app, concat_app. Qed.

Lemma replaceChar_cons c r d s :
  replaceChar c r (d :: s) = (if (d =? c)%N then r else [d]) ++ replaceChar c r s.
Proof. reflexivity. Qed.

(** The passes of [escapeHtmlAttr] never see a character that an earlier
    pass produced and a later one replaces, so together they act on each
    character of the input on its own. *)
Lemma escapeHtmlAttr_chars s : escapeHtmlAttr s = concat (List.map escapedChar s).
Proof.
  unfold escapeHtmlAttr, escapeHtml.
  induction s as [|c s IH]; [reflexivity|].
  cbn [List.map concat]. rewrite <- IH. clear IH.
  rewrite (replaceChar_cons 38%N _ c s).
  rewrite !replaceChar_app. f_equal.
  unfold escapedChar.
  destruct (N.eqb_spec c 38%N) as [->|H38]; [reflexivity|].
  destruct (N.eqb_spec c 60%N) as [->|H60]; [reflexivity|].
  destruct (N.eqb_spec c 62%N) as [->|H62]; [reflexivity|].
  destruct (N.eqb_spec c 34%N) as [->|H34]; [reflexivity|].
  destruct (N.eqb_spec c 39%N) as [->|H39]; [reflexivity|].
  destruct (N.eqb_spec c 10%N) as [->|H10]; [reflexivity|].
  rewrite !replaceChar_cons.
  repeat match goal with
         | |- context [(c =? ?k)%N] =>
             destruct (N.eqb_spec c k); [congruence|]; cbn [app replaceChar List.map concat]
         end.
  reflexivity.
Qed.

(** What the five passes of [escapeHtml] do to one character. *)
Lemma escapeHtml_chars s :
  escapeHtml s
  = concat (List.map (fun c => if (c =? 10)%N then [c] else escapedChar c) s).
Proof.
  unfold escapeHtml.
  induction s as [|c s IH]; [reflexivity|].
  cbn [List.map concat]. rewrite <- IH. clear IH.
  rewrite (replaceChar_cons 38%N _ c s).
  rewrite !replaceChar_app. f_equal.
  unfold escapedChar.
  destruct (N.eqb_spec c 10%N) as [->|H10]; [reflexivity|].
  destruct (N.eqb_spec c 38%N) as [->|H38]; [reflexivity|].
  destruct (N.eqb_spec c 60%N) as [->|H60]; [reflexivity|].
  destruct (N.eqb_spec c 62%N) as [->|H62]; [reflexivity|].
  destruct (N.eqb_spec c 34%N) as [->|H34]; [reflexivity|].
  destruct (N.eqb_spec c 39%N) as [->|H39]; [reflexivity|].
  rewrite !replaceChar_cons.
  repeat match goal with
         | |- context [(c =? ?k)%N] =>
             destruct (N.eqb_spec c k); [congruence|]; cbn [app replaceChar List.map concat]
         end.
  reflexivity.
Qed.

Lemma escapedChar_safe c :
  Forall (fun d => isMarkupChar d = false /\ d <> 10%N) (escapedChar c).
Proof.
  unfold escapedChar.
  destruct (N.eqb_spec c 38%N); [by repeat constructor|].
  destruct (N.eqb_spec c 60%N); [by repeat constructor|].
  destruct (N.eqb_spec c 62%N); [by repeat constructor|].
  destruct (N.eqb_spec c 34%N); [by repeat constructor|].
  destruct (N.eqb_spec c 39%N); [by repeat constructor|].
  destruct (N.eqb_spec c 10%N); [by repeat constructor|].
  apply Forall_singleton. split; [|done].
  unfold isMarkupChar.
  repeat match goal with
         | |- context [(c =? ?k)%N] => destruct (N.eqb_spec c k); [congruence|]
         end.
  reflexivity.
Qed.

(** The escapes form a prefix code: what follows the escape of a character
    cannot be mistaken for part of it. *)
Lemma escapedChar_prefix_code c d s t :
  escapedChar c ++ s = escapedChar d ++ t -> c = d /\ s = t.
Proof.
  unfold escapedChar.
  destruct (N.eqb_spec c 38%N) as [->|?]; destruct (N.eqb_spec d 38%N) as [->|?];
    [by intros ?%app_inv_head| | |].
  all: repeat match goal with
         | |- context [(?x =? ?k)%N] =>
             destruct (N.eqb_spec x k) as [->|?]
         end.
  all: cbn; intros H; try (injection H; intros; subst; by split); try congruence.
  all: try (injection H; intros; congruence).
Qed.

Lemma escapedChars_injective a b :
  concat (List.map escapedChar a) = concat (List.map escapedChar b) -> a = b.
Proof.
  revert b. induction a as [|c a IH]; intros [|d b]; cbn [List.map concat].
  - done.
  - intros H. symmetry in H. apply app_eq_nil in H as [H _].
    unfold escapedChar in H.
    repeat match type of H with
           | context [(d =? ?k)%N] => destruct (N.eqb_spec d k)
           end; discriminate.
  - intros H. apply app_eq_nil in H as [H _].
    unfold escapedChar in H.
    repeat match type of H with
           | context [(c =? ?k)%N] => destruct (N.eqb_spec c k)
           end; discriminate.
  - intros [-> H]%escapedChar_prefix_code. f_equal. by apply IH.
Qed.

(** X1. The output of [escapeHtml] holds none of the characters [<], [>],
    double quote and single quote, whatever the input, and the output of
    [escapeHtmlAttr] holds no line feed either. *)
Theorem escaped_text_has_no_markup (value : jsstring) :
  Forall (fun c => isMarkupChar c = false) (escapeHtml value)
  /\ Forall (fun c => isMarkupChar c = false /\ c <> 10%N) (escapeHtmlAttr value).
Proof.
  split.
  - rewrite escapeHtml_chars. apply Forall_concat, Forall_forall.
    intros chunk [c [-> _]]%list_elem_of_fmap.
    destruct (N.eqb_spec c 10%N) as [->|_].
    + by apply Forall_singleton.
    + eapply Forall_impl; [apply escapedChar_safe|]. by intros ? [? _].
  - rewrite escapeHtmlAttr_chars. apply Forall_concat, Forall_forall.
    intros chunk [c [-> _]]%list_elem_of_fmap. apply escapedChar_safe.
Qed.

(** X2. Escaping loses nothing: two values with the same [escapeHtml]
    text, or the same [escapeHtmlAttr] text, are the same value. *)
Theorem escaping_is_injective (a b : jsstring) :
  escapeHtml a = escapeHtml b \/ escapeHtmlAttr a = escapeHtmlAttr b -> a = b.
Proof.
  intros H. apply escapedChars_injective. rewrite <- !escapeHtmlAttr_chars.
  destruct H as [H|H]; [|exact H].
  unfold escapeHtmlAttr. by rewrite H.
Qed.

(** ** Normalisation of footnote segments *)

Lemma withoutWhitespace_app s t :
  withoutWhitespace (s ++ t) = withoutWhitespace s ++ withoutWhitespace t.
Proof. unfold withoutWhitespace. apply List.filter_app. Qed.

Lemma withoutWhitespace_dropWhile s :
  withoutWhitespace (dropWhile isWhitespace s) = withoutWhitespace s.
Proof.
  induction s as [|c s IH]; [done|]. cbn [dropWhile].
  destruct (isWhitespace c) eqn:E; [|done].
  rewrite IH. unfold withoutWhitespace. cbn [List.filter]. by rewrite E.
Qed.

Lemma withoutWhitespace_rev s :
  withoutWhitespace (rev s) = rev (withoutWhitespace s).
Proof.
  induction s as [|c s IH]; [done|]. cbn [rev].
  rewrite withoutWhitespace_app, IH. unfold withoutWhitespace. cbn [List.filter].
  by destruct (negb (isWhitespace c)); cbn; rewrite ?app_nil_r.
Qed.

Lemma withoutWhitespace_trimStart s :
  withoutWhitespace (trimStart s) = withoutWhitespace s.
Proof. apply withoutWhitespace_dropWhile. Qed.

Lemma withoutWhitespace_trimEnd s :
  withoutWhitespace (trimEnd s) = withoutWhitespace s.
Proof.
  unfold trimEnd, dropWhileEnd.
  by rewrite withoutWhitespace_rev, withoutWhitespace_dropWhile,
    withoutWhitespace_rev, rev_involutive.
Qed.

Lemma segmentsText_app a b : segmentsText (a ++ b) = segmentsText a ++ segmentsText b.
Proof. unfold segmentsText. by rewrite fmap_app, concat_app. Qed.

Lemma segmentsText_alter f i segs s :
  segs !! i = Some s ->
  segmentsText (alter f i segs)
  = segmentsText (take i segs) ++ text (f s) ++ segmentsText (drop (S i) segs).
Proof.
  intros Hi.
  rewrite <- (take_drop_middle segs i s Hi) at 1.
  assert (Hlen : length (take i segs) = i).
  { apply length_take_le. apply lookup_lt_Some in Hi. lia. }
  rewrite alter_app_r_alt by lia.
  rewrite Hlen, Nat.sub_diag. cbn [alter list_alter].
  rewrite segmentsText_app. unfold segmentsText at 2. cbn [fmap list_fmap concat].
  reflexivity.
Qed.

Lemma alter_fixed {A} (f : A -> A) i (l : list A) :
  (forall x, l !! i = Some x -> f x = x) -> alter f i l = l.
Proof.
  intros Hf. apply list_eq. intros j.
  destruct (decide (i = j)) as [->|Hij].
  - rewrite list_lookup_alter_eq. destruct (l !! j) eqn:E; [|done].
    cbn. f_equal. by apply Hf.
  - by rewrite list_lookup_alter_ne.
Qed.

(** Changing a text of the list into one with the same visible characters
    does not change the visible characters of the list. *)
Lemma visible_alter f i segs :
  (forall s, withoutWhitespace (text (f s)) = withoutWhitespace (text s)) ->
  withoutWhitespace (segmentsText (alter f i segs))
  = withoutWhitespace (segmentsText segs).
Proof.
  intros Hf. destruct (segs !! i) as [s|] eqn:Hi.
  - rewrite (segmentsText_alter f i segs s Hi).
    assert (Hs : segmentsText segs
                 = segmentsText (take i segs) ++ text s ++ segmentsText (drop (S i) segs)).
    { rewrite <- (take_drop_middle segs i s Hi) at 1.
      rewrite segmentsText_app. f_equal. }
    rewrite Hs, !withoutWhitespace_app. by rewrite Hf.
  - rewrite alter_fixed; [done|]. intros x Hx. congruence.
Qed.

Lemma segmentsText_filter_nonempty segs :
  segmentsText (List.filter (fun s => negb (Nat.eqb (length (text s)) 0)) segs)
  = segmentsText segs.
Proof.
  induction segs as [|s segs IH]; [done|]. cbn [List.filter].
  destruct (text s) as [|c t] eqn:E; cbn [length Nat.eqb negb].
  - rewrite IH. unfold segmentsText. cbn. by rewrite E.
  - unfold segmentsText in *. cbn. by rewrite IH.
Qed.

Lemma hrefsAlternate_nil : hrefsAlternate [].
Proof. intros i a b H. done. Qed.

Lemma hrefsAlternate_snoc segs x :
  hrefsAlternate (segs ++ [x])
  <-> hrefsAlternate segs /\ (forall l, last segs = Some l -> href l <> href x).
Proof.
  split.
  - intros H. split.
    + intros i a b Ha Hb. apply (H i a b).
      * by apply lookup_app_l_Some.
      * by apply lookup_app_l_Some.
    + intros l Hl. rewrite last_lookup in Hl.
      destruct segs as [|s0 segs0] eqn:E; [done|]. rewrite <- E in *.
      assert (Hlen : length segs = S (pred (length segs))) by (subst; cbn; lia).
      apply (H (pred (length segs)) l x).
      * by apply lookup_app_l_Some.
      * rewrite <- Hlen. rewrite lookup_app_r by lia.
        by rewrite Nat.sub_diag.
  - intros [H Hl] i a b Ha Hb.
    destruct (decide (S i < length segs)) as [Hlt|Hge].
    + rewrite lookup_app_l in Ha by lia. rewrite lookup_app_l in Hb by lia.
      by apply (H i a b).
    + assert (Hi : S i = length segs).
      { apply lookup_lt_Some in Hb. rewrite length_app in Hb. cbn in Hb. lia. }
      rewrite lookup_app_l in Ha by lia.
      rewrite lookup_app_r in Hb by lia.
      rewrite Hi, Nat.sub_diag in Hb. injection Hb as <-.
      apply Hl. rewrite last_lookup. by replace (pred (length segs)) with i by lia.
Qed.

Lemma last_snoc_Some {A} (l : list A) x : last (l ++ [x]) = Some x.
Proof. by rewrite last_snoc. Qed.

Lemma pushNormalized_empty normalized segment :
  text segment = [] -> pushNormalized normalized segment = normalized.
Proof. unfold pushNormalized. by intros ->. Qed.

Lemma pushNormalized_first segment :
  text segment <> [] -> pushNormalized [] segment = [segment].
Proof. unfold pushNormalized. by destruct (text segment). Qed.

Lemma pushNormalized_merge normalized l segment :
  text segment <> [] -> href l = href segment ->
  pushNormalized (normalized ++ [l]) segment
  = normalized ++ [setText l (text l ++ text segment)].
Proof.
  intros Ht Hh. unfold pushNormalized.
  destruct (text segment) as [|c t] eqn:E; [done|].
  rewrite last_snoc. rewrite decide_True by done.
  rewrite length_app. cbn [length].
  rewrite alter_app_r_alt by lia.
  replace (length normalized + 1 - 1 - length normalized)%nat with 0%nat by lia.
  reflexivity.
Qed.

Lemma pushNormalized_push normalized l segment :
  text segment <> [] -> href l <> href segment ->
  pushNormalized (normalized ++ [l]) segment = normalized ++ [l; segment].
Proof.
  intros Ht Hh. unfold pushNormalized.
  destruct (text segment) as [|c t] eqn:E; [done|].
  rewrite last_snoc. rewrite decide_False by done.
  by rewrite <- app_assoc.
Qed.

Lemma pushNormalized_text normalized segment :
  segmentsText (pushNormalized normalized segment)
  = segmentsText normalized ++ text segment.
Proof.
  destruct (text segment) as [|c t] eqn:E.
  { rewrite pushNormalized_empty by done. by rewrite app_nil_r. }
  assert (Ht : text segment <> []) by (by rewrite E).
  rewrite <- E.
  destruct normalized as [|l0 n0] using rev_ind.
  { rewrite pushNormalized_first by done. unfold segmentsText. cbn.
    by rewrite app_nil_r. }
  destruct (decide (href l0 = href segment)) as [Hh|Hh].
  - rewrite pushNormalized_merge by done.
    rewrite !segmentsText_app. unfold segmentsText. cbn.
    by rewrite !app_nil_r, app_assoc.
  - rewrite pushNormalized_push by done.
    replace [l0; segment] with ([l0] ++ [segment]) by done.
    rewrite app_assoc, segmentsText_app. f_equal.
    unfold segmentsText. cbn. by rewrite app_nil_r.
Qed.

Lemma pushNormalized_shape normalized segment :
  Forall (fun s => text s <> []) normalized -> hrefsAlternate normalized ->
  Forall (fun s => text s <> []) (pushNormalized normalized segment)
  /\ hrefsAlternate (pushNormalized normalized segment).
Proof.
  intros Hne Halt.
  destruct (text segment) as [|c t] eqn:E.
  { by rewrite pushNormalized_empty. }
  assert (Ht : text segment <> []) by (by rewrite E).
  destruct normalized as [|l0 n0 _] using rev_ind.
  { rewrite pushNormalized_first by done. split.
    - by apply Forall_singleton.
    - apply (hrefsAlternate_snoc [] segment). split; [apply hrefsAlternate_nil|done]. }
  apply Forall_app in Hne as [Hn0 Hl0]. rewrite Forall_singleton in Hl0.
  apply hrefsAlternate_snoc in Halt as [Halt Hlast].
  destruct (decide (href l0 = href segment)) as [Hh|Hh].
  - rewrite pushNormalized_merge by done. split.
    + apply Forall_app. split; [done|]. apply Forall_singleton. cbn.
      destruct (text l0); [done|discriminate].
    + apply hrefsAlternate_snoc. split; [done|]. intros l Hl. cbn. by apply Hlast.
  - rewrite pushNormalized_push by done.
    replace [l0; segment] with ([l0] ++ [segment]) by done. rewrite app_assoc.
    split.
    + apply Forall_app. split; [|by apply Forall_singleton].
      apply Forall_app. split; [done|by apply Forall_singleton].
    + apply hrefsAlternate_snoc. split.
      * by apply hrefsAlternate_snoc.
      * intros l Hl. rewrite last_snoc in Hl. by injection Hl as <-.
Qed.

Lemma fold_pushNormalized_text prepared normalized :
  segmentsText (fold_left pushNormalized prepared normalized)
  = segmentsText normalized ++ segmentsText prepared.
Proof.
  revert normalized. induction prepared as [|s prepared IH]; intros normalized.
  - cbn. replace (segmentsText []) with (@nil jschar) by done. by rewrite app_nil_r.
  - cbn [fold_left]. rewrite IH, pushNormalized_text.
    replace (segmentsText (s :: prepared)) with (text s ++ segmentsText prepared) by done.
    by rewrite <- app_assoc.
Qed.

Lemma fold_pushNormalized_shape prepared normalized :
  Forall (fun s => text s <> []) normalized -> hrefsAlternate normalized ->
  Forall (fun s => text s <> []) (fold_left pushNormalized prepared normalized)
  /\ hrefsAlternate (fold_left pushNormalized prepared normalized).
Proof.
  revert normalized. induction prepared as [|s prepared IH]; intros normalized Hne Halt.
  - done.
  - cbn [fold_left].
    destruct (pushNormalized_shape normalized s Hne Halt) as [Hne' Halt'].
    by apply IH.
Qed.

(** X3. Whatever the segments, the list [cloneFootnoteSegments] returns has
    no segment with an empty text and no two neighbouring segments with the
    same [href], and it shows the same characters: its texts, concatenated
    and with white space left out, are those of the input. *)
Theorem clone_merges_and_keeps_visible_text (segs : list Segment) :
  Forall (fun s => text s <> []) (cloneFootnoteSegments segs)
  /\ hrefsAlternate (cloneFootnoteSegments segs)
  /\ withoutWhitespace (segmentsText (cloneFootnoteSegments segs))
     = withoutWhitespace (segmentsText segs).
Proof.
  unfold cloneFootnoteSegments.
  rewrite <- (segmentsText_filter_nonempty segs).
  generalize (List.filter (fun s => negb (Nat.eqb (length (text s)) 0)) segs).
  intros prepared. destruct prepared as [|s0 prepared0] eqn:E.
  { split; [constructor|]. split; [apply hrefsAlternate_nil|done]. }
  rewrite <- E. clear E.
  match goal with
  | |- context [fold_left pushNormalized ?l []] => set (trimmed := l)
  end.
  destruct (fold_pushNormalized_shape trimmed [] (Forall_nil_2 _) hrefsAlternate_nil)
    as [Hne Halt].
  split; [exact Hne|]. split; [exact Halt|].
  rewrite fold_pushNormalized_text. cbn [app].
  replace (segmentsText []) with (@nil jschar) by done. cbn [app].
  subst trimmed.
  rewrite visible_alter by (intros s; apply withoutWhitespace_trimEnd).
  by rewrite visible_alter by (intros s; apply withoutWhitespace_trimStart).
Qed.

Lemma setText_same s : setText s (text s) = s.
Proof. by destruct s. Qed.

Lemma fold_pushNormalized_normal rest normalized :
  Forall (fun s => text s <> []) rest -> hrefsAlternate (normalized ++ rest) ->
  fold_left pushNormalized rest normalized = normalized ++ rest.
Proof.
  revert normalized. induction rest as [|s rest IH]; intros normalized Hne Halt.
  - by rewrite app_nil_r.
  - apply Forall_cons in Hne as [Hs Hrest]. cbn [fold_left].
    replace (normalized ++ s :: rest) with ((normalized ++ [s]) ++ rest) in *
      by (by rewrite <- app_assoc).
    assert (Hpush : pushNormalized normalized s = normalized ++ [s]).
    { destruct normalized as [|l0 n0 _] using rev_ind.
      - by apply pushNormalized_first.
      - rewrite pushNormalized_push; [by rewrite <- app_assoc|done|].
        assert (Heq : ((n0 ++ [l0]) ++ [s]) ++ rest = n0 ++ l0 :: s :: rest)
          by (by rewrite <- !app_assoc).
        rewrite Heq in Halt. apply (Halt (length n0) l0 s).
        + by rewrite list_lookup_middle.
        + replace (n0 ++ l0 :: s :: rest) with ((n0 ++ [l0]) ++ s :: rest)
            by (by rewrite <- app_assoc).
          rewrite list_lookup_middle; [done|]. rewrite length_app. cbn. lia. }
    rewrite Hpush. by apply IH.
Qed.

(** X4. On a list that is already normalised (no empty text, no two
    neighbours with the same [href], no white space before the first text or
    after the last) [cloneFootnoteSegments] returns the list itself. *)
Theorem clone_of_normalized_is_identity (segs : list Segment) :
  isNormalized segs -> cloneFootnoteSegments segs = segs.
Proof.
  intros (Hne & Halt & Hhead & Hlast).
  unfold cloneFootnoteSegments.
  assert (Hfilter : List.filter (fun s => negb (Nat.eqb (length (text s)) 0)) segs = segs).
  { clear Halt Hhead Hlast. induction Hne as [|s l Hs _ IH]; [done|].
    cbn [List.filter]. destruct (text s); [done|]. cbn. by rewrite IH. }
  rewrite Hfilter. destruct segs as [|s0 segs0] eqn:E; [done|]. rewrite <- E in *.
  assert (Hstart : alter (fun s => setText s (trimStart (text s))) 0%nat segs = segs).
  { apply alter_fixed. intros x Hx. rewrite <- head_lookup in Hx.
    rewrite (Hhead x Hx). apply setText_same. }
  rewrite Hstart.
  assert (Hend : alter (fun s => setText s (trimEnd (text s))) (length segs - 1)%nat segs
                 = segs).
  { apply alter_fixed. intros x Hx.
    assert (Hl : last segs = Some x).
    { rewrite last_lookup. by replace (pred (length segs)) with (length segs - 1)%nat by lia. }
    rewrite (Hlast x Hl). apply setText_same. }
  rewrite Hend.
  by rewrite (fold_pushNormalized_normal segs []).
Qed.

(** ** Shape of the token list *)

Lemma spacesSeparated_nil : spacesSeparated [].
Proof. intros i H. done. Qed.

Lemma spacesSeparated_snoc tokens token :
  spacesSeparated tokens ->
  (last tokens = Some SpaceToken -> token <> SpaceToken) ->
  spacesSeparated (tokens ++ [token]).
Proof.
  intros Hsep Hlast i Hi Hnext.
  destruct (decide (S i < length tokens)) as [Hlt|Hge].
  - rewrite lookup_app_l in Hi by lia. rewrite lookup_app_l in Hnext by lia.
    by apply (Hsep i).
  - assert (Hlen : S i = length tokens).
    { apply lookup_lt_Some in Hnext. rewrite length_app in Hnext. cbn in Hnext. lia. }
    rewrite lookup_app_l in Hi by lia.
    rewrite lookup_app_r in Hnext by lia.
    rewrite Hlen, Nat.sub_diag in Hnext. injection Hnext as ->.
    apply Hlast; [|done]. rewrite last_lookup.
    by replace (pred (length tokens)) with i by lia.
Qed.

Lemma lineFeeds_snoc s c :
  lineFeeds (s ++ [c]) = (lineFeeds s + if (c =? 10)%N then 1 else 0)%nat.
Proof.
  unfold lineFeeds. rewrite List.filter_app, length_app. cbn [List.filter].
  by destruct (c =? 10)%N.
Qed.

Lemma newlines_snoc tokens token :
  length (List.filter isNewlineToken (tokens ++ [token]))
  = (length (List.filter isNewlineToken tokens)
     + if isNewlineToken token then 1 else 0)%nat.
Proof.
  rewrite List.filter_app, length_app. cbn [List.filter].
  by destruct (isNewlineToken token).
Qed.

Lemma flush_inv processed st :
  tokenizerInv processed st ->
  tokenizerInv processed (flush st) /\ (flush st).2 = []
  /\ ((flush st).1 = st.1 \/ exists w, (flush st).1 = st.1 ++ [TextToken w]).
Proof.
  intros (Hwords & Hsep & Hbuf & Hnl). destruct st as [tokens buffer].
  unfold flush. cbn [fst snd] in *. destruct buffer as [|c buffer].
  - split; [done|]. split; [done|by left].
  - cbn [fst snd]. split; [|split; [done|right; by eexists]].
    split; [|split; [|split]]; cbn [fst snd].
    + intros w [Hw|Hw]%elem_of_app; [by apply Hwords|].
      apply list_elem_of_singleton in Hw. injection Hw as ->. by split.
    + apply spacesSeparated_snoc; [done|]. by intros _.
    + constructor.
    + rewrite newlines_snoc. cbn. lia.
Qed.

Lemma tokenizeChar_inv processed st c :
  tokenizerInv processed st -> tokenizerInv (processed ++ [c]) (tokenizeChar st c).
Proof.
  intros Hinv. unfold tokenizeChar.
  destruct (N.eqb_spec c 10) as [->|Hc].
  - destruct (flush_inv processed st Hinv) as ((Hwords & Hsep & Hbuf & Hnl) & Hempty & _).
    split; [|split; [|split]]; cbn [fst snd].
    + intros w [Hw|Hw]%elem_of_app; [by apply Hwords|].
      by apply list_elem_of_singleton in Hw.
    + apply spacesSeparated_snoc; [done|]. by intros _.
    + done.
    + rewrite newlines_snoc, lineFeeds_snoc, Hnl. reflexivity.
  - destruct (isWhitespace c) eqn:Hws.
    + destruct (flush_inv processed st Hinv) as ((Hwords & Hsep & Hbuf & Hnl) & Hempty & _).
      assert (Hfeeds : lineFeeds (processed ++ [c]) = lineFeeds processed).
      { rewrite lineFeeds_snoc. destruct (N.eqb_spec c 10); [done|lia]. }
      destruct (last (flush st).1) as [[w| |]|] eqn:Hlast.
      2: { split; [done|]. split; [done|]. split; [done|]. by rewrite Hfeeds. }
      all: split; [|split; [|split]]; cbn [fst snd];
        [ intros w' [Hw|Hw]%elem_of_app; [by apply Hwords|];
          by apply list_elem_of_singleton in Hw
        | apply spacesSeparated_snoc; [done|]; intros Hl; congruence
        | done
        | rewrite newlines_snoc, Hfeeds, Hnl; cbn; lia ].
    + destruct Hinv as (Hwords & Hsep & Hbuf & Hnl).
      split; [|split; [|split]]; cbn [fst snd].
      * done.
      * done.
      * apply Forall_app. split; [done|]. by apply Forall_singleton.
      * rewrite lineFeeds_snoc, Hnl. destruct (N.eqb_spec c 10); [done|lia].
Qed.

Lemma tokenize_fold_inv chars processed st :
  tokenizerInv processed st ->
  tokenizerInv (processed ++ chars) (fold_left tokenizeChar chars st).
Proof.
  revert processed st. induction chars as [|c chars IH]; intros processed st Hinv.
  - by rewrite app_nil_r.
  - cbn [fold_left].
    replace (processed ++ c :: chars) with ((processed ++ [c]) ++ chars)
      by (by rewrite <- app_assoc).
    apply IH. by apply tokenizeChar_inv.
Qed.

(** X5. In the list [tokenizeFootnoteText] returns, every text token is a
    non-empty word without white space, no space token directly follows
    another, and there is one newline token for each line feed of the text
    once [\r\n] and [\r] have been turned into line feeds. *)
Theorem tokens_are_words_spaces_and_newlines (t : jsstring) :
  let tokens := tokenizeFootnoteText t in
  (forall w, TextToken w ∈ tokens -> isWord w)
  /\ spacesSeparated tokens
  /\ length (List.filter isNewlineToken tokens) = lineFeeds (normalizeText t).
Proof.
  unfold tokenizeFootnoteText.
  assert (Hinit : tokenizerInv [] ([], [])).
  { split; [|split; [|split]]; cbn [fst snd].
    - intros w Hw. by apply elem_of_nil in Hw.
    - apply spacesSeparated_nil.
    - constructor.
    - reflexivity. }
  pose proof (tokenize_fold_inv (normalizeText t) [] _ Hinit) as Hinv.
  cbn [app] in Hinv.
  destruct (flush_inv _ _ Hinv) as ((Hwords & Hsep & _ & Hnl) & _).
  by cbn.
Qed.

(** ** Decimal numerals and labels *)

Lemma js_inj s t : js s = js t -> s = t.
Proof.
  unfold js. intros H.
  rewrite <- (string_of_list_ascii_of_string s), <- (string_of_list_ascii_of_string t).
  f_equal. revert H. generalize (list_ascii_of_string s) (list_ascii_of_string t).
  intros l. induction l as [|a l IH]; intros [|b m] H; try discriminate; [done|].
  cbn in H. injection H as Hab Hlm. f_equal; [|by apply IH].
  by rewrite <- (ascii_N_embedding a), <- (ascii_N_embedding b), Hab.
Qed.

Lemma to_int_proper n : Z.to_int n <> Decimal.Pos Decimal.Nil
                        /\ Z.to_int n <> Decimal.Neg Decimal.Nil.
Proof.
  destruct n as [|p|p]; cbn; split; try discriminate.
  - intros [= H]. by apply DecimalPos.Unsigned.to_uint_nonnil in H.
  - intros [= H]. by apply DecimalPos.Unsigned.to_uint_nonnil in H.
Qed.

Lemma stringOfNumber_inj n m : stringOfNumber n = stringOfNumber m -> n = m.
Proof.
  unfold stringOfNumber. intros H%js_inj.
  apply DecimalZ.to_int_inj.
  destruct (to_int_proper n) as [Hn1 Hn2], (to_int_proper m) as [Hm1 Hm2].
  pose proof (NilZero.isi _ Hn1 Hn2) as In. pose proof (NilZero.isi _ Hm1 Hm2) as Im.
  rewrite H in In. congruence.
Qed.

Lemma uint_digits d : Forall (fun c => isDigit c = true) (js (NilEmpty.string_of_uint d)).
Proof. induction d; cbn; try constructor; auto. Qed.

Lemma stringOfNumber_digits n :
  (0 <= n)%Z -> Forall (fun c => isDigit c = true) (stringOfNumber n).
Proof.
  intros Hn. unfold stringOfNumber, NilZero.string_of_int.
  destruct n as [|p|p]; [by repeat constructor| |lia].
  cbn [Z.to_int]. unfold NilZero.string_of_uint.
  destruct (Pos.to_uint p) eqn:E; try (rewrite <- E; apply uint_digits).
  by repeat constructor.
Qed.

(** Two numerals followed by the same separator character are equal as soon
    as the texts they start are. *)
Lemma digits_then_dash d1 d2 r1 r2 :
  Forall (fun c => isDigit c = true) d1 -> Forall (fun c => isDigit c = true) d2 ->
  d1 ++ 45%N :: r1 = d2 ++ 45%N :: r2 -> d1 = d2.
Proof.
  intros H1. revert d2. induction H1 as [|c d1 Hc _ IH]; intros d2 H2 Heq.
  - destruct H2 as [|c' d2 Hc' _]; [done|]. cbn in Heq. injection Heq as <- _. done.
  - destruct H2 as [|c' d2 Hc' H2].
    + cbn in Heq. injection Heq as -> _. done.
    + cbn in Heq. injection Heq as -> Heq. f_equal. by apply IH.
Qed.

Lemma destNameFor_counter c c' t t' :
  (0 <= c)%Z -> (0 <= c')%Z -> destNameFor c t = destNameFor c' t' -> c = c'.
Proof.
  intros Hc Hc' H. unfold destNameFor in H.
  apply app_inv_head in H.
  change (js "-" ++ ?x) with (45%N :: x) in H.
  apply stringOfNumber_inj.
  eapply digits_then_dash; [by apply stringOfNumber_digits..|exact H].
Qed.

Lemma digit_not_whitespace c : isDigit c = true -> isWhitespace c = false.
Proof.
  unfold isDigit, isWhitespace. intros [H1 H2]%andb_prop.
  apply N.leb_le in H1. apply N.leb_le in H2.
  repeat match goal with
         | |- context [(?a <=? ?b)%N] =>
             destruct (N.leb_spec a b); try lia
         | |- context [(?a =? ?b)%N] =>
             destruct (N.eqb_spec a b); try lia
         end; reflexivity.
Qed.

Lemma trimStart_fixed c s :
  isWhitespace c = false -> trimStart (c :: s) = c :: s.
Proof. intros H. unfold trimStart. cbn. by rewrite H. Qed.

Lemma trimEnd_fixed c s :
  isWhitespace c = false -> trimEnd (s ++ [c]) = s ++ [c].
Proof.
  intros H. unfold trimEnd, dropWhileEnd. rewrite rev_app_distr. cbn.
  rewrite H. cbn. by rewrite rev_involutive.
Qed.

Lemma trimEnd_last s b :
  last s = Some b -> isWhitespace b = false -> trimEnd s = s.
Proof.
  intros Hb Hw. destruct s as [|x l _] using rev_ind; [done|].
  rewrite last_snoc in Hb. injection Hb as ->. by apply trimEnd_fixed.
Qed.

Lemma trim_fixed s a b :
  head s = Some a -> last s = Some b ->
  isWhitespace a = false -> isWhitespace b = false -> trim s = s.
Proof.
  intros Ha Hb Hwa Hwb. unfold trim.
  destruct s as [|c s]; [done|]. injection Ha as ->.
  rewrite trimStart_fixed by done. by apply (trimEnd_last _ b).
Qed.

(** ** The plan builder: rewrites, items and destination names *)

Section PlanLinks.

Variable toLowerCase : jsstring -> jsstring.
Variable markerPages : gmap Z Z.
Variable definitionsById : gmap jsstring (list Segment).

Local Abbreviation step := (processRef toLowerCase markerPages definitionsById).
Local Abbreviation run := (runRefs toLowerCase markerPages definitionsById).
Local Abbreviation build := (buildFootnotePagePlan toLowerCase markerPages definitionsById).
Local Abbreviation place := (placeOnPage toLowerCase definitionsById).
Local Abbreviation EntryInv := (EntryInv definitionsById).
Local Abbreviation StateInv := (StateInv markerPages definitionsById).
Local Abbreviation LinksInv := (LinksInv markerPages).

Lemma assignNumber_numbered n it : itemNumbered (assignNumber n it).
Proof. by split. Qed.

(** The item a reference is given is the last one of its page: a new one
    under the next destination counter, or the former last one with one
    more number. *)
Lemma placeOnPage_last e c t :
  EntryInv e ->
  exists init lastItem,
    items (place e c t).1.1 = init ++ [lastItem]
    /\ (place e c t).2 = destName lastItem
    /\ itemNumbered lastItem
    /\ nextNumber e ∈ numbers lastItem
    /\ ((items e = init /\ (place e c t).1.2 = (c + 1)%Z
         /\ exists token, destName lastItem = destNameFor (c + 1) token)
        \/ (exists it, items e = init ++ [it] /\ (place e c t).1.2 = c
                       /\ destName lastItem = destName it
                       /\ numbers lastItem = numbers it ++ [nextNumber e])).
Proof.
  intros He.
  destruct (findReusable definitionsById e (nextNumber e) t) as [idx|] eqn:Hf.
  - destruct (placeOnPage_reuse toLowerCase definitionsById e c t idx He Hf)
      as (init & it & Hitems & Hidx & ->).
    exists init, (assignNumber (nextNumber e) (addTargetId t it)). cbn.
    split; [done|]. split; [done|]. split; [apply assignNumber_numbered|].
    split; [apply elem_of_app; right; by apply list_elem_of_singleton|].
    right. by exists it.
  - rewrite (placeOnPage_new toLowerCase definitionsById e c t Hf).
    exists (items e), (assignNumber (nextNumber e)
                         (newItem toLowerCase definitionsById t (nextNumber e) (c + 1))).
    cbn. split; [done|]. split; [done|]. split; [apply assignNumber_numbered|].
    split; [by apply list_elem_of_singleton|].
    left. split; [done|]. split; [done|]. by eexists.
Qed.

Lemma LinksInv_initial : LinksInv initialState.
Proof.
  split; cbn.
  - intros p e H. by rewrite lookup_empty in H.
  - intros u H. by apply elem_of_nil in H.
  - intros p e it H. by rewrite lookup_empty in H.
  - intros p e i it p' e' j it' H. by rewrite lookup_empty in H.
Qed.

Lemma LinksInv_step st refs r :
  StateInv st refs -> LinksInv st -> LinksInv (step st r).
Proof.
  intros Hst Hl. unfold processRef.
  destruct (refIndex r) as [index|] eqn:Hidx; [|done].
  destruct (markerPage markerPages index) as [p|] eqn:Hp.
  2:{ destruct Hl. by split. }
  set (entry := default (emptyEntry p) (pages st !! p)).
  assert (Hentry : pages st !! p = Some entry
                   \/ (pages st !! p = None /\ items entry = [])).
  { subst entry. destruct (pages st !! p); [by left|by right]. }
  assert (He : EntryInv entry).
  { destruct Hentry as [E|[E _]].
    - by destruct (st_entry _ _ _ _ Hst _ _ E) as (_ & ? & _).
    - subst entry. rewrite E. apply EntryInv_empty. }
  assert (Hold : Forall itemNumbered (items entry)).
  { destruct Hentry as [E|[_ ->]]; [|constructor].
    by apply (links_numbered _ _ Hl p). }
  pose proof (st_counter _ _ _ _ Hst) as Hcounter.
  destruct (placeOnPage_last entry (destinationCounter st) (refTargetId r) He)
    as (init & lastItem & Hitems & Hdest & Hnum & Hin & Hcase).
  destruct (place entry (destinationCounter st) (refTargetId r))
    as [[e' c'] dest] eqn:Hplace.
  cbn [fst snd] in *.
  assert (Hprefix : exists tail, items entry = init ++ tail).
  { destruct Hcase as [(-> & _)|(it & -> & _)]; [exists []; by rewrite app_nil_r|by eexists]. }
  assert (Hc' : (destinationCounter st <= c')%Z).
  { destruct Hcase as [(_ & -> & _)|(it & _ & -> & _)]; lia. }
  (* where an item of the new state comes from *)
  assert (Horigin : forall q eq i it',
             <[p := e']> (pages st) !! q = Some eq -> items eq !! i = Some it' ->
             (exists eo ito, pages st !! q = Some eo /\ items eo !! i = Some ito
                             /\ destName ito = destName it')
             \/ (q = p /\ i = length init /\ c' = (destinationCounter st + 1)%Z
                 /\ exists token, destName it' = destNameFor (destinationCounter st + 1) token)).
  { intros q eq i it'. rewrite lookup_insert. case_decide as Hq.
    - subst q. intros [= <-]. rewrite Hitems. intros Hi.
      destruct (decide (i < length init)%nat) as [Hlt|Hge].
      + left. rewrite lookup_app_l in Hi by done.
        destruct Hprefix as [tail Htail].
        assert (Hlook : items entry !! i = Some it').
        { rewrite Htail. by apply lookup_app_l_Some. }
        destruct Hentry as [E|[_ E]]; [|by rewrite E in Hlook].
        by exists entry, it'.
      + rewrite lookup_app_r in Hi by lia.
        destruct (i - length init)%nat as [|k] eqn:Hk; [|done].
        injection Hi as <-.
        assert (i = length init) by lia. subst i.
        destruct Hcase as [(_ & Hnew & Htok)|(it & Hit & _ & Hname & _)].
        * right. done.
        * left. assert (Hlook : items entry !! length init = Some it).
          { rewrite Hit. by rewrite list_lookup_middle. }
          destruct Hentry as [E|[_ E]]; [|by rewrite E in Hlook].
          by exists entry, it.
    - intros Hq' Hi. left. by exists eq, it'. }
  (* where an item of the old state goes *)
  assert (Hforward : forall q eo i ito,
             pages st !! q = Some eo -> items eo !! i = Some ito ->
             exists en itn, <[p := e']> (pages st) !! q = Some en
                            /\ items en !! i = Some itn
                            /\ destName itn = destName ito
                            /\ (forall n, n ∈ numbers ito -> n ∈ numbers itn)).
  { intros q eo i ito Hq Hi. rewrite lookup_insert. case_decide as Hd.
    - subst q. exists e'.
      assert (eo = entry) as ->.
      { destruct Hentry as [E|[E _]]; congruence. }
      rewrite Hitems.
      destruct Hcase as [(Hsame & _)|(it & Hit & _ & Hname & Hnums)].
      + rewrite Hsame in Hi. exists ito. split; [done|].
        split; [by apply lookup_app_l_Some|done].
      + rewrite Hit in Hi.
        destruct (decide (i < length init)%nat) as [Hlt|Hge].
        * rewrite lookup_app_l in Hi by done. exists ito. split; [done|].
          split; [by apply lookup_app_l_Some|done].
        * rewrite lookup_app_r in Hi by lia.
          destruct (i - length init)%nat as [|k] eqn:Hk; [|done].
          injection Hi as <-. assert (i = length init) by lia. subst i.
          exists lastItem. split; [done|].
          split; [by rewrite list_lookup_middle|]. split; [done|].
          intros n Hn. rewrite Hnums. apply elem_of_app. by left.
    - by exists eo, ito. }
  split; cbn.
  - intros q eq. rewrite lookup_insert. case_decide as Hq.
    + intros [= <-]. rewrite Hitems. apply Forall_app. split.
      * destruct Hprefix as [tail Htail]. rewrite Htail in Hold.
        by apply Forall_app in Hold as [? _].
      * by apply Forall_singleton.
    + apply (links_numbered _ _ Hl).
  - intros u [Hu|Hu]%elem_of_app.
    + destruct (links_updates _ _ Hl u Hu) as (Hlabel & q & eo & ito & Hq & Heo & Hito & Hn & Hname).
      split; [done|].
      apply list_elem_of_lookup in Hito as [i Hi].
      destruct (Hforward q eo i ito Heo Hi) as (en & itn & Hen & Hitn & Hdn & Hnums).
      exists q, en, itn. split; [done|]. split; [done|].
      split; [by eapply list_elem_of_lookup_2|]. split; [by apply Hnums|congruence].
    + apply list_elem_of_singleton in Hu as ->. cbn. split; [done|].
      exists p, e', lastItem. split; [done|]. split; [by rewrite lookup_insert_eq|].
      split; [rewrite Hitems; apply elem_of_app; right; by apply list_elem_of_singleton|].
      done.
  - intros q eq it' Hq Hit'.
    apply list_elem_of_lookup in Hit' as [i Hi].
    destruct (Horigin q eq i it' Hq Hi)
      as [(eo & ito & Heo & Hito & Hname)|(_ & _ & Hnew & token & Hname)].
    + destruct (links_bounded _ _ Hl q eo ito Heo) as (c & t & Hct & Hc);
        [by eapply list_elem_of_lookup_2|].
      exists c, t. split; [by rewrite <- Hname|lia].
    + exists (destinationCounter st + 1)%Z, token. split; [done|lia].
  - intros q eq i it1 q' eq' j it2 Hq Hi Hq' Hj Hsame.
    destruct (Horigin q eq i it1 Hq Hi)
      as [(eo & ito & Heo & Hito & Hname)|(-> & -> & Hnew & token & Hname)];
    destruct (Horigin q' eq' j it2 Hq' Hj)
      as [(eo' & ito' & Heo' & Hito' & Hname')|(-> & -> & Hnew' & token' & Hname')].
    + apply (links_unique _ _ Hl q eo i ito q' eo' j ito'); try done. congruence.
    + exfalso.
      destruct (links_bounded _ _ Hl q eo ito Heo) as (c & t & Hct & Hc);
        [by eapply list_elem_of_lookup_2|].
      assert (Heq : destNameFor c t = destNameFor (destinationCounter st + 1) token')
        by congruence.
      apply destNameFor_counter in Heq; lia.
    + exfalso.
      destruct (links_bounded _ _ Hl q' eo' ito' Heo') as (c & t & Hct & Hc);
        [by eapply list_elem_of_lookup_2|].
      assert (Heq : destNameFor c t = destNameFor (destinationCounter st + 1) token)
        by congruence.
      apply destNameFor_counter in Heq; lia.
    + done.
Qed.

Lemma LinksInv_run refs : LinksInv (run refs).
Proof.
  induction refs as [|r refs IH] using rev_ind.
  - apply LinksInv_initial.
  - rewrite runRefs_snoc. eapply LinksInv_step; [apply StateInv_run|done].
Qed.

End PlanLinks.

(** ** The plan builder: what the returned plan says about links, names and
       numbers *)

Lemma concat_seqZ_runs (ls : list (list Z)) (a : Z) (n : nat) :
  concat ls = seqZ a (Z.of_nat n) ->
  Forall (fun l => exists b, (a <= b)%Z /\ l = seqZ b (Z.of_nat (length l))) ls.
Proof.
  revert a n. induction ls as [|l ls IH]; intros a n H; [constructor|].
  cbn [concat] in H.
  assert (Hlen : (length l + length (concat ls) = n)%nat).
  { rewrite <- length_app, H, length_seqZ. lia. }
  replace (Z.of_nat n) with (Z.of_nat (length l) + Z.of_nat (length (concat ls)))%Z in H
    by lia.
  rewrite seqZ_app in H by lia.
  apply app_inj_1 in H as [Hl Hrest]; [|by rewrite length_seqZ; lia].
  constructor.
  - exists a. split; [lia|done].
  - eapply Forall_impl; [by apply (IH _ _ Hrest)|].
    cbn. intros l' (b & Hb & Hl'). exists b. split; [lia|done].
Qed.

Lemma join_cons sep p q rest :
  join sep (p :: q :: rest) = p ++ sep ++ join sep (q :: rest).
Proof. reflexivity. Qed.

Lemma join_snoc sep parts p q :
  join sep ((p :: parts) ++ [q]) = join sep (p :: parts) ++ sep ++ q.
Proof.
  revert p. induction parts as [|r parts IH]; intros p; [done|].
  change ((p :: r :: parts) ++ [q]) with (p :: (r :: parts) ++ [q]).
  change ((r :: parts) ++ [q]) with (r :: (parts ++ [q])).
  rewrite join_cons. change (r :: parts ++ [q]) with ((r :: parts) ++ [q]).
  rewrite IH, join_cons. by rewrite <- !app_assoc.
Qed.

Lemma join_head sep p rest c :
  head p = Some c -> head (join sep (p :: rest)) = Some c.
Proof.
  destruct p as [|d p]; [done|]. intros [= ->].
  by destruct rest.
Qed.

Lemma join_last sep parts q c :
  last q = Some c -> last (join sep (parts ++ [q])) = Some c.
Proof.
  intros Hq. destruct parts as [|p parts]; [done|].
  rewrite join_snoc.
  destruct q as [|x q _] using rev_ind; [done|].
  rewrite !app_assoc. by rewrite last_snoc in *.
Qed.

Section PlanLinkTheorems.

Variable toLowerCase : jsstring -> jsstring.
Variable markerPages : gmap Z Z.
Variable definitionsById : gmap jsstring (list Segment).

Local Abbreviation run := (runRefs toLowerCase markerPages definitionsById).
Local Abbreviation build := (buildFootnotePagePlan toLowerCase markerPages definitionsById).

(** A page of the plan is the image of an entry of the final state, under
    its own page number. *)
Lemma planPage_entry refs pp :
  pp ∈ planPages (build refs) ->
  exists e, pages (run refs) !! page pp = Some e /\ pp = pagePlanOf e.
Proof.
  intros Hpp. apply elem_of_orderedPages in Hpp as (p & e & He & ->).
  exists e. split; [|done]. cbn.
  by destruct (st_entry _ _ _ _ (StateInv_run toLowerCase markerPages definitionsById refs)
                 _ _ He) as (-> & _).
Qed.

(** X6. Every rewrite of a reference in the returned plan leads to a
    footnote that is there: the page the reference is on has a page plan, and
    one of its items holds the new number of the reference and has the
    destination name the rewrite links to. The new label is the number in
    decimal. *)
Theorem rewrites_point_at_items (refs : list FootnoteRef) (u : RefUpdate) :
  u ∈ planRefUpdates (build refs) ->
  newLabel u = stringOfNumber (newNumber u)
  /\ exists pp item,
       pp ∈ planPages (build refs)
       /\ markerPage markerPages (updRefIndex u) = Some (page pp)
       /\ item ∈ planItems pp
       /\ newNumber u ∈ planNumbers item
       /\ planDestName item = updDestName u.
Proof.
  intros Hu. cbn in Hu.
  destruct (links_updates _ _ (LinksInv_run toLowerCase markerPages definitionsById refs)
              u Hu) as (Hlabel & p & e & it & Hp & He & Hit & Hn & Hname).
  split; [done|].
  exists (pagePlanOf e), (planItemOf it).
  split; [apply elem_of_orderedPages; by exists p, e|].
  destruct (st_entry _ _ _ _ (StateInv_run toLowerCase markerPages definitionsById refs)
              _ _ He) as (Hpage & _).
  cbn. split; [by rewrite Hpage|].
  split; [apply list_elem_of_fmap; by exists it|done].
Qed.

(** X7. No two items of the returned plan have the same destination name,
    on one page or on two. *)
Theorem destination_names_are_distinct (refs : list FootnoteRef)
    (pp pp' : PagePlan) (i j : nat) (item item' : PlanItem) :
  pp ∈ planPages (build refs) -> planItems pp !! i = Some item ->
  pp' ∈ planPages (build refs) -> planItems pp' !! j = Some item' ->
  planDestName item = planDestName item' ->
  pp = pp' /\ i = j.
Proof.
  intros (e & He & ->)%planPage_entry Hi (e' & He' & ->)%planPage_entry Hj Hsame.
  cbn in *.
  apply list_lookup_fmap_Some in Hi as (it & -> & Hi).
  apply list_lookup_fmap_Some in Hj as (it' & -> & Hj).
  destruct (links_unique _ _ (LinksInv_run toLowerCase markerPages definitionsById refs)
              _ e i it _ e' j it' He Hi He' Hj Hsame) as [Hp ->].
  split; [|done]. rewrite Hp in He. congruence.
Qed.

(** An item of the returned plan comes from an item of the final state
    whose numbers are a run of consecutive positive numbers. *)
Lemma planItem_run refs pp item :
  pp ∈ planPages (build refs) -> item ∈ planItems pp ->
  exists it first,
    item = planItemOf it /\ itemNumbered it
    /\ (1 <= first)%Z /\ (1 <= length (numbers it))%nat
    /\ numbers it = seqZ first (Z.of_nat (length (numbers it))).
Proof.
  intros (e & He & ->)%planPage_entry Hitem. cbn in Hitem.
  apply list_elem_of_fmap in Hitem as (it & -> & Hit).
  destruct (st_entry _ _ _ _ (StateInv_run toLowerCase markerPages definitionsById refs)
              _ _ He) as (_ & Hinv & _).
  pose proof (links_numbered _ _ (LinksInv_run toLowerCase markerPages definitionsById refs)
                _ _ He) as Hnumbered.
  rewrite Forall_forall in Hnumbered.
  pose proof (inv_next _ _ Hinv) as Hnext.
  pose proof (inv_concat _ _ Hinv) as Hconcat.
  replace (nextNumber e - 1)%Z with (Z.of_nat (Z.to_nat (nextNumber e - 1))) in Hconcat
    by lia.
  apply concat_seqZ_runs in Hconcat. rewrite Forall_forall in Hconcat.
  destruct (Hconcat (numbers it)) as (first & Hfirst & Hrun);
    [apply list_elem_of_fmap; by exists it|].
  pose proof (inv_last _ _ Hinv) as Hlast. rewrite Forall_forall in Hlast.
  destruct (Hlast it Hit) as (n & _ & Hn).
  exists it, first. split; [done|]. split; [by apply Hnumbered|].
  split; [done|]. split; [|done].
  destruct (numbers it); [done|cbn; lia].
Qed.

Lemma format_positive nums :
  Forall (fun v => (0 < v)%Z) nums ->
  formatFootnoteNumberLabel nums = join (js ", ") (stringOfNumber <$> nums).
Proof.
  intros Hall. unfold formatFootnoteNumberLabel. f_equal.
  replace (List.filter (fun v => (0 <? v)%Z) nums) with nums; [done|].
  induction Hall as [|v l Hv _ IH]; [done|].
  cbn. apply Z.ltb_lt in Hv. by rewrite Hv, <- IH.
Qed.

Lemma run_positive first count :
  (1 <= first)%Z -> Forall (fun v => (0 < v)%Z) (seqZ first count).
Proof. intros H. apply Forall_seqZ. intros m Hm. lia. Qed.

Lemma planItemOf_label it :
  itemNumbered it ->
  planNumberLabel (planItemOf it) = formatFootnoteNumberLabel (numbers it).
Proof. intros [_ Hlabel]. cbn. rewrite <- Hlabel. by destruct (numberLabel it). Qed.

(** X8. Every item of the returned plan holds a run of consecutive numbers
    [first, first + 1, ...] of at least one number; its [number] is the first
    of them and its label is their decimals joined by a comma and a space. *)
Theorem items_hold_runs_of_numbers (refs : list FootnoteRef) (pp : PagePlan)
    (item : PlanItem) :
  pp ∈ planPages (build refs) -> item ∈ planItems pp ->
  exists first count,
    (1 <= first)%Z /\ (1 <= count)%Z
    /\ planNumbers item = seqZ first count
    /\ planNumber item = first
    /\ planNumberLabel item = join (js ", ") (stringOfNumber <$> seqZ first count).
Proof.
  intros Hpp Hitem.
  destruct (planItem_run refs pp item Hpp Hitem)
    as (it & first & -> & Hnumbered & Hfirst & Hlen & Hrun).
  exists first, (Z.of_nat (length (numbers it))).
  split; [done|]. split; [lia|].
  split; [exact Hrun|].
  assert (Hhead : head (numbers it) = Some first).
  { rewrite Hrun. rewrite seqZ_cons by lia. done. }
  split.
  - cbn. destruct Hnumbered as [-> _]. by rewrite Hhead.
  - rewrite planItemOf_label by done. rewrite format_positive.
    + by rewrite <- Hrun.
    + rewrite Hrun. by apply run_positive.
Qed.

Lemma nonempty_snoc {A} (l : list A) : l <> [] -> exists front x, l = front ++ [x].
Proof. destruct l as [|x l _] using rev_ind; [done|]. intros _. by eexists _, _. Qed.

Lemma digits_no_comma s :
  Forall (fun c => isDigit c = true) s -> existsb (fun c => (c =? 44)%N) s = false.
Proof.
  induction 1 as [|c s Hc _ IH]; [done|]. cbn. rewrite IH, orb_false_r.
  unfold isDigit in Hc. apply andb_prop in Hc as [Hc _]. apply N.leb_le in Hc.
  apply N.eqb_neq. lia.
Qed.

Lemma stringOfNumber_ends n :
  (0 <= n)%Z ->
  exists a b, head (stringOfNumber n) = Some a /\ last (stringOfNumber n) = Some b
              /\ isWhitespace a = false /\ isWhitespace b = false.
Proof.
  intros Hn. pose proof (stringOfNumber_digits n Hn) as Hd.
  pose proof (stringOfNumber_nonempty n) as Hne.
  rewrite Forall_forall in Hd.
  destruct (stringOfNumber n) as [|a s] eqn:E; [done|].
  destruct (last (a :: s)) as [b|] eqn:Hb.
  - exists a, b. split; [done|]. split; [done|]. split.
    + apply digit_not_whitespace, Hd. by left.
    + apply digit_not_whitespace, Hd. by apply last_Some_elem_of.
  - by apply last_None in Hb.
Qed.

(** X9. The label [getFootnoteDisplayLabel] shows for an item of the
    returned plan is the decimal of its number followed by a full stop when
    the item holds one number, and its comma-separated label as it is when
    the item holds several. *)
Theorem display_label_of_plan_items (refs : list FootnoteRef) (pp : PagePlan)
    (item : PlanItem) :
  pp ∈ planPages (build refs) -> item ∈ planItems pp ->
  getFootnoteDisplayLabel item
  = if (length (planNumbers item) =? 1)%nat
    then stringOfNumber (planNumber item) ++ js "."
    else planNumberLabel item.
Proof.
  intros Hpp Hitem.
  destruct (planItem_run refs pp item Hpp Hitem)
    as (it & first & -> & Hnumbered & Hfirst & Hlen & Hrun).
  assert (Hpos : Forall (fun v => (0 < v)%Z) (numbers it)).
  { rewrite Hrun. by apply run_positive. }
  assert (Hlabel : planNumberLabel (planItemOf it)
                   = join (js ", ") (stringOfNumber <$> numbers it)).
  { rewrite planItemOf_label by done. by apply format_positive. }
  assert (Hfilter : List.filter (fun v => (0 <? v)%Z) (numbers it) = numbers it).
  { clear -Hpos. induction Hpos as [|v l Hv _ IH]; [done|].
    cbn. apply Z.ltb_lt in Hv. by rewrite Hv, IH. }
  (* the label starts and ends with a digit *)
  assert (Htrim : trim (planNumberLabel (planItemOf it)) = planNumberLabel (planItemOf it)
                  /\ planNumberLabel (planItemOf it) <> []).
  { rewrite Hlabel.
    destruct (numbers it) as [|n0 rest] eqn:Hnums; [cbn in Hlen; lia|].
    destruct (nonempty_snoc (n0 :: rest)) as (front & nl & Hsnoc); [done|].
    assert (H0 : (0 <= n0)%Z).
    { apply Forall_cons in Hpos as [? _]. lia. }
    assert (Hl : (0 <= nl)%Z).
    { rewrite Hsnoc in Hpos. apply Forall_app in Hpos as [_ Hp].
      rewrite Forall_singleton in Hp. lia. }
    destruct (stringOfNumber_ends n0 H0) as (a & _ & Ha & _ & Hwa & _).
    destruct (stringOfNumber_ends nl Hl) as (_ & b & _ & Hb & _ & Hwb).
    assert (Hhead : head (join (js ", ") (stringOfNumber <$> n0 :: rest)) = Some a).
    { rewrite fmap_cons. by apply join_head. }
    assert (Hlast : last (join (js ", ") (stringOfNumber <$> n0 :: rest)) = Some b).
    { rewrite Hsnoc, fmap_app. by apply join_last. }
    split; [by apply (trim_fixed _ a b)|].
    intros Hnil. by rewrite Hnil in Hhead. }
  destruct Htrim as [Htrim Hne].
  unfold getFootnoteDisplayLabel.
  assert (Hraw : trim match planNumberLabel (planItemOf it) with
                      | [] => if (planNumber (planItemOf it) =? 0)%Z then []
                              else stringOfNumber (planNumber (planItemOf it))
                      | c :: l => c :: l
                      end = planNumberLabel (planItemOf it)).
  { by destruct (planNumberLabel (planItemOf it)). }
  rewrite Hraw.
  destruct (planNumberLabel (planItemOf it)) as [|c l] eqn:E; [done|]. rewrite <- E.
  cbn [planNumbers planItemOf planNumber]. rewrite Hfilter.
  destruct Hnumbered as [Hnumber _]. rewrite Hnumber.
  destruct (numbers it) as [|n0 [|n1 rest]] eqn:Hnums.
  - cbn in Hlen. lia.
  - assert (Hone : planNumberLabel (planItemOf it) = stringOfNumber n0).
    { rewrite E, Hlabel. reflexivity. }
    rewrite Hone.
    assert (H0 : (0 <= n0)%Z).
    { apply Forall_cons in Hpos as [? _]. lia. }
    rewrite (digits_no_comma _ (stringOfNumber_digits n0 H0)).
    reflexivity.
  - reflexivity.
Qed.


End PlanLinkTheorems.

(** ** The plan builder: order of the pages *)

Lemma sorted_distinct_ascending (l : list Z) :
  Sorted Z.le l -> NoDup l -> StronglySorted Z.lt l.
Proof.
  intros Hs%Sorted_StronglySorted Hnd; [|intros x y z; lia].
  induction Hs as [|x l _ IH Hall]; [constructor|].
  apply NoDup_cons in Hnd as [Hx Hnd].
  constructor; [by apply IH|].
  rewrite Forall_forall in Hall |- *. intros y Hy.
  assert (x <> y) by (intros ->; done).
  pose proof (Hall y Hy). lia.
Qed.

Lemma ascending_shift (offset : Z) (l : list Z) :
  StronglySorted Z.lt l -> StronglySorted Z.lt ((fun p => (p + offset)%Z) <$> l).
Proof.
  induction 1 as [|x l _ IH Hall]; [constructor|].
  cbn. constructor; [done|].
  rewrite Forall_forall in Hall. apply Forall_forall.
  intros y (z & -> & Hz)%list_elem_of_fmap. pose proof (Hall z Hz). lia.
Qed.

Section PlanOrder.

Variable toLowerCase : jsstring -> jsstring.
Variable markerPages : gmap Z Z.
Variable definitionsById : gmap jsstring (list Segment).

Local Abbreviation run := (runRefs toLowerCase markerPages definitionsById).
Local Abbreviation build := (buildFootnotePagePlan toLowerCase markerPages definitionsById).

(** X10. The page plans of the returned plan come in strictly ascending
    page order, each with at least one item and none for page 0; shifted by
    a page offset they are still in strictly ascending order of their final
    page, which is the page plus the offset, so no two final plans are for the
    same page. *)
Theorem plans_come_in_page_order (refs : list FootnoteRef) (pageOffset : Z) :
  let plans := planPages (build refs) in
  let final := shiftFootnotePlansByOffset plans pageOffset in
  StronglySorted Z.lt (page <$> plans)
  /\ Forall (fun pp => planItems pp <> [] /\ page pp <> 0%Z) plans
  /\ finalPage <$> final = (fun p => (p + pageOffset)%Z) <$> (page <$> plans)
  /\ StronglySorted Z.lt (finalPage <$> final)
  /\ NoDup (finalPage <$> final).
Proof.
  intros plans final.
  assert (Hsorted : StronglySorted Z.lt (page <$> plans)).
  { apply sorted_distinct_ascending.
    - apply planPages_Sorted.
    - apply planPages_NoDup. }
  assert (Hfinal : finalPage <$> final = (fun p => (p + pageOffset)%Z) <$> (page <$> plans)).
  { subst final. unfold shiftFootnotePlansByOffset.
    rewrite <- list_fmap_compose. apply list_eq. intros i.
    rewrite !list_lookup_fmap. by destruct (plans !! i). }
  assert (Hshift : StronglySorted Z.lt (finalPage <$> final)).
  { rewrite Hfinal. by apply ascending_shift. }
  split; [done|]. split; [|split; [done|split; [done|]]].
  - apply Forall_forall. intros pp Hpp. subst plans.
    apply elem_of_orderedPages in Hpp as (p & e & He & ->).
    destruct (st_entry _ _ _ _ (StateInv_run toLowerCase markerPages definitionsById refs)
                _ _ He) as (Hpage & Hinv & Hcount & Hrefs).
    cbn. split.
    + intros Hnil%fmap_nil_inv.
      pose proof (inv_concat _ _ Hinv) as Hconcat. rewrite Hnil in Hconcat.
      cbn in Hconcat. symmetry in Hconcat.
      apply (f_equal length) in Hconcat. rewrite length_seqZ in Hconcat. cbn in Hconcat.
      destruct (refsOn markerPages p refs); [done|]. cbn in Hcount. lia.
    + rewrite Hpage. intros ->.
      destruct (refsOn markerPages 0 refs) as [|r l] eqn:Hon; [done|].
      assert (Hr : r ∈ refsOn markerPages 0 refs) by (rewrite Hon; by left).
      unfold refsOn in Hr. apply list_elem_of_In, List.filter_In in Hr as [_ Hr].
      apply bool_decide_eq_true in Hr. unfold resolvedPage, markerPage in Hr.
      destruct (refIndex r); [|done].
      destruct (markerPages !! z) as [q|]; [|done].
      destruct (Z.eqb_spec q 0); [done|]. congruence.
  - clear -Hshift. induction Hshift as [|x l _ IH Hall]; [constructor|].
    apply NoDup_cons. split; [|done].
    rewrite Forall_forall in Hall. intros Hx. pose proof (Hall x Hx). lia.
Qed.

End PlanOrder.

(** ** Tokens that are already safe *)

Lemma tokenChar_not_whitespace c : isTokenChar c = true -> isWhitespace c = false.
Proof.
  unfold isTokenChar, isWhitespace. intros H.
  assert (Hc : (97 <= c <= 122 \/ 48 <= c <= 57 \/ c = 95 \/ c = 45)%N).
  { repeat match type of H with
           | context [(?a <=? ?b)%N] => destruct (N.leb_spec a b)
           | context [(?a =? ?b)%N] => destruct (N.eqb_spec a b)
           end; cbn in H; try discriminate; lia. }
  repeat match goal with
         | |- context [(?a <=? ?b)%N] => destruct (N.leb_spec a b); try lia
         | |- context [(?a =? ?b)%N] => destruct (N.eqb_spec a b); try lia
         end; reflexivity.
Qed.

Lemma collapseUnsafe_safe b s :
  Forall (fun c => isTokenChar c = true) s -> collapseUnsafe b s = s.
Proof.
  intros H. revert b. induction H as [|c s Hc _ IH]; intros b; [done|].
  cbn. by rewrite Hc, IH.
Qed.

Lemma dropWhile_head p c s : p c = false -> dropWhile p (c :: s) = c :: s.
Proof. intros H. cbn. by rewrite H. Qed.

Lemma dropWhileEnd_last p c s :
  last s = Some c -> p c = false -> dropWhileEnd p s = s.
Proof.
  intros Hlast H. destruct s as [|x l _] using rev_ind; [done|].
  rewrite last_snoc in Hlast. injection Hlast as ->.
  unfold dropWhileEnd. rewrite rev_app_distr. cbn. rewrite H. cbn.
  by rewrite rev_involutive.
Qed.

(** X11. A token that is already safe is left as it is: when [value] is not
    empty, has at most 48 characters, all of [[a-z0-9_-]], neither starts nor
    ends with a dash, and lower-casing does not change it,
    [sanitizeFootnoteToken] returns [value] itself whatever the fallback. *)
Theorem sanitize_keeps_safe_tokens (toLowerCase : jsstring -> jsstring)
    (value fallback : jsstring) (first final : jschar) :
  Forall (fun c => isTokenChar c = true) value ->
  (length value <= 48)%nat ->
  head value = Some first -> isDash first = false ->
  last value = Some final -> isDash final = false ->
  toLowerCase value = value ->
  sanitizeFootnoteToken toLowerCase value fallback = value.
Proof.
  intros Hchars Hlen Hfirst Hdf Hfinal Hdl Hlower.
  assert (Htrim : trim value = value).
  { rewrite Forall_forall in Hchars.
    apply (trim_fixed value first final); try done.
    - apply tokenChar_not_whitespace, Hchars.
      destruct value; [done|]. injection Hfirst as ->. by left.
    - apply tokenChar_not_whitespace, Hchars. by apply last_Some_elem_of. }
  unfold sanitizeFootnoteToken. rewrite Htrim, Hlower.
  rewrite collapseUnsafe_safe by done.
  assert (Hstrip : stripDashes value = value).
  { unfold stripDashes.
    assert (Hstart : dropWhile isDash value = value).
    { destruct value as [|c s]; [done|]. injection Hfirst as ->.
      by apply dropWhile_head. }
    rewrite Hstart. by apply (dropWhileEnd_last _ final). }
  rewrite Hstrip, take_ge by done.
  by destruct value.
Qed.

(** ** Link targets of footnote fragments *)

Lemma dropWhile_keeps_last p s c :
  last s = Some c -> p c = false -> last (dropWhile p s) = Some c.
Proof.
  intros Hlast Hc. induction s as [|x s IH]; [done|].
  cbn [dropWhile]. destruct (p x) eqn:Hx; [|done].
  apply IH. destruct s as [|y s]; [|done].
  cbn in Hlast. injection Hlast as ->. congruence.
Qed.

Lemma dropWhile_starts p s c : head (dropWhile p s) = Some c -> p c = false.
Proof.
  induction s as [|x s IH]; [done|]. cbn [dropWhile].
  destruct (p x) eqn:Hx; [done|]. by intros [= <-].
Qed.

Lemma last_of_rev {A} (l : list A) : last (rev l) = head l.
Proof. destruct l as [|x l]; [done|]. cbn. by rewrite last_snoc. Qed.

(** A trimmed text that is not empty ends with a character that is not
    white space. *)
Lemma trim_ends s c : last (trim s) = Some c -> isWhitespace c = false.
Proof.
  unfold trim, trimEnd, dropWhileEnd. rewrite last_of_rev.
  apply dropWhile_starts.
Qed.

Lemma trim_of_tail_nonempty rawHash c :
  last rawHash = Some c -> isWhitespace c = false ->
  trim rawHash <> [] /\ last (trim rawHash) = Some c.
Proof.
  intros Hlast Hc.
  pose proof (dropWhile_keeps_last isWhitespace rawHash c Hlast Hc) as Hstart.
  unfold trim, trimEnd. fold (trimStart rawHash) in Hstart.
  rewrite (dropWhileEnd_last isWhitespace c (trimStart rawHash)) by done.
  split; [|done]. intros Hnil. by rewrite Hnil in Hstart.
Qed.

Lemma find_uniqueInOrder_from (P : jsstring -> bool) values seen :
  List.find P
    (fold_left (fun seen v => if bool_decide (v ∈ seen) then seen else seen ++ [v])
               values seen)
  = match List.find P seen with
    | Some x => Some x
    | None => List.find P values
    end.
Proof.
  revert seen. induction values as [|v values IH]; intros seen.
  - cbn. by destruct (List.find P seen).
  - cbn [fold_left]. rewrite IH. case_bool_decide as Hv.
    + destruct (List.find P seen) eqn:Hf; [done|].
      cbn [List.find]. destruct (P v) eqn:Hp; [|done].
      apply list_elem_of_In in Hv.
      by rewrite (List.find_none _ _ Hf v Hv) in Hp.
    + assert (Happ : List.find P (seen ++ [v])
                     = match List.find P seen with
                       | Some x => Some x
                       | None => if P v then Some v else None
                       end).
      { clear. induction seen as [|x seen IH]; [done|].
        cbn. by destruct (P x). }
      rewrite Happ. destruct (List.find P seen); [done|].
      cbn [List.find]. by destruct (P v).
Qed.

Lemma find_uniqueInOrder (P : jsstring -> bool) values :
  List.find P (uniqueInOrder values) = List.find P values.
Proof. unfold uniqueInOrder. by rewrite find_uniqueInOrder_from. Qed.

Lemma head_uniqueInOrder_from (v : jsstring) (tail values : list jsstring) :
  head (fold_left (fun seen w => if bool_decide (w ∈ seen) then seen else seen ++ [w])
                  values (v :: tail))
  = Some v.
Proof.
  revert tail. induction values as [|w values IH]; intros tail; [done|].
  cbn [fold_left]. case_bool_decide; [apply IH|].
  change ((v :: tail) ++ [w]) with (v :: (tail ++ [w])). apply IH.
Qed.

Lemma head_uniqueInOrder v values : head (uniqueInOrder (v :: values)) = Some v.
Proof.
  unfold uniqueInOrder. cbn [fold_left].
  rewrite bool_decide_eq_false_2 by (apply not_elem_of_nil). cbn [app].
  apply head_uniqueInOrder_from.
Qed.

Section LinkResolution.

Variable decodeURIComponent : jsstring -> option jsstring.
Variable encodeURIComponent : jsstring -> option jsstring.

Local Abbreviation resolve :=
  (resolveFootnoteLinkSpec decodeURIComponent encodeURIComponent).
Local Abbreviation decode := (safeDecodeURIComponent decodeURIComponent).

(** X12. An href that, once trimmed, starts with a URL scheme or with [/]
    is linked as an external address, and the address is the trimmed href;
    the call does not throw. *)
Theorem scheme_and_root_hrefs_are_external (h : jsstring) (existing : gset jsstring) :
  hasScheme (trim h) = true \/ startsWith (js "/") (trim h) = true ->
  resolve h existing = Returned (Some (ExternalLink (trim h))).
Proof.
  intros Hkind. unfold resolveFootnoteLinkSpec.
  destruct (trim h) as [|c raw] eqn:Hraw.
  { destruct Hkind as [H|H]; discriminate. }
  assert (Hhash : startsWith (js "#") (c :: raw) = false).
  { destruct Hkind as [H|H].
    - cbn in H. apply andb_prop in H as [Hletter _].
      change (startsWith (js "#") (c :: raw)) with ((35 =? c)%N && true).
      destruct (N.eqb_spec 35 c) as [<-|]; [by vm_compute in Hletter|done].
    - cbn in H. apply andb_prop in H as [Hslash _]. apply N.eqb_eq in Hslash as <-.
      reflexivity. }
  rewrite Hhash.
  destruct Hkind as [->| ->]; [done|]. by rewrite orb_true_r.
Qed.

(** X13. A same-document href [#name] with a name that is not empty is
    linked as an internal destination whenever [encodeURIComponent] does not
    throw. The destination is one of the name, its decoded form and the
    re-encoded form, each trimmed, and it is never empty: the first of the
    three that is a known destination name, and the trimmed name itself when
    none of them is known. *)
Theorem hash_href_prefers_known_destination (h rawHash encoded : jsstring)
    (existing : gset jsstring) :
  trim h = 35%N :: rawHash -> rawHash <> [] ->
  encodeURIComponent (decode rawHash) = Some encoded ->
  let candidates := [trim rawHash; trim (decode rawHash); trim encoded] in
  exists d,
    resolve h existing = Returned (Some (InternalLink d))
    /\ d <> [] /\ d ∈ candidates
    /\ (trim rawHash ∈ existing -> d = trim rawHash)
    /\ ((forall c, c ∈ candidates -> c <> [] -> c ∉ existing) -> d = trim rawHash)
    /\ (forall c, c ∈ candidates -> c <> [] -> c ∈ existing -> d ∈ existing).
Proof.
  intros Hraw Hne Hencoded candidates.
  (* the name ends with a character that is not white space *)
  destruct (nonempty_snoc rawHash Hne) as (front & final & Hsnoc).
  assert (Hfinal : isWhitespace final = false).
  { apply (trim_ends h). rewrite Hraw, Hsnoc.
    change (35%N :: front ++ [final]) with ((35%N :: front) ++ [final]).
    by rewrite last_snoc. }
  destruct (trim_of_tail_nonempty rawHash final) as [Hname _];
    [by rewrite Hsnoc, last_snoc|done|].
  unfold resolveFootnoteLinkSpec. rewrite Hraw.
  change (startsWith (js "#") (35%N :: rawHash)) with true. cbn [drop].
  change (drop 0 rawHash) with rawHash.
  assert (Hmatch : forall (A : Type) (a b : A),
             match rawHash with [] => a | _ :: _ => b end = b)
    by (intros; by destruct rawHash).
  rewrite Hmatch. rewrite Hencoded.
  set (nonEmpty := fun v : list N => negb (Nat.eqb (length v) 0)).
  set (known := fun candidate : jsstring => bool_decide (candidate ∈ existing)).
  assert (HnonEmpty : forall v, nonEmpty v = true <-> v <> []).
  { intros v. unfold nonEmpty. by destruct v. }
  match goal with
  | |- context [uniqueInOrder ?l] =>
      assert (Hfirst : l = trim rawHash
                           :: List.filter nonEmpty [trim (decode rawHash); trim encoded])
  end.
  { cbn [List.map List.filter]. by rewrite (proj2 (HnonEmpty _) Hname). }
  rewrite Hfirst. rewrite find_uniqueInOrder, head_uniqueInOrder.
  set (others := List.filter nonEmpty [trim (decode rawHash); trim encoded]).
  assert (Hothers : forall c, c ∈ trim rawHash :: others <-> c ∈ candidates /\ c <> []).
  { intros c. subst others candidates. rewrite elem_of_cons.
    rewrite list_elem_of_In, List.filter_In, HnonEmpty, <- list_elem_of_In.
    rewrite !elem_of_cons, elem_of_nil. split.
    - intros [->|[[->|[->|[]]] ?]]; auto.
    - intros [[->|[->|[->|[]]]] ?]; auto. }
  destruct (List.find known (trim rawHash :: others)) as [found|] eqn:Hfind.
  - pose proof Hfind as Hhead. cbn [List.find] in Hhead.
    apply List.find_some in Hfind as [Hin Hknown].
    apply list_elem_of_In, Hothers in Hin as [Hin Hfound].
    apply bool_decide_eq_true in Hknown.
    exists found. cbn [fmap option_fmap option_map].
    split; [done|]. split; [done|]. split; [done|]. split; [|split].
    + intros Hk. unfold known in Hhead at 1.
      rewrite bool_decide_eq_true_2 in Hhead by done. by injection Hhead.
    + intros Hnone. exfalso. by apply (Hnone found).
    + done.
  - exists (trim rawHash). cbn [fmap option_fmap option_map].
    split; [done|]. split; [done|]. split; [by left|]. split; [done|]. split; [done|].
    intros c Hc Hcne Hknown. exfalso.
    assert (Hin : c ∈ trim rawHash :: others) by (by apply Hothers).
    apply list_elem_of_In in Hin.
    pose proof (List.find_none _ _ Hfind c Hin) as Hf.
    unfold known in Hf. by apply bool_decide_eq_false in Hf.
Qed.

End LinkResolution.

(** ** Destinations registered by the overlay path *)

Lemma startsWith_prefix prefix s :
  startsWith prefix s = true <-> exists rest, s = prefix ++ rest.
Proof.
  revert s. induction prefix as [|c prefix IH]; intros s.
  - split; [by exists s|done].
  - destruct s as [|d s]; cbn [startsWith].
    + split; [done|]. by intros [rest ?].
    + rewrite andb_true_iff, IH, N.eqb_eq. split.
      * intros [-> [rest ->]]. by exists rest.
      * intros [rest [= -> ->]]. split; [done|by exists rest].
Qed.

Lemma dropWhile_app_keep p x y c :
  head y = Some c -> p c = false -> dropWhile p (x ++ y) = dropWhile p x ++ y.
Proof.
  intros Hy Hc. induction x as [|a x IH].
  - destruct y as [|b y]; [done|]. injection Hy as ->. cbn. by rewrite Hc.
  - cbn. by destruct (p a).
Qed.

Lemma dropWhileEnd_app p a b c :
  last a = Some c -> p c = false -> dropWhileEnd p (a ++ b) = a ++ dropWhileEnd p b.
Proof.
  intros Ha Hc. unfold dropWhileEnd. rewrite rev_app_distr.
  rewrite (dropWhile_app_keep p (rev b) (rev a) c); [|by rewrite <- last_of_rev, rev_involutive|done].
  by rewrite rev_app_distr, rev_involutive.
Qed.

(** Trimming does not touch a prefix that starts and ends with characters
    that are not white space. *)
Lemma trim_keeps_prefix prefix rest a c :
  head prefix = Some a -> isWhitespace a = false ->
  last prefix = Some c -> isWhitespace c = false ->
  trim (prefix ++ rest) = prefix ++ trimEnd rest.
Proof.
  intros Ha Hwa Hc Hwc. unfold trim.
  destruct prefix as [|x prefix]; [done|]. injection Ha as ->.
  change ((a :: prefix) ++ rest) with (a :: (prefix ++ rest)).
  rewrite trimStart_fixed by done.
  change (a :: (prefix ++ rest)) with ((a :: prefix) ++ rest).
  by apply (dropWhileEnd_app _ _ _ c).
Qed.

Lemma footnote_prefix_survives_trim name key :
  startsWith (js "export-footnote-") name = true ->
  getPdfNameOrNull name = Some key ->
  startsWith (js "export-footnote-") key = true.
Proof.
  intros [rest ->]%startsWith_prefix Hkey. unfold getPdfNameOrNull in Hkey.
  assert (Htrim : trim (js "export-footnote-" ++ rest)
                  = js "export-footnote-" ++ trimEnd rest)
    by (by apply (trim_keeps_prefix _ rest 101%N 45%N)).
  rewrite Htrim in Hkey.
  assert (key = js "export-footnote-" ++ trimEnd rest) as ->.
  { destruct (js "export-footnote-" ++ trimEnd rest); [done|]. by injection Hkey. }
  apply startsWith_prefix. by eexists.
Qed.

Section OverlayDestinations.

Variable toFixed2 : Q -> Q.

Local Open Scope Q_scope.

Lemma clamp_on_page (pageHeightPt yFromTop : Q) :
  let y := Qmax 0 (Qmin pageHeightPt (pageHeightPt - yFromTop)) in
  0 <= y
  /\ (0 <= pageHeightPt -> y <= pageHeightPt)
  /\ (0 <= yFromTop /\ yFromTop <= pageHeightPt -> y == pageHeightPt - yFromTop).
Proof.
  intros y. subst y. split; [apply Q.le_max_l|]. split.
  - intros Hh. apply Q.max_lub; [done|]. apply Q.le_min_l.
  - intros [H0 H1].
    rewrite (Q.min_r pageHeightPt (pageHeightPt - yFromTop)) by lra.
    apply Q.max_r. lra.
Qed.

Lemma registerOverlayDestination_origin basePages dests seen dest name d :
  (registerOverlayDestination toFixed2 basePages (dests, seen) dest).1 !! name = Some d ->
  dests !! name = Some d
  \/ (startsWith (js "export-footnote-") name = true
      /\ registeredFrom toFixed2 basePages [dest] name d).
Proof.
  unfold registerOverlayDestination.
  destruct (startsWith (js "export-footnote-") (overlayDestName dest)) eqn:Hprefix;
    cbn [negb]; [|by left].
  destruct (bool_decide _); [by left|].
  destruct (Z.ltb_spec (overlayPageNumber dest - 1) 0) as [Hneg|Hpos];
    cbn [orb]; [by left|].
  destruct (_ <=? _)%Z; [by left|].
  destruct (basePages !! Z.to_nat (overlayPageNumber dest - 1)) as [targetPage|] eqn:Hpage;
    [|by left].
  cbn [fst]. unfold setPdfNamedDestination.
  destruct (getPdfNameOrNull (overlayDestName dest)) as [key|] eqn:Hkey; [|by left].
  rewrite lookup_insert. case_decide as Hname; [|by left].
  subst key. intros [= <-]. right.
  split; [by apply (footnote_prefix_survives_trim (overlayDestName dest))|].
  destruct (clamp_on_page (pageHeight targetPage) (yFromTopPt dest)) as (Hy0 & Hy1 & Hy2).
  exists dest, targetPage, (Qmax 0 (Qmin (pageHeight targetPage)
                                   (pageHeight targetPage - yFromTopPt dest))).
  split; [by apply list_elem_of_singleton|]. split; [done|]. split; [lia|].
  split; [done|]. split; [done|]. split; [done|]. split; done.
Qed.

Lemma registeredFrom_weaken basePages coordinates coordinates' name d :
  (forall dest, dest ∈ coordinates -> dest ∈ coordinates') ->
  registeredFrom toFixed2 basePages coordinates name d ->
  registeredFrom toFixed2 basePages coordinates' name d.
Proof.
  intros Hsub (dest & targetPage & y & Hin & H). exists dest, targetPage, y.
  split; [by apply Hsub|done].
Qed.

Lemma registerOverlayDestinations_origin basePages coordinates dests seen name d :
  (fold_left (registerOverlayDestination toFixed2 basePages) coordinates
             (dests, seen)).1 !! name = Some d ->
  dests !! name = Some d
  \/ (startsWith (js "export-footnote-") name = true
      /\ registeredFrom toFixed2 basePages coordinates name d).
Proof.
  revert dests seen. induction coordinates as [|dest coordinates IH];
    intros dests seen; cbn [fold_left]; [by left|].
  destruct (registerOverlayDestination toFixed2 basePages (dests, seen) dest)
    as [dests1 seen1] eqn:Hstep.
  intros [Hold|[Hprefix Hreg]]%IH.
  - assert (Hstep1 : (registerOverlayDestination toFixed2 basePages (dests, seen) dest).1
                     !! name = Some d) by (by rewrite Hstep).
    apply registerOverlayDestination_origin in Hstep1 as [?|[Hprefix Hreg]]; [by left|].
    right. split; [done|]. eapply registeredFrom_weaken; [|exact Hreg].
    intros x ->%list_elem_of_singleton. by left.
  - right. split; [done|]. eapply registeredFrom_weaken; [|exact Hreg].
    intros x Hx. by right.
Qed.

(** X14. The overlay path writes nothing into the destination table but
    footnote destinations: an entry of the table of the result is an entry
    of the base document, or its name starts with [export-footnote-] and it
    was registered for one of the coordinates, on the page the coordinate
    names, at a height between 0 and the height of that page. *)
Theorem overlay_registers_footnote_destinations_only
    (basePdfDoc : PdfDoc) (plans : list FinalPlan) (overlayPages : list PdfPage)
    (coordinates : list OverlayDestination) (name : jsstring) (d : Destination) :
  ensurePdfDestinationsDict
    (injectFootnotesOverlayIntoPdf toFixed2 basePdfDoc plans overlayPages coordinates)
    !! name = Some d ->
  ensurePdfDestinationsDict basePdfDoc !! name = Some d
  \/ (startsWith (js "export-footnote-") name = true
      /\ registeredFrom toFixed2 (docPages basePdfDoc) coordinates name d).
Proof.
  unfold injectFootnotesOverlayIntoPdf.
  destruct plans as [|plan plans]; [by left|].
  destruct (Nat.min _ _ =? 0)%nat; [by left|].
  destruct (fold_left _ coordinates _) as [dests seen] eqn:Hfold.
  cbn [ensurePdfDestinationsDict docDests default]. intros Hd.
  assert (Hd' : (fold_left
                   (registerOverlayDestination toFixed2
                      (mergeOverlayPages overlayPages
                         (Nat.min (length (docPages basePdfDoc)) (length overlayPages))
                         (docPages basePdfDoc)))
                   coordinates (ensurePdfDestinationsDict basePdfDoc, ∅)).1
                !! name = Some d) by (by rewrite Hfold).
  apply registerOverlayDestinations_origin in Hd' as [?|[Hprefix Hreg]]; [by left|].
  right. split; [done|].
  destruct Hreg as (dest & merged & y & Hin & Hkey & Hpage & Hlook & -> & Hy0 & Hy1 & Hy2).
  (* the merged page has the size of the base page *)
  rewrite mergeOverlayPages_lookup in Hlook.
  assert (Hbase : exists basePage,
             docPages basePdfDoc !! Z.to_nat (overlayPageNumber dest - 1) = Some basePage
             /\ pageHeight merged = pageHeight basePage).
  { destruct (decide _) as [_|_]; [|by exists merged].
    destruct (overlayPages !! _) as [overlayPage|]; [|by exists merged].
    destruct (docPages basePdfDoc !! _) as [basePage|]; [|done].
    injection Hlook as <-. exists basePage. split; [done|].
    by destruct (mergeOverlayPage_spec overlayPage
                   (Z.to_nat (overlayPageNumber dest - 1)) basePage) as ((_ & ? & _) & _). }
  destruct Hbase as (basePage & Hbase & Hheight). rewrite Hheight in *.
  by exists dest, basePage, y.
Qed.

End OverlayDestinations.

(** ** The name of the PDF file *)

Lemma underscoreWhitespace_chars (P : jschar -> Prop) b s :
  P 95%N -> Forall P s ->
  Forall (fun c => P c /\ isWhitespace c = false) (underscoreWhitespace b s).
Proof.
  intros H95 Hs. revert b. induction Hs as [|c s Hc _ IH]; intros b; [constructor|].
  cbn [underscoreWhitespace]. destruct (isWhitespace c) eqn:Hw.
  - destruct b; [apply IH|]. constructor; [by split|apply IH].
  - constructor; [by split|apply IH].
Qed.

Lemma cleanFileName_chars limit s :
  Forall (fun c => isFileNameChar c = true) (cleanFileName limit s).
Proof.
  unfold cleanFileName. apply Forall_take.
  eapply Forall_impl.
  - apply (underscoreWhitespace_chars
             (fun c => isReservedFileChar c = false /\ (c =? 182)%N = false)); [done|].
    apply Forall_forall. intros c Hc.
    apply list_elem_of_In, in_map_iff in Hc as (d & <- & Hd).
    apply List.filter_In in Hd as [_ Hd]. apply negb_true_iff in Hd.
    destruct (isReservedFileChar d) eqn:Hr; [done|by split].
  - cbn. intros c [[Hr Hp] Hw]. unfold isFileNameChar. by rewrite Hr, Hw, Hp.
Qed.

Lemma underscoreWhitespace_app b x y :
  Forall (fun c => isWhitespace c = false) y ->
  underscoreWhitespace b (x ++ y) = underscoreWhitespace b x ++ y.
Proof.
  intros Hy. revert b. induction x as [|c x IH]; intros b.
  - cbn [app underscoreWhitespace]. revert b.
    induction Hy as [|c y Hc _ IH]; intros b; [done|].
    cbn. by rewrite Hc, IH.
  - cbn. destruct (isWhitespace c); [destruct b|]; by rewrite IH.
Qed.

Lemma filter_fixed (f : jschar -> bool) (l : jsstring) :
  Forall (fun c => f c = true) l -> List.filter f l = l.
Proof. induction 1 as [|c l Hc _ IH]; [done|]. cbn. by rewrite Hc, IH. Qed.

Lemma map_fixed (g : jschar -> jschar) (l : jsstring) :
  Forall (fun c => g c = c) l -> List.map g l = l.
Proof. induction 1 as [|c l Hc _ IH]; [done|]. cbn. by rewrite Hc, IH. Qed.

(** Text made of characters the cleaning lets through stays where it is at
    the end of the text. *)
Lemma cleaned_keeps_suffix limit (front suffix : list N) :
  Forall (fun c => isFileNameChar c = true) suffix ->
  exists front', cleanFileName limit (front ++ suffix) = take limit (front' ++ suffix).
Proof.
  intros Hs.
  assert (Hparts : Forall (fun c => negb (c =? 182)%N = true
                                    /\ isReservedFileChar c = false
                                    /\ isWhitespace c = false) suffix).
  { eapply Forall_impl; [exact Hs|]. cbn. intros c Hc. unfold isFileNameChar in Hc.
    apply andb_prop in Hc as [Hc H3]. apply andb_prop in Hc as [H1 H2].
    apply negb_true_iff in H1, H2. done. }
  eexists. unfold cleanFileName. f_equal.
  rewrite List.filter_app, List.map_app.
  rewrite (filter_fixed _ suffix), (map_fixed _ suffix), underscoreWhitespace_app;
    [reflexivity| | |].
  - eapply Forall_impl; [exact Hparts|]. cbn. by intros c (_ & _ & ?).
  - eapply Forall_impl; [exact Hparts|]. cbn. by intros c (_ & -> & _).
  - eapply Forall_impl; [exact Hparts|]. cbn. by intros c (? & _ & _).
Qed.

Lemma endsWithPdf_split s :
  endsWithPdf s = true ->
  exists front suffix,
    s = front ++ suffix /\ length suffix = 4%nat /\ endsWithPdf suffix = true
    /\ Forall (fun c => isFileNameChar c = true) suffix.
Proof.
  unfold endsWithPdf. intros H.
  destruct (rev s) as [|f [|d [|p [|dot tail]]]] eqn:Hrev; try discriminate.
  exists (rev tail), [dot; p; d; f].
  split.
  { rewrite <- (rev_involutive s), Hrev. cbn. by rewrite <- !app_assoc. }
  split; [done|]. split; [done|].
  apply andb_prop in H as [H Hf]. apply andb_prop in H as [H Hd].
  apply andb_prop in H as [Hdot Hp].
  apply N.eqb_eq in Hdot as ->.
  apply orb_prop in Hp, Hd, Hf.
  destruct Hp as [->%N.eqb_eq| ->%N.eqb_eq]; destruct Hd as [->%N.eqb_eq| ->%N.eqb_eq];
    destruct Hf as [->%N.eqb_eq| ->%N.eqb_eq]; by repeat constructor.
Qed.

Lemma endsWithPdf_app front suffix :
  length suffix = 4%nat -> endsWithPdf suffix = true -> endsWithPdf (front ++ suffix) = true.
Proof.
  intros Hlen H. unfold endsWithPdf in *. rewrite rev_app_distr.
  destruct suffix as [|a [|b [|c [|d [|e suffix]]]]]; try discriminate.
  cbn in *. exact H.
Qed.

(** X15. The file name [savePdf] writes the PDF to is never empty and has at
    most 160 code units, none of them white space, a pilcrow sign or one of
    the characters reserved in file names; it ends with [.pdf] (in any
    letter case) unless it was cut at 160 code units. *)
Theorem pdf_file_name_is_safe (pageTitle : jsstring) (pdfName : option jsstring) :
  let name := pdfFilenameOf pageTitle pdfName in
  name <> []
  /\ Forall (fun c => isFileNameChar c = true) name
  /\ (length name <= 160)%nat
  /\ (endsWithPdf name = true \/ length name = 160%nat).
Proof.
  assert (Htitle : let name := match cleanFileName 100 pageTitle with
                               | [] => js "page"
                               | _ :: _ => cleanFileName 100 pageTitle
                               end ++ js ".pdf" in
                   name <> []
                   /\ Forall (fun c => isFileNameChar c = true) name
                   /\ (length name <= 160)%nat
                   /\ (endsWithPdf name = true \/ length name = 160%nat)).
  { pose proof (cleanFileName_chars 100 pageTitle) as Hchars.
    assert (Hlen : (length (cleanFileName 100 pageTitle) <= 100)%nat).
    { unfold cleanFileName. rewrite length_take. lia. }
    destruct (cleanFileName 100 pageTitle) as [|c l] eqn:E.
    - cbn. split; [done|]. split; [by repeat constructor|]. split; [lia|by left].
    - cbn zeta. split; [done|]. split; [|split].
      + apply Forall_app. split; [done|by repeat constructor].
      + rewrite length_app. cbn in *. lia.
      + left. by apply endsWithPdf_app. }
  unfold pdfFilenameOf.
  destruct pdfName as [configured|]; [|exact Htitle].
  destruct (trim configured) as [|c0 l0] eqn:Htrim; [exact Htitle|].
  clear Htitle. rewrite <- Htrim. set (trimmed := trim configured).
  match goal with
  | |- context [cleanFileName 160 ?x] =>
      assert (Hsplit : exists front suffix,
                 x = front ++ suffix
                 /\ length suffix = 4%nat /\ endsWithPdf suffix = true
                 /\ Forall (fun c => isFileNameChar c = true) suffix);
      [|revert Hsplit; generalize x; intros arg Hsplit]
  end.
  { destruct (endsWithPdf trimmed) eqn:Hends.
    - by apply endsWithPdf_split.
    - exists trimmed, (js ".pdf"). split; [done|]. split; [done|]. split; [done|].
      by repeat constructor. }
  destruct Hsplit as (front & suffix & -> & Hlen & Hends & Hchars).
  cbn zeta.
  split; [|split; [apply cleanFileName_chars|split]].
  - destruct (cleaned_keeps_suffix 160 front suffix Hchars) as [front' ->].
    destruct suffix as [|a suffix]; [done|].
    destruct front' as [|x front']; done.
  - unfold cleanFileName. rewrite length_take. lia.
  - destruct (cleaned_keeps_suffix 160 front suffix Hchars) as [front' ->].
    destruct (decide (length (front' ++ suffix) <= 160)%nat) as [Hshort|Hlong].
    + left. rewrite take_ge by done. by apply endsWithPdf_app.
    + right. rewrite length_take. lia.
Qed.

(** ** Markers in the rendered PDF *)

(** X16. The pattern text [escapeRegExp] makes of a marker has no special
    character left unescaped and stands for the marker itself, character by
    character. *)
Theorem escaped_marker_is_literal (value : jsstring) :
  literalOfPattern (escapeRegExp value) = Some value.
Proof.
  unfold escapeRegExp. induction value as [|c value IH]; [done|].
  cbn [List.map concat]. destruct (isRegExpSpecial c) eqn:Hc.
  - cbn [app literalOfPattern]. change (92 =? 92)%N with true. cbn iota.
    by rewrite Hc, IH.
  - cbn [app literalOfPattern]. rewrite Hc.
    destruct (N.eqb_spec c 92) as [->|_]; [done|]. by rewrite IH.
Qed.

Lemma recordMarkers_lookup pageIndex markerPages indices index :
  recordMarkers pageIndex markerPages indices !! index
  = match markerPages !! index with
    | Some p => Some p
    | None => if bool_decide (index ∈ indices) then Some pageIndex else None
    end.
Proof.
  unfold recordMarkers. revert markerPages.
  induction indices as [|i indices IH]; intros markerPages; cbn [fold_left].
  - rewrite bool_decide_eq_false_2 by (apply not_elem_of_nil).
    by destruct (markerPages !! index).
  - rewrite IH. destruct (markerPages !! i) as [q|] eqn:Hi.
    + destruct (markerPages !! index) as [p|] eqn:Hindex; [done|].
      assert (index <> i) by congruence.
      destruct (decide (index ∈ indices)).
      * by rewrite !bool_decide_eq_true_2 by (try right; done).
      * rewrite !bool_decide_eq_false_2; [done| |done].
        by intros [?|?]%elem_of_cons.
    + destruct (decide (i = index)) as [->|Hne].
      * rewrite lookup_insert_eq, Hi. by rewrite bool_decide_eq_true_2 by left.
      * rewrite lookup_insert_ne by done.
        destruct (markerPages !! index) as [p|]; [done|].
        destruct (decide (index ∈ indices)).
        -- by rewrite !bool_decide_eq_true_2 by (try right; done).
        -- rewrite !bool_decide_eq_false_2; [done| |done].
           intros [?|?]%elem_of_cons; [congruence|done].
Qed.

Section MarkerPages.

Variable markerPrefix markerSuffix : jsstring.

Local Abbreviation firstPage := (firstPageOf markerPrefix markerSuffix).
Local Abbreviation markers := (markersOfPage markerPrefix markerSuffix).

Lemma firstPageOf_snoc done items index p :
  firstPage (done ++ [items]) index p
  <-> firstPage done index p
      \/ (p = (Z.of_nat (length done) + 1)%Z /\ index ∈ markers items
          /\ forall j earlier, done !! j = Some earlier -> index ∉ markers earlier).
Proof.
  split.
  - intros (i & its & -> & Hi & Hin & Hfirst).
    destruct (decide (i < length done)%nat) as [Hlt|Hge].
    + left. rewrite lookup_app_l in Hi by done.
      exists i, its. split; [done|]. split; [done|]. split; [done|].
      intros j earlier Hj Hearlier. apply (Hfirst j earlier Hj).
      by apply lookup_app_l_Some.
    + right. rewrite lookup_app_r in Hi by lia.
      destruct (i - length done)%nat as [|k] eqn:Hk; [|done].
      injection Hi as <-. assert (i = length done) by lia. subst i.
      split; [done|]. split; [done|].
      intros j earlier Hj. apply (Hfirst j earlier).
      * by apply lookup_lt_Some in Hj.
      * by apply lookup_app_l_Some.
  - intros [(i & its & -> & Hi & Hin & Hfirst)|(-> & Hin & Hfirst)].
    + exists i, its. split; [done|]. split; [by apply lookup_app_l_Some|].
      split; [done|]. intros j earlier Hj Hearlier.
      apply (Hfirst j earlier Hj).
      apply lookup_lt_Some in Hi. by rewrite lookup_app_l in Hearlier by lia.
    + exists (length done), items. split; [done|].
      split; [by rewrite list_lookup_middle|]. split; [done|].
      intros j earlier Hj Hearlier. apply (Hfirst j earlier).
      by rewrite lookup_app_l in Hearlier by done.
Qed.

Lemma firstPageOf_unique pages index p q :
  firstPage pages index p -> firstPage pages index q -> p = q.
Proof.
  intros (i & its & -> & Hi & Hin & Hfirst) (j & its' & -> & Hj & Hin' & Hfirst').
  destruct (Nat.lt_trichotomy i j) as [Hlt|[->|Hgt]]; [|done|].
  - by destruct (Hfirst' i its Hlt Hi).
  - by destruct (Hfirst j its' Hgt Hj).
Qed.

Lemma firstPageOf_decide pages index :
  (exists p, firstPage pages index p)
  \/ (forall j earlier, pages !! j = Some earlier -> index ∉ markers earlier).
Proof.
  induction pages as [|items pages IH] using rev_ind.
  - right. intros j earlier Hj. done.
  - destruct IH as [[p Hp]|Hnone].
    + left. exists p. apply firstPageOf_snoc. by left.
    + destruct (decide (index ∈ markers items)) as [Hin|Hout].
      * left. eexists. apply firstPageOf_snoc. right. by split.
      * right. intros j earlier Hj.
        destruct (decide (j < length pages)%nat) as [Hlt|Hge].
        -- rewrite lookup_app_l in Hj by done. by apply (Hnone j).
        -- rewrite lookup_app_r in Hj by lia.
           destruct (j - length pages)%nat; [|done]. by injection Hj as <-.
Qed.

Lemma extract_fold pages done m :
  (forall index p, m !! index = Some p <-> firstPage done index p) ->
  forall index p,
    (fold_left
       (fun acc items =>
          (recordMarkers (snd acc) (fst acc) (markers items), (snd acc + 1)%Z))
       pages (m, (Z.of_nat (length done) + 1)%Z)).1 !! index = Some p
    <-> firstPage (done ++ pages) index p.
Proof.
  revert done m. induction pages as [|items pages IH]; intros done m Hm index p.
  - cbn. by rewrite app_nil_r.
  - cbn [fold_left fst snd].
    replace (done ++ items :: pages) with ((done ++ [items]) ++ pages)
      by (by rewrite <- app_assoc).
    replace (Z.of_nat (length done) + 1 + 1)%Z
      with (Z.of_nat (length (done ++ [items])) + 1)%Z
      by (rewrite length_app; cbn; lia).
    apply IH. clear index p. intros index p.
    rewrite recordMarkers_lookup, firstPageOf_snoc.
    destruct (m !! index) as [q|] eqn:Hq.
    + apply Hm in Hq. split.
      * intros [= <-]. by left.
      * intros [Hp|(_ & _ & Hfirst)].
        -- f_equal. by apply (firstPageOf_unique done index).
        -- destruct Hq as (i & its & _ & Hi & Hin & _). by destruct (Hfirst i its Hi).
    + case_bool_decide as Hin.
      * split.
        -- intros [= <-]. right. split; [done|]. split; [done|].
           intros j earlier Hj Hearlier.
           (* a marker of an earlier page would have been recorded *)
           destruct (firstPageOf_decide done index) as [[q Hfirst]|Hnone].
           ++ apply Hm in Hfirst. congruence.
           ++ by apply (Hnone j earlier).
        -- intros [Hp|(-> & _)]; [|done]. apply Hm in Hp. congruence.
      * split; [done|]. intros [Hp|(_ & ? & _)]; [|done]. apply Hm in Hp. congruence.
Qed.

Lemma extract_first_page (pageItems : list (list jsstring)) (index p : Z) :
  (extractMarkerPagesFromPdf markerPrefix markerSuffix pageItems).1 !! index = Some p
  <-> firstPage pageItems index p.
Proof.
  unfold extractMarkerPagesFromPdf. cbn [fst].
  apply (extract_fold pageItems [] ∅). clear. intros i q. rewrite lookup_empty.
  split; [done|]. by intros (j & its & _ & Hj & _).
Qed.

Lemma extract_no_page (pageItems : list (list jsstring)) (index : Z) :
  (extractMarkerPagesFromPdf markerPrefix markerSuffix pageItems).1 !! index = None
  <-> forall i items, pageItems !! i = Some items -> index ∉ markers items.
Proof.
  split.
  - intros Hnone. destruct (firstPageOf_decide pageItems index) as [[p Hp]|Hno]; [|done].
    apply extract_first_page in Hp. congruence.
  - intros Hno.
    destruct (_ !! index) as [p|] eqn:Hp; [|done].
    apply extract_first_page in Hp as (i & items & _ & Hi & Hin & _).
    by destruct (Hno i items Hi).
Qed.

Lemma extract_markerPage (pageItems : list (list jsstring)) (index : Z) :
  markerPage (extractMarkerPagesFromPdf markerPrefix markerSuffix pageItems).1 index
  = (extractMarkerPagesFromPdf markerPrefix markerSuffix pageItems).1 !! index.
Proof.
  unfold markerPage.
  destruct (_ !! index) as [q|] eqn:Hq; [|done].
  apply extract_first_page in Hq as (j & its & -> & _).
  destruct (Z.eqb_spec (Z.of_nat j + 1) 0); [lia|done].
Qed.

(** X17. [extractMarkerPagesFromPdf] maps a marker number to the first page
    on which the marker is found, and to nothing when no page has it. The
    page is between 1 and the page count, so the plan builder and the offset
    votes, which skip a page that is 0, never skip a marker that was
    found. *)
Theorem markers_resolve_to_first_page (pageItems : list (list jsstring))
    (index p : Z) :
  let result := extractMarkerPagesFromPdf markerPrefix markerSuffix pageItems in
  (result.1 !! index = Some p <-> firstPage pageItems index p)
  /\ (result.1 !! index = Some p -> (1 <= p <= result.2)%Z)
  /\ markerPage result.1 index = result.1 !! index
  /\ truthyPage result.1 index = result.1 !! index.
Proof.
  intros result.
  assert (Hrange : forall i q, result.1 !! i = Some q -> (1 <= q <= result.2)%Z).
  { intros i q (j & its & -> & Hj & _)%extract_first_page. apply lookup_lt_Some in Hj.
    subst result. cbn [snd extractMarkerPagesFromPdf]. lia. }
  split; [apply extract_first_page|]. split; [apply Hrange|].
  split; [apply extract_markerPage|].
  unfold truthyPage.
  destruct (result.1 !! index) as [q|] eqn:Hq; [|done].
  pose proof (Hrange index q Hq) as Hr.
  destruct (Z.eqb_spec q 0); [lia|done].
Qed.

End MarkerPages.

(** ** Lines without spaces at their ends *)

Lemma popSpaces_head reversed w f :
  head (popSpaces reversed w).1 = Some f -> isSpace f = false.
Proof.
  revert w. induction reversed as [|x reversed IH]; intros w; [done|].
  cbn [popSpaces]. destruct (isSpace x) eqn:Hx; [apply IH|].
  cbn. by intros [= <-].
Qed.

Lemma head_of_prefix {A} (a b : list A) x : head a = Some x -> head (a ++ b) = Some x.
Proof. by destruct a. Qed.

Section TrimmedLines.

Variable widthOfText : jsstring -> Q.
Variable maxWidthPt : Q.
Hypothesis budget_positive : (0 < maxWidthPt)%Q.

Local Abbreviation LayoutInv := (LayoutInv widthOfText maxWidthPt).
Local Abbreviation append := (appendFragment widthOfText).

Local Arguments appendFragment : simpl never.
Local Arguments commitLine : simpl never.
Local Arguments trimTrailingSpaces : simpl never.
Local Arguments splitWordByWidth : simpl never.

Lemma trimTrailingSpaces_trimmed st :
  TrimInv st ->
  lines (trimTrailingSpaces st) = lines st
  /\ lineTrimmed (currentLine (trimTrailingSpaces st)).
Proof.
  intros [Hlines Hhead Htexts]. unfold trimTrailingSpaces.
  pose proof (popSpaces_head (rev (currentLine st)) (currentWidth st)) as Hlast.
  destruct (popSpaces_spec (rev (currentLine st)) (currentWidth st))
    as (dropped & Hsplit & _ & _).
  destruct (popSpaces (rev (currentLine st)) (currentWidth st)) as [reversed w].
  cbn [fst snd lines currentLine] in *. split; [done|].
  assert (Hline : currentLine st = rev reversed ++ rev dropped).
  { rewrite <- (rev_involutive (currentLine st)), Hsplit. by rewrite rev_app_distr. }
  split; [|split].
  - intros f Hf. apply Hhead. rewrite Hline. by apply head_of_prefix.
  - intros f Hf. apply Hlast. by rewrite <- last_of_rev.
  - rewrite Hline in Htexts. by apply Forall_app in Htexts as [? _].
Qed.

Lemma commitLine_trimmed allowEmpty st :
  TrimInv st -> TrimInv (commitLine allowEmpty st).
Proof.
  intros Hinv. destruct (trimTrailingSpaces_trimmed st Hinv) as [Hlines Hline].
  unfold commitLine. split; cbn [lines currentLine].
  - destruct (_ || _); rewrite Hlines; [|apply (trim_lines _ Hinv)].
    apply Forall_app. split; [apply (trim_lines _ Hinv)|by apply Forall_singleton].
  - done.
  - constructor.
Qed.

Lemma appendFragment_trimmed t h space st :
  TrimInv st -> (space = true -> currentLine st <> []) ->
  TrimInv (append t h space st).
Proof.
  intros [Hlines Hhead Htexts] Hspace. unfold appendFragment.
  destruct t as [|c t]; [done|].
  destruct (Qle_bool _ 0); [done|].
  assert (Hpushed : TrimInv
            {| lines := lines st;
               currentLine := currentLine st ++
                 [ {| fragText := c :: t; fragHref := hrefOrNull h;
                      width := widthOfText (c :: t); isSpace := space |} ];
               currentWidth := (currentWidth st + widthOfText (c :: t))%Q |}).
  { split; cbn [lines currentLine].
    - done.
    - destruct (currentLine st) as [|f0 l0] eqn:Hline.
      + cbn. intros f [= <-]. cbn. destruct space; [|done]. by destruct Hspace.
      + cbn. intros f [= <-]. by apply Hhead.
    - apply Forall_app. split; [done|]. by apply Forall_singleton. }
  destruct (last (currentLine st)) as [l|] eqn:Hlast; [|exact Hpushed].
  destruct (_ && _); [|exact Hpushed].
  destruct (nonempty_snoc (currentLine st)) as (front & x & Hsnoc).
  { intros Hnil. by rewrite Hnil in Hlast. }
  rewrite Hsnoc in *. rewrite last_snoc in Hlast. injection Hlast as ->.
  rewrite length_app. cbn [length].
  rewrite alter_app_r_alt by lia.
  replace (length front + 1 - 1 - length front)%nat with 0%nat by lia.
  cbn [alter list_alter].
  apply Forall_app in Htexts as [Hfront Hl]. rewrite Forall_singleton in Hl.
  split; cbn [lines currentLine].
  - done.
  - destruct front as [|f0 front].
    + cbn. intros f [= <-]. cbn. apply Hhead. done.
    + cbn. intros f [= <-]. by apply Hhead.
  - apply Forall_app. split; [done|]. apply Forall_singleton. cbn.
    by destruct (fragText l).
Qed.

Lemma placeChunks_trimmed h chunks st :
  TrimInv st -> TrimInv (placeChunks widthOfText maxWidthPt h chunks st).
Proof.
  revert st. induction chunks as [|chunk rest IH]; intros st Hinv; [done|].
  cbn [placeChunks]. apply IH.
  assert (Hfirst : TrimInv
            (if Qgtb (currentWidth st) 0
                && Qgtb (currentWidth st + widthOfText chunk) maxWidthPt
             then commitLine false st else st)).
  { destruct (_ && _); [by apply commitLine_trimmed|done]. }
  assert (Hsecond : TrimInv
            (append chunk h false
               (if Qgtb (currentWidth st) 0
                   && Qgtb (currentWidth st + widthOfText chunk) maxWidthPt
                then commitLine false st else st))).
  { by apply appendFragment_trimmed. }
  destruct rest; [done|]. by apply commitLine_trimmed.
Qed.

Lemma layoutToken_trimmed h st token :
  LayoutInv st -> TrimInv st ->
  TrimInv (layoutToken widthOfText maxWidthPt h st token).
Proof.
  intros Hlay Hinv. unfold layoutToken.
  destruct token as [t| |].
  - cbn [tokenText]. destruct t as [|c t]; [done|].
    cbn [andb negb].
    destruct (Qgtb (widthOfText (c :: t)) maxWidthPt).
    + by apply placeChunks_trimmed.
    + destruct (_ && _).
      * apply appendFragment_trimmed; [by apply commitLine_trimmed|done].
      * by apply appendFragment_trimmed.
  - cbn [tokenText andb negb].
    destruct (Qle_bool (currentWidth st) 0) eqn:Hwidth; [done|].
    apply Qle_bool_false in Hwidth.
    assert (Hline : currentLine st <> []).
    { intros Hnil. pose proof (empty_line_width _ _ st Hlay Hnil) as H0.
      rewrite H0 in Hwidth. by apply Qlt_irrefl in Hwidth. }
    destruct (_ && _).
    + by apply commitLine_trimmed.
    + by apply appendFragment_trimmed.
  - by apply commitLine_trimmed.
Qed.

Lemma layoutTokens_trimmed h tokens st :
  LayoutInv st -> TrimInv st ->
  LayoutInv (fold_left (layoutToken widthOfText maxWidthPt h) tokens st)
  /\ TrimInv (fold_left (layoutToken widthOfText maxWidthPt h) tokens st).
Proof.
  revert st. induction tokens as [|token tokens IH]; intros st Hlay Hinv; [done|].
  cbn [fold_left]. apply IH.
  - by apply layoutToken_inv.
  - by apply layoutToken_trimmed.
Qed.

Lemma layoutSegments_trimmed segs st :
  LayoutInv st -> TrimInv st ->
  TrimInv (fold_left (layoutSegment widthOfText maxWidthPt) segs st).
Proof.
  revert st. induction segs as [|segment segs IH]; intros st Hlay Hinv; [done|].
  cbn [fold_left].
  destruct (layoutTokens_trimmed (href segment) (tokenizeFootnoteText (text segment))
              st Hlay Hinv) as [Hlay' Hinv'].
  by apply IH.
Qed.

(** X18. For a positive width budget, [layoutFootnoteSegments] returns at
    least one line, no line starts or ends with a space fragment, and no
    fragment has an empty text. *)
Theorem lines_have_no_space_at_their_ends (segs : list Segment) :
  let ls := layoutFootnoteSegments widthOfText maxWidthPt segs in
  ls <> [] /\ Forall lineTrimmed ls.
Proof.
  unfold layoutFootnoteSegments.
  set (start := {| lines := []; currentLine := []; currentWidth := 0 |}).
  assert (Hlay : LayoutInv start).
  { split; cbn; [constructor|constructor|reflexivity|].
    left. cbn. by apply Qlt_le_weak. }
  assert (Hinv : TrimInv start) by (split; cbn; [constructor|done|constructor]).
  pose proof (layoutSegments_trimmed segs start Hlay Hinv) as Hfinal.
  destruct (trimTrailingSpaces_trimmed _ Hfinal) as [Hlines Hline].
  set (final := trimTrailingSpaces _) in *.
  assert (Hall : Forall lineTrimmed
                   match currentLine final with
                   | [] => lines final
                   | _ :: _ => lines final ++ [currentLine final]
                   end).
  { rewrite Hlines. destruct (currentLine final) eqn:Hcurrent.
    - apply (trim_lines _ Hfinal).
    - apply Forall_app. split; [apply (trim_lines _ Hfinal)|by apply Forall_singleton]. }
  cbn zeta.
  destruct (match currentLine final with
            | [] => lines final
            | _ :: _ => lines final ++ [currentLine final]
            end) as [|l ls] eqn:Hls.
  - split; [done|]. apply Forall_singleton. split; [done|]. split; [done|constructor].
  - split; [done|exact Hall].
Qed.

End TrimmedLines.

(** ** A clear winner of the page-offset vote *)

Lemma strict_winner_chosen initial deltas d chosen :
  firstMostFrequent initial deltas chosen ->
  (forall d', d' <> d -> (occurrences d' deltas < occurrences d deltas)%Z) ->
  chosen = d.
Proof.
  intros [Hempty Hbest] Hwinner.
  destruct (decide (chosen = d)) as [|Hne]; [done|]. exfalso.
  destruct deltas as [|x deltas].
  - pose proof (Hwinner chosen Hne) as H. unfold occurrences in H. cbn in H. lia.
  - destruct (Hbest ltac:(done)) as [Hmax _].
    pose proof (Hwinner chosen Hne). pose proof (Hmax d). lia.
Qed.

Lemma fold_tallyRefs contentPages probePages (refs : list FootnoteRef) counts :
  fold_left
    (fun counts ref =>
       match refIndex ref with
       | Some index => tallyAnchor contentPages probePages counts index
       | None => counts
       end) refs counts
  = fold_left (tallyAnchor contentPages probePages) (omap refIndex refs) counts.
Proof.
  revert counts. induction refs as [|r refs IH]; intros counts; [done|].
  cbn [fold_left omap list_omap]. rewrite IH. by destruct (refIndex r).
Qed.

(** X19. When one delta occurs more often than every other among the
    anchors resolved in both renders, each vote selects it: the
    table-of-contents vote whatever the front-matter page count, the
    footnote vote whatever the first vote computed. *)
Theorem clear_winner_is_selected
    (tocPageCount computedOffset : Z) (tocIndices : list Z)
    (footnoteRefs : list FootnoteRef)
    (markerPages probeMarkerPages : gmap Z Z)
    (latestContentFootnoteMarkerPages probeFootnoteMarkerPages : gmap Z Z)
    (tocDelta footnoteDelta : Z) :
  (forall d, d <> tocDelta ->
     (occurrences d (anchorDeltas markerPages probeMarkerPages tocIndices)
      < occurrences tocDelta (anchorDeltas markerPages probeMarkerPages tocIndices))%Z) ->
  (forall d, d <> footnoteDelta ->
     (occurrences d
        (anchorDeltas latestContentFootnoteMarkerPages probeFootnoteMarkerPages
           (omap refIndex footnoteRefs))
      < occurrences footnoteDelta
          (anchorDeltas latestContentFootnoteMarkerPages probeFootnoteMarkerPages
             (omap refIndex footnoteRefs)))%Z) ->
  computeTocOffset tocPageCount tocIndices markerPages probeMarkerPages = tocDelta
  /\ computeFootnoteOffset computedOffset footnoteRefs
       latestContentFootnoteMarkerPages probeFootnoteMarkerPages = footnoteDelta.
Proof.
  intros Htoc Hfootnote. split.
  - unfold computeTocOffset. rewrite fold_tallyAnchor.
    eapply strict_winner_chosen; [apply pickOffset_firstMostFrequent|exact Htoc].
  - unfold computeFootnoteOffset. rewrite fold_tallyRefs, fold_tallyAnchor.
    eapply strict_winner_chosen; [apply pickOffset_firstMostFrequent|exact Hfootnote].
Qed.

(** ** Height of the footnotes of a page *)

Section PageHeight.

Variable widthOfText : jsstring -> Q.
Variable maxWidthPt : Q.

Local Open Scope Q_scope.

Lemma total_height_fold (gap : Q) (n : nat) (rest : list ItemLayout) (total : Q)
    (index : nat) :
  (fold_left
     (fun acc il =>
        let '(total, index) := acc in
        let total := total + heightPt il in
        let total := if (index <? n - 1)%nat then total + gap else total in
        (total, S index))
     rest (total, index)).1
  == total + sumQ (heightPt <$> rest)
     + inject_Z (Z.of_nat (Nat.min (index + length rest) (n - 1)
                           - Nat.min index (n - 1))) * gap.
Proof.
  revert total index. induction rest as [|il rest IH]; intros total index.
  - cbn [fold_left fst length fmap list_fmap sumQ fold_right].
    replace (Nat.min (index + 0) (n - 1) - Nat.min index (n - 1))%nat with 0%nat by lia.
    cbn. ring.
  - cbn [fold_left]. rewrite IH. cbn [length fmap list_fmap sumQ fold_right].
    destruct (Nat.ltb_spec index (n - 1)) as [Hlt|Hge].
    + replace (Nat.min (index + S (length rest)) (n - 1) - Nat.min index (n - 1))%nat
        with (S (Nat.min (S index + length rest) (n - 1) - Nat.min (S index) (n - 1)))
        by lia.
      rewrite Nat2Z.inj_succ. unfold Z.succ. rewrite inject_Z_plus.
      fold (sumQ (heightPt <$> rest)). change (inject_Z 1) with 1. ring.
    + replace (Nat.min (index + S (length rest)) (n - 1) - Nat.min index (n - 1))%nat
        with (Nat.min (S index + length rest) (n - 1) - Nat.min (S index) (n - 1))%nat
        by lia.
      fold (sumQ (heightPt <$> rest)). ring.
Qed.

(** X20. [layoutFootnotesForPage] lays out every item, in order; each item
    takes at least one line and its height is the number of its lines times
    the line height; the total height is the sum of the item heights plus one
    gap between each two neighbouring items. *)
Theorem page_height_is_items_plus_gaps (its : list PlanItem) (lineHeightPt itemGapPt : Q) :
  let result := layoutFootnotesForPage widthOfText maxWidthPt its lineHeightPt itemGapPt in
  layoutItem <$> result.1 = its
  /\ Forall (fun il => layoutLines il <> []
                       /\ heightPt il
                          = inject_Z (Z.of_nat (length (layoutLines il))) * lineHeightPt)
            result.1
  /\ result.2 == sumQ (heightPt <$> result.1)
                 + inject_Z (Z.of_nat (length its - 1)) * itemGapPt.
Proof.
  unfold layoutFootnotesForPage. cbn zeta. cbn [fst snd].
  match goal with
  | |- context [fold_left _ ?l _] => set (itemLayouts := l)
  end.
  assert (Hlen : length itemLayouts = length its).
  { subst itemLayouts. apply length_map. }
  split; [|split].
  - subst itemLayouts. clear. induction its as [|item its IH]; [done|].
    cbn [List.map]. rewrite fmap_cons. cbn [layoutItem]. by rewrite IH.
  - subst itemLayouts. apply Forall_forall. intros il Hil.
    apply list_elem_of_In, in_map_iff in Hil as (item & <- & _). cbn.
    split; [|done].
    unfold layoutFootnoteSegments. cbn zeta.
    by destruct (match currentLine _ with [] => _ | _ :: _ => _ end).
  - rewrite (total_height_fold itemGapPt (length itemLayouts) itemLayouts 0 0%nat).
    rewrite Hlen. cbn [plus].
    replace (Nat.min (length its) (length its - 1) - Nat.min 0 (length its - 1))%nat
      with (length its - 1)%nat by lia.
    ring.
Qed.

End PageHeight.

(** ** From the rendered PDF to the plan *)

Section FromPdfToPlan.

Variable markerPrefix markerSuffix : jsstring.
Variable toLowerCase : jsstring -> jsstring.
Variable definitionsById : gmap jsstring (list Segment).

(** X21. With the marker pages read from the content PDF, a reference is
    reported as unresolved exactly when its marker is on no page, and every
    rewrite belongs to a page plan for the first page that shows the marker
    of its reference. *)
Theorem only_missing_markers_are_unresolved (pageItems : list (list jsstring))
    (refs : list FootnoteRef) :
  let markerPages :=
    (extractMarkerPagesFromPdf markerPrefix markerSuffix pageItems).1 in
  let plan := buildFootnotePagePlan toLowerCase markerPages definitionsById refs in
  (forall index,
     index ∈ planUnresolvedRefs plan
     <-> (exists r, r ∈ refs /\ refIndex r = Some index)
         /\ forall i items, pageItems !! i = Some items ->
              index ∉ markersOfPage markerPrefix markerSuffix items)
  /\ (forall u, u ∈ planRefUpdates plan ->
        exists pp, pp ∈ planPages plan
                   /\ firstPageOf markerPrefix markerSuffix pageItems
                        (updRefIndex u) (page pp)).
Proof.
  intros markerPages plan. split.
  - intros index. subst plan. cbn [planUnresolvedRefs buildFootnotePagePlan].
    rewrite unresolved_run. unfold unresolvedIndices. rewrite list_elem_of_omap.
    split.
    + intros (r & Hr & Hindex). destruct (refIndex r) as [i|] eqn:Hi; [|done].
      subst markerPages. rewrite extract_markerPage in Hindex.
      destruct (_ !! i) eqn:Hlook; [done|]. injection Hindex as ->.
      split; [by exists r|]. by apply extract_no_page.
    + intros ((r & Hr & Hindex) & Hnone). exists r. split; [done|].
      rewrite Hindex. subst markerPages. rewrite extract_markerPage.
      apply extract_no_page in Hnone. by rewrite Hnone.
  - intros u Hu. subst plan. cbn [planRefUpdates buildFootnotePagePlan] in Hu.
    destruct (links_updates _ _
                (LinksInv_run toLowerCase markerPages definitionsById refs) u Hu)
      as (_ & p & e & it & Hp & He & _).
    exists (pagePlanOf e). split; [apply elem_of_orderedPages; by exists p, e|].
    destruct (st_entry _ _ _ _
                (StateInv_run toLowerCase markerPages definitionsById refs) _ _ He)
      as (Hpage & _).
    cbn [page pagePlanOf]. rewrite Hpage.
    subst markerPages. rewrite extract_markerPage in Hp.
    by apply extract_first_page.
Qed.

End FromPdfToPlan.

(** ** The properties at concrete inputs *)

Lemma escaping_is_injective_witness : js "R&D <b>" = [82; 38; 68; 32; 60; 98; 62]%N.
Proof.
  apply (escaping_is_injective (js "R&D <b>") [82; 38; 68; 32; 60; 98; 62]%N).
  left. vm_compute. reflexivity.
Defined.

Lemma clone_of_normalized_is_identity_witness :
  cloneFootnoteSegments sampleSegments = sampleSegments.
Proof.
  apply clone_of_normalized_is_identity.
  split; [|split; [|split]].
  - repeat constructor; discriminate.
  - intros i a b Ha Hb. destruct i as [|[|i]]; [|done|done].
    cbn in Ha, Hb. injection Ha as <-. injection Hb as <-. discriminate.
  - intros s Hs. cbn in Hs. injection Hs as <-. vm_compute. reflexivity.
  - intros s Hs. cbn in Hs. injection Hs as <-. vm_compute. reflexivity.
Defined.

(** The rewrite of the second reference of [sampleRefs] leads to the first
    item of page 3. *)
Lemma rewrites_point_at_items_witness :
  let u := {| updRefIndex := 1; newNumber := 2; newLabel := js "2";
              updDestName := js "export-footnote-1-fn1" |} in
  exists pp item,
    pp ∈ planPages samplePlan
    /\ markerPage sampleMarkerPages (updRefIndex u) = Some (page pp)
    /\ item ∈ planItems pp
    /\ newNumber u ∈ planNumbers item
    /\ planDestName item = updDestName u.
Proof.
  intros u.
  apply (proj2 (rewrites_point_at_items asciiToLowerCase sampleMarkerPages
                  sampleDefinitions sampleRefs u
                  ltac:(vm_compute; right; left))).
Defined.

Lemma destination_names_are_distinct_witness :
  samplePagePlan = samplePagePlan /\ 0%nat = 0%nat.
Proof.
  apply (destination_names_are_distinct asciiToLowerCase sampleMarkerPages
           sampleDefinitions sampleRefs samplePagePlan samplePagePlan 0 0
           sampleMergedItem sampleMergedItem).
  - vm_compute. left.
  - vm_compute. reflexivity.
  - vm_compute. left.
  - vm_compute. reflexivity.
  - reflexivity.
Defined.

Lemma items_hold_runs_of_numbers_witness :
  exists first count,
    (1 <= first)%Z /\ (1 <= count)%Z
    /\ planNumbers sampleMergedItem = seqZ first count
    /\ planNumber sampleMergedItem = first
    /\ planNumberLabel sampleMergedItem
       = join (js ", ") (stringOfNumber <$> seqZ first count).
Proof.
  apply (items_hold_runs_of_numbers asciiToLowerCase sampleMarkerPages
           sampleDefinitions sampleRefs samplePagePlan sampleMergedItem).
  - vm_compute. left.
  - vm_compute. left.
Defined.

(** The first item of the sample plan holds two numbers and is shown as
    [1, 2]; the second holds one and is shown as [3.] *)
Lemma display_label_of_plan_items_witness :
  getFootnoteDisplayLabel sampleMergedItem
  = if (length (planNumbers sampleMergedItem) =? 1)%nat
    then stringOfNumber (planNumber sampleMergedItem) ++ js "."
    else planNumberLabel sampleMergedItem.
Proof.
  apply (display_label_of_plan_items asciiToLowerCase sampleMarkerPages
           sampleDefinitions sampleRefs samplePagePlan sampleMergedItem).
  - vm_compute. left.
  - vm_compute. left.
Defined.

Lemma sanitize_keeps_safe_tokens_witness :
  sanitizeFootnoteToken asciiToLowerCase (js "fn-12_a") (js "fn-1") = js "fn-12_a".
Proof.
  apply (sanitize_keeps_safe_tokens asciiToLowerCase (js "fn-12_a") (js "fn-1")
           102%N 97%N).
  - repeat constructor.
  - vm_compute. lia.
  - reflexivity.
  - reflexivity.
  - reflexivity.
  - reflexivity.
  - reflexivity.
Defined.

Lemma scheme_and_root_hrefs_are_external_witness :
  resolveFootnoteLinkSpec (fun s => Some s) (fun s => Some s)
    (js " https://example.org/a ") ∅
  = Returned (Some (ExternalLink (trim (js " https://example.org/a ")))).
Proof.
  apply scheme_and_root_hrefs_are_external. left. vm_compute. reflexivity.
Defined.

(** [#note-1] with [note-1] a known destination. *)
Lemma hash_href_prefers_known_destination_witness :
  exists d,
    resolveFootnoteLinkSpec (fun s => Some s) (fun s => Some s) (js "#note-1")
      {[ js "note-1" ]}
    = Returned (Some (InternalLink d))
    /\ d <> [].
Proof.
  destruct (hash_href_prefers_known_destination (fun s => Some s) (fun s => Some s)
              (js "#note-1") (js "note-1") (js "note-1") {[ js "note-1" ]}
              eq_refl ltac:(discriminate) eq_refl)
    as (d & Hd & Hne & _).
  exists d. by split.
Defined.

(** The overlay path on [sampleBase]: the entry of the footnote is the one
    the coordinate gives, 82 points above the bottom of the second page. *)
Lemma overlay_registers_footnote_destinations_only_witness :
  let d := {| destPageRef := 1%nat; destX := 28; destY := 82 |} in
  ensurePdfDestinationsDict sampleBase !! js "export-footnote-1-fn1" = Some d
  \/ (startsWith (js "export-footnote-") (js "export-footnote-1-fn1") = true
      /\ registeredFrom (fun q => q) (docPages sampleBase) sampleCoordinates
           (js "export-footnote-1-fn1") d).
Proof.
  intros d.
  apply (overlay_registers_footnote_destinations_only (fun q => q) sampleBase
           samplePlans [blankPage; blankPage] sampleCoordinates).
  vm_compute. reflexivity.
Defined.

Lemma lines_have_no_space_at_their_ends_witness :
  Forall lineTrimmed
    (layoutFootnoteSegments glyphCount 5
       [ {| text := js " ab  cd efghijklmnop q "; href := None |} ]).
Proof.
  assert (Hbudget : (0 < 5)%Q) by (vm_compute; reflexivity).
  exact (proj2 (lines_have_no_space_at_their_ends glyphCount 5 Hbudget
                  [ {| text := js " ab  cd efghijklmnop q "; href := None |} ])).
Defined.

(** Deltas +2 five times and +3 once: both votes select +2. *)
Lemma clear_winner_is_selected_witness :
  let markerPages : gmap Z Z :=
    {[ 0%Z := 1%Z; 1%Z := 1%Z; 2%Z := 2%Z; 3%Z := 2%Z; 4%Z := 3%Z; 5%Z := 3%Z ]} in
  let probeMarkerPages : gmap Z Z :=
    {[ 0%Z := 3%Z; 1%Z := 3%Z; 2%Z := 5%Z; 3%Z := 4%Z; 4%Z := 5%Z; 5%Z := 5%Z ]} in
  computeTocOffset 7 [0%Z; 1%Z; 2%Z; 3%Z; 4%Z; 5%Z] markerPages probeMarkerPages = 2%Z
  /\ computeFootnoteOffset 7
       (List.map (fun i => {| refIndex := Some i; refTargetId := js "fn" |})
          [0%Z; 1%Z; 2%Z; 3%Z; 4%Z; 5%Z])
       markerPages probeMarkerPages = 2%Z.
Proof.
  intros markerPages probeMarkerPages.
  assert (Hwinner : forall d, d <> 2%Z ->
            (occurrences d [2; 2; 3; 2; 2; 2] < occurrences 2 [2; 2; 3; 2; 2; 2])%Z).
  { intros d Hd. destruct (decide (d = 3%Z)) as [->|H3]; [vm_compute; reflexivity|].
    assert (E2 : (2 =? d)%Z = false) by (apply Z.eqb_neq; congruence).
    assert (E3 : (3 =? d)%Z = false) by (apply Z.eqb_neq; congruence).
    unfold occurrences. cbn [List.filter]. rewrite E2, E3.
    vm_compute. reflexivity. }
  apply (clear_winner_is_selected 7 7 [0%Z; 1%Z; 2%Z; 3%Z; 4%Z; 5%Z]
           (List.map (fun i => {| refIndex := Some i; refTargetId := js "fn" |})
              [0%Z; 1%Z; 2%Z; 3%Z; 4%Z; 5%Z])
           markerPages probeMarkerPages markerPages probeMarkerPages 2 2).
  - exact Hwinner.
  - exact Hwinner.
Defined.

(** ** Where the links of the fragments come from *)

Section FragmentHrefs.

Variable widthOfText : jsstring -> Q.
Variable maxWidthPt : Q.
Variable allowed : option jsstring -> Prop.

Local Abbreviation HrefInv := (HrefInv allowed).
Local Abbreviation append := (appendFragment widthOfText).

Local Arguments appendFragment : simpl never.
Local Arguments commitLine : simpl never.
Local Arguments trimTrailingSpaces : simpl never.
Local Arguments splitWordByWidth : simpl never.

Lemma trimTrailingSpaces_hrefs st : HrefInv st -> HrefInv (trimTrailingSpaces st).
Proof.
  intros [Hlines Hcurrent]. unfold trimTrailingSpaces.
  destruct (popSpaces_spec (rev (currentLine st)) (currentWidth st))
    as (dropped & Hsplit & _ & _).
  destruct (popSpaces (rev (currentLine st)) (currentWidth st)) as [reversed w].
  cbn [fst snd] in *. split; cbn [lines currentLine]; [done|].
  apply Forall_rev. apply Forall_rev in Hcurrent. rewrite Hsplit in Hcurrent.
  by apply Forall_app in Hcurrent as [_ ?].
Qed.

Lemma commitLine_hrefs allowEmpty st : HrefInv st -> HrefInv (commitLine allowEmpty st).
Proof.
  intros Hinv. destruct (trimTrailingSpaces_hrefs st Hinv) as [Hlines Hcurrent].
  unfold commitLine. split; cbn [lines currentLine]; [|constructor].
  destruct (_ || _); [|done].
  apply Forall_app. split; [done|by apply Forall_singleton].
Qed.

Lemma appendFragment_hrefs t h space st :
  allowed (hrefOrNull h) -> HrefInv st -> HrefInv (append t h space st).
Proof.
  intros Hh [Hlines Hcurrent]. unfold appendFragment.
  destruct t as [|c t]; [done|].
  destruct (Qle_bool _ 0); [done|].
  assert (Hpushed : HrefInv
            {| lines := lines st;
               currentLine := currentLine st ++
                 [ {| fragText := c :: t; fragHref := hrefOrNull h;
                      width := widthOfText (c :: t); isSpace := space |} ];
               currentWidth := (currentWidth st + widthOfText (c :: t))%Q |}).
  { split; cbn [lines currentLine]; [done|].
    apply Forall_app. split; [done|]. by apply Forall_singleton. }
  destruct (last (currentLine st)) as [l|]; [|exact Hpushed].
  destruct (_ && _); [|exact Hpushed].
  split; cbn [lines currentLine]; [done|].
  apply Forall_forall. intros f Hf.
  apply list_elem_of_lookup in Hf as [i Hi].
  rewrite Forall_forall in Hcurrent.
  destruct (decide (i = length (currentLine st) - 1)%nat) as [->|Hne].
  - rewrite list_lookup_alter_eq in Hi.
    destruct (currentLine st !! _) as [x|] eqn:Hx; [|done].
    injection Hi as <-. cbn. apply Hcurrent. by eapply list_elem_of_lookup_2.
  - rewrite list_lookup_alter_ne in Hi by done.
    apply Hcurrent. by eapply list_elem_of_lookup_2.
Qed.

Lemma placeChunks_hrefs h chunks st :
  allowed (hrefOrNull h) -> HrefInv st ->
  HrefInv (placeChunks widthOfText maxWidthPt h chunks st).
Proof.
  intros Hh. revert st. induction chunks as [|chunk rest IH]; intros st Hinv; [done|].
  cbn [placeChunks]. apply IH.
  assert (Hsecond : HrefInv
            (append chunk h false
               (if Qgtb (currentWidth st) 0
                   && Qgtb (currentWidth st + widthOfText chunk) maxWidthPt
                then commitLine false st else st))).
  { apply appendFragment_hrefs; [done|].
    destruct (_ && _); [by apply commitLine_hrefs|done]. }
  destruct rest; [done|]. by apply commitLine_hrefs.
Qed.

Lemma layoutToken_hrefs h st token :
  allowed (hrefOrNull h) -> HrefInv st ->
  HrefInv (layoutToken widthOfText maxWidthPt h st token).
Proof.
  intros Hh Hinv. unfold layoutToken.
  destruct token as [t| |]; [| |by apply commitLine_hrefs].
  - cbn [tokenText]. destruct t as [|c t]; [done|]. cbn [andb negb].
    destruct (Qgtb _ maxWidthPt); [by apply placeChunks_hrefs|].
    destruct (_ && _).
    + apply appendFragment_hrefs; [done|by apply commitLine_hrefs].
    + by apply appendFragment_hrefs.
  - cbn [tokenText andb negb]. destruct (Qle_bool _ 0); [done|].
    destruct (_ && _); [by apply commitLine_hrefs|by apply appendFragment_hrefs].
Qed.

Lemma layoutSegments_hrefs segs st :
  (forall s, s ∈ segs -> allowed (hrefOrNull (href s))) -> HrefInv st ->
  HrefInv (fold_left (layoutSegment widthOfText maxWidthPt) segs st).
Proof.
  revert st. induction segs as [|segment segs IH]; intros st Hsegs Hinv; [done|].
  cbn [fold_left]. apply IH; [intros s Hs; apply Hsegs; by right|].
  unfold layoutSegment.
  assert (Hh : allowed (hrefOrNull (href segment))) by (apply Hsegs; by left).
  generalize (tokenizeFootnoteText (text segment)). intros tokens.
  revert st Hinv. induction tokens as [|token tokens IHt]; intros st Hinv; [done|].
  cbn [fold_left]. apply IHt. by apply layoutToken_hrefs.
Qed.

Lemma layoutFootnoteSegments_hrefs segs :
  (forall s, s ∈ segs -> allowed (hrefOrNull (href s))) ->
  Forall (Forall (fun f => allowed (fragHref f)))
         (layoutFootnoteSegments widthOfText maxWidthPt segs).
Proof.
  intros Hsegs. unfold layoutFootnoteSegments.
  set (start := {| lines := []; currentLine := []; currentWidth := 0 |}).
  assert (Hstart : HrefInv start) by (split; constructor).
  pose proof (trimTrailingSpaces_hrefs _ (layoutSegments_hrefs segs start Hsegs Hstart))
    as [Hlines Hcurrent].
  set (final := trimTrailingSpaces _) in *. cbn zeta.
  assert (Hall : Forall (Forall (fun f => allowed (fragHref f)))
                   match currentLine final with
                   | [] => lines final
                   | _ :: _ => lines final ++ [currentLine final]
                   end).
  { destruct (currentLine final) eqn:Hc; [done|].
    apply Forall_app. split; [done|by apply Forall_singleton]. }
  destruct (match currentLine final with
            | [] => lines final
            | _ :: _ => lines final ++ [currentLine final]
            end); [|done].
  apply Forall_singleton. constructor.
Qed.

End FragmentHrefs.

Lemma pushNormalized_hrefs (P : option jsstring -> Prop) normalized segment :
  Forall (fun s => P (href s)) normalized -> P (href segment) ->
  Forall (fun s => P (href s)) (pushNormalized normalized segment).
Proof.
  intros Hn Hs. unfold pushNormalized.
  destruct (text segment) as [|c t]; [done|].
  assert (Hpush : Forall (fun s => P (href s)) (normalized ++ [segment])).
  { apply Forall_app. split; [done|by apply Forall_singleton]. }
  destruct (last normalized) as [l|]; [|done].
  destruct (decide _); [|done].
  apply Forall_forall. intros s Hin.
  apply list_elem_of_lookup in Hin as [i Hi].
  rewrite Forall_forall in Hn.
  destruct (decide (i = length normalized - 1)%nat) as [->|Hne].
  - rewrite list_lookup_alter_eq in Hi.
    destruct (normalized !! _) as [x|] eqn:Hx; [|done].
    injection Hi as <-. cbn. apply Hn. by eapply list_elem_of_lookup_2.
  - rewrite list_lookup_alter_ne in Hi by done.
    apply Hn. by eapply list_elem_of_lookup_2.
Qed.

Lemma alter_setText_hrefs (P : option jsstring -> Prop) (f : jsstring -> jsstring) i segs :
  Forall (fun s => P (href s)) segs ->
  Forall (fun s => P (href s)) (alter (fun s => setText s (f (text s))) i segs).
Proof.
  intros H. apply Forall_forall. intros s Hin.
  apply list_elem_of_lookup in Hin as [j Hj]. rewrite Forall_forall in H.
  destruct (decide (j = i)) as [->|Hne].
  - rewrite list_lookup_alter_eq in Hj.
    destruct (segs !! i) as [x|] eqn:Hx; [|done].
    injection Hj as <-. cbn. apply H. by eapply list_elem_of_lookup_2.
  - rewrite list_lookup_alter_ne in Hj by done.
    apply H. by eapply list_elem_of_lookup_2.
Qed.

(** The normalised list has no [href] that the segments do not have. *)
Lemma cloneFootnoteSegments_hrefs (P : option jsstring -> Prop) segs :
  Forall (fun s => P (href s)) segs ->
  Forall (fun s => P (href s)) (cloneFootnoteSegments segs).
Proof.
  intros H. unfold cloneFootnoteSegments.
  assert (Hprepared : Forall (fun s => P (href s))
            (List.filter (fun s => negb (Nat.eqb (length (text s)) 0)) segs)).
  { apply Forall_forall. intros s Hs. apply list_elem_of_In, List.filter_In in Hs as [Hs _].
    rewrite Forall_forall in H. by apply H, list_elem_of_In. }
  destruct (List.filter _ segs) as [|s0 prepared] eqn:E; [constructor|].
  rewrite <- E in *. clear E.
  assert (Hfold : forall rest normalized,
             Forall (fun s => P (href s)) rest ->
             Forall (fun s => P (href s)) normalized ->
             Forall (fun s => P (href s)) (fold_left pushNormalized rest normalized)).
  { induction rest as [|s rest IH]; intros normalized Hrest Hnorm; [done|].
    cbn [fold_left]. apply Forall_cons in Hrest as [Hs Hrest].
    apply IH; [done|]. by apply pushNormalized_hrefs. }
  apply Hfold; [|constructor].
  by apply (alter_setText_hrefs P trimEnd), (alter_setText_hrefs P trimStart).
Qed.

(** ** Direct drawing runs to its end *)

Section DirectDrawingCompletes.

Variable toFixed2 : Q -> Q.
Variable decodeURIComponent : jsstring -> option jsstring.
Variable encodeURIComponent : jsstring -> option jsstring.
Variable widthOfTextAtSize : Q -> jsstring -> Q.
Variable encodesCodePoint : jschar -> bool.
Variable options : InjectOptions.

Local Abbreviation resolve :=
  (resolveFootnoteLinkSpec decodeURIComponent encodeURIComponent).
Local Abbreviation drawFrag :=
  (drawFragment toFixed2 decodeURIComponent encodeURIComponent options).
Local Abbreviation drawLn :=
  (drawLineOfText toFixed2 decodeURIComponent encodeURIComponent options).
Local Abbreviation drawIt :=
  (drawItem toFixed2 decodeURIComponent encodeURIComponent options).
Local Abbreviation inject1 :=
  (injectPlan toFixed2 decodeURIComponent encodeURIComponent widthOfTextAtSize
     encodesCodePoint options).
Local Abbreviation encodable := (fontMeasuresItems encodesCodePoint).

Local Arguments addPdfLinkAnnotation : simpl never.
Local Arguments setPdfNamedDestination : simpl never.
Local Arguments drawOn : simpl never.
Local Arguments drawFirstOn : simpl never.
Local Arguments fontMeasuresItems : simpl never.
Local Arguments resolveFootnoteLinkSpec : simpl never.
Local Arguments layoutFootnotesForPage : simpl never.

(** Whether the call throws does not depend on the known names. *)
Lemma resolve_returns h existing existing' :
  resolve h existing <> Thrown -> exists r, resolve h existing' = Returned r.
Proof.
  unfold resolveFootnoteLinkSpec.
  destruct (trim h) as [|c raw]; [by eexists|].
  destruct (startsWith (js "#") (c :: raw)); [|destruct (_ || _); by eexists].
  destruct (drop 1 (c :: raw)) as [|d rest]; [by eexists|].
  destruct (encodeURIComponent _); [by eexists|done].
Qed.

(** The [href] of a fragment can be resolved. *)
Local Abbreviation resolvable :=
  (fun fh : option jsstring => forall h, fh = Some h -> resolve h ∅ <> Thrown).

Lemma drawFragment_returns existing y p x fragment :
  resolvable (fragHref fragment) ->
  exists p' x', drawFrag existing y (Returned (p, x)) fragment = Returned (p', x').
Proof.
  intros Hh. unfold drawFragment. cbn [bindCompletion].
  destruct (fragText fragment) as [|c t]; [by eexists _, _|].
  destruct (fragHref fragment) as [[|c0 h]|] eqn:Hhref; try (by eexists _, _).
  destruct (existsb _ _); [|by eexists _, _].
  destruct (resolve_returns (c0 :: h) ∅ existing (Hh _ eq_refl)) as [r ->].
  cbn [bindCompletion]. destruct r; by eexists _, _.
Qed.

Lemma drawFragments_return existing y line p x :
  Forall (fun f => resolvable (fragHref f)) line ->
  exists p' x', fold_left (drawFrag existing y) line (Returned (p, x)) = Returned (p', x').
Proof.
  intros Hline. revert p x. induction Hline as [|f line Hf _ IH]; intros p x.
  - by eexists _, _.
  - cbn [fold_left]. destruct (drawFragment_returns existing y p x f Hf) as (p1 & x1 & ->).
    apply IH.
Qed.

Lemma drawLineOfText_returns existing p y line :
  Forall (fun f => resolvable (fragHref f)) line ->
  exists p' y', drawLn existing (Returned (p, y)) line = Returned (p', y').
Proof.
  intros Hline. unfold drawLineOfText. cbn [bindCompletion].
  destruct (Qgtb _ y); [by eexists _, _|].
  destruct (drawFragments_return existing y line p (leftMarginPt options) Hline)
    as (p1 & x1 & ->).
  cbn [bindCompletion]. by eexists _, _.
Qed.

Lemma drawLines_return existing ls p y :
  Forall (Forall (fun f => resolvable (fragHref f))) ls ->
  exists p' y', fold_left (drawLn existing) ls (Returned (p, y)) = Returned (p', y').
Proof.
  intros Hls. revert p y. induction Hls as [|line ls Hline _ IH]; intros p y.
  - by eexists _, _.
  - cbn [fold_left]. destruct (drawLineOfText_returns existing p y line Hline) as (p1 & y1 & ->).
    apply IH.
Qed.

Lemma drawItem_returns pageIndex itemCount p dests existing y idx itemLayout :
  Forall (Forall (fun f => resolvable (fragHref f))) (layoutLines itemLayout) ->
  exists result,
    drawIt pageIndex itemCount (Returned (p, dests, existing, y, idx)) itemLayout
    = Returned result.
Proof.
  intros Hlines. unfold drawItem. cbn [bindCompletion].
  destruct (layoutLines itemLayout) as [|l ls] eqn:E; [by eexists|].
  rewrite <- E in *.
  destruct (drawLines_return
              ({[ planDestName (layoutItem itemLayout) ]} ∪ existing)
              (layoutLines itemLayout) p y Hlines) as (p1 & y1 & Hdraw).
  rewrite E in Hdraw |- *. rewrite Hdraw. cbn [bindCompletion]. by eexists.
Qed.

Lemma drawItems_return pageIndex itemCount itemLayouts start :
  Forall (fun il => Forall (Forall (fun f => resolvable (fragHref f))) (layoutLines il))
         itemLayouts ->
  exists result,
    fold_left (drawIt pageIndex itemCount) itemLayouts (Returned start) = Returned result.
Proof.
  intros Hall. revert start. induction Hall as [|il itemLayouts Hil _ IH]; intros start.
  - by eexists.
  - cbn [fold_left]. destruct start as [[[[p dests] existing] y] idx].
    destruct (drawItem_returns pageIndex itemCount p dests existing y idx il Hil)
      as [result ->].
    apply IH.
Qed.

Lemma injectPlan_returns st pagePlan :
  encodable (finalItems pagePlan) = true ->
  (forall item s h, item ∈ finalItems pagePlan -> s ∈ planSegments item ->
     href s = Some h -> resolve h ∅ <> Thrown) ->
  exists st', inject1 (Returned st) pagePlan = Returned st'.
Proof.
  intros Hfont Hhrefs. unfold injectPlan. cbn [bindCompletion].
  destruct (_ <? 0)%Z; [by eexists|].
  destruct (_ <=? _)%Z; [by eexists|].
  destruct (injPages st !! _) as [p|]; [|by eexists].
  rewrite Hfont. cbn [negb].
  match goal with
  | |- context [layoutFootnotesForPage ?w ?m ?its ?lh ?gap] =>
      pose proof (layoutFootnotesForPage_items w m its lh gap) as Hitems;
      assert (Hlayouts : Forall
                (fun il => Forall (Forall (fun f => resolvable (fragHref f)))
                                  (layoutLines il))
                (layoutFootnotesForPage w m its lh gap).1);
      [|destruct (layoutFootnotesForPage w m its lh gap) as [itemLayouts total]]
  end.
  { unfold layoutFootnotesForPage. cbn [fst].
    apply Forall_forall. intros il Hil.
    apply list_elem_of_In, in_map_iff in Hil as (item & <- & Hitem).
    apply list_elem_of_In in Hitem. cbn [layoutLines].
    apply (layoutFootnoteSegments_hrefs _ _ (fun fh => resolvable fh)).
    intros s [->|Hs]%elem_of_cons; [done|].
    assert (Hclone : Forall (fun s => forall h, href s = Some h -> resolve h ∅ <> Thrown)
                       (cloneFootnoteSegments (planSegments item))).
    { apply (cloneFootnoteSegments_hrefs
               (fun fh => forall h, fh = Some h -> resolve h ∅ <> Thrown)).
      apply Forall_forall. intros s' Hs' h Hh. by apply (Hhrefs item s' h). }
    rewrite Forall_forall in Hclone. intros h Hh.
    apply (Hclone s Hs). destruct (href s) as [[|c t]|]; done. }
  cbn [fst] in Hlayouts.
  destruct itemLayouts as [|il itemLayouts]; [by eexists|].
  match goal with
  | |- context [fold_left ?f (il :: itemLayouts) (Returned ?start)] =>
      destruct (drawItems_return (Z.to_nat (finalPage pagePlan - 1))
                  (length (il :: itemLayouts)) (il :: itemLayouts) start Hlayouts)
        as [[[[[p1 dests1] existing1] y1] idx1] Hdraw]
  end.
  rewrite Hdraw. cbn [bindCompletion]. by eexists.
Qed.

Lemma injectPlan_pages st pagePlan st' :
  inject1 (Returned st) pagePlan = Returned st' ->
  length (injPages st') = length (injPages st).
Proof.
  intros H.
  by destruct (injectPlan_extends toFixed2 decodeURIComponent encodeURIComponent
                 widthOfTextAtSize encodesCodePoint options
                 (fun _ => True) (fun _ => True) st pagePlan st') as [? _].
Qed.

Lemma injectPlan_throws st pagePlan :
  (1 <= finalPage pagePlan <= Z.of_nat (length (injPages st)))%Z ->
  encodable (finalItems pagePlan) = false ->
  inject1 (Returned st) pagePlan = Thrown.
Proof.
  intros Hpage Hfont. unfold injectPlan. cbn [bindCompletion].
  destruct (Z.ltb_spec (finalPage pagePlan - 1) 0); [lia|].
  destruct (Z.leb_spec (Z.of_nat (length (injPages st))) (finalPage pagePlan - 1)); [lia|].
  destruct (injPages st !! _) as [p|] eqn:Hp.
  - by rewrite Hfont.
  - apply lookup_ge_None in Hp. lia.
Qed.

Lemma injectPlans_thrown rest : fold_left inject1 rest Thrown = Thrown.
Proof. induction rest as [|plan rest IH]; [done|]. exact IH. Qed.

(** X22. The direct drawing throws where the font or the resolver does.
    If the font has every character that the layout measures, and
    [resolveFootnoteLinkSpec] returns for every [href] of the segments of
    the plans, [injectFootnotesIntoPdf] returns a document. If a plan for a
    page of the document has an item with a character that the font does
    not have, it throws, whatever the other plans are. *)
Theorem direct_drawing_completes (doc : PdfDoc) (plans : list FinalPlan) :
  ((forall plan, plan ∈ plans -> encodable (finalItems plan) = true) ->
   (forall plan item s h,
      plan ∈ plans -> item ∈ finalItems plan -> s ∈ planSegments item ->
      href s = Some h -> resolve h ∅ <> Thrown) ->
   exists result,
     injectFootnotesIntoPdf toFixed2 decodeURIComponent encodeURIComponent
       widthOfTextAtSize encodesCodePoint options doc plans = Returned result)
  /\ (forall plan,
        plan ∈ plans ->
        (1 <= finalPage plan <= Z.of_nat (length (docPages doc)))%Z ->
        encodable (finalItems plan) = false ->
        injectFootnotesIntoPdf toFixed2 decodeURIComponent encodeURIComponent
          widthOfTextAtSize encodesCodePoint options doc plans = Thrown).
Proof.
  split.
  - intros Hfont Hhrefs. unfold injectFootnotesIntoPdf.
    destruct plans as [|plan0 rest0] eqn:E; [by eexists|]. rewrite <- E in *. clear E.
    assert (Hfold : forall st, exists st',
               fold_left inject1 plans (Returned st) = Returned st').
    { induction plans as [|plan' rest IH]; intros st; [by eexists|].
      cbn [fold_left].
      destruct (injectPlan_returns st plan') as [st1 ->].
      - apply Hfont. by left.
      - intros item s h. apply Hhrefs. by left.
      - apply IH.
        + intros pl Hpl. apply Hfont. by right.
        + intros pl item s h Hpl. apply Hhrefs. by right. }
    match goal with
    | |- context [fold_left inject1 plans (Returned ?st)] =>
        destruct (Hfold st) as [st' ->]
    end.
    cbn [bindCompletion]. by eexists.
  - intros plan Hin Hpage Hfont. unfold injectFootnotesIntoPdf.
    destruct plans as [|plan0 rest0] eqn:E; [by apply elem_of_nil in Hin|].
    rewrite <- E in *. clear E.
    assert (Hfold : forall st, length (injPages st) = length (docPages doc) ->
               fold_left inject1 plans (Returned st) = Thrown).
    { induction plans as [|plan' rest IH]; intros st Hlen;
        [by apply elem_of_nil in Hin|].
      cbn [fold_left]. apply elem_of_cons in Hin as [<-|Hin].
      - rewrite injectPlan_throws; [apply injectPlans_thrown| |done].
        by rewrite Hlen.
      - destruct (inject1 (Returned st) plan') as [st1|] eqn:H1;
          [|apply injectPlans_thrown].
        apply IH; [done|]. apply injectPlan_pages in H1. congruence. }
    rewrite Hfold; done.
Qed.

End DirectDrawingCompletes.

Lemma direct_drawing_completes_witness :
  (exists result,
     injectFootnotesIntoPdf (fun q => q) (fun s => Some s) (fun s => Some s)
       (fun size s => (size * glyphCount s * (1 # 2))%Q) latin1
       sampleOptions sampleBase samplePlans = Returned result)
  /\ injectFootnotesIntoPdf (fun q => q) (fun s => Some s) (fun s => Some s)
       (fun size s => (size * glyphCount s * (1 # 2))%Q) latin1
       sampleOptions sampleBase (samplePlans ++ [cyrillicPlan]) = Thrown.
Proof.
  split.
  - apply direct_drawing_completes.
    + intros plan Hplan. apply list_elem_of_singleton in Hplan. subst plan.
      vm_compute. reflexivity.
    + intros plan item s h Hplan Hitem Hs Hh.
      apply list_elem_of_singleton in Hplan. subst plan.
      apply list_elem_of_singleton in Hitem. subst item.
      apply list_elem_of_singleton in Hs. subst s.
      injection Hh as <-. vm_compute. discriminate.
  - apply (proj2 (direct_drawing_completes _ _ _ _ _ _ _ _) cyrillicPlan).
    + right. left.
    + vm_compute. split; discriminate.
    + vm_compute. reflexivity.
Defined.
